(** * Pixvg: a shallow embedding of [pixvg.py] and its verified properties

    The development follows the layout of the Python module: the numpy and
    Python indexing conventions, the geometric classes ([Point2D],
    [Point2DSet], [Node2D], [VirtualNode2D], [NodeGrid2D], [NodeLoop],
    [SVG]), then the pipeline functions ([get_distinct_color_regions],
    [find_connected_neumann_regions], [split_into_clusters],
    [trace_bitmask], [extract_node_loops]).

    Python objects that are mutated through aliases (the nodes of the edge
    graph) live in an explicit heap; values that are only rebuilt
    (bitmasks, point sets, dictionaries) are passed as values. *)

From Stdlib Require Import ZArith List Lia Bool String Ascii.
From Stdlib Require Import DecimalString DecimalZ DecimalPos DecimalFacts.
From stdpp Require Import base tactics option list numbers strings gmap.

Local Open Scope Z_scope.

(** ** Exceptions and results *)

Inductive exn : Type :=
| ValueError
| IndexError
| KeyError
| AttributeError
| IsNotEnclosed.

(** A call returns a value, raises, or (for the [while] loops, which the
    model bounds by a step budget) runs out of budget. *)
Inductive result (A : Type) : Type :=
| Ok (a : A)
| Raise (e : exn)
| OutOfFuel.

Arguments Ok {A} a.
Arguments Raise {A} e.
Arguments OutOfFuel {A}.

#[global] Instance result_ret : MRet result := λ A a, Ok a.
#[global] Instance result_bind : MBind result := λ A B k m,
  match m with
  | Ok a => k a
  | Raise e => Raise e
  | OutOfFuel => OutOfFuel
  end.

(** ** Python and numpy indexing

    An index [i] into an axis of extent [n] is valid for [-n <= i < n];
    negative indices count from the end.  Anything else is an
    [IndexError]. *)

Definition py_index (n : nat) (i : Z) : option nat :=
  if (0 <=? i) && (i <? Z.of_nat n) then Some (Z.to_nat i)
  else if (- Z.of_nat n <=? i) && (i <? 0) then Some (Z.to_nat (i + Z.of_nat n))
  else None.

Record ndarray (A : Type) : Type := NdArray {
  nrows : nat;
  ncols : nat;
  rows : list (list A)
}.
Arguments NdArray {A} _ _ _.
Arguments nrows {A} _.
Arguments ncols {A} _.
Arguments rows {A} _.

Definition wf_ndarray {A} (a : ndarray A) : Prop :=
  length (rows a) = nrows a ∧ Forall (λ r, length r = ncols a) (rows a).

Definition np_zeros (h w : nat) : ndarray Z :=
  NdArray h w (replicate h (replicate w 0)).

(** [a[y, x]] *)
Definition np_get {A} (a : ndarray A) (y x : Z) : result A :=
  match py_index (nrows a) y, py_index (ncols a) x with
  | Some i, Some j =>
      match rows a !! i with
      | Some r => match r !! j with Some v => Ok v | None => Raise IndexError end
      | None => Raise IndexError
      end
  | _, _ => Raise IndexError
  end.

(** [a[y, x] = v] *)
Definition np_set {A} (a : ndarray A) (y x : Z) (v : A) : result (ndarray A) :=
  match py_index (nrows a) y, py_index (ncols a) x with
  | Some i, Some j =>
      match rows a !! i with
      | Some r =>
          if decide (j < length r)%nat
          then Ok (NdArray (nrows a) (ncols a) (<[i := <[j := v]> r]> (rows a)))
          else Raise IndexError
      | None => Raise IndexError
      end
  | _, _ => Raise IndexError
  end.

(** ** [Point2D], [Cartesian2D], [Point2DSet] *)

Record Point2D : Type := mkPoint2D { px : Z; py : Z }.

(** [Point2D.__eq__]: componentwise on the coordinates. *)
Definition Point2D_eq (p q : Point2D) : bool :=
  (px p =? px q) && (py p =? py q).

(** [Point2D.__hash__] *)
Definition Point2D_hash (p : Point2D) : Z :=
  Z.lxor (px p * 1597334677) (py p * 3812015801 * 1597334677).

(** A Python [set] of [Point2D] identifies points by [__eq__]/[__hash__],
    that is by coordinates: it is a finite set of coordinate pairs. *)
Record Point2DSet : Type := mkPoint2DSet {
  width : nat;
  height : nat;
  bitmask : ndarray Z;
  data : gset (Z * Z)
}.

Definition Point2DSet_init (w h : nat) : Point2DSet :=
  mkPoint2DSet w h (np_zeros h w) ∅.

Definition key_of (p : Point2D) : Z * Z := (px p, py p).

Definition add_point (s : Point2DSet) (p : Point2D) : result Point2DSet :=
  match np_set (bitmask s) (py p) (px p) 1 with
  | Ok bm => Ok (mkPoint2DSet (width s) (height s) bm ({[ key_of p ]} ∪ data s))
  | Raise IndexError => Raise ValueError
  | Raise e => Raise e
  | OutOfFuel => OutOfFuel
  end.

Definition remove_point (s : Point2DSet) (p : Point2D) : result Point2DSet :=
  match np_set (bitmask s) (py p) (px p) 0 with
  | Ok bm =>
      if decide (key_of p ∈ data s)
      then Ok (mkPoint2DSet (width s) (height s) bm (data s ∖ {[ key_of p ]}))
      else Raise KeyError
  | Raise IndexError => Raise ValueError
  | Raise e => Raise e
  | OutOfFuel => OutOfFuel
  end.

Definition has_point (s : Point2DSet) (p : Point2D) : bool :=
  bool_decide (key_of p ∈ data s).

(** ** The node heap: [Node2D] and [VirtualNode2D]

    Nodes are mutated through several aliases (grid cells, [next]/[prev]
    links, local variables), so they are heap objects addressed by
    reference.  [alloc] appends, references are positions. *)

Abbreviation ref := nat (only parsing).

Inductive obj : Type :=
| Node2D (x y : Z) (next prev : option ref)
| VirtualNode2D (x y : Z) (real_nodes : option ref * option ref) (state : nat).

Abbreviation heap := (list obj) (only parsing).

(** Python has no dangling references; the model gives them no outcome. *)
Definition deref (h : heap) (r : ref) : result obj :=
  match h !! r with
  | Some o => Ok o
  | None => OutOfFuel
  end.

Definition alloc (h : heap) (o : obj) : heap * ref := (h ++ [o], length h).

Definition obj_point (o : obj) : Point2D :=
  match o with
  | Node2D x y _ _ => mkPoint2D x y
  | VirtualNode2D x y _ _ => mkPoint2D x y
  end.

Definition get_point (h : heap) (r : ref) : result Point2D :=
  o ← deref h r; Ok (obj_point o).

Definition get_x (h : heap) (r : ref) : result Z := p ← get_point h r; Ok (px p).
Definition get_y (h : heap) (r : ref) : result Z := p ← get_point h r; Ok (py p).

(** [type(node) == VirtualNode2D] *)
Definition is_virtual (h : heap) (r : ref) : result bool :=
  o ← deref h r;
  Ok (match o with VirtualNode2D _ _ _ _ => true | Node2D _ _ _ _ => false end).

(** [VirtualNode2D.current]: [real_nodes[state]]. *)
Definition current (h : heap) (r : ref) : result (option ref) :=
  o ← deref h r;
  match o with
  | VirtualNode2D _ _ (a, b) st =>
      match st with
      | O => Ok a
      | S O => Ok b
      | _ => Raise IndexError
      end
  | Node2D _ _ _ _ => Raise AttributeError
  end.

(** The object whose fields an access to [node.next] or [node.prev] reads
    or writes: the node itself, or for a virtual node (through its
    properties) the current real node.  The real nodes of a virtual node
    are always built by the [Node2D] constructor; another virtual node in
    that place is outside the model. *)
Definition link_holder (h : heap) (r : ref) : result ref :=
  o ← deref h r;
  match o with
  | Node2D _ _ _ _ => Ok r
  | VirtualNode2D _ _ _ _ =>
      c ← current h r;
      match c with
      | None => Raise AttributeError
      | Some c =>
          oc ← deref h c;
          match oc with
          | Node2D _ _ _ _ => Ok c
          | VirtualNode2D _ _ _ _ => OutOfFuel
          end
      end
  end.

Definition get_next (h : heap) (r : ref) : result (option ref) :=
  c ← link_holder h r;
  o ← deref h c;
  match o with
  | Node2D _ _ n _ => Ok n
  | VirtualNode2D _ _ _ _ => OutOfFuel
  end.

Definition get_prev (h : heap) (r : ref) : result (option ref) :=
  c ← link_holder h r;
  o ← deref h c;
  match o with
  | Node2D _ _ _ p => Ok p
  | VirtualNode2D _ _ _ _ => OutOfFuel
  end.

Definition set_next (h : heap) (r : ref) (v : option ref) : result heap :=
  c ← link_holder h r;
  o ← deref h c;
  match o with
  | Node2D x y _ p => Ok (<[c := Node2D x y v p]> h)
  | VirtualNode2D _ _ _ _ => OutOfFuel
  end.

Definition set_prev (h : heap) (r : ref) (v : option ref) : result heap :=
  c ← link_holder h r;
  o ← deref h c;
  match o with
  | Node2D x y n _ => Ok (<[c := Node2D x y n v]> h)
  | VirtualNode2D _ _ _ _ => OutOfFuel
  end.

(** Attribute access on a value that may be [None]. *)
Definition not_None {A} (o : option A) : result A :=
  match o with
  | Some a => Ok a
  | None => Raise AttributeError
  end.

Definition set_real_nodes (h : heap) (r : ref) (rn : option ref * option ref)
  : result heap :=
  o ← deref h r;
  match o with
  | VirtualNode2D x y _ st => Ok (<[r := VirtualNode2D x y rn st]> h)
  | Node2D _ _ _ _ => Raise AttributeError
  end.

(** [VirtualNode2D.flip] *)
Definition flip (h : heap) (r : ref) : result heap :=
  o ← deref h r;
  match o with
  | VirtualNode2D x y rn st =>
      Ok (<[r := VirtualNode2D x y rn (match st with O => 1%nat | _ => 0%nat end)]> h)
  | Node2D _ _ _ _ => Raise AttributeError
  end.

(** [node.current if type(node) == VirtualNode2D else node] *)
Definition real_of (h : heap) (r : ref) : result (option ref) :=
  v ← is_virtual h r;
  if v : bool then current h r else Ok (Some r).

(** ** [NodeGrid2D] *)

Record NodeGrid2D : Type := mkNodeGrid2D {
  g_width : nat;
  g_height : nat;
  g_data : list (list ref)
}.

(** [[Node2D(x, y) for x in range(width)]], allocated left to right. *)
Fixpoint alloc_row (h : heap) (y : Z) (x : Z) (n : nat) : heap * list ref :=
  match n with
  | O => (h, [])
  | S n =>
      let '(h, r) := alloc h (Node2D x y None None) in
      let '(h, rs) := alloc_row h y (x + 1) n in
      (h, r :: rs)
  end.

Fixpoint alloc_rows (h : heap) (w : nat) (y : Z) (n : nat) : heap * list (list ref) :=
  match n with
  | O => (h, [])
  | S n =>
      let '(h, row) := alloc_row h y 0 w in
      let '(h, rest) := alloc_rows h w (y + 1) n in
      (h, row :: rest)
  end.

Definition NodeGrid2D_init (h : heap) (w ht : nat) : heap * NodeGrid2D :=
  let '(h, d) := alloc_rows h w 0 ht in
  (h, mkNodeGrid2D w ht d).

(** [self.data[y][x]] on Python lists. *)
Definition data_get (g : NodeGrid2D) (y x : Z) : result ref :=
  match py_index (length (g_data g)) y with
  | None => Raise IndexError
  | Some i =>
      match g_data g !! i with
      | None => Raise IndexError
      | Some row =>
          match py_index (length row) x with
          | None => Raise IndexError
          | Some j =>
              match row !! j with
              | Some r => Ok r
              | None => Raise IndexError
              end
          end
      end
  end.

(** [self.data[y][x] = r] *)
Definition data_set (g : NodeGrid2D) (y x : Z) (r : ref) : result NodeGrid2D :=
  match py_index (length (g_data g)) y with
  | None => Raise IndexError
  | Some i =>
      match g_data g !! i with
      | None => Raise IndexError
      | Some row =>
          match py_index (length row) x with
          | None => Raise IndexError
          | Some j =>
              Ok (mkNodeGrid2D (g_width g) (g_height g)
                    (<[i := <[j := r]> row]> (g_data g)))
          end
      end
  end.

Definition top_left_of (g : NodeGrid2D) (x y : Z) := data_get g y x.
Definition top_right_of (g : NodeGrid2D) (x y : Z) := data_get g y (x + 1).
Definition bottom_right_of (g : NodeGrid2D) (x y : Z) := data_get g (y + 1) (x + 1).
Definition bottom_left_of (g : NodeGrid2D) (x y : Z) := data_get g (y + 1) x.

(** [node.prev is not None and node.next is not None] *)
Definition fully_linked (h : heap) (r : ref) : result bool :=
  p ← get_prev h r;
  match p with
  | None => Ok false
  | Some _ => n ← get_next h r; Ok (bool_decide (is_Some n))
  end.

(** The first five statements of either [if] block of [connect]: build
    the virtual node over [node], move the links of [node] into its first
    real node, re-point the two neighbours at that copy and flip to the
    fresh second real node. *)
Definition make_virtual (h : heap) (node : ref) : result (heap * ref) :=
  x ← get_x h node;
  y ← get_y h node;
  let '(h, vn) := alloc h (VirtualNode2D x y (None, None) 0) in
  nx ← get_next h node;
  pv ← get_prev h node;
  let '(h, r0) := alloc h (Node2D x y nx pv) in
  let '(h, r1) := alloc h (Node2D x y None None) in
  h ← set_real_nodes h vn (Some r0, Some r1);
  (* virtual_node.prev.next = virtual_node.current *)
  cur ← current h vn;
  vp ← get_prev h vn;
  vp ← not_None vp;
  h ← set_next h vp cur;
  (* virtual_node.next.prev = virtual_node.current *)
  cur ← current h vn;
  vnx ← get_next h vn;
  vnx ← not_None vnx;
  h ← set_prev h vnx cur;
  h ← flip h vn;
  Ok (h, vn).

(** [NodeGrid2D.connect] *)
Definition connect (h : heap) (g : NodeGrid2D) (node_1 node_2 : ref)
  : result (heap * NodeGrid2D) :=
  full1 ← fully_linked h node_1;
  '(h, g, node_1) ←
    (if full1 : bool then
       '(h, vn) ← make_virtual h node_1;
       tgt ← real_of h node_2;
       h ← set_next h vn tgt;
       node_1 ← current h vn;
       node_1 ← not_None node_1;
       y ← get_y h node_1;
       x ← get_x h node_1;
       g ← data_set g y x vn;
       Ok (h, g, node_1)
     else Ok (h, g, node_1));
  full2 ← fully_linked h node_2;
  '(h, g, node_2) ←
    (if full2 : bool then
       '(h, vn) ← make_virtual h node_2;
       src ← real_of h node_1;
       h ← set_prev h vn src;
       node_2 ← current h vn;
       node_2 ← not_None node_2;
       y ← get_y h node_2;
       x ← get_x h node_2;
       g ← data_set g y x vn;
       Ok (h, g, node_2)
     else Ok (h, g, node_2));
  tgt ← real_of h node_2;
  h ← set_next h node_1 tgt;
  src ← real_of h node_1;
  h ← set_prev h node_2 src;
  Ok (h, g).

(** ** Neighbourhoods *)

Record Neighborhood : Type := mkNeighborhood {
  top : option Z;
  right : option Z;
  bottom : option Z;
  left : option Z
}.

(** [np_neumann_neighbors]; the arrays of the model are 2-dimensional, so
    the [ndim] test never fires. *)
Definition np_neumann_neighbors (matrix : ndarray Z) (x y : Z) : result Neighborhood :=
  let height := Z.of_nat (nrows matrix) - 1 in
  let width := Z.of_nat (ncols matrix) - 1 in
  if (width <? x) || (height <? y) || (x <? 0) || (y <? 0) then Raise ValueError
  else
    t ← (if y =? 0 then Ok None else v ← np_get matrix (y - 1) x; Ok (Some v));
    r ← (if x =? width then Ok None else v ← np_get matrix y (x + 1); Ok (Some v));
    b ← (if y =? height then Ok None else v ← np_get matrix (y + 1) x; Ok (Some v));
    l ← (if x =? 0 then Ok None else v ← np_get matrix y (x - 1); Ok (Some v));
    Ok (mkNeighborhood t r b l).

(** [v in (0, None)] *)
Definition in_0_None (v : option Z) : bool :=
  match v with
  | None => true
  | Some z => z =? 0
  end.

(** [v == 1] *)
Definition eq_1 (v : option Z) : bool :=
  match v with
  | None => false
  | Some z => z =? 1
  end.

(** Monadic iteration of a loop body over the items of a [for]. *)
Fixpoint for_each {A S : Type} (l : list A) (body : S → A → result S) (s : S)
  : result S :=
  match l with
  | [] => Ok s
  | a :: l => s ← body s a; for_each l body s
  end.

Definition range (n : nat) : list Z := seqZ 0 (Z.of_nat n).

(** ** [trace_bitmask]

    The loop nest of [trace_bitmask] is written once, over the call
    [node_grid.connect(node_grid.<c1>_of(x, y), node_grid.<c2>_of(x, y))];
    the program instantiates it with the grid's [connect]. *)

Inductive corner : Type := TL | TR | BR | BL.

#[global] Instance corner_eq_dec : EqDecision corner.
Proof. solve_decision. Defined.

Definition corner_of (g : NodeGrid2D) (c : corner) (x y : Z) : result ref :=
  match c with
  | TL => top_left_of g x y
  | TR => top_right_of g x y
  | BR => bottom_right_of g x y
  | BL => bottom_left_of g x y
  end.

Section TraceBitmask.
Context {St : Type}.
(** [connect_corners s c1 c2 x y]:
    [node_grid.connect(node_grid.c1_of(x, y), node_grid.c2_of(x, y))]. *)
Variable connect_corners : St → corner → corner → Z → Z → result St.

Definition trace_pixel (bm : ndarray Z) (y : Z) (s : St) (x : Z) : result St :=
  v ← np_get bm y x;
  if v =? 1 then
    neighbors ← np_neumann_neighbors bm x y;
    s ← (if in_0_None (top neighbors) then connect_corners s TL TR x y else Ok s);
    s ← (if in_0_None (right neighbors) then connect_corners s TR BR x y else Ok s);
    s ← (if in_0_None (bottom neighbors) then connect_corners s BR BL x y else Ok s);
    s ← (if in_0_None (left neighbors) then connect_corners s BL TL x y else Ok s);
    Ok s
  else Ok s.

Definition trace_rows (bm : ndarray Z) (s : St) : result St :=
  for_each (range (nrows bm))
    (λ s y, for_each (range (ncols bm)) (trace_pixel bm y) s) s.
End TraceBitmask.

Definition grid_connect (s : heap * NodeGrid2D) (c1 c2 : corner) (x y : Z)
  : result (heap * NodeGrid2D) :=
  let '(h, g) := s in
  n1 ← corner_of g c1 x y;
  n2 ← corner_of g c2 x y;
  connect h g n1 n2.

Definition trace_bitmask (bm : ndarray Z) : result (heap * NodeGrid2D) :=
  let '(h, g) := NodeGrid2D_init [] (ncols bm + 1) (nrows bm + 1) in
  trace_rows grid_connect bm (h, g).

(** ** [NodeLoop] and [extract_node_loops] *)

Record NodeLoop : Type := mkNodeLoop { origin : ref }.

(** [a == b] on nodes: [Point2D.__eq__], inherited by [Node2D] and
    [VirtualNode2D]. *)
Definition node_eq (h : heap) (a b : ref) : result bool :=
  pa ← get_point h a;
  pb ← get_point h b;
  Ok (Point2D_eq pa pb).

Definition node_hash (h : heap) (a : ref) : result Z :=
  pa ← get_point h a; Ok (Point2D_hash pa).

(** A Python [set] of node objects: an element matches a probe when it is
    the same object, or has the same hash and is [__eq__] to it. *)
Fixpoint set_contains (h : heap) (s : list ref) (a : ref) : result bool :=
  match s with
  | [] => Ok false
  | v :: s =>
      if decide (v = a) then Ok true
      else
        hv ← node_hash h v;
        ha ← node_hash h a;
        e ← (if hv =? ha then node_eq h v a else Ok false);
        if e : bool then Ok true else set_contains h s a
  end.

Definition set_add (h : heap) (s : list ref) (a : ref) : result (list ref) :=
  c ← set_contains h s a;
  Ok (if c : bool then s else s ++ [a]).

(** The [while] loop of [extract_node_loops]. *)
Fixpoint walk (fuel : nat) (h : heap) (origin node : ref) (visited : list ref)
  : result (ref * list ref) :=
  match fuel with
  | O => OutOfFuel
  | S fuel =>
      nx ← get_next h node;
      match nx with
      | None => Ok (node, visited)
      | Some nx =>
          e ← node_eq h node origin;
          if e : bool then Ok (node, visited)
          else
            visited ← set_add h visited node;
            walk fuel h origin nx visited
      end
  end.

Definition extract_node (fuel : nat) (h : heap) (s : list NodeLoop * list ref)
  (node : ref) : result (list NodeLoop * list ref) :=
  let '(node_loops, visited) := s in
  nx ← get_next h node;
  match nx with
  | None => Ok s
  | Some nx =>
      seen ← set_contains h visited node;
      if seen : bool then Ok s
      else
        let origin := node in
        '(node, visited) ← walk fuel h origin nx visited;
        e ← node_eq h node origin;
        if e : bool then Ok (node_loops ++ [mkNodeLoop node], visited)
        else Raise IsNotEnclosed
  end.

Definition extract_node_loops (fuel : nat) (h : heap) (g : NodeGrid2D)
  : result (list NodeLoop) :=
  s ← for_each (g_data g) (λ s row, for_each row (extract_node fuel h) s) ([], []);
  Ok (fst s).

(** [NodeLoop.optimize] *)
Definition optimize_step (h : heap) (node : ref) : result (heap * ref) :=
  nx ← get_next h node; nx ← not_None nx;
  pv ← get_prev h node;
  nxp ← get_point h nx;
  pv' ← not_None pv;
  pvp ← get_point h pv';
  h ← (if (px nxp =? px pvp) || (py nxp =? py pvp) then
         h ← set_next h pv' (Some nx);
         pv2 ← get_prev h node;
         nx2 ← get_next h node; nx2 ← not_None nx2;
         set_prev h nx2 pv2
       else Ok h);
  nx ← get_next h node;
  nx ← not_None nx;
  Ok (h, nx).

Fixpoint optimize_from (fuel : nat) (h : heap) (origin node : ref) : result heap :=
  match fuel with
  | O => OutOfFuel
  | S fuel =>
      '(h, node) ← optimize_step h node;
      e ← node_eq h node origin;
      if e : bool then Ok h else optimize_from fuel h origin node
  end.

Definition optimize (fuel : nat) (h : heap) (l : NodeLoop) : result heap :=
  optimize_from fuel h (origin l) (origin l).

(** ** [SVG] *)

(** [str(n)] for a Python [int]. *)
Definition py_str (n : Z) : string := NilZero.string_of_int (Z.to_int n).

Definition dquote : string := String "034"%char EmptyString.
Definition newline : string := String "010"%char EmptyString.

Record SVGPath : Type := mkSVGPath { path_data : string; path_color : string }.

Record SVG : Type := mkSVG {
  paths : list SVGPath;
  svg_width : Z;
  svg_height : Z;
  scale : Z
}.

Definition SVG_init (w h scale : Z) : SVG := mkSVG [] w h scale.

Definition _m (svg : SVG) (p : Point2D) : string :=
  "M" +:+ py_str (px p * scale svg) +:+ "," +:+ py_str (py p * scale svg).

Definition _l (svg : SVG) (p : Point2D) : string :=
  "L" +:+ py_str (px p * scale svg) +:+ "," +:+ py_str (py p * scale svg).

Definition _z : string := "Z".

(** The [while] loop of [loop_to_path_data]. *)
Fixpoint path_data_from (fuel : nat) (svg : SVG) (h : heap) (origin node : ref)
  (acc : string) : result string :=
  match fuel with
  | O => OutOfFuel
  | S fuel =>
      nx ← get_next h node;
      nx ← not_None nx;
      e ← node_eq h nx origin;
      if e : bool then Ok acc
      else
        p ← get_point h nx;
        path_data_from fuel svg h origin nx (acc +:+ _l svg p)
  end.

Definition loop_to_path_data (fuel : nat) (svg : SVG) (h : heap) (l : NodeLoop)
  : result string :=
  p ← get_point h (origin l);
  d ← path_data_from fuel svg h (origin l) (origin l) (_m svg p);
  Ok (d +:+ _z).

Definition add_path (svg : SVG) (p : SVGPath) : SVG :=
  mkSVG (paths svg ++ [p]) (svg_width svg) (svg_height svg) (scale svg).

Definition build_paths (svg : SVG) : string :=
  foldl (λ acc p,
           acc +:+ "<path d=" +:+ dquote +:+ path_data p +:+ dquote
               +:+ " fill=" +:+ dquote +:+ path_color p +:+ dquote
               +:+ " />" +:+ newline)
        "" (paths svg).

Definition build_svg (svg : SVG) : string :=
  "<svg version=" +:+ dquote +:+ "1.1" +:+ dquote
    +:+ " xmlns=" +:+ dquote +:+ "http://www.w3.org/2000/svg" +:+ dquote
    +:+ " width=" +:+ dquote +:+ py_str (svg_width svg * scale svg) +:+ dquote
    +:+ " height=" +:+ dquote +:+ py_str (svg_height svg * scale svg) +:+ dquote
    +:+ " shape-rendering=" +:+ dquote +:+ "crispEdges" +:+ dquote +:+ ">"
    +:+ newline
    +:+ build_paths svg
    +:+ "</svg>".

(** ** [Color] and [Color2DRegion] *)

Record Color : Type := mkColor { r : Z; g : Z; b : Z; a : Z }.

Definition pixel : Type := (Z * Z * Z * Z)%type.

Definition valid_component (c : Z) : bool := (0 <=? c) && (c <=? 255).

(** The [Color] constructor, applied to the four components of a pixel. *)
Definition Color_init (p : pixel) : result Color :=
  let '(r, g, b, a) := p in
  if valid_component r && valid_component g && valid_component b && valid_component a
  then Ok (mkColor r g b a)
  else Raise ValueError.

Definition hex_digit (d : Z) : ascii :=
  match d with
  | 0 => "0" | 1 => "1" | 2 => "2" | 3 => "3" | 4 => "4" | 5 => "5" | 6 => "6"
  | 7 => "7" | 8 => "8" | 9 => "9" | 10 => "a" | 11 => "b" | 12 => "c"
  | 13 => "d" | 14 => "e" | _ => "f"
  end%char.

(** [f"{c:02x}"] for a component in [0, 255], the range [Color_init]
    enforces. *)
Definition fmt_02x (c : Z) : string :=
  String (hex_digit (c / 16)) (String (hex_digit (c mod 16)) EmptyString).

Definition to_hex (c : Color) : string :=
  "#" +:+ fmt_02x (r c) +:+ fmt_02x (g c) +:+ fmt_02x (b c) +:+ fmt_02x (a c).

(** [Color.__eq__] *)
Definition Color_eq (c d : Color) : bool :=
  (r c =? r d) && (g c =? g d) && (b c =? b d) && (a c =? a d).

(** [Color2DRegion] extends [Point2DSet] with a colour. *)
Record Color2DRegion : Type := mkColor2DRegion {
  color : Color;
  points : Point2DSet
}.

Definition Color2DRegion_init (c : Color) (w h : nat) : Color2DRegion :=
  mkColor2DRegion c (Point2DSet_init w h).

Definition region_add_point (rg : Color2DRegion) (p : Point2D) : result Color2DRegion :=
  s ← add_point (points rg) p;
  Ok (mkColor2DRegion (color rg) s).

(** ** Python dictionaries: insertion-ordered association lists *)

Section Dict.
Context {K V : Type} `{EqDecision K}.

Fixpoint dict_get (d : list (K * V)) (k : K) : option V :=
  match d with
  | [] => None
  | (k', v) :: d => if decide (k' = k) then Some v else dict_get d k
  end.

(** [d[k] = v]: replaces the value of a present key in place, appends a
    new key. *)
Fixpoint dict_set (d : list (K * V)) (k : K) (v : V) : list (K * V) :=
  match d with
  | [] => [(k, v)]
  | (k', v') :: d =>
      if decide (k' = k) then (k', v) :: d else (k', v') :: dict_set d k v
  end.

Definition dict_values (d : list (K * V)) : list V := d.*2.
End Dict.

(** The grouping step shared by [get_distinct_color_regions] and
    [split_into_clusters]:
    [if key not in known: known.add(key); d[key] = fresh]
    followed by [d[key].add_point(Point2D(x, y))]. *)
Definition group_point {K} `{Countable K} (key : K) (fresh : Color2DRegion)
  (x y : Z) (s : gset K * list (K * Color2DRegion))
  : result (gset K * list (K * Color2DRegion)) :=
  let '(known, d) := s in
  let '(known, d) :=
    if decide (key ∈ known) then (known, d)
    else ({[ key ]} ∪ known, dict_set d key fresh) in
  match dict_get d key with
  | None => Raise KeyError
  | Some rg =>
      rg ← region_add_point rg (mkPoint2D x y);
      Ok (known, dict_set d key rg)
  end.

(** [enumerate(l)] *)
Definition enumerate {A} (l : list A) : list (Z * A) :=
  imap (λ i a, (Z.of_nat i, a)) l.

(** ** [get_distinct_color_regions]

    [np.array(img)] has one row per image line; [img.size] is
    [(width, height)]. *)
Definition get_distinct_color_regions (img : ndarray pixel)
  : result (list Color2DRegion) :=
  s ← for_each (enumerate (rows img))
        (λ s '(y, row),
           for_each (enumerate row)
             (λ s '(x, pixel),
                c ← Color_init pixel;
                let pix_hex := to_hex c in
                group_point pix_hex (Color2DRegion_init c (ncols img) (nrows img))
                  x y s) s)
        (∅, []);
  Ok (dict_values (snd s)).

(** ** [find_connected_neumann_regions] *)

(** Storing a Python integer into an [int8] array keeps the low eight
    bits (two's complement). *)
Definition wrap_int8 (z : Z) : Z := (z + 128) mod 256 - 128.

(** The [while stack:] loop.  The stack is a list with its top first.
    The loop assigns the variables [x] and [y] of the enclosing [for]
    loops; their last values are returned with the label matrix. *)
Fixpoint flood_fill (fuel : nat) (bitmask regions : ndarray Z) (region_id : Z)
  (stack : list (Z * Z)) (x y : Z) : result (ndarray Z * Z * Z) :=
  match stack with
  | [] => Ok (regions, x, y)
  | (x, y) :: stack =>
      match fuel with
      | O => OutOfFuel
      | S fuel =>
          lab ← np_get regions y x;
          if negb (lab =? 0) then flood_fill fuel bitmask regions region_id stack x y
          else
            regions ← np_set regions y x (wrap_int8 region_id);
            neighbors ← np_neumann_neighbors bitmask x y;
            let stack := if eq_1 (top neighbors) then (x, y - 1) :: stack else stack in
            let stack := if eq_1 (right neighbors) then (x + 1, y) :: stack else stack in
            let stack := if eq_1 (bottom neighbors) then (x, y + 1) :: stack else stack in
            let stack := if eq_1 (left neighbors) then (x - 1, y) :: stack else stack in
            flood_fill fuel bitmask regions region_id stack x y
      end
  end.

(** The body of [for x in range(cols)].  The state carries the variable
    [y], which the flood fill may have reassigned within the current row. *)
Definition label_cell (fuel : nat) (bitmask : ndarray Z) (s : ndarray Z * Z * Z)
  (x : Z) : result (ndarray Z * Z * Z) :=
  let '(regions, region_id, y) := s in
  v ← np_get bitmask y x;
  if v =? 1 then
    lab ← np_get regions y x;
    if lab =? 0 then
      '(regions, _, y) ← flood_fill fuel bitmask regions region_id [(x, y)] x y;
      Ok (regions, region_id + 1, y)
    else Ok s
  else Ok s.

Definition find_connected_neumann_regions (fuel : nat) (bitmask : ndarray Z)
  : result (ndarray Z) :=
  s ← for_each (range (nrows bitmask))
        (λ '(regions, region_id, _) y,
           for_each (range (ncols bitmask)) (label_cell fuel bitmask)
             (regions, region_id, y))
        (np_zeros (nrows bitmask) (ncols bitmask), 1, 0);
  Ok (s.1.1).

(** ** [split_into_clusters] *)

Definition split_into_clusters (fuel : nat) (region : Color2DRegion)
  : result (list Color2DRegion) :=
  cluster_matrix ← find_connected_neumann_regions fuel (bitmask (points region));
  s ← for_each (enumerate (rows cluster_matrix))
        (λ s '(y, row),
           for_each (enumerate row)
             (λ s '(x, id),
                if id =? 0 then Ok s
                else
                  group_point id
                    (Color2DRegion_init (color region) (width (points region))
                       (height (points region)))
                    x y s) s)
        (∅, []);
  Ok (dict_values (snd s)).

(** ** The per-image pipeline of [main] *)

Definition process_cluster (fuel : nat) (svg : SVG) (cluster : Color2DRegion)
  : result SVG :=
  '(h, grid) ← trace_bitmask (bitmask (points cluster));
  node_loops ← extract_node_loops fuel h grid;
  h ← for_each node_loops (λ h l, optimize fuel h l) h;
  ds ← for_each node_loops
         (λ ds l, d ← loop_to_path_data fuel svg h l; Ok (ds ++ [d])) [];
  Ok (add_path svg (mkSVGPath (foldr String.append "" ds) (to_hex (color cluster)))).

Definition trace_image (fuel : nat) (img : ndarray pixel) (scale : Z)
  : result SVG :=
  let svg := SVG_init (Z.of_nat (ncols img)) (Z.of_nat (nrows img)) scale in
  regions ← get_distinct_color_regions img;
  let color_regions := filter (λ rg, a (color rg) = 255) regions in
  cluster_groups ← for_each color_regions
                     (λ acc region, cs ← split_into_clusters fuel region; Ok (acc ++ cs)) [];
  for_each cluster_groups (λ svg cluster, process_cluster fuel svg cluster) svg.

(** The text written to the output file. *)
Definition convert_image (fuel : nat) (img : ndarray pixel) (scale : Z)
  : result string :=
  svg ← trace_image fuel img scale;
  Ok (build_svg svg).

Definition valid_color (c : Color) : Prop :=
  0 <= r c <= 255 ∧ 0 <= g c <= 255 ∧ 0 <= b c <= 255 ∧ 0 <= a c <= 255.

Definition valid_pixel (p : pixel) : Prop :=
  let '(r, g, b, a) := p in
  0 <= r <= 255 ∧ 0 <= g <= 255 ∧ 0 <= b <= 255 ∧ 0 <= a <= 255.

Definition pixel_color (p : pixel) : Color :=
  let '(r, g, b, a) := p in mkColor r g b a.

(** ** Inputs of the concrete scenarios *)

(** The 3x3 ring: eight border pixels [c], centre pixel [t]. *)
Definition ring_3x3 (c t : pixel) : ndarray pixel :=
  NdArray 3 3 [[c; c; c]; [c; t; c]; [c; c; c]].

(** ** Reading the numbers back out of path data

    [path_numbers s] lists the decimal numerals of [s] (maximal runs of
    digits, with the sign that precedes them) from left to right. *)

Definition digit_of (c : ascii) : option Z :=
  let code := Z.of_N (N_of_ascii c) in
  if (48 <=? code) && (code <=? 57) then Some (code - 48) else None.

Definition signed (neg : bool) (v : Z) : Z := if neg then - v else v.

Definition flush (neg : bool) (cur : option Z) : list Z :=
  match cur with
  | Some v => [signed neg v]
  | None => []
  end.

Definition is_minus (c : ascii) : bool :=
  match c with "-"%char => true | _ => false end.

Fixpoint numbers_from (s : string) (neg : bool) (cur : option Z) : list Z :=
  match s with
  | EmptyString => flush neg cur
  | String c s =>
      match digit_of c with
      | Some d =>
          numbers_from s neg
            (Some (match cur with Some v => 10 * v + d | None => d end))
      | None => flush neg cur ++ numbers_from s (is_minus c) None
      end
  end.

Definition path_numbers (s : string) : list Z := numbers_from s false None.

(** The value of a digit sequence read after a prefix of value [acc]. *)
Fixpoint uint_acc (d : Decimal.uint) (acc : Z) : Z :=
  match d with
  | Decimal.Nil => acc
  | Decimal.D0 d => uint_acc d (10 * acc + 0)
  | Decimal.D1 d => uint_acc d (10 * acc + 1)
  | Decimal.D2 d => uint_acc d (10 * acc + 2)
  | Decimal.D3 d => uint_acc d (10 * acc + 3)
  | Decimal.D4 d => uint_acc d (10 * acc + 4)
  | Decimal.D5 d => uint_acc d (10 * acc + 5)
  | Decimal.D6 d => uint_acc d (10 * acc + 6)
  | Decimal.D7 d => uint_acc d (10 * acc + 7)
  | Decimal.D8 d => uint_acc d (10 * acc + 8)
  | Decimal.D9 d => uint_acc d (10 * acc + 9)
  end.

(** The points of the nodes that the loop of [loop_to_path_data] appends,
    and the text it appends for them. *)
Fixpoint path_points_from (fuel : nat) (h : heap) (origin node : ref)
  : result (list Point2D) :=
  match fuel with
  | O => OutOfFuel
  | S fuel =>
      nx ← get_next h node;
      nx ← not_None nx;
      e ← node_eq h nx origin;
      if e : bool then Ok []
      else
        p ← get_point h nx;
        ps ← path_points_from fuel h origin nx;
        Ok (p :: ps)
  end.

Definition render_lines (svg : SVG) (ps : list Point2D) : string :=
  foldr (λ p s, _l svg p +:+ s) "" ps.

Definition scaled_coordinates (sc : Z) (ps : list Point2D) : list Z :=
  flat_map (λ p, [px p * sc; py p * sc]) ps.

(** The edge graph of a single pixel: the heap that [trace_bitmask]
    builds for the 1x1 bitmask [[1]]. *)
Definition unit_square_heap : heap :=
  [ Node2D 0 0 (Some 1%nat) (Some 2%nat);
    Node2D 1 0 (Some 3%nat) (Some 0%nat);
    Node2D 0 1 (Some 0%nat) (Some 3%nat);
    Node2D 1 1 (Some 2%nat) (Some 1%nat) ].

(** ** Notions used to state the properties *)

(** [a[i][j]] for indices known to be natural numbers. *)
Definition cell {A} (a : ndarray A) (i j : nat) : option A :=
  rows a !! i ≫= (.!! j).

(** The elements of a list in the order of their first appearance. *)
Definition first_occurrences {A} `{EqDecision A} (l : list A) : list A :=
  foldl (λ acc x, if decide (x ∈ acc) then acc else acc ++ [x]) [] l.

(** The cells of a 2D array in row-major order, with their coordinates
    [(x, y, value)]. *)
Definition cells_row_major {A} (a : ndarray A) : list (Z * Z * A) :=
  '(y, row) ← enumerate (rows a);
  (λ '(x, v), (x, y, v)) <$> enumerate row.

(** The regions the loaded image is well-formed for: the bitmask has the
    shape of the region. *)
Definition wf_region (rg : Color2DRegion) : Prop :=
  wf_ndarray (bitmask (points rg)) ∧
  nrows (bitmask (points rg)) = height (points rg) ∧
  ncols (bitmask (points rg)) = width (points rg).

(** One step of the grouping loops: the key, the region created for a new
    key, and the coordinates to add. *)
Definition group_event {K} `{Countable K}
  (s : gset K * list (K * Color2DRegion)) (e : K * Color2DRegion * Z * Z)
  : result (gset K * list (K * Color2DRegion)) :=
  let '(key, fresh, x, y) := e in group_point key fresh x y s.

Definition event_key {K} (e : K * Color2DRegion * Z * Z) : K := e.1.1.1.
Definition event_fresh {K} (e : K * Color2DRegion * Z * Z) : Color2DRegion := e.1.1.2.
Definition event_at {K} (e : K * Color2DRegion * Z * Z) : K * Z * Z :=
  (e.1.1.1, e.1.2, e.2).

(** An event of a grouping loop over a [W]x[H] image: the fresh region is
    an empty region of that size and the coordinates are indices. *)
Definition wf_event {K} (W H : nat) (e : K * Color2DRegion * Z * Z) : Prop :=
  (∃ c, event_fresh e = Color2DRegion_init c W H) ∧ 0 <= e.1.2 ∧ 0 <= e.2.

(** What a grouping loop has built after the events [evs]: one entry per
    key, in the order of the first appearance of the keys; the region of
    key [k] has the colour given with [k] and holds exactly the
    coordinates added under [k]. *)
Definition grouped {K} `{Countable K} (W H : nat)
    (evs : list (K * Color2DRegion * Z * Z))
    (s : gset K * list (K * Color2DRegion)) : Prop :=
  s.2.*1 = first_occurrences (event_key <$> evs) ∧
  (∀ k, k ∈ s.1 ↔ k ∈ s.2.*1) ∧
  (∀ k rg, dict_get s.2 k = Some rg →
     (∃ e, e ∈ evs ∧ event_key e = k ∧ color rg = color (event_fresh e)) ∧
     wf_region rg ∧ height (points rg) = H ∧ width (points rg) = W ∧
     (∀ i j, (i < H)%nat → (j < W)%nat →
        cell (bitmask (points rg)) i j
        = Some (if bool_decide ((k, Z.of_nat j, Z.of_nat i) ∈ event_at <$> evs)
                then 1 else 0)) ∧
     (∀ x y, (x, y) ∈ data (points rg) ↔ (k, x, y) ∈ event_at <$> evs)).

#[global] Instance Color_eq_dec : EqDecision Color.
Proof. solve_decision. Defined.

(** The events of [get_distinct_color_regions]: one per pixel, in
    row-major order, keyed by the hex string of the pixel's colour. *)
Definition color_event (W H : nat) (c : Z * Z * pixel)
  : string * Color2DRegion * Z * Z :=
  let '(x, y, p) := c in
  (to_hex (pixel_color p), Color2DRegion_init (pixel_color p) W H, x, y).

Definition color_events (img : ndarray pixel)
  : list (string * Color2DRegion * Z * Z) :=
  color_event (ncols img) (nrows img) <$> cells_row_major img.

(** An RGBA pixel buffer: a rectangular array of pixels with four 8-bit
    channels. *)
Definition valid_image (img : ndarray pixel) : Prop :=
  wf_ndarray img ∧ Forall (Forall valid_pixel) (rows img).

(** ** The calls of [connect] made by [trace_bitmask]

    Instantiating the loop nest with a handler that only records its
    arguments gives the sequence of [connect] calls; [replay] performs a
    recorded sequence on a grid. *)
Definition connect_call : Type := (corner * corner * Z * Z)%type.

Definition record_call (s : list connect_call) (c1 c2 : corner) (x y : Z)
  : result (list connect_call) :=
  Ok (s ++ [(c1, c2, x, y)]).

Definition connect_calls (bm : ndarray Z) : result (list connect_call) :=
  trace_rows record_call bm [].

Definition replay (calls : list connect_call) (s : heap * NodeGrid2D)
  : result (heap * NodeGrid2D) :=
  for_each calls (λ s '(c1, c2, x, y), grid_connect s c1 c2 x y) s.

(** The value of the pixel at [(x, y)], absent outside the bitmask. *)
Definition pixel_at (bm : ndarray Z) (x y : Z) : option Z :=
  if decide (0 <= x < Z.of_nat (ncols bm) ∧ 0 <= y < Z.of_nat (nrows bm))
  then cell bm (Z.to_nat y) (Z.to_nat x) else None.

(** "The neighbour is 0 or out of bounds." *)
Definition empty_at (bm : ndarray Z) (x y : Z) : Prop :=
  pixel_at bm x y = None ∨ pixel_at bm x y = Some 0.

(** The per-pixel rule, as the specification words it: a pixel of value 1
    connects along each side whose neighbour is 0 or out of bounds, in
    the order top, right, bottom, left; other pixels connect nothing. *)
Definition pixel_calls (bm : ndarray Z) (x y : Z) : list connect_call :=
  if decide (pixel_at bm x y = Some 1) then
    (if in_0_None (pixel_at bm x (y - 1)) then [(TL, TR, x, y)] else []) ++
    (if in_0_None (pixel_at bm (x + 1) y) then [(TR, BR, x, y)] else []) ++
    (if in_0_None (pixel_at bm x (y + 1)) then [(BR, BL, x, y)] else []) ++
    (if in_0_None (pixel_at bm (x - 1) y) then [(BL, TL, x, y)] else [])
  else [].

Definition all_calls (bm : ndarray Z) : list connect_call :=
  y ← range (nrows bm); x ← range (ncols bm); pixel_calls bm x y.

(** ** Notions for the node heap *)

(** What the link assignments and [flip] never change in an object: its
    class, its coordinates and, for a virtual node, its real nodes. *)
Definition skeleton (o : obj) : Z * Z * option (option ref * option ref) :=
  match o with
  | Node2D x y _ _ => (x, y, None)
  | VirtualNode2D x y rn _ => (x, y, Some rn)
  end.

(** Every virtual node of the heap has two distinct real nodes, both
    [Node2D] objects at the coordinates of the virtual node. *)
Definition split_vertices_ok (sk : list (Z * Z * option (option ref * option ref)))
  : Prop :=
  ∀ r x y rn, sk !! r = Some (x, y, Some rn) →
    ∃ s0 s1, rn = (Some s0, Some s1) ∧ s0 ≠ s1 ∧
             sk !! s0 = Some (x, y, None) ∧ sk !! s1 = Some (x, y, None).

(** [next_n h n r]: the node reached from [r] by following [next] [n]
    times. *)
Fixpoint next_n (h : heap) (n : nat) (r : ref) : result ref :=
  match n with
  | O => Ok r
  | S n => nx ← get_next h r; nx ← not_None nx; next_n h n nx
  end.

(** A 4-connected cluster whose boundary touches itself at the corner
    (2, 2): the pixels (2, 1) and (1, 2) meet there diagonally. *)
Definition touching_cluster : ndarray Z :=
  NdArray 3 3 [[1; 1; 1]; [1; 0; 1]; [1; 1; 0]].

(** The heap and the grid that [trace_bitmask] builds for
    [touching_cluster]. *)
Definition touching_heap : heap :=
  Eval vm_compute in
    match trace_bitmask touching_cluster with
    | Ok (h, _) => h
    | _ => []
    end.

Definition touching_grid : NodeGrid2D :=
  Eval vm_compute in
    match trace_bitmask touching_cluster with
    | Ok (_, g) => g
    | _ => mkNodeGrid2D 0 0 []
    end.

(** ** Well-formed edge graphs

    [live] lists the objects in use (the heap also keeps the nodes that
    [connect] has replaced by copies).  The links are consistent on
    [live] when every [next] link of a live [Node2D] leads to a live
    [Node2D] whose [prev] leads back, and every live virtual node has two
    live [Node2D] real nodes at its own coordinates and a state in
    {0, 1}. *)
Definition is_node_at (h : heap) (r : ref) (x y : Z) : bool :=
  match h !! r with
  | Some (Node2D x' y' _ _) => (x' =? x) && (y' =? y)
  | _ => false
  end.

Definition object_ok (h : heap) (live : list ref) (r : ref) (o : obj) : bool :=
  match o with
  | Node2D _ _ n _ =>
      match n with
      | None => true
      | Some c =>
          bool_decide (c ∈ live) &&
          match h !! c with
          | Some (Node2D _ _ _ (Some r')) => bool_decide (r' = r)
          | _ => false
          end
      end
  | VirtualNode2D x y (Some s0, Some s1) st =>
      bool_decide (st < 2)%nat
      && bool_decide (s0 ∈ live) && bool_decide (s1 ∈ live)
      && is_node_at h s0 x y && is_node_at h s1 x y
  | VirtualNode2D _ _ _ _ => false
  end.

Definition links_consistent (h : heap) (live : list ref) : bool :=
  forallb (λ r, match h !! r with
                | Some o => object_ok h live r o
                | None => false
                end) live.

(** Every cell of the grid refers to a live object. *)
Definition grid_in (live : list ref) (g : NodeGrid2D) : bool :=
  forallb (forallb (λ r, bool_decide (r ∈ live))) (g_data g).

(** ** The walks of the loop extractor, as relations

    The [while] loop of [extract_node_loops] continues at a node that has
    a [next] and is not equal to the origin, and stops at any other. *)
Definition continues (h : heap) (origin node : ref) : Prop :=
  (∃ nx, get_next h node = Ok (Some nx)) ∧ node_eq h node origin = Ok false.

Definition stops (h : heap) (origin node : ref) : Prop :=
  get_next h node = Ok None ∨
  ((∃ nx, get_next h node = Ok (Some nx)) ∧ node_eq h node origin = Ok true).

(** The walk from [start] for [origin] ends at [node]. *)
Definition walk_ends (h : heap) (origin start node : ref) : Prop :=
  ∃ n, next_n h n start = Ok node ∧
       (∀ m, (m < n)%nat → ∃ nm, next_n h m start = Ok nm ∧ continues h origin nm) ∧
       stops h origin node.

(** The walk reaches a node without [next] before a node equal to the
    origin. *)
Definition dead_end (h : heap) (origin start : ref) : Prop :=
  ∃ node, walk_ends h origin start node ∧ node_eq h node origin = Ok false.

(** The walk returns to (a node equal to) the origin, at [node]. *)
Definition closes (h : heap) (origin start node : ref) : Prop :=
  walk_ends h origin start node ∧ node_eq h node origin = Ok true.

(** The scan of the grid cells, in row-major order. *)
Definition scan (fuel : nat) (h : heap) (cells : list ref)
  : result (list NodeLoop * list ref) :=
  for_each cells (extract_node fuel h) ([], []).

(** The extractor, having scanned the cells before [origin] without
    error, starts a walk for [origin] at [start]. *)
Definition starts_walk (fuel : nat) (h : heap) (g : NodeGrid2D)
    (origin start : ref) : Prop :=
  ∃ pre post s, mjoin (g_data g) = pre ++ origin :: post ∧
    scan fuel h pre = Ok s ∧
    get_next h origin = Ok (Some start) ∧
    set_contains h s.2 origin = Ok false.

(** The extractor, having scanned the first [k] cells without error,
    starts a walk for the cell [origin] at position [k], at [start]. *)
Definition walk_at (fuel : nat) (h : heap) (cells : list ref) (k : nat)
    (origin start : ref) : Prop :=
  cells !! k = Some origin ∧
  ∃ s, scan fuel h (take k cells) = Ok s ∧
       get_next h origin = Ok (Some start) ∧
       set_contains h s.2 origin = Ok false.

Definition starts_walk_at (fuel : nat) (h : heap) (g : NodeGrid2D) (k : nat)
    (origin start : ref) : Prop :=
  walk_at fuel h (mjoin (g_data g)) k origin start.

(** The positions [ks] are listed in increasing order. *)
Definition increasing (ks : list nat) : Prop :=
  ∀ i j a b, (i < j)%nat → ks !! i = Some a → ks !! j = Some b → (a < b)%nat.

(** A grid built with the class's own interface on which a walk never
    ends: [connect(a, b)], [connect(c, b)], [connect(b, a)] on a 3x1 grid
    with cells [c; a; b]. *)
Definition shared_successor_graph : result (heap * NodeGrid2D) :=
  let '(h, g) := NodeGrid2D_init [] 3 1 in
  '(h, g) ← connect h g 1 2;
  '(h, g) ← connect h g 0 2;
  connect h g 2 1.

Definition shared_successor_heap : heap :=
  Eval vm_compute in
    match shared_successor_graph with Ok (h, _) => h | _ => [] end.

Definition shared_successor_grid : NodeGrid2D :=
  Eval vm_compute in
    match shared_successor_graph with
    | Ok (_, g) => g
    | _ => mkNodeGrid2D 0 0 []
    end.

(** ** The order of the emitted paths *)

(** The colours of the pixels in row-major order. *)
Definition image_colors (img : ndarray pixel) : list Color :=
  (λ c, pixel_color c.2) <$> cells_row_major img.

(** The labelled cells of a label matrix, in row-major order, and the
    labels in the order of their first appearance. *)
Definition labelled_cells (m : ndarray Z) : list (Z * Z * Z) :=
  filter (λ c, c.2 ≠ 0) (cells_row_major m).

Definition cluster_ids (m : ndarray Z) : list Z :=
  first_occurrences ((λ c, c.2) <$> labelled_cells m).

Definition cluster_event (rg : Color2DRegion) (c : Z * Z * Z)
  : Z * Color2DRegion * Z * Z :=
  let '(x, y, id) := c in
  (id, Color2DRegion_init (color rg) (width (points rg)) (height (points rg)),
   x, y).

Definition cluster_events (rg : Color2DRegion) (m : ndarray Z)
  : list (Z * Color2DRegion * Z * Z) :=
  cluster_event rg <$> labelled_cells m.

(** [cl] is the cluster of the cells of [m] labelled [id]. *)
Definition cluster_of (m : ndarray Z) (rg : Color2DRegion) (id : Z)
    (cl : Color2DRegion) : Prop :=
  id ≠ 0 ∧ color cl = color rg ∧
  ∀ x y, (x, y) ∈ data (points cl) ↔ (x, y, id) ∈ cells_row_major m.

(** The position, in the row-major scan of [m], of the first pixel of
    [cl]. *)
Definition first_pixel (m : ndarray Z) (cl : Color2DRegion) : option nat :=
  fst <$> list_find (λ c, (c.1.1, c.1.2) ∈ data (points cl)) (cells_row_major m).

(** The clusters [cs] of the region [rg] labelled by [m]: one per label,
    listed by increasing position of their first pixel. *)
Definition clusters_in_scan_order (m : ndarray Z) (rg : Color2DRegion)
    (cs : list Color2DRegion) : Prop :=
  Forall2 (cluster_of m rg) (cluster_ids m) cs ∧
  ∀ (i j : nat) cl1 cl2, (i < j)%nat → cs !! i = Some cl1 → cs !! j = Some cl2 →
    ∃ p1 p2, first_pixel m cl1 = Some p1 ∧ first_pixel m cl2 = Some p2 ∧
             (p1 < p2)%nat.

(** [p] is the path element emitted for the cluster [cl]. *)
Definition path_of_cluster (fuel : nat) (scale0 : Z) (p : SVGPath)
    (cl : Color2DRegion) : Prop :=
  path_color p = to_hex (color cl) ∧
  ∃ svg0, scale svg0 = scale0 ∧
          process_cluster fuel svg0 cl = Ok (add_path svg0 p).

(** ** Loops of nodes, as [NodeLoop.optimize] sees them

    The links of a node always lead to [Node2D] objects ([connect] stores
    [node.current] for a split vertex), and so does the origin of an
    extracted loop, which was reached through [next]. *)

Definition is_node (h : heap) (r : ref) : bool :=
  match h !! r with Some (Node2D _ _ _ _) => true | _ => false end.

Definition fnext (h : heap) (r : ref) : option ref :=
  match h !! r with Some (Node2D _ _ n _) => n | _ => None end.

Definition fprev (h : heap) (r : ref) : option ref :=
  match h !! r with Some (Node2D _ _ _ p) => p | _ => None end.

Definition pt (h : heap) (r : ref) : Point2D :=
  match h !! r with Some o => obj_point o | None => mkPoint2D 0 0 end.

Definition upd_next (h : heap) (r : ref) (v : option ref) : heap :=
  match h !! r with
  | Some (Node2D x y _ p) => <[r := Node2D x y v p]> h
  | _ => h
  end.

Definition upd_prev (h : heap) (r : ref) (v : option ref) : heap :=
  match h !! r with
  | Some (Node2D x y n _) => <[r := Node2D x y n v]> h
  | _ => h
  end.

(** [p.next = x; x.prev = p] *)
Definition splice (h : heap) (p x : ref) : heap :=
  upd_prev (upd_next h p (Some x)) x (Some p).

(** [a], then the nodes of [l], are linked one to the next in both
    directions. *)
Fixpoint chain (h : heap) (a : ref) (l : list ref) : bool :=
  match l with
  | [] => true
  | b :: l' =>
      bool_decide (fnext h a = Some b) && bool_decide (fprev h b = Some a)
      && chain h b l'
  end.

(** A well-formed loop: [o :: l] lists distinct [Node2D] objects linked in
    a cycle, in the order of [next]; no node of [l] is at the coordinates
    of the origin [o]. *)
Definition is_loop (h : heap) (o : ref) (l : list ref) : bool :=
  bool_decide (NoDup (o :: l)) && forallb (is_node h) (o :: l)
  && chain h o (l ++ [o])
  && forallb (λ r, negb (Point2D_eq (pt h r) (pt h o))) l.

(** The test of [optimize]: the two points share a coordinate. *)
Definition aligned (a b : Point2D) : bool :=
  (px a =? px b) || (py a =? py b).

(** What one pass of [optimize] keeps of the nodes [c :: R] that follow the
    nodes [o :: ks] already kept: a node is spliced out when the node
    kept last and its successor share a coordinate. *)
Fixpoint pass (P : ref → Point2D) (o : ref) (ks : list ref) (c : ref)
    (R : list ref) : list ref :=
  match R with
  | [] => if aligned (P o) (P (List.last ks o)) then ks else ks ++ [c]
  | x :: R' =>
      if aligned (P x) (P (List.last ks o)) then pass P o ks x R'
      else pass P o (ks ++ [c]) x R'
  end.

(** Axis-aligned edges *)
Inductive direction : Type := DirE | DirS | DirW | DirN.

#[global] Instance direction_eq_dec : EqDecision direction.
Proof. solve_decision. Defined.

Definition dir_of (a b : Point2D) : option direction :=
  if py a =? py b then
    if px a <? px b then Some DirE
    else if px b <? px a then Some DirW else None
  else if px a =? px b then
    if py a <? py b then Some DirS else Some DirN
  else None.

Definition perp (d d' : direction) : bool :=
  match d, d' with
  | (DirE | DirW), (DirS | DirN) | (DirS | DirN), (DirE | DirW) => true
  | _, _ => false
  end.

Definition same_dir (d d' : direction) : bool :=
  match d, d' with
  | DirE, DirE | DirS, DirS | DirW, DirW | DirN, DirN => true
  | _, _ => false
  end.

(** Two consecutive edges: a quarter turn, or (unless [strict]) straight
    on; never a reversal. *)
Definition compat (strict : bool) (d d' : direction) : bool :=
  perp d d' || (negb strict && same_dir d d').

(** The direction in which the path [a :: l], entered in direction [d],
    arrives at its end; [None] if an edge is not axis-aligned, has length
    zero, or reverses. *)
Fixpoint path_dir (strict : bool) (d : direction) (a : Point2D)
    (l : list Point2D) : option direction :=
  match l with
  | [] => Some d
  | b :: l' =>
      match dir_of a b with
      | Some d' => if compat strict d d' then path_dir strict d' b l' else None
      | None => None
      end
  end.

(** The loop [o :: l] has axis-aligned edges of non-zero length and never
    reverses; its origin is a corner.  With [strict] every node is a
    corner. *)
Definition rectilinear (strict : bool) (P : ref → Point2D) (o : ref)
    (l : list ref) : bool :=
  match dir_of (P (List.last l o)) (P o), dir_of (P o) (P (List.hd o l)) with
  | Some dl, Some df =>
      perp dl df
      && bool_decide (path_dir strict dl (P o) ((P <$> l) ++ [P o]) = Some dl)
  | _, _ => false
  end.

(** The boundary of a 2x1 rectangle, clockwise from [(0,0)]; object [i]
    is linked to object [i+1]. *)
Definition rectangle_heap : heap :=
  [ Node2D 0 0 (Some 1%nat) (Some 5%nat);
    Node2D 1 0 (Some 2%nat) (Some 0%nat);
    Node2D 2 0 (Some 3%nat) (Some 1%nat);
    Node2D 2 1 (Some 4%nat) (Some 2%nat);
    Node2D 1 1 (Some 5%nat) (Some 3%nat);
    Node2D 0 1 (Some 0%nat) (Some 4%nat) ].

(** A loop of axis-aligned edges with a spur: from [(0,1)] out to [(1,1)]
    and back. *)
Definition spur_heap : heap :=
  [ Node2D 0 0 (Some 1%nat) (Some 6%nat);
    Node2D 0 1 (Some 2%nat) (Some 0%nat);
    Node2D 1 1 (Some 3%nat) (Some 1%nat);
    Node2D 0 1 (Some 4%nat) (Some 2%nat);
    Node2D 0 2 (Some 5%nat) (Some 3%nat);
    Node2D 5 2 (Some 6%nat) (Some 4%nat);
    Node2D 5 0 (Some 0%nat) (Some 5%nat) ].

(** * Further functions of [pixvg.py] *)

(** ** [np_moore_neighbors]

    The dataclass [Neighborhood] has eight fields.  [np_neumann_neighbors]
    sets the four sides and leaves the diagonals [None]; this record adds
    the four diagonal fields that [np_moore_neighbors] sets. *)
Record MooreNeighborhood : Type := mkMooreNeighborhood {
  sides : Neighborhood;
  top_left : option Z;
  top_right : option Z;
  bottom_right : option Z;
  bottom_left : option Z
}.

Definition np_moore_neighbors (matrix : ndarray Z) (x y : Z)
  : result MooreNeighborhood :=
  let height := Z.of_nat (nrows matrix) - 1 in
  let width := Z.of_nat (ncols matrix) - 1 in
  if (width <? x) || (height <? y) || (x <? 0) || (y <? 0) then Raise ValueError
  else
    neighborhood ← np_neumann_neighbors matrix x y;
    (* neighborhood.top_right = matrix[y-1][x-1] *)
    tr ← (if negb (x =? 0) && negb (y =? 0)
          then v ← np_get matrix (y - 1) (x - 1); Ok (Some v) else Ok None);
    (* neighborhood.top_left = matrix[y-1][x+1] *)
    tl ← (if negb (x =? width) && negb (y =? 0)
          then v ← np_get matrix (y - 1) (x + 1); Ok (Some v) else Ok None);
    br ← (if negb (x =? width) && negb (y =? height)
          then v ← np_get matrix (y + 1) (x + 1); Ok (Some v) else Ok None);
    bl ← (if negb (x =? 0) && negb (y =? height)
          then v ← np_get matrix (y + 1) (x - 1); Ok (Some v) else Ok None);
    Ok (mkMooreNeighborhood neighborhood tl tr br bl).

(** ** Point sets whose bitmask and set agree

    The bitmask has the shape of the set, the points lie within it, and a
    cell is 1 exactly at the points. *)
Definition set_ok (s : Point2DSet) : Prop :=
  wf_ndarray (bitmask s) ∧
  nrows (bitmask s) = height s ∧ ncols (bitmask s) = width s ∧
  (∀ x y, (x, y) ∈ data s →
     0 <= x < Z.of_nat (width s) ∧ 0 <= y < Z.of_nat (height s)) ∧
  (∀ i j, (i < height s)%nat → (j < width s)%nat →
     cell (bitmask s) i j
     = Some (if bool_decide ((Z.of_nat j, Z.of_nat i) ∈ data s) then 1 else 0)).

(** ** [NodeLoop.is_enclosed] and the [NodeLoop] constructor *)

(** The [while] loop of [is_enclosed]; it returns the node it stops at. *)
Fixpoint enclosed_walk (fuel : nat) (h : heap) (origin node : ref) : result ref :=
  match fuel with
  | O => OutOfFuel
  | S fuel =>
      nx ← get_next h node;
      match nx with
      | None => Ok node
      | Some nx =>
          e ← node_eq h node origin;
          if e : bool then Ok node else enclosed_walk fuel h origin nx
      end
  end.

Definition is_enclosed (fuel : nat) (h : heap) (l : NodeLoop) : result bool :=
  nx ← get_next h (origin l);
  match nx with
  | None => Ok false
  | Some nx =>
      node ← enclosed_walk fuel h (origin l) nx;
      node_eq h node (origin l)
  end.

Definition NodeLoop_init (fuel : nat) (h : heap) (origin : ref) (trust : bool)
  : result NodeLoop :=
  let self := mkNodeLoop origin in
  if trust then Ok self
  else
    e ← is_enclosed fuel h self;
    if e : bool then Ok self else Raise IsNotEnclosed.



(** ** What the labeler guarantees *)

(** Two cells that share a side. *)
Definition neumann_adjacent (x y x' y' : Z) : Prop :=
  (x' = x ∧ (y' = y - 1 ∨ y' = y + 1)) ∨ (y' = y ∧ (x' = x - 1 ∨ x' = x + 1)).

(** The label matrix [m] has the shape of the bitmask [bm]. *)
Definition same_shape (bm m : ndarray Z) : Prop :=
  wf_ndarray m ∧ nrows m = nrows bm ∧ ncols m = ncols bm.

(** Only cells that are 1 in the bitmask carry a label. *)
Definition labels_on_ones (bm m : ndarray Z) : Prop :=
  ∀ x y L, pixel_at m x y = Some L → L ≠ 0 → pixel_at bm x y = Some 1.

(** A labelled cell passes its label to every cell of the bitmask that is
    1 and shares a side with it. *)
Definition labels_closed (bm m : ndarray Z) : Prop :=
  ∀ x y x' y' L,
    pixel_at m x y = Some L → L ≠ 0 → neumann_adjacent x y x' y' →
    pixel_at bm x' y' = Some 1 → pixel_at m x' y' = Some L.

(** The state of the flood fill: as [labels_closed], but a neighbour of a
    cell filled in this round may still wait on the stack, unlabelled. *)
Definition fill_inv (bm m : ndarray Z) (region_id : Z) (stack : list (Z * Z))
  : Prop :=
  same_shape bm m ∧ labels_on_ones bm m ∧
  (∀ x y, (x, y) ∈ stack → pixel_at bm x y = Some 1) ∧
  ∀ x y x' y' L,
    pixel_at m x y = Some L → L ≠ 0 → neumann_adjacent x y x' y' →
    pixel_at bm x' y' = Some 1 →
    pixel_at m x' y' = Some L ∨
    (L = wrap_int8 region_id ∧ (x', y') ∈ stack ∧ pixel_at m x' y' = Some 0).

(** The neighbours that one round of the flood fill pushes for the cell
    [(x, y)], the one pushed last first. *)
Definition neighbors_to_push (bm : ndarray Z) (x y : Z) : list (Z * Z) :=
  (if eq_1 (pixel_at bm (x - 1) y) then [(x - 1, y)] else []) ++
  (if eq_1 (pixel_at bm x (y + 1)) then [(x, y + 1)] else []) ++
  (if eq_1 (pixel_at bm (x + 1) y) then [(x + 1, y)] else []) ++
  (if eq_1 (pixel_at bm x (y - 1)) then [(x, y - 1)] else []).

(** A bitmask of two rows: a pixel, a gap and a pixel above three pixels
    in a row. *)
Definition comb_bitmask : ndarray Z := NdArray 2 3 [[1; 0; 1]; [1; 1; 1]].

(** Two pixels that touch only at a corner, as one region. *)
Definition diagonal_region : Color2DRegion :=
  mkColor2DRegion (mkColor 255 0 0 255)
    (mkPoint2DSet 2 2 (NdArray 2 2 [[1; 0]; [0; 1]]) {[ (0, 0); (1, 1) ]}).

(** ** The labeler on regions of at most 127 pixels *)

(** The number of cells that are 1. *)
Definition count_ones (bm : ndarray Z) : nat :=
  length (filter (λ c, c.2 = 1) (cells_row_major bm)).

(** The cell carries a label. *)
Definition labelled (m : ndarray Z) (x y : Z) : Prop :=
  ∃ L, L ≠ 0 ∧ pixel_at m x y = Some L.

(** The cells that are 1 in the bitmask, and those of them that [m] has
    not labelled. *)
Definition ones (bm : ndarray Z) : gset (Z * Z) :=
  list_to_set ((λ c, (c.1.1, c.1.2))
                 <$> filter (λ c, c.2 = 1) (cells_row_major bm)).

Definition unlabelled (bm m : ndarray Z) : gset (Z * Z) :=
  filter (λ p, pixel_at m p.1 p.2 = Some 0) (ones bm).

(** The cell [(x, y)] comes before [(x0, y0)] in the scan. *)
Definition scanned_before (x y x0 y0 : Z) : Prop :=
  y < y0 ∨ (y = y0 ∧ x < x0).

(** What the flood fill started in row [y0] keeps about the bottom
    [(xb, yb)] of its stack: it lies in row [y0], or it is an unlabelled
    cell right below a cell of row [y0] that the fill has labelled, under
    labelled cells only.  An unlabelled neighbour of a cell labelled in
    this fill waits above the bottom, or is the bottom and was pushed
    first by that cell. *)
Definition order_inv (bm m : ndarray Z) (cur y0 : Z) (stack : list (Z * Z))
  : Prop :=
  stack = [] ∨
  ∃ pre xb yb, stack = pre ++ [(xb, yb)] ∧
    ((yb = y0 ∧
      (pixel_at m xb yb = Some 0 → pixel_at bm (xb - 1) yb = Some 1 →
       labelled m (xb - 1) yb))
     ∨ (yb = y0 + 1 ∧ pixel_at m xb yb = Some 0 ∧
        pixel_at m xb y0 = Some cur ∧
        ∀ a b, (a, b) ∈ pre → labelled m a b)) ∧
    (∀ x y x' y',
       pixel_at m x y = Some cur → neumann_adjacent x y x' y' →
       pixel_at bm x' y' = Some 1 → pixel_at m x' y' = Some 0 →
       (x', y') ∈ pre ∨
       (x' = xb ∧ y' = yb ∧
        ((yb = y0 ∧ x = xb - 1 ∧ y = yb) ∨ (yb = y0 + 1 ∧ x = xb ∧ y = y0)))).

(** Two pixels of the bitmask that share a side, and the pixels joined
    by a path of such steps. *)
Definition pixel_step (bm : ndarray Z) (p q : Z * Z) : Prop :=
  pixel_at bm p.1 p.2 = Some 1 ∧ pixel_at bm q.1 q.2 = Some 1 ∧
  neumann_adjacent p.1 p.2 q.1 q.2.

Definition connected (bm : ndarray Z) (p q : Z * Z) : Prop :=
  rtc (pixel_step bm) p q.

(** The state of the scan when it reaches the cell [(x, y)]: the labels
    are sound and closed, every pixel before [(x, y)] has a label, the
    labels used so far are the numbers below [region_id], which has not
    outrun the number of pixels, and the cells of one label are
    connected. *)
Definition scan_inv (bm : ndarray Z) (x y : Z) (m : ndarray Z) (region_id : Z)
  : Prop :=
  same_shape bm m ∧ labels_on_ones bm m ∧ labels_closed bm m ∧
  (∀ a b, pixel_at bm a b = Some 1 → scanned_before a b x y → labelled m a b) ∧
  1 <= region_id ∧
  (Z.to_nat (region_id - 1) + size (unlabelled bm m) ≤ size (ones bm))%nat ∧
  (∀ a b L, pixel_at m a b = Some L → 0 <= L < region_id) ∧
  (∀ a b a' b' L, L ≠ 0 → pixel_at m a b = Some L → pixel_at m a' b' = Some L →
                  connected bm (a, b) (a', b')).

(** ** The heap that [trace_bitmask] keeps

    Every link of a [Node2D] leads to a [Node2D]; every virtual node is in
    state 0 or 1 and has two [Node2D] real nodes at its own coordinates. *)
Definition links_ok (h : heap) : Prop :=
  (∀ r x y n p, h !! r = Some (Node2D x y n p) →
     (∀ c, n = Some c → is_node h c = true) ∧
     (∀ c, p = Some c → is_node h c = true)) ∧
  (∀ r x y rn st, h !! r = Some (VirtualNode2D x y rn st) →
     (st < 2)%nat ∧
     ∃ s0 s1, rn = (Some s0, Some s1) ∧
       is_node h s0 = true ∧ is_node h s1 = true ∧
       pt h s0 = mkPoint2D x y ∧ pt h s1 = mkPoint2D x y).

(** The grid has [W] columns and [H] rows, and the cell in row [i] and
    column [j] holds an object at the coordinates [(j, i)]. *)
Definition grid_ok (h : heap) (g : NodeGrid2D) (W H : nat) : Prop :=
  length (g_data g) = H ∧
  (∀ i row, g_data g !! i = Some row → length row = W) ∧
  ∀ i j row r, g_data g !! i = Some row → row !! j = Some r →
    ∃ o, h !! r = Some o ∧ obj_point o = mkPoint2D (Z.of_nat j) (Z.of_nat i).

(** The heap [h'] has every object of [h], with its class, coordinates
    and real nodes. *)
Definition extends (h h' : heap) : Prop :=
  ∀ r o, h !! r = Some o → ∃ o', h' !! r = Some o' ∧ skeleton o' = skeleton o.

(** The [Node2D] whose fields [node.next] and [node.prev] read and write. *)
Definition holder (h : heap) (r : ref) : ref :=
  match h !! r with
  | Some (VirtualNode2D _ _ (a, b) st) =>
      default r (match st with O => a | _ => b end)
  | _ => r
  end.

(** ** The edges of the graph that [trace_bitmask] returns *)

#[global] Instance Point2D_eq_dec : EqDecision Point2D.
Proof. solve_decision. Defined.

(** The lattice point of a corner of the pixel [(x, y)]. *)
Definition corner_point (c : corner) (x y : Z) : Point2D :=
  match c with
  | TL => mkPoint2D x y
  | TR => mkPoint2D (x + 1) y
  | BR => mkPoint2D (x + 1) (y + 1)
  | BL => mkPoint2D x (y + 1)
  end.

(** The object that the grid holds for the lattice point [P]:
    [data[P.y][P.x]], for coordinates that are not negative. *)
Definition cell_at (g : NodeGrid2D) (P : Point2D) : option ref :=
  if decide (0 <= px P ∧ 0 <= py P)
  then row ← g_data g !! Z.to_nat (py P); row !! Z.to_nat (px P)
  else None.

(** The [Node2D] objects of a grid cell: the cell itself, or the real
    nodes of a [VirtualNode2D]. *)
Definition slots (h : heap) (c : ref) : list ref :=
  match h !! c with
  | Some (Node2D _ _ _ _) => [c]
  | Some (VirtualNode2D _ _ (a, b) _) => option_list a ++ option_list b
  | None => []
  end.

(** [r] is a [Node2D] of the grid at the lattice point [P]. *)
Definition slot_at (h : heap) (g : NodeGrid2D) (P : Point2D) (r : ref) : Prop :=
  ∃ c, cell_at g P = Some c ∧ r ∈ slots h c.

(** The graph has the edge from [P] to [Q]: a node of the grid at [P] has
    as [next] a node of the grid at [Q], whose [prev] is the former. *)
Definition linked (h : heap) (g : NodeGrid2D) (P Q : Point2D) : Prop :=
  ∃ r n, slot_at h g P r ∧ slot_at h g Q n ∧
         fnext h r = Some n ∧ fprev h n = Some r.

(** The state of the graph between two calls of [connect]: [es] are the
    edges made so far.  Inside a call, the [next] of the node [dn] and
    the [prev] of the node [dp] are about to be assigned and are left out
    of account.

    Every cell is a [Node2D], or a [VirtualNode2D] in state 1 whose first
    real node has both links and whose real nodes have different
    successors and different predecessors; the links of the nodes of the
    grid lead to nodes of the grid and are mutual; the edges are those of
    [es]. *)
Record graph_inv (W H : nat) (h : heap) (g : NodeGrid2D)
    (es : Point2D → Point2D → Prop) (dn dp : option ref) : Prop := mk_graph_inv {
  gi_links : links_ok h;
  gi_grid : grid_ok h g W H;
  gi_holes : ∀ d, dn = Some d ∨ dp = Some d → is_node h d = true;
  gi_irrefl : ∀ P, ¬ es P P;
  gi_cell : ∀ P c, cell_at g P = Some c →
    is_node h c = true ∨
    ∃ s0 s1,
      h !! c = Some (VirtualNode2D (px P) (py P) (Some s0, Some s1) 1) ∧
      s0 ≠ s1 ∧ is_Some (fnext h s0) ∧ is_Some (fprev h s0) ∧
      dn ≠ Some s0 ∧ dp ≠ Some s0 ∧
      (dn ≠ Some s1 → ∀ a b, fnext h s0 = Some a → fnext h s1 = Some b →
                             pt h a ≠ pt h b) ∧
      (dp ≠ Some s1 → ∀ a b, fprev h s0 = Some a → fprev h s1 = Some b →
                             pt h a ≠ pt h b);
  gi_next : ∀ P r n, slot_at h g P r → dn ≠ Some r → fnext h r = Some n →
    dp ≠ Some n ∧ fprev h n = Some r ∧ slot_at h g (pt h n) n;
  gi_prev : ∀ P r p, slot_at h g P r → dp ≠ Some r → fprev h r = Some p →
    dn ≠ Some p ∧ fnext h p = Some r ∧ slot_at h g (pt h p) p;
  gi_edges : ∀ P Q, es P Q ↔
    ∃ r n, slot_at h g P r ∧ dn ≠ Some r ∧ fnext h r = Some n ∧ pt h n = Q
}.

(** The position of the call for the side that starts at corner [c] of
    the pixel [(x, y)] in the run of [trace_bitmask] on a bitmask of
    width [W]: pixels in row-major order, sides in the order top, right,
    bottom, left. *)
Definition call_time (W : nat) (c : corner) (x y : Z) : Z :=
  4 * (y * Z.of_nat W + x)
  + match c with TL => 0 | TR => 1 | BR => 2 | BL => 3 end.

(** The edges that the calls before the time [t] make. *)
Definition edges_before (bm : ndarray Z) (t : Z) (P Q : Point2D) : Prop :=
  ∃ c1 c2 x y, (c1, c2, x, y) ∈ all_calls bm ∧
    call_time (ncols bm) c1 x y < t ∧
    P = corner_point c1 x y ∧ Q = corner_point c2 x y.

(** The sides of a pixel run clockwise: the corner at which the side
    that starts at the corner [c] ends. *)
Definition side_end (c : corner) : corner :=
  match c with TL => TR | TR => BR | BR => BL | BL => TL end.

(** The heap after the split of the node [c] at [(x, y)], whose links
    are [n] and [p]. *)
Definition split_heap (h : heap) (x y : Z) (n p : ref) : heap :=
  upd_prev (upd_next h p (Some (length h + 1)%nat)) n (Some (length h + 1)%nat)
  ++ [VirtualNode2D x y (Some (length h + 1)%nat, Some (length h + 2)%nat) 1;
      Node2D x y (Some n) (Some p); Node2D x y None None].

(** [d] is the [Node2D] behind the object [c]: [c] itself, or the
    current real node of a [VirtualNode2D] in state 1. *)
Definition cur_of (h : heap) (c d : ref) : Prop :=
  (is_node h c = true ∧ c = d) ∨
  ∃ x y s0, h !! c = Some (VirtualNode2D x y (Some s0, Some d) 1).

(** A set of the frame 3x2 that holds the points (0, 0) and (2, 1). *)
Definition two_point_set : Point2DSet :=
  mkPoint2DSet 3 2 (NdArray 2 3 [[1; 0; 0]; [0; 0; 1]]) {[ (0, 0); (2, 1) ]}.

(** * Properties *)

(** ** The result monad *)

Lemma bind_Ok_inv {A B} (m : result A) (k : A → result B) b :
  m ≫= k = Ok b → ∃ a, m = Ok a ∧ k a = Ok b.
Proof. destruct m; simpl; intros; eauto; discriminate. Qed.

Lemma bind_Ok {A B} (m : result A) (k : A → result B) a :
  m = Ok a → m ≫= k = k a.
Proof. by intros ->. Qed.

(** ** Indexing *)

Lemma py_index_Some n i k :
  py_index n i = Some k →
  (k < n)%nat ∧ (- Z.of_nat n <= i < Z.of_nat n) ∧
  Z.of_nat k = (if 0 <=? i then i else i + Z.of_nat n).
Proof.
  unfold py_index.
  destruct (0 <=? i) eqn:E0, (i <? Z.of_nat n) eqn:E1; simpl;
    try (intros [= <-]; lia).
  all: destruct (- Z.of_nat n <=? i) eqn:E2, (i <? 0) eqn:E3; simpl;
    try discriminate; try (intros [= <-]; lia).
Qed.

Lemma py_index_None n i :
  py_index n i = None ↔ (i < - Z.of_nat n ∨ Z.of_nat n <= i).
Proof.
  unfold py_index.
  destruct (0 <=? i) eqn:E0, (i <? Z.of_nat n) eqn:E1; simpl;
    try (split; [discriminate | lia]); try (split; [lia | done]).
  all: destruct (- Z.of_nat n <=? i) eqn:E2, (i <? 0) eqn:E3; simpl;
    try (split; [discriminate | lia]); try (split; [lia | done]).
Qed.

Lemma py_index_nonneg n i :
  0 <= i < Z.of_nat n → py_index n i = Some (Z.to_nat i).
Proof.
  intros Hi. unfold py_index.
  by rewrite (proj2 (Z.leb_le 0 i)), (proj2 (Z.ltb_lt i _)) by lia.
Qed.

Lemma py_index_negative n i :
  - Z.of_nat n <= i < 0 → py_index n i = Some (Z.to_nat (i + Z.of_nat n)).
Proof.
  intros Hi. unfold py_index.
  rewrite (proj2 (Z.leb_gt 0 i)) by lia. simpl.
  by rewrite (proj2 (Z.leb_le _ i)), (proj2 (Z.ltb_lt i 0)) by lia.
Qed.

Lemma np_zeros_wf h w : wf_ndarray (np_zeros h w).
Proof.
  split; simpl; [by rewrite length_replicate|].
  apply Forall_forall. intros r Hr.
  apply elem_of_replicate in Hr as [-> _].
  by rewrite length_replicate.
Qed.

Lemma wf_ndarray_row {A} (a : ndarray A) i :
  wf_ndarray a → (i < nrows a)%nat →
  ∃ r, rows a !! i = Some r ∧ length r = ncols a.
Proof.
  intros [Hl Hr] Hi.
  destruct (lookup_lt_is_Some_2 (rows a) i) as [r Hri]; [lia|].
  exists r. split; [done|].
  rewrite Forall_forall in Hr. apply Hr.
  by eapply list_elem_of_lookup_2.
Qed.

Lemma np_set_wf {A} (a : ndarray A) y x v a' :
  wf_ndarray a → np_set a y x v = Ok a' →
  wf_ndarray a' ∧ nrows a' = nrows a ∧ ncols a' = ncols a.
Proof.
  intros [Hl Hr]. unfold np_set.
  destruct (py_index (nrows a) y) as [i|]; [|discriminate].
  destruct (py_index (ncols a) x) as [j|]; [|discriminate].
  destruct (rows a !! i) as [row|] eqn:Hi; [|discriminate].
  case_decide; [|discriminate]. intros [= <-]. simpl.
  split; [|done]. split; simpl; [by rewrite length_insert|].
  apply Forall_insert; [done|]. rewrite length_insert.
  rewrite Forall_forall in Hr. apply Hr.
  by eapply list_elem_of_lookup_2.
Qed.

Lemma np_set_in_range {A} (a : ndarray A) y x v :
  wf_ndarray a →
  - Z.of_nat (nrows a) <= y < Z.of_nat (nrows a) →
  - Z.of_nat (ncols a) <= x < Z.of_nat (ncols a) →
  ∃ a', np_set a y x v = Ok a'.
Proof.
  intros Hwf Hy Hx. unfold np_set.
  destruct (py_index (nrows a) y) as [i|] eqn:Ei;
    [|apply py_index_None in Ei; lia].
  destruct (py_index (ncols a) x) as [j|] eqn:Ej;
    [|apply py_index_None in Ej; lia].
  apply py_index_Some in Ei as (Hi & _), Ej as (Hj & _).
  destruct (wf_ndarray_row a i Hwf Hi) as (row & -> & Hlen).
  rewrite decide_True by lia. eauto.
Qed.

Lemma np_set_out_of_range {A} (a : ndarray A) y x v :
  (y < - Z.of_nat (nrows a) ∨ Z.of_nat (nrows a) <= y ∨
   x < - Z.of_nat (ncols a) ∨ Z.of_nat (ncols a) <= x) →
  np_set a y x v = Raise IndexError.
Proof.
  intros H. unfold np_set.
  destruct (py_index (nrows a) y) as [i|] eqn:Ei; [|done].
  destruct (py_index (ncols a) x) as [j|] eqn:Ej; [|done].
  apply py_index_Some in Ei as (_ & ? & _), Ej as (_ & ? & _). lia.
Qed.

(** ** [Point2DSet.add_point] and the bounds of the region *)

(** A point beyond the far edges (or further than one extent before the
    near edges) is rejected with [ValueError]. *)
Lemma add_point_far_out_of_bounds (w h : nat) (p : Point2D) :
  (py p < - Z.of_nat h ∨ Z.of_nat h <= py p ∨
   px p < - Z.of_nat w ∨ Z.of_nat w <= px p) →
  add_point (Point2DSet_init w h) p = Raise ValueError.
Proof.
  intros H. unfold add_point.
  by rewrite np_set_out_of_range.
Qed.

(** A negative coordinate within one extent of zero is a valid numpy
    index: the point is recorded, and the bitmask cell that is set is the
    one counted from the far edge. *)
Lemma add_point_negative_in_range (w h : nat) (p : Point2D) :
  - Z.of_nat w <= px p < 0 →
  - Z.of_nat h <= py p < Z.of_nat h →
  ∃ s, add_point (Point2DSet_init w h) p = Ok s ∧ key_of p ∈ data s.
Proof.
  intros Hx Hy. unfold add_point.
  destruct (np_set_in_range (bitmask (Point2DSet_init w h)) (py p) (px p) 1)
    as [bm ->]; [apply np_zeros_wf|simpl; lia|simpl; lia|].
  eexists. split; [done|]. simpl. set_solver.
Qed.

(** C10, at the failing input: in a 2x2 point set, adding [Point2D(-1, 0)]
    (x outside [0, 2)) does not fail.  The call returns normally, the point
    is a member of the set afterwards, and the bitmask cell (1, 0) of
    another pixel has been set.  Removing the absent point [Point2D(-1, 0)]
    from an empty 2x2 set fails with [KeyError], not with the
    invalid-argument [ValueError]. *)
Theorem add_point_accepts_negative_coordinate :
  ∃ s, add_point (Point2DSet_init 2 2) (mkPoint2D (-1) 0) = Ok s
       ∧ has_point s (mkPoint2D (-1) 0) = true
       ∧ np_get (bitmask s) 0 1 = Ok 1
       ∧ remove_point (Point2DSet_init 2 2) (mkPoint2D (-1) 0) = Raise KeyError
       ∧ (∃ s', remove_point s (mkPoint2D (-1) 0) = Ok s').
Proof.
  eexists. split; [reflexivity|].
  split; [by vm_compute|]. split; [reflexivity|].
  split; [reflexivity|].
  eexists. unfold remove_point. simpl.
  rewrite decide_True by set_solver. reflexivity.
Qed.

(** ** Colour keys *)

Lemma hex_digit_inj n m :
  0 <= n < 16 → 0 <= m < 16 → hex_digit n = hex_digit m → n = m.
Proof.
  intros Hn Hm.
  assert (n = 0 ∨ n = 1 ∨ n = 2 ∨ n = 3 ∨ n = 4 ∨ n = 5 ∨ n = 6 ∨ n = 7 ∨
          n = 8 ∨ n = 9 ∨ n = 10 ∨ n = 11 ∨ n = 12 ∨ n = 13 ∨ n = 14 ∨ n = 15)
    as Hn' by lia.
  assert (m = 0 ∨ m = 1 ∨ m = 2 ∨ m = 3 ∨ m = 4 ∨ m = 5 ∨ m = 6 ∨ m = 7 ∨
          m = 8 ∨ m = 9 ∨ m = 10 ∨ m = 11 ∨ m = 12 ∨ m = 13 ∨ m = 14 ∨ m = 15)
    as Hm' by lia.
  clear Hn Hm.
  repeat (destruct Hn' as [-> | Hn']); try subst n;
    repeat (destruct Hm' as [-> | Hm']); try subst m;
    simpl; intros; first [reflexivity | discriminate].
Qed.

Lemma fmt_02x_inj c d :
  0 <= c <= 255 → 0 <= d <= 255 → fmt_02x c = fmt_02x d → c = d.
Proof.
  intros Hc Hd [= Hhi Hlo].
  apply hex_digit_inj in Hhi;
    [|split; [apply Z.div_pos; lia|apply Z.div_lt_upper_bound; lia]..].
  apply hex_digit_inj in Hlo; [|apply Z.mod_pos_bound; lia..].
  rewrite (Z.div_mod c 16), (Z.div_mod d 16) by lia. lia.
Qed.

Lemma to_hex_inj c d :
  valid_color c → valid_color d → to_hex c = to_hex d → c = d.
Proof.
  destruct c as [r1 g1 b1 a1], d as [r2 g2 b2 a2].
  intros (?&?&?&?) (?&?&?&?). unfold to_hex. simpl in *.
  intros [= E1 E2 E3 E4 E5 E6 E7 E8].
  f_equal; apply fmt_02x_inj; try done; unfold fmt_02x; congruence.
Qed.

Lemma Color_init_valid p :
  valid_pixel p → Color_init p = Ok (pixel_color p).
Proof.
  destruct p as [[[r1 g1] b1] a1]. intros (?&?&?&?).
  unfold Color_init, valid_component.
  repeat (rewrite (proj2 (Z.leb_le _ _)) by lia). done.
Qed.

(** ** Dictionaries and the grouping step *)

Lemma dict_get_set_eq {K V} `{EqDecision K} (d : list (K * V)) k v :
  dict_get (dict_set d k v) k = Some v.
Proof.
  induction d as [|[k' v'] d IH]; simpl.
  - by rewrite decide_True.
  - destruct (decide (k' = k)) as [->|Hne]; simpl.
    + by rewrite decide_True.
    + by rewrite decide_False.
Qed.

Lemma dict_get_set_ne {K V} `{EqDecision K} (d : list (K * V)) k k' v :
  k ≠ k' → dict_get (dict_set d k v) k' = dict_get d k'.
Proof.
  intros Hne. induction d as [|[k0 v0] d IH]; simpl.
  - by rewrite decide_False.
  - destruct (decide (k0 = k)) as [->|Hne0]; simpl.
    + by rewrite !decide_False.
    + by rewrite IH.
Qed.

(** ** The 3x3 ring scenario *)

(** C5: a 3x3 image whose eight border pixels share one opaque colour [c]
    and whose centre pixel [t] is not opaque yields, at scale 1, exactly
    one path; its data is the outer sub-path followed by the inner one and
    its fill is the hex key of [c]. *)
Theorem ring_3x3_one_path (c t : pixel) (fuel : nat) :
  valid_pixel c → valid_pixel t →
  a (pixel_color c) = 255 → a (pixel_color t) < 255 →
  (40 ≤ fuel)%nat →
  ∃ svg, trace_image fuel (ring_3x3 c t) 1 = Ok svg ∧
    paths svg = [mkSVGPath "M0,0L3,0L3,3L0,3ZM1,1L1,2L2,2L2,1Z"
                   (to_hex (pixel_color c))].
Proof.
  intros Hc Ht Hac Hat Hfuel.
  assert (Hne : to_hex (pixel_color c) ≠ to_hex (pixel_color t)).
  { intros E. apply to_hex_inj in E.
    - rewrite E in Hac. lia.
    - by destruct c as [[[??]?]?].
    - by destruct t as [[[??]?]?]. }
  assert (Hreg : ∃ dc dt, get_distinct_color_regions (ring_3x3 c t) = Ok
     [ mkColor2DRegion (pixel_color c)
         (mkPoint2DSet 3 3 (NdArray 3 3 [[1;1;1];[1;0;1];[1;1;1]]) dc);
       mkColor2DRegion (pixel_color t)
         (mkPoint2DSet 3 3 (NdArray 3 3 [[0;0;0];[0;1;0];[0;0;0]]) dt) ]).
  { unfold get_distinct_color_regions, ring_3x3. simpl.
    rewrite !(Color_init_valid c), !(Color_init_valid t) by done. simpl.
    set (kc := to_hex (pixel_color c)) in *.
    set (kt := to_hex (pixel_color t)) in *.
    clearbody kc kt.
    unfold group_point.
    repeat (first [rewrite decide_True by set_solver
                  |rewrite decide_False by set_solver]; simpl;
            repeat (first [rewrite decide_True by done
                          |rewrite decide_False by done]; simpl)).
    eauto. }
  unfold trace_image.
  destruct Hreg as (dc & dt & ->). cbn [mbind result_bind].
  rewrite filter_cons_True by done.
  rewrite filter_cons_False by (simpl; lia). rewrite filter_nil.
  cbn [for_each mbind result_bind app].
  destruct (Nat.le_exists_sub 40 fuel Hfuel) as (k & -> & _).
  rewrite Nat.add_comm.
  eexists. split; vm_compute; reflexivity.
Qed.

Lemma ring_3x3_one_path_witness :
  ∃ svg, trace_image 40 (ring_3x3 (255, 0, 0, 255) (0, 0, 0, 0)) 1 = Ok svg ∧
    paths svg = [mkSVGPath "M0,0L3,0L3,3L0,3ZM1,1L1,2L2,2L2,1Z"
                   (to_hex (pixel_color (255, 0, 0, 255)))].
Proof.
  apply (ring_3x3_one_path (255, 0, 0, 255) (0, 0, 0, 0) 40);
    simpl; repeat split; lia.
Defined.

(** ** Path data and scale *)

Lemma string_app_cons c (s t : string) : String c s +:+ t = String c (s +:+ t).
Proof. reflexivity. Qed.

Lemma string_app_nil_l (s : string) : "" +:+ s = s.
Proof. reflexivity. Qed.

Lemma string_app_assoc (s1 s2 s3 : string) :
  (s1 +:+ s2) +:+ s3 = s1 +:+ (s2 +:+ s3).
Proof.
  induction s1 as [|c s1 IH]; [done|].
  by rewrite !string_app_cons, IH.
Qed.

Lemma string_app_nil_r (s : string) : s +:+ "" = s.
Proof.
  induction s as [|c s IH]; [done|]. by rewrite string_app_cons, IH.
Qed.

Lemma path_data_from_points fuel svg h o n acc :
  path_data_from fuel svg h o n acc
  = (ps ← path_points_from fuel h o n; Ok (acc +:+ render_lines svg ps)).
Proof.
  revert n acc. induction fuel as [|fuel IH]; intros n acc; simpl; [done|].
  destruct (get_next h n) as [nx| |]; simpl; try done.
  destruct (not_None nx) as [nx'| |]; simpl; try done.
  destruct (node_eq h nx' o) as [[]| |]; simpl; try done.
  - by rewrite string_app_nil_r.
  - destruct (get_point h nx') as [p| |]; simpl; try done.
    rewrite IH.
    destruct (path_points_from fuel h o nx') as [ps| |]; simpl; try done.
    by rewrite string_app_assoc.
Qed.

Lemma loop_to_path_data_points fuel svg h l :
  loop_to_path_data fuel svg h l
  = (p ← get_point h (origin l);
     ps ← path_points_from fuel h (origin l) (origin l);
     Ok (_m svg p +:+ render_lines svg ps +:+ _z)).
Proof.
  unfold loop_to_path_data.
  destruct (get_point h (origin l)) as [p| |]; simpl; try done.
  rewrite path_data_from_points.
  destruct (path_points_from fuel h (origin l) (origin l)) as [ps| |]; simpl; try done.
  by rewrite string_app_assoc.
Qed.

Lemma uint_acc_pos d acc :
  uint_acc d (Z.pos acc) = Z.pos (Pos.of_uint_acc d acc).
Proof.
  revert acc. induction d; intros acc; simpl; try done;
    rewrite <- IHd; f_equal; lia.
Qed.

Lemma uint_acc_0 d : uint_acc d 0 = Z.of_N (Pos.of_uint d).
Proof.
  induction d; simpl; try done;
    change (10 * 0 + _) with (Z.pos 1) || idtac; try apply uint_acc_pos.
Qed.

Lemma numbers_from_uint d acc c rest neg :
  digit_of c = None →
  numbers_from (NilEmpty.string_of_uint d +:+ String c rest) neg (Some acc)
  = signed neg (uint_acc d acc) :: numbers_from rest (is_minus c) None.
Proof.
  intros Hc. revert acc.
  induction d; intros acc; simpl NilEmpty.string_of_uint;
    rewrite ?string_app_cons, ?string_app_nil_l; simpl; try apply IHd.
  by rewrite Hc.
Qed.

Lemma numbers_from_uint_start d c rest neg :
  d ≠ Decimal.Nil → digit_of c = None →
  numbers_from (NilEmpty.string_of_uint d +:+ String c rest) neg None
  = signed neg (uint_acc d 0) :: numbers_from rest (is_minus c) None.
Proof.
  intros Hd Hc.
  destruct d; [done|..]; simpl NilEmpty.string_of_uint;
    rewrite string_app_cons; simpl; by apply numbers_from_uint.
Qed.

Lemma uint_acc_to_uint p : uint_acc (Pos.to_uint p) 0 = Z.pos p.
Proof. by rewrite uint_acc_0, DecimalPos.Unsigned.of_to. Qed.

Lemma string_of_uint_to_uint p :
  NilZero.string_of_uint (Pos.to_uint p) = NilEmpty.string_of_uint (Pos.to_uint p).
Proof.
  pose proof (DecimalPos.Unsigned.to_uint_nonnil p) as Hn.
  by destruct (Pos.to_uint p).
Qed.

(** A numeral written by [str] and followed by a character that is not a
    digit is read back as the number it denotes. *)
Lemma numbers_from_py_str n c rest :
  digit_of c = None →
  numbers_from (py_str n +:+ String c rest) false None
  = n :: numbers_from rest (is_minus c) None.
Proof.
  intros Hc. unfold py_str. destruct n as [|p|p]; simpl Z.to_int.
  - simpl. by rewrite Hc.
  - simpl NilZero.string_of_int. rewrite string_of_uint_to_uint.
    rewrite numbers_from_uint_start;
      [|apply DecimalPos.Unsigned.to_uint_nonnil|done].
    by rewrite uint_acc_to_uint.
  - simpl NilZero.string_of_int. rewrite string_of_uint_to_uint.
    rewrite string_app_cons. simpl.
    rewrite numbers_from_uint_start;
      [|apply DecimalPos.Unsigned.to_uint_nonnil|done].
    by rewrite uint_acc_to_uint.
Qed.

(** The numbers of one [M] or [L] command followed by more path data. *)
Lemma numbers_from_command (cmd : ascii) x y c rest :
  digit_of cmd = None → is_minus cmd = false → digit_of c = None →
  numbers_from (String cmd (py_str x +:+ "," +:+ py_str y) +:+ String c rest)
    false None
  = x :: y :: numbers_from rest (is_minus c) None.
Proof.
  intros Hcmd Hm Hc.
  rewrite string_app_cons, !string_app_assoc.
  simpl numbers_from. rewrite Hcmd, Hm. simpl.
  rewrite (string_app_cons "," "" _), string_app_nil_l.
  rewrite numbers_from_py_str by done. simpl is_minus.
  by rewrite numbers_from_py_str.
Qed.

Lemma numbers_from_nondigit c rest neg :
  digit_of c = None →
  numbers_from (String c rest) neg None = numbers_from rest (is_minus c) None.
Proof. intros Hc. simpl. by rewrite Hc. Qed.

Lemma render_lines_tail svg ps :
  ∃ c rest, render_lines svg ps +:+ _z = String c rest ∧ digit_of c = None.
Proof.
  destruct ps as [|q ps].
  - by exists "Z"%char, ""%string.
  - exists "L"%char. eexists. split; [|done].
    simpl render_lines. unfold _l.
    rewrite !string_app_assoc, (string_app_cons "L" "" _). reflexivity.
Qed.

Lemma path_numbers_lines svg ps :
  numbers_from (render_lines svg ps +:+ _z) false None
  = scaled_coordinates (scale svg) ps.
Proof.
  induction ps as [|p ps IH]; [done|].
  simpl render_lines. rewrite string_app_assoc.
  destruct (render_lines_tail svg ps) as (c & rest & Heq & Hc).
  rewrite Heq in IH |- *. rewrite numbers_from_nondigit in IH by done.
  unfold _l. rewrite (string_app_cons "L" "" _), string_app_nil_l.
  rewrite numbers_from_command by done. by rewrite IH.
Qed.

Lemma path_numbers_loop svg p ps :
  path_numbers (_m svg p +:+ render_lines svg ps +:+ _z)
  = scaled_coordinates (scale svg) (p :: ps).
Proof.
  unfold path_numbers.
  destruct (render_lines_tail svg ps) as (c & rest & Heq & Hc).
  pose proof (path_numbers_lines svg ps) as Hl.
  rewrite Heq in Hl |- *. rewrite numbers_from_nondigit in Hl by done.
  unfold _m. rewrite (string_app_cons "M" "" _), string_app_nil_l.
  rewrite numbers_from_command by done. by rewrite Hl.
Qed.

Lemma scaled_coordinates_linear s ps :
  scaled_coordinates s ps = Z.mul s <$> scaled_coordinates 1 ps.
Proof.
  induction ps as [|p ps IH]; [done|].
  simpl. rewrite IH. f_equal; [lia|f_equal; lia].
Qed.

(** C7: for every loop and every scale [s > 1], if the emitter produces
    path data for the loop at scale 1, it produces path data at scale [s]
    too, and the numbers in the latter are, in order, [s] times the
    numbers in the former. *)
Theorem path_data_scale_linear (fuel : nat) (svg svg1 : SVG) (h : heap)
    (l : NodeLoop) (d1 : string) :
  1 < scale svg → scale svg1 = 1 →
  loop_to_path_data fuel svg1 h l = Ok d1 →
  ∃ ds, loop_to_path_data fuel svg h l = Ok ds ∧
        path_numbers ds = Z.mul (scale svg) <$> path_numbers d1.
Proof.
  intros Hs Hs1. rewrite !loop_to_path_data_points.
  destruct (get_point h (origin l)) as [p| |]; simpl; try done.
  destruct (path_points_from fuel h (origin l) (origin l)) as [ps| |];
    simpl; try done.
  intros [= <-]. eexists. split; [done|].
  rewrite !path_numbers_loop, Hs1. apply scaled_coordinates_linear.
Qed.

Lemma path_data_scale_linear_witness :
  ∃ ds, loop_to_path_data 10 (SVG_init 1 1 3) unit_square_heap (mkNodeLoop 0%nat)
        = Ok ds ∧
        path_numbers ds = Z.mul 3 <$> path_numbers "M0,0L1,0L1,1L0,1Z".
Proof.
  apply (path_data_scale_linear 10 (SVG_init 1 1 3) (SVG_init 1 1 1)
           unit_square_heap (mkNodeLoop 0%nat) "M0,0L1,0L1,1L0,1Z");
    [simpl; lia|reflexivity|reflexivity].
Defined.

(** ** Loops *)

Lemma for_each_app {A S} (l1 l2 : list A) (f : S → A → result S) s :
  for_each (l1 ++ l2) f s = for_each l1 f s ≫= for_each l2 f.
Proof.
  revert s. induction l1 as [|a l1 IH]; intros s; simpl; [done|].
  destruct (f s a); simpl; auto.
Qed.

Lemma for_each_snoc {A S} (l : list A) (a : A) (f : S → A → result S) s :
  for_each (l ++ [a]) f s = (s' ← for_each l f s; f s' a).
Proof.
  rewrite for_each_app. destruct (for_each l f s) as [s'| |]; simpl; try done.
  by destruct (f s' a).
Qed.

Lemma for_each_ext {A S} (l : list A) (f g : S → A → result S) s :
  (∀ s a, a ∈ l → f s a = g s a) → for_each l f s = for_each l g s.
Proof.
  revert s. induction l as [|a l IH]; intros s Hfg; simpl; [done|].
  rewrite Hfg by left. destruct (g s a); simpl; try done.
  apply IH. intros. apply Hfg. by right.
Qed.

Lemma for_each_nested {A B S} (l : list A) (inner : A → list B)
    (f : S → B → result S) s :
  for_each l (λ s a, for_each (inner a) f s) s = for_each (l ≫= inner) f s.
Proof.
  revert s. induction l as [|a l IH]; intros s; simpl; [done|].
  rewrite for_each_app. destruct (for_each (inner a) f s); simpl; auto.
Qed.

Lemma for_each_fmap {A B S} (l : list A) (g : A → B) (f : S → B → result S) s :
  for_each (g <$> l) f s = for_each l (λ s a, f s (g a)) s.
Proof.
  revert s. induction l as [|a l IH]; intros s; simpl; [done|].
  destruct (f s (g a)); simpl; auto.
Qed.

Lemma for_each_filter {A S} (P : A → Prop) `{∀ a, Decision (P a)}
    (l : list A) (f : S → A → result S) s :
  for_each l (λ s a, if decide (P a) then f s a else Ok s) s
  = for_each (filter P l) f s.
Proof.
  revert s. induction l as [|a l IH]; intros s; simpl; [done|].
  destruct (decide (P a)).
  - rewrite filter_cons_True by done. simpl. destruct (f s a); simpl; auto.
  - rewrite filter_cons_False by done. simpl. auto.
Qed.

(** An invariant that every step preserves holds after the loop. *)
Lemma for_each_invariant {A S} (I : S → Prop) (l : list A)
    (f : S → A → result S) s s' :
  (∀ s a s', a ∈ l → I s → f s a = Ok s' → I s') →
  I s → for_each l f s = Ok s' → I s'.
Proof.
  revert s. induction l as [|a l IH]; intros s Hstep Hs; simpl.
  - by intros [= <-].
  - intros (s1 & Hf & Hrest)%bind_Ok_inv.
    eapply IH; [|eapply Hstep; [left|done..]|done].
    intros ???? ; apply Hstep. by right.
Qed.

(** ** Cells of arrays *)

Lemma cell_np_get {A} (a : ndarray A) (y x : Z) :
  0 <= y < Z.of_nat (nrows a) → 0 <= x < Z.of_nat (ncols a) →
  np_get a y x = match cell a (Z.to_nat y) (Z.to_nat x) with
                 | Some v => Ok v
                 | None => Raise IndexError
                 end.
Proof.
  intros Hy Hx. unfold np_get, cell.
  rewrite !py_index_nonneg by done.
  destruct (rows a !! Z.to_nat y); simpl; [|done].
  by destruct (_ !! Z.to_nat x).
Qed.

Lemma cell_is_Some {A} (a : ndarray A) (i j : nat) :
  wf_ndarray a → (i < nrows a)%nat → (j < ncols a)%nat → is_Some (cell a i j).
Proof.
  intros Hwf Hi Hj. unfold cell.
  destruct (wf_ndarray_row a i Hwf Hi) as (row & -> & Hlen). simpl.
  apply lookup_lt_is_Some_2. lia.
Qed.

Lemma cell_Some_lt {A} (a : ndarray A) (i j : nat) v :
  wf_ndarray a → cell a i j = Some v → (i < nrows a)%nat ∧ (j < ncols a)%nat.
Proof.
  intros [Hl Hr] Hc. unfold cell in Hc.
  destruct (rows a !! i) as [row|] eqn:Hi; [|done]. simpl in Hc.
  split.
  - apply lookup_lt_Some in Hi. lia.
  - rewrite Forall_forall in Hr.
    rewrite <- (Hr row) by (by eapply list_elem_of_lookup_2).
    by eapply lookup_lt_Some.
Qed.

Lemma np_zeros_cell h w i j :
  (i < h)%nat → (j < w)%nat → cell (np_zeros h w) i j = Some 0.
Proof.
  intros Hi Hj. unfold cell, np_zeros. simpl.
  rewrite lookup_replicate_2 by done. simpl.
  by rewrite lookup_replicate_2.
Qed.

(** [a[y, x] = v] with non-negative indices changes that cell only. *)
Lemma np_set_cell {A} (a a' : ndarray A) (y x : Z) v i j :
  0 <= y → 0 <= x → np_set a y x v = Ok a' →
  (Z.to_nat y < nrows a)%nat ∧ (Z.to_nat x < ncols a)%nat ∧
  cell a' i j =
    if decide (i = Z.to_nat y ∧ j = Z.to_nat x) then Some v else cell a i j.
Proof.
  intros Hy Hx. unfold np_set.
  destruct (py_index (nrows a) y) as [i0|] eqn:Ei; [|done].
  destruct (py_index (ncols a) x) as [j0|] eqn:Ej; [|done].
  apply py_index_Some in Ei as (Hi0 & _ & Ei), Ej as (Hj0 & _ & Ej).
  rewrite (proj2 (Z.leb_le 0 y)) in Ei by done.
  rewrite (proj2 (Z.leb_le 0 x)) in Ej by done.
  assert (i0 = Z.to_nat y) as -> by lia.
  assert (j0 = Z.to_nat x) as -> by lia.
  destruct (rows a !! Z.to_nat y) as [row|] eqn:Hrow; [|done].
  case_decide as Hlen; [|done]. intros [= <-].
  split; [done|]. split; [done|]. unfold cell. simpl.
  destruct (decide (i = Z.to_nat y)) as [->|Hne].
  - rewrite list_lookup_insert_eq by (by eapply lookup_lt_Some).
    rewrite Hrow. simpl.
    destruct (decide (j = Z.to_nat x)) as [->|Hnej].
    + rewrite decide_True by done.
      by rewrite list_lookup_insert_eq.
    + rewrite decide_False by tauto.
      by rewrite list_lookup_insert_ne.
  - rewrite decide_False by tauto.
    by rewrite list_lookup_insert_ne.
Qed.

(** ** First occurrences *)

Lemma first_occurrences_snoc {A} `{EqDecision A} (l : list A) x :
  first_occurrences (l ++ [x])
  = if decide (x ∈ first_occurrences l) then first_occurrences l
    else first_occurrences l ++ [x].
Proof. unfold first_occurrences. by rewrite foldl_app. Qed.

Lemma elem_of_first_occurrences {A} `{EqDecision A} (l : list A) x :
  x ∈ first_occurrences l ↔ x ∈ l.
Proof.
  revert x. induction l as [|y l IH] using rev_ind; intros x; [done|].
  rewrite first_occurrences_snoc, elem_of_app, list_elem_of_singleton.
  case_decide as Hy.
  - rewrite IH in Hy |- *. split; [tauto|]. intros [?| ->]; tauto.
  - rewrite elem_of_app, list_elem_of_singleton, IH. tauto.
Qed.

Lemma NoDup_first_occurrences {A} `{EqDecision A} (l : list A) :
  NoDup (first_occurrences l).
Proof.
  induction l as [|y l IH] using rev_ind; [constructor|].
  rewrite first_occurrences_snoc. case_decide as Hy; [done|].
  apply NoDup_app. split; [done|]. split; [|apply NoDup_singleton].
  intros x Hx ->%list_elem_of_singleton. done.
Qed.

(** ** Dictionaries, continued *)

Lemma dict_get_Some_elem_of {K V} `{EqDecision K} (d : list (K * V)) k v :
  dict_get d k = Some v → (k, v) ∈ d.
Proof.
  induction d as [|[k' v'] d IH]; simpl; [done|].
  case_decide as Hk.
  - intros [= ->]. subst. left.
  - intros. right. auto.
Qed.

Lemma dict_get_is_Some {K V} `{EqDecision K} (d : list (K * V)) k :
  is_Some (dict_get d k) ↔ k ∈ d.*1.
Proof.
  induction d as [|[k' v'] d IH]; simpl.
  - rewrite elem_of_nil. split; [by intros [??]|done].
  - rewrite elem_of_cons. case_decide as Hk.
    + subst. split; eauto.
    + rewrite IH. split; [tauto|]. intros [?|?]; [congruence|done].
Qed.

Lemma elem_of_dict_get {K V} `{EqDecision K} (d : list (K * V)) k v :
  NoDup d.*1 → (k, v) ∈ d → dict_get d k = Some v.
Proof.
  induction d as [|[k' v'] d IH]; simpl; [by intros _ ?%elem_of_nil|].
  intros [Hk' Hnd]%NoDup_cons [[= -> ->]|Hin]%elem_of_cons.
  - by rewrite decide_True.
  - rewrite decide_False; [auto|].
    intros ->. apply Hk'. apply list_elem_of_fmap.
    by exists (k, v).
Qed.

Lemma dict_set_keys {K V} `{EqDecision K} (d : list (K * V)) k v :
  (dict_set d k v).*1 = if decide (k ∈ d.*1) then d.*1 else d.*1 ++ [k].
Proof.
  induction d as [|[k' v'] d IH]; cbn [dict_set].
  - by rewrite decide_False by apply not_elem_of_nil.
  - destruct (decide (k' = k)) as [->|Hne]; rewrite !fmap_cons; cbn [fst].
    + by rewrite decide_True by left.
    + rewrite IH. destruct (decide (k ∈ d.*1)) as [Hin|Hin].
      * by rewrite decide_True by (by right).
      * rewrite decide_False; [done|].
        intros [?|?]%elem_of_cons; [congruence|done].
Qed.

(** ** [add_point] on a well-formed region *)

Lemma Color2DRegion_init_wf c W H : wf_region (Color2DRegion_init c W H).
Proof. split; [apply np_zeros_wf|done]. Qed.

Lemma region_add_point_spec rg x y rg' :
  wf_region rg → 0 <= x → 0 <= y →
  region_add_point rg (mkPoint2D x y) = Ok rg' →
  wf_region rg' ∧ color rg' = color rg ∧
  height (points rg') = height (points rg) ∧
  width (points rg') = width (points rg) ∧
  (Z.to_nat x < width (points rg))%nat ∧ (Z.to_nat y < height (points rg))%nat ∧
  data (points rg') = {[ (x, y) ]} ∪ data (points rg) ∧
  ∀ i j, cell (bitmask (points rg')) i j
         = if decide (i = Z.to_nat y ∧ j = Z.to_nat x) then Some 1
           else cell (bitmask (points rg)) i j.
Proof.
  intros (Hwf & Hr & Hc) Hx Hy. unfold region_add_point, add_point. simpl.
  destruct (np_set (bitmask (points rg)) y x 1) as [bm|[]|] eqn:Hset;
    simpl; try done.
  intros [= <-]. simpl.
  destruct (np_set_wf _ _ _ _ _ Hwf Hset) as (Hwf' & Hr' & Hc').
  split; [split; [done|simpl; split; [by rewrite Hr'|by rewrite Hc']]|].
  do 3 (split; [done|]).
  destruct (np_set_cell _ _ _ _ _ O O Hy Hx Hset) as (Hyl & Hxl & _).
  split; [lia|]. split; [lia|]. split; [done|].
  intros i j. by destruct (np_set_cell _ _ _ _ _ i j Hy Hx Hset) as (_ & _ & ->).
Qed.

Lemma region_add_point_in_bounds rg x y :
  wf_region rg → 0 <= x < Z.of_nat (width (points rg)) →
  0 <= y < Z.of_nat (height (points rg)) →
  ∃ rg', region_add_point rg (mkPoint2D x y) = Ok rg'.
Proof.
  intros (Hwf & Hr & Hc) Hx Hy. unfold region_add_point, add_point. simpl.
  destruct (np_set_in_range (bitmask (points rg)) y x 1) as [bm ->];
    [done|lia..|]. simpl. eauto.
Qed.

(** ** The grouping loops *)

Section Grouping.
Context {K : Type} `{Countable K}.
Implicit Types (evs : list (K * Color2DRegion * Z * Z)) (e : K * Color2DRegion * Z * Z).

Lemma grouped_nil W Hh : grouped (K:=K) W Hh [] (∅, []).
Proof.
  split; [done|]. split; [intros k; simpl; set_solver|].
  intros k rg; simpl; done.
Qed.

Lemma elem_of_event_at_snoc evs e k x y :
  (k, x, y) ∈ event_at <$> (evs ++ [e])
  ↔ (k, x, y) ∈ event_at <$> evs ∨ event_at e = (k, x, y).
Proof.
  rewrite fmap_snoc, elem_of_app, list_elem_of_singleton.
  split; (intros [?|?]; [by left|by right]).
Qed.

Lemma elem_of_event_at_snoc_ne evs e k x y :
  event_key e ≠ k →
  (k, x, y) ∈ event_at <$> (evs ++ [e]) ↔ (k, x, y) ∈ event_at <$> evs.
Proof.
  intros Hne. rewrite elem_of_event_at_snoc. split; [|by left].
  intros [?|Heq]; [done|]. unfold event_at, event_key in *. congruence.
Qed.

Lemma event_key_elem_of evs k x y :
  (k, x, y) ∈ event_at <$> evs → k ∈ event_key <$> evs.
Proof.
  intros (e & He & Hin)%list_elem_of_fmap.
  apply list_elem_of_fmap. exists e. split; [|done].
  unfold event_at in He. unfold event_key. congruence.
Qed.

Lemma grouped_step W Hh evs s e s' :
  grouped W Hh evs s → wf_event W Hh e → group_event s e = Ok s' →
  grouped W Hh (evs ++ [e]) s'.
Proof.
  destruct s as [known d], e as [[[k0 fresh] x] y].
  intros (Hkeys & Hknown & Hregs) ([c Hfresh] & Hx & Hy). simpl in *.
  unfold event_fresh in Hfresh. simpl in Hfresh.
  unfold group_point.
  destruct (decide (k0 ∈ known)) as [Hin|Hnin].
  - (* a key seen before *)
    assert (k0 ∈ d.*1) as Hk0 by by apply Hknown.
    destruct (proj2 (dict_get_is_Some d k0) Hk0) as [rg Hrg].
    rewrite Hrg.
    intros (rg' & Hadd & [= <-])%bind_Ok_inv.
    destruct (Hregs k0 rg Hrg) as (Hev & Hwf & Hht & Hwd & Hcells & Hdata).
    destruct (region_add_point_spec rg x y rg' Hwf Hx Hy Hadd)
      as (Hwf' & Hcol' & Hht' & Hwd' & Hxl & Hyl & Hdata' & Hcells').
    split; [|split]; simpl.
    + rewrite dict_set_keys, decide_True by done.
      rewrite fmap_snoc, first_occurrences_snoc.
      rewrite decide_True; [done|]. unfold event_key at 1. simpl.
      by rewrite <- Hkeys.
    + intros k. rewrite dict_set_keys, decide_True by done. apply Hknown.
    + intros k r. destruct (decide (k0 = k)) as [<-|Hne].
      * rewrite dict_get_set_eq. intros [= <-].
        split.
        { destruct Hev as (e & He & Hke & Hce). exists e.
          split; [apply elem_of_app; by left|]. split; [done|congruence]. }
        split; [done|]. split; [congruence|]. split; [congruence|].
        split.
        { intros i j Hi Hj. rewrite Hcells', Hcells by done.
          case_decide as Hij.
          - rewrite bool_decide_eq_true_2; [done|].
            apply elem_of_event_at_snoc. right.
            unfold event_at. simpl. destruct Hij as [-> ->].
            by rewrite !Z2Nat.id.
          - erewrite bool_decide_ext; [reflexivity|].
            rewrite elem_of_event_at_snoc. split; [by left|].
            intros [?|Heq]; [done|]. unfold event_at in Heq. simpl in Heq.
            destruct Hij. injection Heq as -> ->. by rewrite !Nat2Z.id. }
        { intros x' y'. rewrite Hdata', elem_of_union, elem_of_singleton.
          rewrite Hdata, elem_of_event_at_snoc.
          split.
          - intros [[= -> ->]|Hin']; [by right|by left].
          - intros [Hin'|Heq]; [by right|left].
            unfold event_at in Heq. simpl in Heq. congruence. }
      * rewrite dict_get_set_ne by done. intros Hr.
        destruct (Hregs k r Hr) as (Hev' & ? & ? & ? & Hcells0 & Hdata0).
        split.
        { destruct Hev' as (e & He & Hke & Hce). exists e.
          split; [apply elem_of_app; by left|]. done. }
        do 3 (split; [done|]). split.
        { intros i j Hi Hj. rewrite Hcells0 by done.
          erewrite bool_decide_ext; [reflexivity|].
          symmetry. by apply elem_of_event_at_snoc_ne. }
        { intros x' y'. rewrite Hdata0. symmetry.
          by apply elem_of_event_at_snoc_ne. }
  - (* a new key *)
    assert (k0 ∉ d.*1) as Hk0 by (by rewrite <- Hknown).
    rewrite dict_get_set_eq.
    intros (rg' & Hadd & [= <-])%bind_Ok_inv.
    assert (wf_region fresh) as Hwf by (subst; apply Color2DRegion_init_wf).
    destruct (region_add_point_spec fresh x y rg' Hwf Hx Hy Hadd)
      as (Hwf' & Hcol' & Hht' & Hwd' & Hxl & Hyl & Hdata' & Hcells').
    assert ((dict_set (dict_set d k0 fresh) k0 rg').*1 = d.*1 ++ [k0]) as Hk'.
    { rewrite dict_set_keys, decide_True;
        rewrite dict_set_keys, decide_False by done; [done|].
      apply elem_of_app. right. left. }
    assert (∀ x' y', (k0, x', y') ∉ event_at <$> evs) as Hnone.
    { intros x' y' Hin%event_key_elem_of.
      apply Hk0. rewrite Hkeys. by apply elem_of_first_occurrences. }
    split; [|split]; simpl.
    + rewrite Hk', fmap_snoc, first_occurrences_snoc.
      unfold event_key at 1 3. simpl. rewrite <- Hkeys.
      by rewrite decide_False.
    + intros k. rewrite Hk', elem_of_union, elem_of_singleton, elem_of_app,
        list_elem_of_singleton, Hknown. tauto.
    + intros k r. destruct (decide (k0 = k)) as [<-|Hne].
      * rewrite dict_get_set_eq. intros [= <-].
        split.
        { exists (k0, fresh, x, y). split; [apply elem_of_app; right; left|].
          split; [done|]. unfold event_fresh. simpl. congruence. }
        split; [done|]. subst fresh. simpl in *.
        split; [congruence|]. split; [congruence|]. split.
        { intros i j Hi Hj. rewrite Hcells'.
          case_decide as Hij.
          - rewrite bool_decide_eq_true_2; [done|].
            apply elem_of_event_at_snoc. right.
            unfold event_at. simpl. destruct Hij as [-> ->].
            by rewrite !Z2Nat.id.
          - rewrite np_zeros_cell by done. f_equal.
            rewrite bool_decide_eq_false_2; [done|].
            rewrite elem_of_event_at_snoc. intros [Hin|Heq].
            + by apply Hnone in Hin.
            + unfold event_at in Heq. simpl in Heq. destruct Hij.
              injection Heq as -> ->. by rewrite !Nat2Z.id. }
        { intros x' y'. rewrite Hdata', elem_of_union, elem_of_singleton.
          rewrite elem_of_event_at_snoc.
          split.
          - intros [[= -> ->]|Hemp]; [by right|].
            by apply elem_of_empty in Hemp.
          - intros [Hin'|Heq]; [by apply Hnone in Hin'|left].
            unfold event_at in Heq. simpl in Heq. congruence. }
      * rewrite !dict_get_set_ne by done. intros Hr.
        destruct (Hregs k r Hr) as (Hev' & ? & ? & ? & Hcells0 & Hdata0).
        split.
        { destruct Hev' as (e & He & Hke & Hce). exists e.
          split; [apply elem_of_app; by left|]. done. }
        do 3 (split; [done|]). split.
        { intros i j Hi Hj. rewrite Hcells0 by done.
          erewrite bool_decide_ext; [reflexivity|].
          symmetry. by apply elem_of_event_at_snoc_ne. }
        { intros x' y'. rewrite Hdata0. symmetry.
          by apply elem_of_event_at_snoc_ne. }
Qed.

End Grouping.

Lemma grouped_for_each {K} `{Countable K} W Hh
    (evs : list (K * Color2DRegion * Z * Z)) s :
  Forall (wf_event W Hh) evs →
  for_each evs group_event (∅, []) = Ok s → grouped W Hh evs s.
Proof.
  revert s. induction evs as [|e evs IH] using rev_ind; intros s Hwf.
  - intros [= <-]. apply grouped_nil.
  - apply Forall_app in Hwf as [Hwf [He _]%Forall_cons].
    rewrite for_each_snoc. intros (s0 & Hs0 & Hstep)%bind_Ok_inv.
    eapply grouped_step; eauto.
Qed.

Lemma group_event_in_bounds {K} `{Countable K} W Hh
    (evs : list (K * Color2DRegion * Z * Z)) s e :
  grouped W Hh evs s → wf_event W Hh e →
  e.1.2 < Z.of_nat W → e.2 < Z.of_nat Hh →
  ∃ s', group_event s e = Ok s'.
Proof.
  destruct s as [known d], e as [[[k0 fresh] x] y].
  intros (Hkeys & Hknown & Hregs) ([c Hfresh] & Hx & Hy) Hxw Hyh.
  simpl in *. unfold event_fresh in Hfresh. simpl in Hfresh.
  unfold group_point.
  destruct (decide (k0 ∈ known)) as [Hin|Hnin].
  - assert (k0 ∈ d.*1) as Hk0 by by apply Hknown.
    destruct (proj2 (dict_get_is_Some d k0) Hk0) as [rg Hrg].
    rewrite Hrg.
    destruct (Hregs k0 rg Hrg) as (_ & Hwf & Hht & Hwd & _).
    destruct (region_add_point_in_bounds rg x y Hwf) as [rg' ->];
      [rewrite Hwd; lia|rewrite Hht; lia|]. simpl. eauto.
  - rewrite dict_get_set_eq.
    destruct (region_add_point_in_bounds fresh x y) as [rg' ->];
      [subst; apply Color2DRegion_init_wf|subst; simpl; lia..|].
    simpl. eauto.
Qed.

Lemma for_each_group_in_bounds {K} `{Countable K} W Hh
    (evs : list (K * Color2DRegion * Z * Z)) :
  Forall (λ e, wf_event W Hh e ∧ e.1.2 < Z.of_nat W ∧ e.2 < Z.of_nat Hh) evs →
  ∃ s, for_each evs group_event (∅, []) = Ok s.
Proof.
  induction evs as [|e evs IH] using rev_ind; intros Hwf; [by eexists|].
  apply Forall_app in Hwf as [Hwf [(He & Hx & Hy) _]%Forall_cons].
  destruct (IH Hwf) as [s Hs]. rewrite for_each_snoc, Hs. simpl.
  eapply group_event_in_bounds; eauto.
  eapply grouped_for_each; [|done].
  eapply Forall_impl; [done|]. by intros ? (?&_).
Qed.

(** ** Row-major enumeration *)

Lemma elem_of_enumerate {A} (l : list A) (i : Z) (a : A) :
  (i, a) ∈ enumerate l ↔ 0 <= i ∧ l !! Z.to_nat i = Some a.
Proof.
  unfold enumerate. rewrite elem_of_lookup_imap. split.
  - intros (n & a' & [= -> ->] & Hl). split; [lia|]. by rewrite Nat2Z.id.
  - intros [Hi Hl]. exists (Z.to_nat i), a. split; [|done].
    by rewrite Z2Nat.id.
Qed.

Lemma elem_of_cells_row_major {A} (a : ndarray A) x y v :
  (x, y, v) ∈ cells_row_major a
  ↔ 0 <= x ∧ 0 <= y ∧ cell a (Z.to_nat y) (Z.to_nat x) = Some v.
Proof.
  unfold cells_row_major, cell. rewrite list_elem_of_bind. split.
  - intros ([y' row] & Hin & Hrow).
    apply list_elem_of_fmap in Hin as ([x' v'] & [= -> -> ->] & Hin).
    apply elem_of_enumerate in Hin as [Hx Hv], Hrow as [Hy Hr].
    split; [done|]. split; [done|]. by rewrite Hr.
  - intros (Hx & Hy & Hc).
    destruct (rows a !! Z.to_nat y) as [row|] eqn:Hr; [|done]. simpl in Hc.
    exists (y, row). split.
    + apply list_elem_of_fmap. exists (x, v). split; [done|].
      by apply elem_of_enumerate.
    + by apply elem_of_enumerate.
Qed.

Lemma for_each_cells {A S} (a : ndarray A) (f : S → Z → Z → A → result S) s :
  for_each (enumerate (rows a))
    (λ s '(y, row), for_each (enumerate row) (λ s '(x, v), f s x y v) s) s
  = for_each (cells_row_major a) (λ s '(x, y, v), f s x y v) s.
Proof.
  unfold cells_row_major. rewrite <- for_each_nested.
  apply for_each_ext. intros s' [y row] _.
  rewrite for_each_fmap. apply for_each_ext. by intros s'' [x v] _.
Qed.

(** ** [get_distinct_color_regions] *)

Lemma valid_image_cells img x y p :
  valid_image img → (x, y, p) ∈ cells_row_major img → valid_pixel p.
Proof.
  intros [_ Hv] (_ & _ & Hc)%elem_of_cells_row_major. unfold cell in Hc.
  destruct (rows img !! Z.to_nat y) as [row|] eqn:Hr; [|done]. simpl in Hc.
  rewrite Forall_forall in Hv. apply list_elem_of_lookup_2, Hv in Hr.
  rewrite Forall_forall in Hr. by eapply Hr, list_elem_of_lookup_2.
Qed.

Lemma get_distinct_color_regions_events img :
  (∀ x y p, (x, y, p) ∈ cells_row_major img → valid_pixel p) →
  get_distinct_color_regions img
  = (s ← for_each (color_events img) group_event (∅, []); Ok (dict_values s.2)).
Proof.
  intros Hvalid. unfold get_distinct_color_regions, color_events.
  rewrite (for_each_cells img
    (λ s x y p, c ← Color_init p;
                group_point (to_hex c)
                  (Color2DRegion_init c (ncols img) (nrows img)) x y s)).
  rewrite for_each_fmap.
  erewrite for_each_ext; [reflexivity|].
  intros s [[x y] p] Hin. simpl.
  by rewrite (Color_init_valid p) by eauto.
Qed.

Lemma color_events_wf img :
  wf_ndarray img →
  Forall (λ e, wf_event (ncols img) (nrows img) e
               ∧ e.1.2 < Z.of_nat (ncols img) ∧ e.2 < Z.of_nat (nrows img))
    (color_events img).
Proof.
  intros Hwf. apply Forall_forall. intros e Hin.
  apply list_elem_of_fmap in Hin as ([[x y] p] & -> & Hin).
  apply elem_of_cells_row_major in Hin as (Hx & Hy & Hc).
  apply cell_Some_lt in Hc as [Hi Hj]; [|done].
  split; [|simpl; lia].
  split; [by eexists|done].
Qed.

Lemma elem_of_color_events img k x y :
  (k, x, y) ∈ event_at <$> color_events img
  ↔ ∃ p, (x, y, p) ∈ cells_row_major img ∧ k = to_hex (pixel_color p).
Proof.
  unfold color_events. rewrite <- list_fmap_compose. rewrite list_elem_of_fmap.
  split.
  - intros ([[x' y'] p] & [= -> -> ->] & Hin). eauto.
  - intros (p & Hin & ->). by exists (x, y, p).
Qed.

(** C3: for every RGBA image the partitioner returns regions with
    pairwise distinct colours such that every pixel lies in exactly one
    of them, the one of the pixel's colour: that region's bitmask is 1 at
    the pixel and its point set holds it, every other region's bitmask is
    0 there and its point set does not hold it. *)
Theorem color_regions_partition (img : ndarray pixel) :
  valid_image img →
  ∃ regions, get_distinct_color_regions img = Ok regions ∧
    NoDup (color <$> regions) ∧
    ∀ (i j : nat) (p : pixel), cell img i j = Some p →
      (∃ rg, rg ∈ regions ∧ color rg = pixel_color p) ∧
      ∀ rg, rg ∈ regions →
        np_get (bitmask (points rg)) (Z.of_nat i) (Z.of_nat j)
        = Ok (if decide (color rg = pixel_color p) then 1 else 0) ∧
        ((Z.of_nat j, Z.of_nat i) ∈ data (points rg)
         ↔ color rg = pixel_color p).
Proof.
  intros Himg. pose proof (valid_image_cells img) as Hvalid.
  destruct Himg as [Hwf Hpix].
  assert (∀ x y p, (x, y, p) ∈ cells_row_major img → valid_pixel p)
    as Hvalid' by (intros; eapply Hvalid; [by split|done]).
  clear Hvalid. rename Hvalid' into Hvalid.
  rewrite get_distinct_color_regions_events by done.
  destruct (for_each_group_in_bounds _ _ _ (color_events_wf img Hwf))
    as [[known d] Hs].
  rewrite Hs. simpl. eexists. split; [done|].
  assert (grouped (ncols img) (nrows img) (color_events img) (known, d))
    as (Hkeys & Hknown & Hregs).
  { eapply grouped_for_each; [|done].
    eapply Forall_impl; [by apply color_events_wf|]. by intros ? (?&_). }
  simpl in *.
  assert (NoDup d.*1) as Hnd by (rewrite Hkeys; apply NoDup_first_occurrences).
  (* every region is stored under the hex key of its (valid) colour *)
  assert (∀ k rg, (k, rg) ∈ d → k = to_hex (color rg) ∧ valid_color (color rg))
    as Hkey.
  { intros k rg Hin. apply elem_of_dict_get in Hin; [|done].
    destruct (Hregs k rg Hin) as ((e & He & Hk & Hc) & _).
    apply list_elem_of_fmap in He as ([[x y] p] & -> & Hp).
    unfold event_key, event_fresh in *. simpl in *. subst k. rewrite Hc.
    split; [done|]. apply Hvalid in Hp. by destruct p as [[[??]?]?]. }
  unfold dict_values. split.
  - apply (NoDup_fmap_1 to_hex). rewrite <- list_fmap_compose.
    replace ((to_hex ∘ color) <$> d.*2) with d.*1; [done|].
    rewrite <- list_fmap_compose. apply list_fmap_ext.
    intros n [k rg] Hl. simpl. by apply (Hkey k rg), list_elem_of_lookup_2 with n.
  - intros i j p Hcell.
    assert ((Z.of_nat j, Z.of_nat i, p) ∈ cells_row_major img) as Hin.
    { apply elem_of_cells_row_major. rewrite !Nat2Z.id.
      split; [lia|]. split; [lia|done]. }
    destruct (cell_Some_lt _ _ _ _ Hwf Hcell) as [Hi Hj].
    assert (∀ rg, rg ∈ d.*2 →
              (to_hex (color rg), Z.of_nat j, Z.of_nat i)
                ∈ event_at <$> color_events img
              ↔ color rg = pixel_color p) as Hmem.
    { intros rg (kr & Hrg)%list_elem_of_fmap. destruct kr as [k rg'].
      destruct Hrg as [-> Hrg]. simpl.
      destruct (Hkey _ _ Hrg) as [-> Hvc].
      rewrite elem_of_color_events. split.
      - intros (p' & Hin' & Heq).
        apply elem_of_cells_row_major in Hin' as (_ & _ & Hc').
        rewrite !Nat2Z.id in Hc'. assert (p' = p) as -> by congruence.
        apply to_hex_inj; [done| |done].
        apply Hvalid in Hin. by destruct p as [[[??]?]?].
      - intros ->. eauto. }
    split.
    + assert (to_hex (pixel_color p) ∈ d.*1) as Hk.
      { rewrite Hkeys. apply elem_of_first_occurrences.
        apply list_elem_of_fmap.
        exists (color_event (ncols img) (nrows img) (Z.of_nat j, Z.of_nat i, p)).
        split; [done|]. by apply list_elem_of_fmap_2. }
      apply dict_get_is_Some in Hk as [rg Hrg].
      destruct (Hregs _ _ Hrg) as ((e & He & Hke & Hce) & _).
      exists rg. split.
      { apply list_elem_of_fmap. exists (to_hex (pixel_color p), rg).
        split; [done|]. by apply dict_get_Some_elem_of. }
      apply dict_get_Some_elem_of, Hkey in Hrg as [Heq Hvc].
      apply to_hex_inj; [done| |done].
      apply Hvalid in Hin. by destruct p as [[[??]?]?].
    + intros rg Hrg. pose proof (Hmem rg Hrg) as Hm.
      apply list_elem_of_fmap in Hrg as ([k rg'] & -> & Hrg). simpl in *.
      destruct (Hkey _ _ Hrg) as [-> Hvc].
      apply elem_of_dict_get in Hrg; [|done].
      destruct (Hregs _ _ Hrg) as (_ & (Hwfr & Hnr & Hnc) & Hht & Hwd & Hcells & Hdata).
      split.
      * rewrite cell_np_get by lia. rewrite !Nat2Z.id.
        rewrite Hcells by done.
        case_bool_decide as Hb; apply Hm in Hb || rewrite Hm in Hb.
        -- by rewrite decide_True.
        -- by rewrite decide_False.
      * by rewrite Hdata.
Qed.

Lemma color_regions_partition_witness :
  let img := NdArray 2 3 [[(255, 0, 0, 255); (0, 0, 255, 255); (255, 0, 0, 255)];
                          [(0, 0, 255, 255); (255, 0, 0, 255); (0, 0, 0, 0)]] in
  ∃ regions, get_distinct_color_regions img = Ok regions ∧
    NoDup (color <$> regions) ∧
    ∀ (i j : nat) (p : pixel), cell img i j = Some p →
      (∃ rg, rg ∈ regions ∧ color rg = pixel_color p) ∧
      ∀ rg, rg ∈ regions →
        np_get (bitmask (points rg)) (Z.of_nat i) (Z.of_nat j)
        = Ok (if decide (color rg = pixel_color p) then 1 else 0) ∧
        ((Z.of_nat j, Z.of_nat i) ∈ data (points rg)
         ↔ color rg = pixel_color p).
Proof.
  intros img. apply (color_regions_partition img).
  split; [split; [reflexivity|repeat constructor]|].
  repeat constructor; simpl; lia.
Defined.

(** ** The per-pixel rule of [trace_bitmask] *)

Lemma np_get_pixel_at (bm : ndarray Z) x y :
  wf_ndarray bm →
  0 <= x < Z.of_nat (ncols bm) → 0 <= y < Z.of_nat (nrows bm) →
  ∃ v, np_get bm y x = Ok v ∧ pixel_at bm x y = Some v.
Proof.
  intros Hwf Hx Hy. unfold pixel_at. rewrite decide_True by done.
  rewrite cell_np_get by done.
  destruct (cell_is_Some bm (Z.to_nat y) (Z.to_nat x) Hwf) as [v ->];
    [lia..|]. eauto.
Qed.

Lemma pixel_at_outside (bm : ndarray Z) x y :
  ¬ (0 <= x < Z.of_nat (ncols bm) ∧ 0 <= y < Z.of_nat (nrows bm)) →
  pixel_at bm x y = None.
Proof. intros. unfold pixel_at. by rewrite decide_False. Qed.

Lemma in_0_None_empty_at bm x y :
  in_0_None (pixel_at bm x y) = true ↔ empty_at bm x y.
Proof.
  unfold empty_at. destruct (pixel_at bm x y) as [v|]; simpl.
  - rewrite Z.eqb_eq. split; [intros ->; by right|].
    by intros [?|[= ->]].
  - split; [by left|done].
Qed.

(** The neighbourhood of an in-bounds pixel holds the four adjacent
    values, absent across the edges. *)
Lemma np_neumann_neighbors_pixel_at (bm : ndarray Z) x y :
  wf_ndarray bm →
  0 <= x < Z.of_nat (ncols bm) → 0 <= y < Z.of_nat (nrows bm) →
  np_neumann_neighbors bm x y
  = Ok (mkNeighborhood (pixel_at bm x (y - 1)) (pixel_at bm (x + 1) y)
          (pixel_at bm x (y + 1)) (pixel_at bm (x - 1) y)).
Proof.
  intros Hwf Hx Hy. unfold np_neumann_neighbors.
  rewrite (proj2 (Z.ltb_ge _ _)), (proj2 (Z.ltb_ge _ _)),
    (proj2 (Z.ltb_ge _ _)), (proj2 (Z.ltb_ge _ _)) by lia. simpl.
  assert (∀ x' y' (cond : bool),
            (cond = true → ¬ (0 <= x' < Z.of_nat (ncols bm)
                             ∧ 0 <= y' < Z.of_nat (nrows bm))) →
            (cond = false → 0 <= x' < Z.of_nat (ncols bm)
                            ∧ 0 <= y' < Z.of_nat (nrows bm)) →
            (if cond then Ok None else v ← np_get bm y' x'; Ok (Some v))
            = Ok (pixel_at bm x' y')) as Hn.
  { intros x' y' [] Ht Hf.
    - by rewrite pixel_at_outside by auto.
    - destruct (Hf eq_refl) as [Hx' Hy'].
      destruct (np_get_pixel_at bm x' y' Hwf Hx' Hy') as (v & -> & ->).
      done. }
  rewrite (Hn x (y - 1)), (Hn (x + 1) y), (Hn x (y + 1)), (Hn (x - 1) y);
    first [done|intros ?%Z.eqb_eq; lia|intros ?%Z.eqb_neq; lia].
Qed.

Lemma elem_of_range n x : x ∈ range n ↔ 0 <= x < Z.of_nat n.
Proof. unfold range. rewrite elem_of_seqZ. lia. Qed.

Section TracePixel.
Context {St : Type} (cc : St → corner → corner → Z → Z → result St).

Let cc' : St → connect_call → result St :=
  λ s '(c1, c2, x, y), cc s c1 c2 x y.

Lemma trace_pixel_calls (bm : ndarray Z) x y s :
  wf_ndarray bm →
  0 <= x < Z.of_nat (ncols bm) → 0 <= y < Z.of_nat (nrows bm) →
  trace_pixel cc bm y s x = for_each (pixel_calls bm x y) cc' s.
Proof.
  intros Hwf Hx Hy. unfold trace_pixel, pixel_calls.
  destruct (np_get_pixel_at bm x y Hwf Hx Hy) as (v & -> & ->). simpl.
  destruct (v =? 1) eqn:Hv.
  - apply Z.eqb_eq in Hv as ->. rewrite decide_True by done.
    rewrite np_neumann_neighbors_pixel_at by done. simpl.
    destruct (in_0_None (pixel_at bm x (y - 1)));
      destruct (in_0_None (pixel_at bm (x + 1) y));
      destruct (in_0_None (pixel_at bm x (y + 1)));
      destruct (in_0_None (pixel_at bm (x - 1) y)); simpl;
      repeat match goal with
             | |- context [cc ?s ?c1 ?c2 ?a ?b] =>
                 destruct (cc s c1 c2 a b); simpl; try done
             end; try done.
  - apply Z.eqb_neq in Hv. rewrite decide_False by congruence. done.
Qed.

Lemma trace_rows_calls (bm : ndarray Z) s :
  wf_ndarray bm → trace_rows cc bm s = for_each (all_calls bm) cc' s.
Proof.
  intros Hwf. unfold trace_rows, all_calls.
  rewrite <- for_each_nested. apply for_each_ext.
  intros s' y Hy%elem_of_range.
  rewrite <- for_each_nested. apply for_each_ext.
  intros s'' x Hx%elem_of_range. by apply trace_pixel_calls.
Qed.

End TracePixel.

Lemma for_each_record (l s : list connect_call) :
  for_each l (λ s '(c1, c2, x, y), record_call s c1 c2 x y) s = Ok (s ++ l).
Proof.
  revert s. induction l as [|[[[c1 c2] x] y] l IH]; intros s; simpl.
  - by rewrite app_nil_r.
  - rewrite IH. by rewrite <- app_assoc.
Qed.

Lemma connect_calls_all (bm : ndarray Z) :
  wf_ndarray bm → connect_calls bm = Ok (all_calls bm).
Proof.
  intros Hwf. unfold connect_calls.
  by rewrite trace_rows_calls, for_each_record.
Qed.

Lemma elem_of_pixel_calls bm c1 c2 x y x' y' :
  (c1, c2, x, y) ∈ pixel_calls bm x' y' →
  x = x' ∧ y = y' ∧ pixel_at bm x y = Some 1.
Proof.
  unfold pixel_calls. case_decide as Hv; [|by intros ?%elem_of_nil].
  rewrite !elem_of_app.
  intros [H|[H|[H|H]]];
    destruct (in_0_None _); try (by apply elem_of_nil in H);
    apply list_elem_of_singleton in H; injection H as -> -> -> ->; done.
Qed.

Lemma elem_of_all_calls bm c1 c2 x y :
  (c1, c2, x, y) ∈ all_calls bm
  ↔ 0 <= x < Z.of_nat (ncols bm) ∧ 0 <= y < Z.of_nat (nrows bm)
    ∧ (c1, c2, x, y) ∈ pixel_calls bm x y.
Proof.
  unfold all_calls. rewrite list_elem_of_bind. split.
  - intros (y' & (x' & Hin & Hx)%list_elem_of_bind & Hy).
    apply elem_of_range in Hx, Hy.
    destruct (elem_of_pixel_calls _ _ _ _ _ _ _ Hin) as (-> & -> & _). done.
  - intros (Hx & Hy & Hin). exists y. split; [|by apply elem_of_range].
    apply list_elem_of_bind. exists x. split; [done|by apply elem_of_range].
Qed.

Lemma elem_of_pixel_calls_1 bm c1 c2 x y :
  pixel_at bm x y = Some 1 →
  (c1, c2, x, y) ∈ pixel_calls bm x y
  ↔ (c1 = TL ∧ c2 = TR ∧ in_0_None (pixel_at bm x (y - 1)) = true)
    ∨ (c1 = TR ∧ c2 = BR ∧ in_0_None (pixel_at bm (x + 1) y) = true)
    ∨ (c1 = BR ∧ c2 = BL ∧ in_0_None (pixel_at bm x (y + 1)) = true)
    ∨ (c1 = BL ∧ c2 = TL ∧ in_0_None (pixel_at bm (x - 1) y) = true).
Proof.
  intros Hv. unfold pixel_calls. rewrite decide_True by done.
  rewrite !elem_of_app.
  destruct (in_0_None (pixel_at bm x (y - 1)));
    destruct (in_0_None (pixel_at bm (x + 1) y));
    destruct (in_0_None (pixel_at bm x (y + 1)));
    destruct (in_0_None (pixel_at bm (x - 1) y));
    rewrite ?list_elem_of_singleton, ?elem_of_nil;
    (split; [intros H; repeat (destruct H as [H|H]); try done;
             injection H as -> ->; tauto
            |intros H; repeat (destruct H as [H|H]);
             destruct H as (-> & -> & H); try done; tauto]).
Qed.

(** The connect calls of the edge-graph builder.  For every bitmask
    the builder performs the calls [calls] (it is the replay of [calls] on
    the fresh grid), and for every pixel (x, y) of value 1 the call
    TL->TR is among them iff the top neighbour is 0 or out of bounds,
    TR->BR iff the right one is, BR->BL iff the bottom one is and BL->TL
    iff the left one is; a call for pixel (x, y) is one of these four and
    only occurs for a pixel of value 1. *)
Lemma trace_bitmask_replays_calls (bm : ndarray Z) :
  wf_ndarray bm →
  ∃ calls, connect_calls bm = Ok calls ∧
    trace_bitmask bm
    = replay calls (NodeGrid2D_init [] (ncols bm + 1) (nrows bm + 1)) ∧
    (∀ x y, pixel_at bm x y = Some 1 →
       ((TL, TR, x, y) ∈ calls ↔ empty_at bm x (y - 1)) ∧
       ((TR, BR, x, y) ∈ calls ↔ empty_at bm (x + 1) y) ∧
       ((BR, BL, x, y) ∈ calls ↔ empty_at bm x (y + 1)) ∧
       ((BL, TL, x, y) ∈ calls ↔ empty_at bm (x - 1) y)) ∧
    (∀ c1 c2 x y, (c1, c2, x, y) ∈ calls →
       pixel_at bm x y = Some 1 ∧
       (c1, c2) ∈ [(TL, TR); (TR, BR); (BR, BL); (BL, TL)]).
Proof.
  intros Hwf. exists (all_calls bm).
  split; [by apply connect_calls_all|]. split.
  { unfold trace_bitmask, replay.
    destruct (NodeGrid2D_init [] _ _) as [h g].
    by rewrite trace_rows_calls. }
  split.
  - intros x y Hv.
    assert (0 <= x < Z.of_nat (ncols bm) ∧ 0 <= y < Z.of_nat (nrows bm))
      as [Hx Hy].
    { unfold pixel_at in Hv. by case_decide. }
    rewrite !elem_of_all_calls, !elem_of_pixel_calls_1 by done.
    rewrite <- !in_0_None_empty_at.
    repeat split; try (intros (_ & _ & H)); try intros H;
      try (split; [done|split; [done|]]); intuition congruence.
  - intros c1 c2 x y (_ & _ & Hin)%elem_of_all_calls.
    pose proof (elem_of_pixel_calls _ _ _ _ _ _ _ Hin) as (_ & _ & Hv).
    split; [done|].
    apply elem_of_pixel_calls_1 in Hin; [|done].
    rewrite !elem_of_cons.
    destruct Hin as [(-> & -> & _)|[(-> & -> & _)|[(-> & -> & _)|(-> & -> & _)]]];
      tauto.
Qed.

(** ** Split vertices *)

Lemma deref_Ok h r o : deref h r = Ok o ↔ h !! r = Some o.
Proof. unfold deref. destruct (h !! r); split; intros; congruence. Qed.

Lemma set_next_skeleton h r v h' :
  set_next h r v = Ok h' → skeleton <$> h' = skeleton <$> h.
Proof.
  unfold set_next.
  intros (c & _ & (o & Ho%deref_Ok & Hset)%bind_Ok_inv)%bind_Ok_inv.
  destruct o as [x y n p|]; [|done]. injection Hset as <-.
  rewrite list_fmap_insert. apply list_insert_id.
  by rewrite list_lookup_fmap, Ho.
Qed.

Lemma set_prev_skeleton h r v h' :
  set_prev h r v = Ok h' → skeleton <$> h' = skeleton <$> h.
Proof.
  unfold set_prev.
  intros (c & _ & (o & Ho%deref_Ok & Hset)%bind_Ok_inv)%bind_Ok_inv.
  destruct o as [x y n p|]; [|done]. injection Hset as <-.
  rewrite list_fmap_insert. apply list_insert_id.
  by rewrite list_lookup_fmap, Ho.
Qed.

Lemma flip_skeleton h r h' :
  flip h r = Ok h' → skeleton <$> h' = skeleton <$> h.
Proof.
  unfold flip. intros (o & Ho%deref_Ok & Hset)%bind_Ok_inv.
  destruct o as [|x y rn st]; [done|]. injection Hset as <-.
  rewrite list_fmap_insert. apply list_insert_id.
  by rewrite list_lookup_fmap, Ho.
Qed.

Lemma split_vertices_ok_app sk sk' :
  split_vertices_ok sk → Forall (λ s, s.2 = None) sk' →
  split_vertices_ok (sk ++ sk').
Proof.
  intros Hok Hnodes r x y rn Hr.
  destruct (decide (r < length sk)%nat) as [Hlt|Hge].
  - rewrite lookup_app_l in Hr by done.
    destruct (Hok _ _ _ _ Hr) as (s0 & s1 & -> & Hne & H0 & H1).
    exists s0, s1. split; [done|]. split; [done|].
    split; apply lookup_app_l_Some; done.
  - rewrite lookup_app_r in Hr by lia.
    rewrite Forall_forall in Hnodes.
    by apply list_elem_of_lookup_2, Hnodes in Hr.
Qed.

Lemma make_virtual_split_ok h node h' vn :
  make_virtual h node = Ok (h', vn) →
  split_vertices_ok (skeleton <$> h) → split_vertices_ok (skeleton <$> h').
Proof.
  unfold make_virtual, alloc.
  intros (x & _ & (y & _ & H)%bind_Ok_inv)%bind_Ok_inv.
  apply bind_Ok_inv in H as (nx & _ & (pv & _ & H)%bind_Ok_inv).
  apply bind_Ok_inv in H as (h1 & Hrn & H).
  apply bind_Ok_inv in H as (cur & _ & (vp & _ & (vp' & _ & H)%bind_Ok_inv)%bind_Ok_inv).
  apply bind_Ok_inv in H as (h2 & Hn%set_next_skeleton & H).
  apply bind_Ok_inv in H as (cur' & _ & (vnx & _ & (vnx' & _ & H)%bind_Ok_inv)%bind_Ok_inv).
  apply bind_Ok_inv in H as (h3 & Hp%set_prev_skeleton & H).
  apply bind_Ok_inv in H as (h4 & Hf%flip_skeleton & [= <- <-]).
  intros Hok. rewrite Hf, Hp, Hn. clear Hf Hp Hn.
  unfold set_real_nodes in Hrn.
  apply bind_Ok_inv in Hrn as (o & Ho%deref_Ok & Hset).
  rewrite <- !app_assoc in Ho. simpl in Ho.
  rewrite lookup_app_r, Nat.sub_diag in Ho by done. simpl in Ho.
  injection Ho as <-. injection Hset as <-.
  rewrite <- !app_assoc. simpl.
  rewrite insert_app_r_alt, Nat.sub_diag by done. simpl.
  rewrite fmap_app, !length_app. simpl.
  intros r x' y' rn Hr.
  destruct (decide (r < length h)%nat) as [Hlt|Hge].
  - rewrite lookup_app_l in Hr by (by rewrite length_fmap).
    destruct (Hok _ _ _ _ Hr) as (s0 & s1 & -> & Hne & H0 & H1).
    exists s0, s1. split; [done|]. split; [done|].
    split; apply lookup_app_l_Some; done.
  - rewrite lookup_app_r in Hr by (rewrite length_fmap; lia).
    rewrite length_fmap in Hr.
    destruct (r - length h)%nat as [|[|[|?]]] eqn:Hd; simpl in Hr; try done.
    injection Hr as <- <- <-.
    exists (length h + 1)%nat, (length h + 2)%nat.
    split; [done|]. split; [lia|].
    split; (rewrite lookup_app_r by (rewrite length_fmap; lia));
      rewrite length_fmap.
    + by replace (length h + 1 - length h)%nat with 1%nat by lia.
    + by replace (length h + 2 - length h)%nat with 2%nat by lia.
Qed.

Lemma connect_split_ok h g n1 n2 h' g' :
  connect h g n1 n2 = Ok (h', g') →
  split_vertices_ok (skeleton <$> h) → split_vertices_ok (skeleton <$> h').
Proof.
  unfold connect. intros (full1 & _ & H)%bind_Ok_inv Hok.
  apply bind_Ok_inv in H as ([[h1 g1] n1'] & Hb1 & H).
  assert (split_vertices_ok (skeleton <$> h1)) as Hok1.
  { destruct full1; [|by injection Hb1 as <- _ _].
    apply bind_Ok_inv in Hb1 as ([h0 vn] & Hmv & Hb1).
    apply bind_Ok_inv in Hb1 as (tgt & _ & Hb1).
    apply bind_Ok_inv in Hb1 as (h0' & Hn%set_next_skeleton & Hb1).
    apply bind_Ok_inv in Hb1 as (? & _ & (? & _ & Hb1)%bind_Ok_inv).
    apply bind_Ok_inv in Hb1 as (? & _ & (? & _ & Hb1)%bind_Ok_inv).
    apply bind_Ok_inv in Hb1 as (? & _ & [= <- _ _]).
    rewrite Hn. by eapply make_virtual_split_ok. }
  apply bind_Ok_inv in H as (full2 & _ & H).
  apply bind_Ok_inv in H as ([[h2 g2] n2'] & Hb2 & H).
  assert (split_vertices_ok (skeleton <$> h2)) as Hok2.
  { destruct full2; [|by injection Hb2 as <- _ _].
    apply bind_Ok_inv in Hb2 as ([h0 vn] & Hmv & Hb2).
    apply bind_Ok_inv in Hb2 as (src & _ & Hb2).
    apply bind_Ok_inv in Hb2 as (h0' & Hp%set_prev_skeleton & Hb2).
    apply bind_Ok_inv in Hb2 as (? & _ & (? & _ & Hb2)%bind_Ok_inv).
    apply bind_Ok_inv in Hb2 as (? & _ & (? & _ & Hb2)%bind_Ok_inv).
    apply bind_Ok_inv in Hb2 as (? & _ & [= <- _ _]).
    rewrite Hp. by eapply make_virtual_split_ok. }
  apply bind_Ok_inv in H as (tgt & _ & H).
  apply bind_Ok_inv in H as (h3 & Hn%set_next_skeleton & H).
  apply bind_Ok_inv in H as (src & _ & H).
  apply bind_Ok_inv in H as (h4 & Hp%set_prev_skeleton & [= <- _]).
  by rewrite Hp, Hn.
Qed.

Lemma alloc_row_nodes h y x n h' rs :
  alloc_row h y x n = (h', rs) →
  ∃ l, h' = h ++ l ∧ Forall (λ o, (skeleton o).2 = None) l.
Proof.
  revert h x h' rs. induction n as [|n IH]; intros h x h' rs; simpl.
  - intros [= <- <-]. exists []. by rewrite app_nil_r.
  - destruct (alloc_row (h ++ [Node2D x y None None]) y (x + 1) n)
      as [h1 rs1] eqn:Hrow.
    intros [= <- <-]. apply IH in Hrow as (l & -> & Hl).
    exists (Node2D x y None None :: l). rewrite <- app_assoc. split; [done|].
    by constructor.
Qed.

Lemma alloc_rows_nodes h w y n h' d :
  alloc_rows h w y n = (h', d) →
  ∃ l, h' = h ++ l ∧ Forall (λ o, (skeleton o).2 = None) l.
Proof.
  revert h y h' d. induction n as [|n IH]; intros h y h' d; simpl.
  - intros [= <- <-]. exists []. by rewrite app_nil_r.
  - destruct (alloc_row h y 0 w) as [h1 row] eqn:Hrow.
    destruct (alloc_rows h1 w (y + 1) n) as [h2 rest] eqn:Hrows.
    intros [= <- <-].
    apply alloc_row_nodes in Hrow as (l1 & -> & Hl1).
    apply IH in Hrows as (l2 & -> & Hl2).
    exists (l1 ++ l2). rewrite app_assoc. split; [done|].
    by apply Forall_app.
Qed.

Lemma trace_bitmask_split_ok bm h g :
  trace_bitmask bm = Ok (h, g) → split_vertices_ok (skeleton <$> h).
Proof.
  unfold trace_bitmask, NodeGrid2D_init.
  destruct (alloc_rows [] (ncols bm + 1) 0 (nrows bm + 1)) as [h0 d] eqn:Hinit.
  apply alloc_rows_nodes in Hinit as (l & -> & Hl). simpl.
  intros Htrace.
  pose (I := λ s : list obj * NodeGrid2D, split_vertices_ok (skeleton <$> s.1)).
  change (I (h, g)).
  eapply (for_each_invariant I); [|..|exact Htrace].
  - intros s y s' _ Hs Hrow.
    eapply (for_each_invariant I); [|exact Hs|exact Hrow].
    clear. intros [h g] x [h' g'] _ Hs. unfold trace_pixel.
    intros (v & _ & Hpix)%bind_Ok_inv.
    destruct (v =? 1); [|by injection Hpix as <- <-].
    apply bind_Ok_inv in Hpix as (nb & _ & Hpix).
    assert (∀ (cond : bool) c1 c2 s s',
              I s → (if cond then grid_connect s c1 c2 x y else Ok s) = Ok s' →
              I s') as Hstep.
    { intros [] c1 c2 [h1 g1] [h2 g2] Hs1; [|by intros [= <- <-]].
      unfold grid_connect.
      intros (n1 & _ & (n2 & _ & Hc)%bind_Ok_inv)%bind_Ok_inv.
      by eapply connect_split_ok. }
    apply bind_Ok_inv in Hpix as (s1 & H1 & Hpix).
    apply bind_Ok_inv in Hpix as (s2 & H2 & Hpix).
    apply bind_Ok_inv in Hpix as (s3 & H3 & Hpix).
    apply bind_Ok_inv in Hpix as (s4 & H4 & [= <-]).
    eauto.
  - unfold I. simpl. intros r x y rn Hr.
    apply list_lookup_fmap_Some in Hr as (o & Ho & Hsk).
    rewrite Forall_forall in Hl. apply list_elem_of_lookup_2, Hl in Hsk.
    by rewrite <- Ho in Hsk.
Qed.

Lemma node_hash_point h a p :
  get_point h a = Ok p → node_hash h a = Ok (Point2D_hash p).
Proof. unfold node_hash. by intros ->. Qed.

Lemma node_eq_points h a b p q :
  get_point h a = Ok p → get_point h b = Ok q →
  node_eq h a b = Ok (Point2D_eq p q).
Proof. unfold node_eq. by intros -> ->. Qed.

Lemma Point2D_eq_refl p : Point2D_eq p p = true.
Proof. unfold Point2D_eq. by rewrite !Z.eqb_refl. Qed.

Lemma Point2D_eq_true p q : Point2D_eq p q = true ↔ p = q.
Proof.
  unfold Point2D_eq. rewrite andb_true_iff, !Z.eqb_eq.
  destruct p, q; simpl. split; [by intros [-> ->]|by intros [= -> ->]].
Qed.

(** Two nodes at the same coordinates are interchangeable as probes of a
    Python set of nodes. *)
Lemma set_contains_same_point h visited a b p :
  get_point h a = Ok p → get_point h b = Ok p →
  set_contains h visited a = set_contains h visited b.
Proof.
  intros Ha Hb.
  induction visited as [|v visited IH]; simpl; [done|].
  rewrite (node_hash_point h a p), (node_hash_point h b p) by done.
  destruct (decide (v = a)) as [Hva|Hva], (decide (v = b)) as [Hvb|Hvb];
    try done; try subst v.
  - rewrite (node_hash_point h a p) by done. simpl.
    rewrite Z.eqb_refl, (node_eq_points h a b p p) by done. simpl.
    by rewrite Point2D_eq_refl.
  - rewrite (node_hash_point h b p) by done. simpl.
    rewrite Z.eqb_refl, (node_eq_points h b a p p) by done. simpl.
    by rewrite Point2D_eq_refl.
  - destruct (node_hash h v) as [hv| |]; simpl; try done.
    destruct (hv =? Point2D_hash p); simpl; [|done].
    unfold node_eq. rewrite Ha, Hb. by rewrite IH.
Qed.

(** C1, as the code has it: in every built NodeGrid the two slots of a
    split vertex are distinct objects at the coordinates of the vertex, and
    because node equality and hashing are by coordinates they compare equal
    for the graph walk, hash alike, and are the same element for the
    visited set of the loop extractor (as is the split vertex itself). *)
Theorem split_vertex_slots_compare_equal (bm : ndarray Z) (h : heap)
    (g : NodeGrid2D) (vn : ref) (x y : Z) rn st :
  trace_bitmask bm = Ok (h, g) →
  h !! vn = Some (VirtualNode2D x y rn st) →
  ∃ s0 s1, rn = (Some s0, Some s1) ∧ s0 ≠ s1 ∧
    get_point h s0 = Ok (mkPoint2D x y) ∧
    get_point h s1 = Ok (mkPoint2D x y) ∧
    node_eq h s0 s1 = Ok true ∧
    node_hash h s0 = node_hash h s1 ∧
    ∀ visited, set_contains h visited s0 = set_contains h visited s1 ∧
               set_contains h visited vn = set_contains h visited s0.
Proof.
  intros Htrace Hvn. apply trace_bitmask_split_ok in Htrace as Hok.
  destruct (Hok vn x y rn) as (s0 & s1 & -> & Hne & H0 & H1).
  { by rewrite list_lookup_fmap, Hvn. }
  apply list_lookup_fmap_Some in H0 as (o0 & Hsk0 & Ho0).
  apply list_lookup_fmap_Some in H1 as (o1 & Hsk1 & Ho1).
  assert (get_point h s0 = Ok (mkPoint2D x y)) as Hp0.
  { unfold get_point, deref. rewrite Ho0. simpl.
    destruct o0; simpl in *; congruence. }
  assert (get_point h s1 = Ok (mkPoint2D x y)) as Hp1.
  { unfold get_point, deref. rewrite Ho1. simpl.
    destruct o1; simpl in *; congruence. }
  assert (get_point h vn = Ok (mkPoint2D x y)) as Hpv.
  { unfold get_point, deref. by rewrite Hvn. }
  exists s0, s1. do 4 (split; [done|]).
  split; [by rewrite (node_eq_points _ _ _ _ _ Hp0 Hp1), Point2D_eq_refl|].
  split; [by rewrite !(node_hash_point _ _ (mkPoint2D x y))|].
  intros visited. split; by eapply set_contains_same_point.
Qed.

Lemma split_vertex_slots_compare_equal_witness :
  ∃ s0 s1, (Some 17%nat, Some 18%nat) = (Some s0, Some s1) ∧ s0 ≠ s1 ∧
    get_point touching_heap s0 = Ok (mkPoint2D 2 2) ∧
    get_point touching_heap s1 = Ok (mkPoint2D 2 2) ∧
    node_eq touching_heap s0 s1 = Ok true ∧
    node_hash touching_heap s0 = node_hash touching_heap s1 ∧
    ∀ visited,
      set_contains touching_heap visited s0 = set_contains touching_heap visited s1 ∧
      set_contains touching_heap visited 16%nat = set_contains touching_heap visited s0.
Proof.
  apply (split_vertex_slots_compare_equal touching_cluster touching_heap
           touching_grid 16 2 2 (Some 17%nat, Some 18%nat) 1);
    reflexivity.
Defined.

(** C1 as stated fails on a built NodeGrid: for [touching_cluster] the
    grid cell (2, 2) is a split vertex whose slots 17 and 18 are equal for
    the graph walk and are one element of the visited set, and the
    extractor finds a single loop, which passes through both slots. *)
Lemma split_vertex_slots_on_one_loop :
  trace_bitmask touching_cluster = Ok (touching_heap, touching_grid) ∧
  data_get touching_grid 2 2 = Ok 16%nat ∧
  touching_heap !! 16%nat
  = Some (VirtualNode2D 2 2 (Some 17%nat, Some 18%nat) 1) ∧
  node_eq touching_heap 17 18 = Ok true ∧
  set_contains touching_heap [17%nat] 18 = Ok true ∧
  extract_node_loops 100 touching_heap touching_grid = Ok [mkNodeLoop 0] ∧
  next_n touching_heap 6 0 = Ok 17%nat ∧
  next_n touching_heap 10 0 = Ok 18%nat ∧
  next_n touching_heap 16 0 = Ok 0%nat.
Proof. repeat split; vm_compute; reflexivity. Qed.

(** ** The loop extractor on consistent graphs *)

Section Extractor.
Context (h : list obj) (live : list ref).
Hypothesis Hwf : links_consistent h live = true.

Lemma live_object r :
  r ∈ live → ∃ o, h !! r = Some o ∧ object_ok h live r o = true.
Proof using Hwf.
  intros Hr. unfold links_consistent in Hwf.
  rewrite forallb_forall in Hwf. apply list_elem_of_In, Hwf in Hr.
  destruct (h !! r) as [o|]; [eauto|done].
Qed.

Lemma live_lt r : r ∈ live → (r < length h)%nat.
Proof using Hwf.
  intros (o & Ho & _)%live_object. by eapply lookup_lt_Some.
Qed.

Lemma is_node_at_Some r x y :
  is_node_at h r x y = true → ∃ n p, h !! r = Some (Node2D x y n p).
Proof.
  unfold is_node_at. destruct (h !! r) as [[x' y' n p|]|]; try done.
  intros [->%Z.eqb_eq ->%Z.eqb_eq]%andb_true_iff. eauto.
Qed.

(** Reading the links of a live object goes through a live [Node2D] at
    the same coordinates. *)
Lemma live_holder r :
  r ∈ live →
  ∃ ho x y n p, ho ∈ live ∧ h !! ho = Some (Node2D x y n p) ∧
    link_holder h r = Ok ho ∧ get_point h r = Ok (mkPoint2D x y).
Proof using Hwf.
  intros Hr. destruct (live_object r Hr) as (o & Ho & Hok).
  unfold link_holder, get_point, deref. rewrite Ho. simpl.
  destruct o as [x y n p|x y [[s0|] [s1|]] st]; simpl in Hok; try done.
  - exists r, x, y, n, p. eauto.
  - apply andb_true_iff in Hok as [Hok Hn1].
    apply andb_true_iff in Hok as [Hok Hn0].
    apply andb_true_iff in Hok as [Hok Hl1%bool_decide_eq_true].
    apply andb_true_iff in Hok
      as [Hst%bool_decide_eq_true Hl0%bool_decide_eq_true].
    apply is_node_at_Some in Hn0 as (n0 & p0 & Hn0).
    apply is_node_at_Some in Hn1 as (n1 & p1 & Hn1).
    unfold current, deref. rewrite Ho. simpl.
    destruct st as [|[|?]]; [| |lia].
    + exists s0, x, y, n0, p0. split; [done|]. split; [done|].
      simpl. by rewrite Hn0.
    + exists s1, x, y, n1, p1. split; [done|]. split; [done|].
      simpl. by rewrite Hn1.
Qed.

Lemma live_next r ho x y n p :
  ho ∈ live → h !! ho = Some (Node2D x y n p) → link_holder h r = Ok ho →
  get_next h r = Ok n ∧
  ∀ c, n = Some c →
       c ∈ live ∧ ∃ x' y' n', h !! c = Some (Node2D x' y' n' (Some ho)).
Proof using Hwf.
  intros Hho Hobj Hh. unfold get_next. rewrite Hh. simpl.
  unfold deref. rewrite Hobj. simpl. split; [done|].
  intros c ->. destruct (live_object ho Hho) as (o & Ho & Hok).
  rewrite Hobj in Ho. injection Ho as <-. simpl in Hok.
  apply andb_true_iff in Hok as [Hc%bool_decide_eq_true Hok].
  split; [done|].
  destruct (h !! c) as [[x' y' n' [r'|]|]|]; try done.
  apply bool_decide_eq_true in Hok as ->. eauto.
Qed.

Lemma node_link_holder r x y n p :
  h !! r = Some (Node2D x y n p) → link_holder h r = Ok r.
Proof. intros Hr. unfold link_holder, deref. by rewrite Hr. Qed.

Lemma live_point r : r ∈ live → ∃ pt, get_point h r = Ok pt.
Proof using Hwf.
  intros (ho & x & y & n & p & _ & _ & _ & Hp)%live_holder. eauto.
Qed.

Lemma set_contains_live visited a :
  Forall (.∈ live) visited → a ∈ live → ∃ b, set_contains h visited a = Ok b.
Proof using Hwf.
  intros Hv Ha. destruct (live_point a Ha) as [pa Hpa].
  induction Hv as [|v visited Hvl Hv IH]; simpl; [eauto|].
  case_decide; [eauto|].
  destruct (live_point v Hvl) as [pv Hpv].
  unfold node_hash, node_eq. rewrite Hpv, Hpa. simpl.
  destruct (_ =? _); simpl; [destruct (Point2D_eq pv pa); eauto|eauto].
Qed.

Lemma set_add_live visited a :
  Forall (.∈ live) visited → a ∈ live →
  ∃ v', set_add h visited a = Ok v' ∧ Forall (.∈ live) v'.
Proof using Hwf.
  intros Hv Ha. unfold set_add.
  destruct (set_contains_live visited a Hv Ha) as [b ->]. simpl.
  eexists. split; [done|]. destruct b; [done|].
  apply Forall_app. split; [done|]. by constructor.
Qed.

Lemma live_node_next r x y n p :
  r ∈ live → h !! r = Some (Node2D x y n p) →
  get_next h r = Ok n ∧ get_point h r = Ok (mkPoint2D x y) ∧
  ∀ c, n = Some c →
       c ∈ live ∧ ∃ x' y' n', h !! c = Some (Node2D x' y' n' (Some r)).
Proof using Hwf.
  intros Hr Hobj.
  destruct (live_next r r x y n p Hr Hobj (node_link_holder _ _ _ _ _ Hobj))
    as [Hn Hc].
  split; [done|]. split; [|done].
  unfold get_point, deref. by rewrite Hobj.
Qed.

Lemma next_n_snoc n start node c :
  next_n h n start = Ok node → get_next h node = Ok (Some c) →
  next_n h (S n) start = Ok c.
Proof.
  revert start. induction n as [|n IH]; intros start; simpl.
  - intros [= ->] ->. done.
  - destruct (get_next h start) as [[nx|]| |]; simpl; try done.
    intros Hn Hc. by apply (IH nx).
Qed.

Lemma NoDup_bounded_length (l : list nat) n :
  NoDup l → Forall (λ r, r < n)%nat l → (length l ≤ n)%nat.
Proof.
  intros Hnd Hl. rewrite <- (length_seq n 0%nat).
  apply submseteq_length, NoDup_submseteq; [done|].
  intros x Hx. rewrite Forall_forall in Hl. apply Hl in Hx.
  apply elem_of_seq. lia.
Qed.

Lemma continues_stops origin node :
  continues h origin node → stops h origin node → False.
Proof.
  intros [[nx Hnx] He] [Hs|[_ Hs]]; congruence.
Qed.

Lemma walk_ends_unique origin start n1 n2 :
  walk_ends h origin start n1 → walk_ends h origin start n2 → n1 = n2.
Proof.
  intros (k1 & Hk1 & Hc1 & Hs1) (k2 & Hk2 & Hc2 & Hs2).
  destruct (lt_eq_lt_dec k1 k2) as [[Hlt| ->]|Hlt].
  - destruct (Hc2 k1 Hlt) as (nm & Hnm & Hcont).
    assert (nm = n1) as -> by congruence.
    destruct (continues_stops _ _ Hcont Hs1).
  - congruence.
  - destruct (Hc1 k2 Hlt) as (nm & Hnm & Hcont).
    assert (nm = n2) as -> by congruence.
    destruct (continues_stops _ _ Hcont Hs2).
Qed.

Section Walk.
Context (origin ho start : ref) (xo yo : Z) (po : option ref).
Hypothesis Hho : ho ∈ live.
Hypothesis Hobj : h !! ho = Some (Node2D xo yo (Some start) po).
Hypothesis Hpo : get_point h origin = Ok (mkPoint2D xo yo).

Lemma walk_from_path fuel path node visited :
  NoDup (node :: path) →
  Forall (λ r, r ∈ live ∧ ∃ x y n p, h !! r = Some (Node2D x y n p))
    (node :: path) →
  next_n h (length path) start = Ok node →
  (∀ m, (m < length path)%nat →
        ∃ nm, next_n h m start = Ok nm ∧ continues h origin nm) →
  (∀ r, r ∈ node :: path → r ≠ start →
        ∃ q xq yq pq, q ∈ path ∧ h !! q = Some (Node2D xq yq (Some r) pq)) →
  (∀ r, r ∈ path → r ≠ ho) →
  (length h < fuel + length path)%nat →
  Forall (.∈ live) visited →
  ∃ node' visited',
    walk fuel h origin node visited = Ok (node', visited') ∧
    walk_ends h origin start node' ∧ Forall (.∈ live) visited'.
Proof using Hwf Hho Hobj Hpo.
  revert path node visited.
  induction fuel as [|fuel IH]; intros path node visited Hnd Hreal Hn Hcont
    Hpred Hnho Hfuel Hvis.
  { exfalso.
    assert (length (node :: path) ≤ length h)%nat as Hlen.
    { apply NoDup_bounded_length; [done|].
      eapply Forall_impl; [exact Hreal|]. intros r [Hr _]. by apply live_lt. }
    simpl in *. lia. }
  pose proof Hreal as Hreal'.
  apply Forall_cons in Hreal' as [(Hlive & x & y & n & p & Hnode) Hpath].
  destruct (live_node_next node x y n p Hlive Hnode) as (Hnx & Hpt & Hc).
  simpl. rewrite Hnx. simpl.
  destruct n as [c|].
  2:{ exists node, visited. split; [done|]. split; [|done].
      exists (length path). split; [done|]. split; [done|]. by left. }
  unfold node_eq at 1. rewrite Hpt, Hpo. simpl.
  destruct (Point2D_eq (mkPoint2D x y) (mkPoint2D xo yo)) eqn:He.
  { exists node, visited. split; [done|]. split; [|done].
    exists (length path). split; [done|]. split; [done|]. right.
    split; [eauto|]. unfold node_eq. by rewrite Hpt, Hpo, <- He. }
  assert (continues h origin node) as Hcn.
  { split; [eauto|]. unfold node_eq. by rewrite Hpt, Hpo, <- He. }
  assert (node ≠ ho) as Hnode_ho.
  { intros ->. rewrite Hobj in Hnode. injection Hnode as <- <- _ _.
    by rewrite Point2D_eq_refl in He. }
  destruct (Hc c eq_refl) as (Hclive & xc & yc & nc & Hcobj).
  destruct (set_add_live visited node Hvis Hlive) as (v' & -> & Hv'). simpl.
  apply (IH (node :: path) c v').
  - apply NoDup_cons. split; [|done]. intros Hin.
    destruct (decide (c = start)) as [->|Hcs].
    + destruct (live_node_next ho xo yo (Some start) po Hho Hobj)
        as (_ & _ & Hs).
      destruct (Hs start eq_refl) as (_ & ? & ? & ? & Hs').
      congruence.
    + destruct (Hpred c Hin Hcs) as (q & xq & yq & pq & Hq & Hqobj).
      rewrite Forall_forall in Hpath. destruct (Hpath q Hq) as [Hql _].
      destruct (live_node_next q xq yq (Some c) pq Hql Hqobj) as (_ & _ & Hqc).
      destruct (Hqc c eq_refl) as (_ & ? & ? & ? & Hc').
      assert (q = node) as -> by congruence.
      by apply NoDup_cons in Hnd as [? _].
  - apply Forall_cons. split; [|done]. split; [done|eauto].
  - simpl. by eapply next_n_snoc.
  - simpl. intros m Hm. destruct (decide (m = length path)) as [->|Hne].
    + eauto.
    + apply Hcont. lia.
  - intros r [->|Hr]%elem_of_cons Hrs.
    + exists node, x, y, p. split; [left|done].
    + destruct (Hpred r Hr Hrs) as (q & xq & yq & pq & Hq & Hqobj).
      exists q, xq, yq, pq. split; [by right|done].
  - intros r [->|Hr]%elem_of_cons; [done|by apply Hnho].
  - simpl. lia.
  - done.
Qed.
End Walk.

(** On a consistent graph every walk of the extractor ends, within as
    many steps as the heap has objects. *)
Lemma walk_live fuel origin start visited :
  origin ∈ live → get_next h origin = Ok (Some start) →
  (length h < fuel)%nat → Forall (.∈ live) visited →
  ∃ node visited',
    walk fuel h origin start visited = Ok (node, visited') ∧
    walk_ends h origin start node ∧ Forall (.∈ live) visited' ∧
    ∃ b, node_eq h node origin = Ok b.
Proof using Hwf.
  intros Ho Hnx Hfuel Hvis.
  destruct (live_holder origin Ho) as (ho & xo & yo & n & po & Hho & Hobj & Hh & Hpo).
  destruct (live_next origin ho xo yo n po Hho Hobj Hh) as [Hn Hc].
  assert (n = Some start) as -> by congruence.
  destruct (Hc start eq_refl) as (Hsl & xs & ys & ns & Hs).
  destruct (walk_from_path origin ho start xo yo po Hho Hobj Hpo fuel []
              start visited) as (node & v' & Hw & Hends & Hv');
    try done.
  - apply NoDup_singleton.
  - apply Forall_singleton. eauto 10.
  - intros m Hm. simpl in Hm. lia.
  - intros r ->%list_elem_of_singleton ?. done.
  - intros r Hr. by apply elem_of_nil in Hr.
  - simpl. lia.
  - exists node, v'. do 3 (split; [done|]).
    destruct Hends as (k & _ & _ & Hstop).
    destruct Hstop as [Hnone|[_ He]]; [|eauto].
    (* the end node has links that can be read, hence coordinates *)
    unfold get_next in Hnone.
    apply bind_Ok_inv in Hnone as (c & Hc' & _).
    unfold link_holder in Hc'.
    apply bind_Ok_inv in Hc' as (o & Hd & _).
    assert (get_point h node = Ok (obj_point o)) as Hpn
      by (unfold get_point; by rewrite Hd).
    unfold node_eq. rewrite Hpn, Hpo. simpl. eauto.
Qed.

Lemma closes_dead_end origin start node :
  closes h origin start node → dead_end h origin start → False.
Proof.
  intros [Hends He] (node' & Hends' & He').
  assert (node' = node) as -> by by eapply walk_ends_unique.
  congruence.
Qed.

(** One cell of the scan: nothing happens, a loop is recorded for a walk
    that closes, or the error is raised for a walk that meets a dead
    end. *)
Lemma extract_node_cases fuel loops visited node :
  node ∈ live → Forall (.∈ live) visited → (length h < fuel)%nat →
  (extract_node fuel h (loops, visited) node = Ok (loops, visited) ∧
   (get_next h node = Ok None ∨
    ∃ start, get_next h node = Ok (Some start) ∧
             set_contains h visited node = Ok true))
  ∨ (∃ start nd v',
       get_next h node = Ok (Some start) ∧
       set_contains h visited node = Ok false ∧
       extract_node fuel h (loops, visited) node
       = Ok (loops ++ [mkNodeLoop nd], v') ∧
       closes h node start nd ∧ Forall (.∈ live) v')
  ∨ (∃ start,
       get_next h node = Ok (Some start) ∧
       set_contains h visited node = Ok false ∧
       extract_node fuel h (loops, visited) node = Raise IsNotEnclosed ∧
       dead_end h node start).
Proof using Hwf.
  intros Hnode Hvis Hfuel.
  destruct (live_holder node Hnode)
    as (ho & xo & yo & n & po & Hho & Hobj & Hh & Hpo).
  destruct (live_next node ho xo yo n po Hho Hobj Hh) as [Hn _].
  unfold extract_node. rewrite Hn. simpl.
  destruct n as [start|]; [|left; eauto].
  destruct (set_contains_live visited node Hvis Hnode) as [seen Hseen].
  rewrite Hseen. simpl.
  destruct seen; [left; eauto|]. right.
  destruct (walk_live fuel node start visited Hnode Hn Hfuel Hvis)
    as (nd & v' & Hw & Hends & Hv' & e & He).
  rewrite Hw. simpl. rewrite He. simpl.
  destruct e.
  - left. exists start, nd, v'. do 3 (split; [done|]). by split.
  - right. exists start. do 3 (split; [done|]). by exists nd.
Qed.

Lemma scan_snoc fuel cells o :
  scan fuel h (cells ++ [o]) = (s ← scan fuel h cells; extract_node fuel h s o).
Proof. apply for_each_snoc. Qed.

Lemma scan_cases fuel cells :
  Forall (.∈ live) cells → (length h < fuel)%nat →
  (∃ s, scan fuel h cells = Ok s ∧ Forall (.∈ live) s.2 ∧
     ∀ l, l ∈ s.1 →
       ∃ pre o post s0 start,
         cells = pre ++ o :: post ∧ scan fuel h pre = Ok s0 ∧
         get_next h o = Ok (Some start) ∧
         set_contains h s0.2 o = Ok false ∧ closes h o start (origin l))
  ∨ (scan fuel h cells = Raise IsNotEnclosed ∧
     ∃ pre o post s0 start,
       cells = pre ++ o :: post ∧ scan fuel h pre = Ok s0 ∧
       get_next h o = Ok (Some start) ∧
       set_contains h s0.2 o = Ok false ∧ dead_end h o start).
Proof using Hwf.
  intros Hcells Hfuel.
  induction cells as [|o cells IH] using rev_ind.
  { left. exists ([], []). split; [done|]. split; [done|].
    intros l Hl. by apply elem_of_nil in Hl. }
  apply Forall_app in Hcells as [Hcells [Ho _]%Forall_cons].
  rewrite scan_snoc.
  destruct (IH Hcells) as [([loops visited] & Hs & Hv & Hloops)
                          |(Hs & pre & o' & post & s0 & start & -> & H')].
  - simpl in Hv.
    assert (∀ l, l ∈ loops →
              ∃ pre o' post s0 start,
                cells ++ [o] = pre ++ o' :: post ∧ scan fuel h pre = Ok s0 ∧
                get_next h o' = Ok (Some start) ∧
                set_contains h s0.2 o' = Ok false ∧
                closes h o' start (origin l)) as Hold.
    { intros l Hl.
      destruct (Hloops l Hl) as (pre & o' & post & s0 & start & -> & H').
      exists pre, o', (post ++ [o]), s0, start.
      by rewrite <- app_assoc. }
    destruct (extract_node_cases fuel loops visited o Ho Hv Hfuel)
      as [[He _]|[(start & nd & v' & Hn & Hseen & He & Hcl & Hv')
                 |(start & Hn & Hseen & He & Hde)]];
      rewrite Hs; cbn [mbind result_bind]; rewrite He.
    + left. exists (loops, visited). eauto.
    + left. exists (loops ++ [mkNodeLoop nd], v').
      split; [done|]. split; [done|]. simpl.
      intros l [Hl| ->%list_elem_of_singleton]%elem_of_app; [by apply Hold|].
      exists cells, o, [], (loops, visited), start. eauto.
    + right. split; [done|].
      exists cells, o, [], (loops, visited), start. eauto.
  - right. rewrite Hs. split; [done|].
    exists pre, o', (post ++ [o]), s0, start.
    by rewrite <- app_assoc.
Qed.

End Extractor.

Lemma extract_node_loops_scan fuel h g :
  extract_node_loops fuel h g = (s ← scan fuel h (mjoin (g_data g)); Ok s.1).
Proof.
  unfold extract_node_loops, scan.
  by rewrite (for_each_nested (g_data g) id), list_join_bind.
Qed.

Lemma grid_in_cells live g :
  grid_in live g = true → Forall (.∈ live) (mjoin (g_data g)).
Proof.
  unfold grid_in. intros Hg. apply Forall_forall. intros r Hr.
  apply list_elem_of_join in Hr as (row & Hr & Hrow).
  rewrite forallb_forall in Hg. apply list_elem_of_In, Hg in Hrow.
  rewrite forallb_forall in Hrow. apply list_elem_of_In, Hrow in Hr.
  by apply bool_decide_eq_true in Hr.
Qed.

Lemma increasing_snoc ks k :
  increasing ks → Forall (λ a, a < k)%nat ks → increasing (ks ++ [k]).
Proof.
  intros Hinc Hlt i j a b Hij Hi Hj.
  pose proof (lookup_lt_Some _ _ _ Hj) as Hlen.
  rewrite length_app in Hlen. simpl in Hlen.
  rewrite lookup_app_l in Hi by lia.
  destruct (decide (j < length ks)%nat).
  - rewrite lookup_app_l in Hj by done. exact (Hinc i j a b Hij Hi Hj).
  - assert (j = length ks) as -> by lia.
    rewrite list_lookup_middle in Hj by done. injection Hj as <-.
    by apply (Forall_lookup_1 _ _ _ _ Hlt Hi).
Qed.

Lemma walk_at_snoc fuel h cells o k o' start :
  walk_at fuel h (cells ++ [o]) k o' start ↔
  walk_at fuel h cells k o' start ∨
  (k = length cells ∧ o' = o ∧
   ∃ s, scan fuel h cells = Ok s ∧ get_next h o = Ok (Some start) ∧
        set_contains h s.2 o = Ok false).
Proof.
  unfold walk_at. split.
  - intros [Hk (s & Hs & Hn & Hc)].
    destruct (decide (k < length cells)%nat) as [Hlt|Hge].
    + left. rewrite lookup_app_l in Hk by done.
      rewrite take_app_le in Hs by lia. eauto.
    + right. pose proof (lookup_lt_Some _ _ _ Hk) as Hlen.
      rewrite length_app in Hlen. simpl in Hlen.
      assert (k = length cells) as -> by lia.
      rewrite list_lookup_middle in Hk by done. injection Hk as <-.
      rewrite take_app_length in Hs. eauto 10.
  - intros [[Hk (s & Hs & Hn & Hc)]|(-> & -> & s & Hs & Hn & Hc)].
    + pose proof (lookup_lt_Some _ _ _ Hk) as Hlen.
      rewrite lookup_app_l, take_app_le by lia. eauto.
    + rewrite list_lookup_middle, take_app_length by done. eauto.
Qed.

Lemma walk_at_starts fuel h g k o start :
  starts_walk_at fuel h g k o start → starts_walk fuel h g o start.
Proof.
  intros [Hk (s & Hs & Hn & Hc)].
  exists (take k (mjoin (g_data g))), (drop (S k) (mjoin (g_data g))), s.
  split; [|done]. rewrite <- (take_drop_middle _ _ _ Hk) at 1. done.
Qed.

(** The loops of a scan that returns are the walks it started, one loop
    per walk and in the order of the cells. *)
Lemma scan_walks h live fuel cells s :
  links_consistent h live = true →
  Forall (.∈ live) cells → (length h < fuel)%nat →
  scan fuel h cells = Ok s →
  ∃ ws : list (nat * ref * ref),
    Forall2 (λ l w, walk_at fuel h cells w.1.1 w.1.2 w.2 ∧
                    closes h w.1.2 w.2 (origin l)) s.1 ws ∧
    increasing (ws.*1.*1) ∧
    ∀ k o start, walk_at fuel h cells k o start → (k, o, start) ∈ ws.
Proof.
  intros Hwf Hcells Hfuel. revert s.
  induction cells as [|o cells IH] using rev_ind; intros s Hs.
  { injection Hs as <-. exists []. split_and!; [constructor|by intros ?????|].
    intros k o start [Hk _]. done. }
  apply Forall_app in Hcells as [Hcells [Ho _]%Forall_cons].
  rewrite scan_snoc in Hs. apply bind_Ok_inv in Hs as ([loops visited] & Hs0 & He).
  destruct (IH Hcells _ Hs0) as (ws & Hws & Hsorted & Hall). simpl in Hws.
  assert (Forall (.∈ live) visited) as Hv.
  { destruct (scan_cases h live Hwf fuel cells Hcells Hfuel)
      as [(s' & Hs' & Hv & _)|[Hr _]]; [|congruence].
    by assert (s' = (loops, visited)) as -> by congruence. }
  assert (Forall (λ k, k < length cells)%nat (ws.*1.*1)) as Hpos.
  { apply Forall_fmap, Forall_fmap, Forall_forall. intros w Hw.
    apply list_elem_of_lookup in Hw as [i Hi].
    destruct (Forall2_lookup_r _ _ _ _ _ Hws Hi) as (l & _ & [[Hk _] _]).
    by eapply lookup_lt_Some. }
  destruct (extract_node_cases h live Hwf fuel loops visited o Ho Hv Hfuel)
    as [[He' Hnone]|[(start & nd & v' & Hn & Hseen & He' & Hcl & Hv')
                    |(start & Hn & Hseen & He' & Hde)]];
    rewrite He' in He; [| |done]; injection He as <-; simpl.
  - exists ws. split_and!.
    + eapply Forall2_impl; [exact Hws|]. intros l w [Hw ?]. split; [|done].
      apply walk_at_snoc. by left.
    + done.
    + intros k o' start' [Hw|(-> & -> & s' & Hs' & Hn' & Hc')]%walk_at_snoc;
        [by apply Hall|].
      assert (s' = (loops, visited)) as -> by congruence. simpl in Hc'.
      destruct Hnone as [?|(? & ? & ?)]; congruence.
  - exists (ws ++ [(length cells, o, start)]). split_and!.
    + apply Forall2_app.
      * eapply Forall2_impl; [exact Hws|]. intros l w [Hw ?]. split; [|done].
        apply walk_at_snoc. by left.
      * constructor; [|constructor]. simpl. split; [|done].
        apply walk_at_snoc. right. eauto 10.
    + rewrite !fmap_app. simpl. by apply increasing_snoc.
    + intros k o' start' [Hw|(-> & -> & s' & Hs' & Hn' & Hc')]%walk_at_snoc.
      * apply elem_of_app. left. by apply Hall.
      * apply elem_of_app. right. apply list_elem_of_singleton.
        do 2 f_equal. congruence.
Qed.

(** C9, on consistent graphs: the extractor returns.  It either returns
    the loops or raises [IsNotEnclosed].  The loops it returns are the
    walks it started, one loop per walk and in the order of the cells,
    each recorded at the node where the walk came back to a node equal
    to its origin; it raises exactly when a walk that it starts reaches
    a node without [next] that is not equal to the origin, before any
    node equal to the origin. *)
Theorem extractor_records_or_signals (h : heap) (live : list ref)
    (g : NodeGrid2D) (fuel : nat) :
  links_consistent h live = true → grid_in live g = true →
  (length h < fuel)%nat →
  ((∃ loops (ws : list (nat * ref * ref)),
      extract_node_loops fuel h g = Ok loops ∧
      Forall2 (λ l w, starts_walk_at fuel h g w.1.1 w.1.2 w.2 ∧
                      closes h w.1.2 w.2 (origin l)) loops ws ∧
      increasing (ws.*1.*1) ∧
      (∀ k o start, starts_walk_at fuel h g k o start → (k, o, start) ∈ ws) ∧
      ∀ l, l ∈ loops →
        ∃ o start, starts_walk fuel h g o start ∧ closes h o start (origin l))
   ∨ extract_node_loops fuel h g = Raise IsNotEnclosed) ∧
  (extract_node_loops fuel h g = Raise IsNotEnclosed
   ↔ ∃ o start, starts_walk fuel h g o start ∧ dead_end h o start).
Proof.
  intros Hwf Hg%grid_in_cells Hfuel.
  rewrite extract_node_loops_scan.
  destruct (scan_cases h live Hwf fuel _ Hg Hfuel)
    as [([loops visited] & Hs & Hv & Hloops)
       |(Hs & pre & o & post & s0 & start & Hcells & Hpre & Hn & Hseen & Hde)].
  - destruct (scan_walks h live fuel _ _ Hwf Hg Hfuel Hs) as (ws & Hws & Hsorted & Hall).
    rewrite Hs. simpl. split.
    + left. exists loops, ws. split; [done|]. split; [exact Hws|].
      split; [done|]. split; [exact Hall|]. intros l Hl.
      destruct (Hloops l Hl) as (pre & o & post & s0 & start & ? & ? & ? & ? & ?).
      exists o, start. split; [|done]. by exists pre, post, s0.
    + split; [done|].
      intros (o & start & (pre & post & s0 & Hcells & Hpre & Hn & Hseen) & Hde).
      exfalso.
      assert (Forall (.∈ live) pre ∧ o ∈ live) as [Hprel Hol].
      { rewrite Hcells in Hg. apply Forall_app in Hg as [? [? _]%Forall_cons].
        done. }
      destruct (scan_cases h live Hwf fuel pre Hprel Hfuel)
        as [(s0' & Hs0' & Hv0 & _)|[Hr _]]; [|congruence].
      assert (s0' = s0) as -> by congruence.
      unfold scan in Hs. rewrite Hcells, for_each_app in Hs.
      fold (scan fuel h pre) in Hs. rewrite Hpre in Hs.
      cbn [for_each mbind result_bind] in Hs.
      destruct s0 as [loops0 visited0]. cbn [fst snd] in *.
      destruct (extract_node_cases h live Hwf fuel loops0 visited0 o Hol Hv0 Hfuel)
        as [[_ [Hnone|(? & ? & Htrue)]]
           |[(start' & nd & v' & Hn' & _ & _ & Hcl & _)
            |(start' & _ & _ & Hraise & _)]].
      * congruence.
      * congruence.
      * assert (start' = start) as -> by congruence.
        by eapply closes_dead_end.
      * by rewrite Hraise in Hs.
  - rewrite Hs. simpl. split; [by right|]. split; [|done].
    intros _. exists o, start. split; [|done]. by exists pre, post, s0.
Qed.

Lemma extractor_records_or_signals_witness :
  let live := [0; 1; 2; 3; 4; 5; 6; 7; 8; 9; 11; 12; 13; 14; 15; 16; 17; 18]%nat in
  ((∃ loops (ws : list (nat * ref * ref)),
      extract_node_loops 20 touching_heap touching_grid = Ok loops ∧
      Forall2 (λ l w, starts_walk_at 20 touching_heap touching_grid w.1.1 w.1.2 w.2 ∧
                      closes touching_heap w.1.2 w.2 (origin l)) loops ws ∧
      increasing (ws.*1.*1) ∧
      (∀ k o start, starts_walk_at 20 touching_heap touching_grid k o start →
                    (k, o, start) ∈ ws) ∧
      ∀ l, l ∈ loops →
        ∃ o start, starts_walk 20 touching_heap touching_grid o start
                   ∧ closes touching_heap o start (origin l))
   ∨ extract_node_loops 20 touching_heap touching_grid = Raise IsNotEnclosed) ∧
  (extract_node_loops 20 touching_heap touching_grid = Raise IsNotEnclosed
   ↔ ∃ o start, starts_walk 20 touching_heap touching_grid o start
                ∧ dead_end touching_heap o start).
Proof.
  intros live.
  apply (extractor_records_or_signals touching_heap live touching_grid 20);
    [reflexivity|reflexivity|simpl; lia].
Defined.

(** An open chain is a consistent graph on which the error is raised. *)
Example extractor_raises_on_open_chain :
  let h := [Node2D 0 0 (Some 1%nat) None; Node2D 1 0 None (Some 0%nat)] in
  links_consistent h [0; 1]%nat = true ∧
  extract_node_loops 5 h (mkNodeGrid2D 2 1 [[0; 1]%nat]) = Raise IsNotEnclosed.
Proof. split; reflexivity. Qed.

Lemma set_contains_no_raise h visited a :
  (∃ b, set_contains h visited a = Ok b) ∨ set_contains h visited a = OutOfFuel.
Proof.
  induction visited as [|v visited IH]; simpl; [eauto|].
  case_decide; [eauto|].
  unfold node_hash, node_eq, get_point, deref.
  destruct (h !! v); simpl; [|by right].
  destruct (h !! a); simpl; [|by right].
  destruct (_ =? _); simpl; [|done].
  destruct (Point2D_eq _ _); [eauto|done].
Qed.

Lemma walk_shared_successor fuel visited :
  walk fuel shared_successor_heap 0 2 visited = OutOfFuel ∧
  walk fuel shared_successor_heap 0 1 visited = OutOfFuel.
Proof.
  revert visited. induction fuel as [|fuel IH]; intros visited; [done|].
  split; simpl; unfold set_add.
  - destruct (set_contains_no_raise shared_successor_heap visited 2)
      as [[b ->]| ->]; simpl; [apply IH|done].
  - destruct (set_contains_no_raise shared_successor_heap visited 1)
      as [[b ->]| ->]; simpl; [apply IH|done].
Qed.

(** C9 as stated fails: on the grid built by [connect(a, b)],
    [connect(c, b)], [connect(b, a)] the nodes [a] and [c] share the
    successor [b]; the walk from [c] circles through [b] and [a] for ever,
    so the extractor neither records a loop nor raises, whatever the
    budget. *)
Lemma extractor_never_returns_on_shared_successor :
  shared_successor_graph = Ok (shared_successor_heap, shared_successor_grid) ∧
  ∀ fuel,
    extract_node_loops fuel shared_successor_heap shared_successor_grid
    = OutOfFuel.
Proof.
  split; [reflexivity|]. intros fuel.
  unfold extract_node_loops. simpl.
  by rewrite (proj1 (walk_shared_successor fuel [])).
Qed.

(** ** The step budget does not influence results *)

Lemma for_each_mono {A S} (l : list A) (f g : S → A → result S) s s' :
  (∀ s a s', f s a = Ok s' → g s a = Ok s') →
  for_each l f s = Ok s' → for_each l g s = Ok s'.
Proof.
  intros Hfg. revert s. induction l as [|a l IH]; intros s; simpl; [done|].
  intros (s1 & Hf & Hrest)%bind_Ok_inv.
  rewrite (Hfg _ _ _ Hf). simpl. auto.
Qed.

Lemma walk_fuel_mono fuel fuel' h o n v r :
  (fuel ≤ fuel')%nat → walk fuel h o n v = Ok r → walk fuel' h o n v = Ok r.
Proof.
  revert fuel' n v. induction fuel as [|fuel IH]; intros fuel' n v Hle; [done|].
  destruct fuel' as [|fuel']; [lia|]. simpl.
  destruct (get_next h n) as [[nx|]| |]; simpl; try done.
  destruct (node_eq h n o) as [[]| |]; simpl; try done.
  destruct (set_add h v n); simpl; try done.
  apply IH. lia.
Qed.

Lemma extract_node_loops_fuel_mono fuel fuel' h g r :
  (fuel ≤ fuel')%nat →
  extract_node_loops fuel h g = Ok r → extract_node_loops fuel' h g = Ok r.
Proof.
  intros Hle. unfold extract_node_loops.
  intros (s & Hs & Hr)%bind_Ok_inv.
  erewrite for_each_mono; [exact Hr| |exact Hs].
  intros s0 row s1. apply for_each_mono.
  clear -Hle. intros [loops visited] node s'. unfold extract_node.
  destruct (get_next h node) as [[nx|]| |]; simpl; try done.
  destruct (set_contains h visited node) as [[]| |]; simpl; try done.
  destruct (walk fuel h node nx visited) as [[nd v']| |] eqn:Hw; simpl;
    try done.
  by rewrite (walk_fuel_mono _ _ _ _ _ _ _ Hle Hw).
Qed.

Lemma optimize_from_fuel_mono fuel fuel' h o n r :
  (fuel ≤ fuel')%nat →
  optimize_from fuel h o n = Ok r → optimize_from fuel' h o n = Ok r.
Proof.
  revert fuel' h n. induction fuel as [|fuel IH]; intros fuel' h n Hle; [done|].
  destruct fuel' as [|fuel']; [lia|]. simpl.
  destruct (optimize_step h n) as [[h1 n1]| |]; simpl; try done.
  destruct (node_eq h1 n1 o) as [[]| |]; simpl; try done.
  apply IH. lia.
Qed.

Lemma path_data_from_fuel_mono fuel fuel' svg h o n acc r :
  (fuel ≤ fuel')%nat →
  path_data_from fuel svg h o n acc = Ok r →
  path_data_from fuel' svg h o n acc = Ok r.
Proof.
  revert fuel' n acc. induction fuel as [|fuel IH]; intros fuel' n acc Hle;
    [done|].
  destruct fuel' as [|fuel']; [lia|]. simpl.
  destruct (get_next h n) as [nx| |]; simpl; try done.
  destruct (not_None nx) as [nx'| |]; simpl; try done.
  destruct (node_eq h nx' o) as [[]| |]; simpl; try done.
  destruct (get_point h nx'); simpl; try done.
  apply IH. lia.
Qed.

Lemma loop_to_path_data_fuel_mono fuel fuel' svg h l r :
  (fuel ≤ fuel')%nat →
  loop_to_path_data fuel svg h l = Ok r → loop_to_path_data fuel' svg h l = Ok r.
Proof.
  intros Hle. unfold loop_to_path_data.
  destruct (get_point h (origin l)); simpl; try done.
  destruct (path_data_from fuel svg h _ _ _) as [d| |] eqn:Hd; simpl; try done.
  by rewrite (path_data_from_fuel_mono _ _ _ _ _ _ _ _ Hle Hd).
Qed.

Lemma process_cluster_fuel_mono fuel fuel' svg cl r :
  (fuel ≤ fuel')%nat →
  process_cluster fuel svg cl = Ok r → process_cluster fuel' svg cl = Ok r.
Proof.
  intros Hle. unfold process_cluster.
  destruct (trace_bitmask _) as [[h g]| |]; simpl; try done.
  destruct (extract_node_loops fuel h g) as [loops| |] eqn:Hl; simpl; try done.
  rewrite (extract_node_loops_fuel_mono _ _ _ _ _ Hle Hl). simpl.
  destruct (for_each loops (λ h l, optimize fuel h l) h) as [h'| |] eqn:Ho;
    simpl; try done.
  erewrite (for_each_mono loops _ (λ h l, optimize fuel' h l)); [| |exact Ho].
  2:{ intros ???. by apply optimize_from_fuel_mono. }
  simpl.
  destruct (for_each loops _ []) as [ds| |] eqn:Hd; simpl; try done.
  erewrite (for_each_mono loops); [done| |exact Hd].
  intros ds0 l ds1. simpl.
  destruct (loop_to_path_data fuel svg h' l) as [d| |] eqn:Hp; simpl; try done.
  by rewrite (loop_to_path_data_fuel_mono _ _ _ _ _ _ Hle Hp).
Qed.

Lemma flood_fill_fuel_mono fuel fuel' bm regions rid stack x y r :
  (fuel ≤ fuel')%nat →
  flood_fill fuel bm regions rid stack x y = Ok r →
  flood_fill fuel' bm regions rid stack x y = Ok r.
Proof.
  revert fuel' regions stack x y.
  induction fuel as [|fuel IH]; intros fuel' regions stack x y Hle.
  - destruct stack as [|[]]; [|done]. by destruct fuel'.
  - destruct fuel' as [|fuel']; [lia|]. simpl.
    destruct stack as [|[x0 y0] stack]; [done|].
    destruct (np_get regions y0 x0) as [lab| |]; simpl; try done.
    destruct (negb (lab =? 0)); [apply IH; lia|].
    destruct (np_set regions y0 x0 _); simpl; try done.
    destruct (np_neumann_neighbors bm x0 y0); simpl; try done.
    apply IH. lia.
Qed.

Lemma find_connected_neumann_regions_fuel_mono fuel fuel' bm r :
  (fuel ≤ fuel')%nat →
  find_connected_neumann_regions fuel bm = Ok r →
  find_connected_neumann_regions fuel' bm = Ok r.
Proof.
  intros Hle. unfold find_connected_neumann_regions.
  intros (s & Hs & Hr)%bind_Ok_inv.
  erewrite for_each_mono; [exact Hr| |exact Hs].
  intros [[regions rid] y0] y s1. apply for_each_mono.
  clear -Hle. intros [[regions rid] y] x s'. unfold label_cell.
  destruct (np_get bm y x) as [v| |]; simpl; try done.
  destruct (v =? 1); [|done].
  destruct (np_get regions y x) as [lab| |]; simpl; try done.
  destruct (lab =? 0); [|done].
  destruct (flood_fill fuel _ _ _ _ _ _) as [[[r1 x1] y1]| |] eqn:Hf; simpl;
    try done.
  by rewrite (flood_fill_fuel_mono _ _ _ _ _ _ _ _ _ Hle Hf).
Qed.

Lemma split_into_clusters_fuel_mono fuel fuel' rg r :
  (fuel ≤ fuel')%nat →
  split_into_clusters fuel rg = Ok r → split_into_clusters fuel' rg = Ok r.
Proof.
  intros Hle. unfold split_into_clusters.
  intros (m & Hm & Hr)%bind_Ok_inv.
  by rewrite (find_connected_neumann_regions_fuel_mono _ _ _ _ Hle Hm).
Qed.

Lemma trace_image_fuel_mono fuel fuel' img scale svg :
  (fuel ≤ fuel')%nat →
  trace_image fuel img scale = Ok svg → trace_image fuel' img scale = Ok svg.
Proof.
  intros Hle. unfold trace_image.
  destruct (get_distinct_color_regions img) as [regions| |]; simpl; try done.
  intros (cs & Hcs & Hsvg)%bind_Ok_inv.
  erewrite for_each_mono; [| |exact Hcs].
  2:{ intros acc rg acc'. simpl.
      destruct (split_into_clusters fuel rg) as [c| |] eqn:Hc; simpl; try done.
      by rewrite (split_into_clusters_fuel_mono _ _ _ _ Hle Hc). }
  simpl. eapply for_each_mono; [|exact Hsvg].
  intros ???. by apply process_cluster_fuel_mono.
Qed.

(** Two runs that both produce a document produce the same one. *)
Lemma trace_image_deterministic fuel1 fuel2 img scale svg1 svg2 :
  trace_image fuel1 img scale = Ok svg1 →
  trace_image fuel2 img scale = Ok svg2 → svg1 = svg2.
Proof.
  intros H1 H2.
  apply (trace_image_fuel_mono _ (fuel1 `max` fuel2)) in H1; [|lia].
  apply (trace_image_fuel_mono _ (fuel1 `max` fuel2)) in H2; [|lia].
  congruence.
Qed.

(** ** Order of the colours, of the clusters and of the paths *)

Lemma first_occurrences_fmap {A B} `{EqDecision A} `{EqDecision B}
    (f : A → B) (l : list A) :
  (∀ x y, x ∈ l → y ∈ l → f x = f y → x = y) →
  first_occurrences (f <$> l) = f <$> first_occurrences l.
Proof.
  induction l as [|x l IH] using rev_ind; intros Hinj; [done|].
  rewrite fmap_app. simpl. rewrite !first_occurrences_snoc.
  rewrite IH by (intros ????; apply Hinj; set_solver).
  destruct (decide (x ∈ first_occurrences l)) as [Hx|Hx].
  - rewrite decide_True; [done|]. by apply list_elem_of_fmap_2.
  - rewrite decide_False; [by rewrite fmap_snoc|].
    intros (y & Hfy & Hy)%list_elem_of_fmap. apply Hx.
    rewrite elem_of_first_occurrences in Hy |- *.
    assert (x = y) as ->; [|done].
    apply Hinj; [set_solver|set_solver|done].
Qed.

Lemma fmap_inj_on {A B} (f : A → B) (l k : list A) (P : A → Prop) :
  (∀ x y, P x → P y → f x = f y → x = y) →
  Forall P l → Forall P k → f <$> l = f <$> k → l = k.
Proof.
  intros Hinj Hl. revert k. induction Hl as [|x l Hx Hl IH]; intros k Hk.
  - by destruct k.
  - destruct Hk as [|y k Hy Hk]; [done|]. simpl. intros [= Hxy Hlk].
    f_equal; auto.
Qed.

(** What the colour grouping loop has built. *)
Lemma get_distinct_color_regions_grouped img :
  valid_image img →
  ∃ known d,
    get_distinct_color_regions img = Ok (dict_values d) ∧
    grouped (ncols img) (nrows img) (color_events img) (known, d) ∧
    ∀ k rg, (k, rg) ∈ d → k = to_hex (color rg) ∧ valid_color (color rg).
Proof.
  intros Himg. assert (∀ x y p, (x, y, p) ∈ cells_row_major img → valid_pixel p) as Hvalid
    by (intros; by eapply valid_image_cells).
  destruct Himg as [Hwf Hpix].
  rewrite get_distinct_color_regions_events by done.
  destruct (for_each_group_in_bounds _ _ _ (color_events_wf img Hwf))
    as [[known d] Hs].
  rewrite Hs. simpl. exists known, d. split; [done|].
  assert (grouped (ncols img) (nrows img) (color_events img) (known, d))
    as Hg.
  { eapply grouped_for_each; [|done].
    eapply Forall_impl; [by apply color_events_wf|]. by intros ? (?&_). }
  split; [done|]. destruct Hg as (Hkeys & Hknown & Hregs). simpl in *.
  intros k rg Hin. apply elem_of_dict_get in Hin.
  2:{ rewrite Hkeys. apply NoDup_first_occurrences. }
  destruct (Hregs k rg Hin) as ((e & He & Hk & Hc) & _).
  apply list_elem_of_fmap in He as ([[x y] p] & -> & Hp).
  unfold event_key, event_fresh in *. simpl in *. subst k. rewrite Hc.
  split; [done|]. apply Hvalid in Hp. by destruct p as [[[??]?]?].
Qed.

Lemma valid_pixel_color p : valid_pixel p → valid_color (pixel_color p).
Proof. by destruct p as [[[??]?]?]. Qed.

(** The colour regions are listed in the order in which their colours
    first appear in the row-major scan of the image. *)
Lemma get_distinct_color_regions_order img regions :
  valid_image img →
  get_distinct_color_regions img = Ok regions →
  color <$> regions = first_occurrences (image_colors img).
Proof.
  intros Himg Hr.
  destruct (get_distinct_color_regions_grouped img Himg)
    as (known & d & Hd & (Hkeys & _) & Hkey).
  rewrite Hd in Hr. injection Hr as <-. simpl in Hkeys.
  assert (∀ x y p, (x, y, p) ∈ cells_row_major img → valid_pixel p) as Hvalid
    by (intros; by eapply valid_image_cells).
  apply (fmap_inj_on to_hex _ _ valid_color).
  - intros. by apply to_hex_inj.
  - apply Forall_forall. intros c (rg & -> & Hrg)%list_elem_of_fmap.
    apply list_elem_of_fmap in Hrg as ([k rg'] & -> & Hin).
    by apply (Hkey k rg').
  - apply Forall_forall. intros c Hc.
    rewrite elem_of_first_occurrences in Hc.
    apply list_elem_of_fmap in Hc as ([[x y] p] & -> & Hp).
    apply valid_pixel_color. eauto.
  - rewrite <- first_occurrences_fmap.
    2:{ intros c1 c2 ([[x1 y1] p1] & -> & Hp1)%list_elem_of_fmap
                     ([[x2 y2] p2] & -> & Hp2)%list_elem_of_fmap.
        apply to_hex_inj; apply valid_pixel_color; eauto. }
    assert (to_hex <$> (color <$> dict_values d) = d.*1) as ->.
    { unfold dict_values. rewrite <- !list_fmap_compose.
      apply list_fmap_ext. intros n [k rg] Hl. simpl. symmetry.
      by apply (Hkey k rg), list_elem_of_lookup_2 with n. }
    rewrite Hkeys. f_equal. unfold image_colors, color_events.
    rewrite <- !list_fmap_compose. apply list_fmap_ext.
    by intros n [[x y] p] _.
Qed.

(** In the list of keys by first appearance, an earlier key has an
    occurrence before every occurrence of a later key. *)
Lemma first_occurrences_order {A K} `{EqDecision K} (key : A → K)
    (P : A → Prop) `{∀ a, Decision (P a)} (l : list A) (i j : nat) a b :
  (i < j)%nat →
  first_occurrences (key <$> filter P l) !! i = Some a →
  first_occurrences (key <$> filter P l) !! j = Some b →
  ∃ p c, l !! p = Some c ∧ key c = a ∧ P c ∧
         ∀ q d, l !! q = Some d → key d = b → P d → (p < q)%nat.
Proof.
  revert i j a b. induction l as [|x l IH] using rev_ind;
    intros i j a b Hij Ha Hb; [done|].
  assert (∀ d, d ∈ l → P d →
            key d ∈ first_occurrences (key <$> filter P l)) as Hmem.
  { intros d Hd HP. rewrite elem_of_first_occurrences. apply list_elem_of_fmap_2.
    by apply list_elem_of_filter. }
  assert (∀ a, a ∈ first_occurrences (key <$> filter P l) →
            ∃ p c, l !! p = Some c ∧ key c = a ∧ P c) as Hocc.
  { intros a' Ha'. rewrite elem_of_first_occurrences in Ha'.
    apply list_elem_of_fmap in Ha' as (c & -> & [HP Hc]%list_elem_of_filter).
    apply list_elem_of_lookup in Hc as [p Hp]. eauto. }
  (* both keys already appear in [l] *)
  assert (first_occurrences (key <$> filter P l) !! i = Some a →
          first_occurrences (key <$> filter P l) !! j = Some b →
          ∃ p c, (l ++ [x]) !! p = Some c ∧ key c = a ∧ P c ∧
            ∀ q d, (l ++ [x]) !! q = Some d → key d = b → P d → (p < q)%nat)
    as Hold.
  { intros Ha' Hb'. destruct (IH _ _ _ _ Hij Ha' Hb') as (p & c & Hp & Hk & HP & Hq).
    exists p, c. split; [by apply lookup_app_l_Some|]. split; [done|].
    split; [done|]. intros q d Hd Hkd HPd.
    apply lookup_app_Some in Hd as [Hd|[Hlen Hd]]; [eauto|].
    apply lookup_lt_Some in Hp. lia. }
  rewrite filter_app in Ha, Hb.
  destruct (decide (P x)) as [HPx|HPx].
  2:{ rewrite (filter_cons_False _ _ _ HPx), filter_nil, app_nil_r in Ha, Hb.
      auto. }
  rewrite (filter_cons_True _ _ _ HPx), filter_nil, fmap_snoc,
    first_occurrences_snoc in Ha, Hb.
  destruct (decide (key x ∈ first_occurrences (key <$> filter P l)))
    as [Hx|Hx]; [auto|].
  apply lookup_snoc_Some in Hb as [[Hj Hb]|[Hj <-]].
  - rewrite lookup_app_l in Ha by lia. auto.
  - rewrite lookup_app_l in Ha by lia.
    destruct (Hocc a) as (p & c & Hp & Hk & HP); [by eapply list_elem_of_lookup_2|].
    exists p, c. split; [by apply lookup_app_l_Some|]. split; [done|].
    split; [done|]. intros q d Hd Hkd HPd.
    apply lookup_app_Some in Hd as [Hd|[Hlen Hd]].
    + destruct Hx. rewrite <- Hkd. apply Hmem; [|done].
      by eapply list_elem_of_lookup_2.
    + apply lookup_lt_Some in Hp. lia.
Qed.

Lemma cells_row_major_unique {A} (a : ndarray A) x y v v' :
  (x, y, v) ∈ cells_row_major a → (x, y, v') ∈ cells_row_major a → v = v'.
Proof.
  intros (_ & _ & H1)%elem_of_cells_row_major (_ & _ & H2)%elem_of_cells_row_major.
  congruence.
Qed.

Lemma split_into_clusters_events fuel rg :
  split_into_clusters fuel rg
  = (m ← find_connected_neumann_regions fuel (bitmask (points rg));
     s ← for_each (cluster_events rg m) group_event (∅, []);
     Ok (dict_values s.2)).
Proof.
  unfold split_into_clusters.
  destruct (find_connected_neumann_regions _ _) as [m| |]; simpl; try done.
  rewrite (for_each_cells m
    (λ s x y id,
       if id =? 0 then Ok s
       else group_point id
              (Color2DRegion_init (color rg) (width (points rg))
                 (height (points rg))) x y s)).
  unfold cluster_events, labelled_cells.
  rewrite for_each_fmap, <- for_each_filter.
  erewrite for_each_ext; [reflexivity|].
  intros s [[x y] id] _. simpl.
  destruct (Z.eqb_spec id 0) as [->|Hid].
  - by rewrite decide_False by (simpl; lia).
  - by rewrite decide_True by done.
Qed.

Lemma cluster_events_wf rg m :
  Forall (wf_event (width (points rg)) (height (points rg)))
    (cluster_events rg m).
Proof.
  apply Forall_forall. intros e (c & -> & Hc)%list_elem_of_fmap.
  apply list_elem_of_filter in Hc as [_ Hc]. destruct c as [[x y] id].
  apply elem_of_cells_row_major in Hc as (Hx & Hy & _).
  split; [by eexists|]. done.
Qed.

Lemma elem_of_cluster_events rg m k x y :
  (k, x, y) ∈ event_at <$> cluster_events rg m
  ↔ (x, y, k) ∈ cells_row_major m ∧ k ≠ 0.
Proof.
  unfold cluster_events, labelled_cells. rewrite <- list_fmap_compose.
  rewrite list_elem_of_fmap. split.
  - intros ([[x' y'] id] & [= -> -> ->] & [Hid Hc]%list_elem_of_filter). done.
  - intros [Hc Hk]. exists (x, y, k). split; [done|].
    by apply list_elem_of_filter.
Qed.

Lemma cluster_events_keys rg m :
  first_occurrences (event_key <$> cluster_events rg m) = cluster_ids m.
Proof.
  unfold cluster_ids, cluster_events. f_equal.
  rewrite <- list_fmap_compose. apply list_fmap_ext. by intros n [[x y] id] _.
Qed.

Lemma elem_of_cluster_ids m k :
  k ∈ cluster_ids m ↔ k ≠ 0 ∧ ∃ x y, (x, y, k) ∈ cells_row_major m.
Proof.
  unfold cluster_ids, labelled_cells.
  rewrite elem_of_first_occurrences, list_elem_of_fmap. split.
  - intros ([[x y] id] & -> & [Hid Hc]%list_elem_of_filter). eauto.
  - intros (Hk & x & y & Hc). exists (x, y, k). split; [done|].
    by apply list_elem_of_filter.
Qed.

(** The clusters of a region are listed in the order in which the
    row-major scan of the label matrix meets their first pixel. *)
Lemma split_into_clusters_order fuel rg cs :
  split_into_clusters fuel rg = Ok cs →
  ∃ m, find_connected_neumann_regions fuel (bitmask (points rg)) = Ok m ∧
       clusters_in_scan_order m rg cs.
Proof.
  rewrite split_into_clusters_events.
  intros (m & Hm & ([known d] & Hs & [= <-])%bind_Ok_inv)%bind_Ok_inv.
  exists m. split; [done|].
  apply (grouped_for_each (width (points rg)) (height (points rg))) in Hs
    as (Hkeys & _ & Hregs); [|apply cluster_events_wf].
  simpl in *. rewrite cluster_events_keys in Hkeys.
  assert (NoDup d.*1) as Hnd by (rewrite Hkeys; apply NoDup_first_occurrences).
  assert (∀ k cl, (k, cl) ∈ d → cluster_of m rg k cl) as Hcl.
  { intros k cl Hin.
    assert (k ∈ cluster_ids m) as [Hk _]%elem_of_cluster_ids.
    { rewrite <- Hkeys. by apply (list_elem_of_fmap_2 fst d (k, cl)). }
    apply elem_of_dict_get in Hin; [|done].
    destruct (Hregs k cl Hin) as ((e & He & _ & Hc) & _ & _ & _ & _ & Hdata).
    split; [done|]. split.
    - rewrite Hc. by apply list_elem_of_fmap in He as ([[??]?] & -> & _).
    - intros x y. rewrite Hdata, elem_of_cluster_events. tauto. }
  unfold dict_values. split.
  - rewrite <- Hkeys. apply Forall2_fmap, Forall_Forall2_diag, Forall_forall.
    intros [k cl] Hin. by apply Hcl.
  - intros i j cl1 cl2 Hij H1 H2.
    rewrite list_lookup_fmap in H1, H2.
    destruct (d !! i) as [[k1 cl1']|] eqn:Hi; simplify_eq/=.
    destruct (d !! j) as [[k2 cl2']|] eqn:Hj; simplify_eq/=.
    pose proof (Hcl _ _ (list_elem_of_lookup_2 _ _ _ Hi)) as (Hk1 & _ & Hd1).
    pose proof (Hcl _ _ (list_elem_of_lookup_2 _ _ _ Hj)) as (Hk2 & _ & Hd2).
    assert (d.*1 !! i = Some k1) as Hi1 by (by rewrite list_lookup_fmap, Hi).
    assert (d.*1 !! j = Some k2) as Hj1 by (by rewrite list_lookup_fmap, Hj).
    rewrite Hkeys in Hi1, Hj1.
    destruct (first_occurrences_order (λ c : Z * Z * Z, c.2) (λ c, c.2 ≠ 0)
                (cells_row_major m) i j k1 k2 Hij Hi1 Hj1)
      as (p & [[x y] v] & Hp & Hv & _ & Hbefore).
    simpl in Hv. subst v.
    (* the first pixel of the earlier cluster *)
    destruct (list_find_elem_of
                (λ c : Z * Z * Z, (c.1.1, c.1.2) ∈ data (points cl1))
                (cells_row_major m) (x, y, k1)) as [[p1 c1] Hf1].
    { by eapply list_elem_of_lookup_2. }
    { simpl. apply Hd1. by eapply list_elem_of_lookup_2. }
    (* the first pixel of the later cluster *)
    assert (k2 ∈ cluster_ids m) as (_ & x2 & y2 & Hc2)%elem_of_cluster_ids
      by (by eapply list_elem_of_lookup_2).
    destruct (list_find_elem_of
                (λ c : Z * Z * Z, (c.1.1, c.1.2) ∈ data (points cl2))
                (cells_row_major m) (x2, y2, k2)) as [[p2 c2] Hf2];
      [done|by apply Hd2|].
    exists p1, p2. unfold first_pixel. rewrite Hf1, Hf2.
    split; [done|]. split; [done|].
    apply list_find_Some in Hf1 as (Hl1 & HP1 & Hmin1).
    apply list_find_Some in Hf2 as (Hl2 & HP2 & _).
    assert (p1 ≤ p)%nat.
    { destruct (decide (p1 ≤ p)%nat) as [|Hn]; [done|].
      destruct (Hmin1 p (x, y, k1)); [done|lia|].
      simpl. apply Hd1. by eapply list_elem_of_lookup_2. }
    assert (p < p2)%nat; [|lia].
    destruct c2 as [[x' y'] v']. simpl in HP2.
    apply (Hbefore p2 (x', y', v')); [done|simpl|simpl].
    + apply Hd2 in HP2. eapply cells_row_major_unique; [|exact HP2].
      by eapply list_elem_of_lookup_2.
    + apply Hd2 in HP2.
      assert (v' = k2) as ->; [|done].
      eapply cells_row_major_unique; [|exact HP2].
      by eapply list_elem_of_lookup_2.
Qed.

Lemma for_each_collect {A B} (l : list A) (f : A → result (list B)) acc r :
  for_each l (λ acc a, cs ← f a; Ok (acc ++ cs)) acc = Ok r →
  ∃ groups, Forall2 (λ a cs, f a = Ok cs) l groups ∧ r = acc ++ mjoin groups.
Proof.
  revert acc. induction l as [|a l IH]; intros acc; simpl.
  - intros [= <-]. exists []. split; [constructor|]. by rewrite app_nil_r.
  - intros (acc1 & (cs & Hcs & [= <-])%bind_Ok_inv & Hrest)%bind_Ok_inv.
    destruct (IH _ Hrest) as (groups & Hg & ->).
    exists (cs :: groups). split; [by constructor|].
    simpl. by rewrite app_assoc.
Qed.

Lemma process_cluster_path fuel svg cl svg' :
  process_cluster fuel svg cl = Ok svg' →
  ∃ p, svg' = add_path svg p ∧ path_color p = to_hex (color cl).
Proof.
  unfold process_cluster.
  intros ([h g] & _ & (loops & _ & (h' & _ & (ds & _ & [= <-])%bind_Ok_inv)
    %bind_Ok_inv)%bind_Ok_inv)%bind_Ok_inv.
  by eexists.
Qed.

Lemma for_each_process_cluster fuel cls svg0 svg :
  for_each cls (λ svg cluster, process_cluster fuel svg cluster) svg0 = Ok svg →
  ∃ ps, paths svg = paths svg0 ++ ps ∧
        Forall2 (path_of_cluster fuel (scale svg0)) ps cls.
Proof.
  revert svg0. induction cls as [|cl cls IH]; intros svg0; simpl.
  - intros [= <-]. exists []. split; [by rewrite app_nil_r|constructor].
  - intros (svg1 & Hcl & Hrest)%bind_Ok_inv.
    destruct (process_cluster_path _ _ _ _ Hcl) as (p & -> & Hp).
    destruct (IH _ Hrest) as (ps & Hps & Hall).
    exists (p :: ps). split.
    + rewrite Hps. simpl. by rewrite <- app_assoc.
    + constructor; [|done]. split; [done|]. by exists svg0.
Qed.

(** C8. For a fixed image and scale the emitted document is a function of
    the input alone: every run that produces a document produces the same
    bytes.  Its paths are those of the clusters, in order: the colour
    regions are listed by first appearance of their colour in the
    row-major scan of the image, the clusters of each opaque region by
    the position of their first pixel in the row-major scan, and the
    paths follow the clusters of the first region, then those of the
    second, and so on. *)
Theorem paths_in_discovery_order (fuel : nat) (img : ndarray pixel) (k : Z)
    (svg : SVG) :
  valid_image img →
  trace_image fuel img k = Ok svg →
  (∀ fuel' doc, convert_image fuel' img k = Ok doc → doc = build_svg svg) ∧
  ∃ regions groups,
    get_distinct_color_regions img = Ok regions ∧
    color <$> regions = first_occurrences (image_colors img) ∧
    Forall2 (λ rg cs,
               ∃ m, find_connected_neumann_regions fuel (bitmask (points rg))
                    = Ok m ∧
                    split_into_clusters fuel rg = Ok cs ∧
                    clusters_in_scan_order m rg cs)
      (filter (λ rg, a (color rg) = 255) regions) groups ∧
    Forall2 (path_of_cluster fuel k) (paths svg) (mjoin groups).
Proof.
  intros Himg Hsvg. split.
  { intros fuel' doc (svg' & Hsvg' & [= <-])%bind_Ok_inv.
    by rewrite (trace_image_deterministic _ _ _ _ _ _ Hsvg' Hsvg). }
  unfold trace_image in Hsvg.
  apply bind_Ok_inv in Hsvg as (regions & Hregions & Hsvg).
  apply bind_Ok_inv in Hsvg as (clusters & Hclusters & Hsvg).
  apply for_each_collect in Hclusters as (groups & Hgroups & ->).
  apply for_each_process_cluster in Hsvg as (ps & Hps & Hpaths).
  simpl in Hps, Hpaths. subst ps.
  exists regions, groups. split; [done|].
  split; [by apply get_distinct_color_regions_order|].
  split; [|done].
  eapply Forall2_impl; [exact Hgroups|].
  intros rg cs Hcs. simpl in Hcs.
  destruct (split_into_clusters_order _ _ _ Hcs) as (m & Hm & Hord). eauto.
Qed.

Lemma paths_in_discovery_order_witness :
  let img := NdArray 1 3 [[(255, 0, 0, 255); (0, 0, 255, 255); (255, 0, 0, 255)]] in
  let svg := mkSVG [mkSVGPath "M0,0L1,0L1,1L0,1Z" "#ff0000ff";
                    mkSVGPath "M2,0L3,0L3,1L2,1Z" "#ff0000ff";
                    mkSVGPath "M1,0L2,0L2,1L1,1Z" "#0000ffff"] 3 1 1 in
  (∀ fuel' doc, convert_image fuel' img 1 = Ok doc → doc = build_svg svg) ∧
  ∃ regions groups,
    get_distinct_color_regions img = Ok regions ∧
    color <$> regions = first_occurrences (image_colors img) ∧
    Forall2 (λ rg cs,
               ∃ m, find_connected_neumann_regions 40 (bitmask (points rg))
                    = Ok m ∧
                    split_into_clusters 40 rg = Ok cs ∧
                    clusters_in_scan_order m rg cs)
      (filter (λ rg, a (color rg) = 255) regions) groups ∧
    Forall2 (path_of_cluster 40 1) (paths svg) (mjoin groups).
Proof.
  intros img svg. apply (paths_in_discovery_order 40 img 1 svg).
  - split; [split; [reflexivity|repeat constructor]|].
    repeat constructor; simpl; lia.
  - vm_compute. reflexivity.
Defined.

(** ** [NodeLoop.optimize] on loops of plain nodes *)

Lemma is_node_Some h r :
  is_node h r = true → ∃ x y n p, h !! r = Some (Node2D x y n p).
Proof.
  unfold is_node. destruct (h !! r) as [[x y n p|]|] eqn:E; try done. eauto.
Qed.

Lemma get_next_node h r : is_node h r = true → get_next h r = Ok (fnext h r).
Proof.
  intros (x & y & n & p & E)%is_node_Some.
  unfold get_next, link_holder, deref, fnext. rewrite E. simpl. by rewrite E.
Qed.

Lemma get_prev_node h r : is_node h r = true → get_prev h r = Ok (fprev h r).
Proof.
  intros (x & y & n & p & E)%is_node_Some.
  unfold get_prev, link_holder, deref, fprev. rewrite E. simpl. by rewrite E.
Qed.

Lemma get_point_node h r : is_node h r = true → get_point h r = Ok (pt h r).
Proof.
  intros (x & y & n & p & E)%is_node_Some.
  unfold get_point, deref, pt. by rewrite E.
Qed.

Lemma set_next_node h r v :
  is_node h r = true → set_next h r v = Ok (upd_next h r v).
Proof.
  intros (x & y & n & p & E)%is_node_Some.
  unfold set_next, link_holder, deref, upd_next. rewrite E. simpl. by rewrite E.
Qed.

Lemma set_prev_node h r v :
  is_node h r = true → set_prev h r v = Ok (upd_prev h r v).
Proof.
  intros (x & y & n & p & E)%is_node_Some.
  unfold set_prev, link_holder, deref, upd_prev. rewrite E. simpl. by rewrite E.
Qed.

Lemma node_eq_node h a b :
  is_node h a = true → is_node h b = true →
  node_eq h a b = Ok (Point2D_eq (pt h a) (pt h b)).
Proof.
  intros Ha Hb. unfold node_eq. by rewrite !get_point_node.
Qed.

Lemma lookup_upd_next h r v r' :
  upd_next h r v !! r'
  = match h !! r' with
    | Some (Node2D x y n p) =>
        Some (Node2D x y (if decide (r' = r) then v else n) p)
    | o => o
    end.
Proof.
  unfold upd_next. destruct (h !! r) as [[x y n p|]|] eqn:E.
  - destruct (decide (r' = r)) as [->|Hne].
    + rewrite list_lookup_insert_eq by (by eapply lookup_lt_Some).
      by rewrite E.
    + rewrite list_lookup_insert_ne by done.
      by destruct (h !! r') as [[]|].
  - destruct (decide (r' = r)) as [->|Hne]; [by rewrite E|].
    by destruct (h !! r') as [[]|].
  - destruct (decide (r' = r)) as [->|Hne]; [by rewrite E|].
    by destruct (h !! r') as [[]|].
Qed.

Lemma lookup_upd_prev h r v r' :
  upd_prev h r v !! r'
  = match h !! r' with
    | Some (Node2D x y n p) =>
        Some (Node2D x y n (if decide (r' = r) then v else p))
    | o => o
    end.
Proof.
  unfold upd_prev. destruct (h !! r) as [[x y n p|]|] eqn:E.
  - destruct (decide (r' = r)) as [->|Hne].
    + rewrite list_lookup_insert_eq by (by eapply lookup_lt_Some).
      by rewrite E.
    + rewrite list_lookup_insert_ne by done.
      by destruct (h !! r') as [[]|].
  - destruct (decide (r' = r)) as [->|Hne]; [by rewrite E|].
    by destruct (h !! r') as [[]|].
  - destruct (decide (r' = r)) as [->|Hne]; [by rewrite E|].
    by destruct (h !! r') as [[]|].
Qed.

Lemma lookup_splice h p x r :
  splice h p x !! r
  = match h !! r with
    | Some (Node2D a b n q) =>
        Some (Node2D a b (if decide (r = p) then Some x else n)
                (if decide (r = x) then Some p else q))
    | o => o
    end.
Proof.
  unfold splice. rewrite lookup_upd_prev, lookup_upd_next.
  by destruct (h !! r) as [[]|].
Qed.

Lemma is_node_splice h p x r : is_node (splice h p x) r = is_node h r.
Proof.
  unfold is_node. rewrite lookup_splice. by destruct (h !! r) as [[]|].
Qed.

Lemma pt_splice h p x r : pt (splice h p x) r = pt h r.
Proof.
  unfold pt. rewrite lookup_splice. by destruct (h !! r) as [[]|].
Qed.

Lemma fnext_splice h p x r :
  is_node h r = true →
  fnext (splice h p x) r = if decide (r = p) then Some x else fnext h r.
Proof.
  intros (a & b & n & q & E)%is_node_Some.
  unfold fnext. by rewrite lookup_splice, E.
Qed.

Lemma fprev_splice h p x r :
  is_node h r = true →
  fprev (splice h p x) r = if decide (r = x) then Some p else fprev h r.
Proof.
  intros (a & b & n & q & E)%is_node_Some.
  unfold fprev. by rewrite lookup_splice, E.
Qed.

(** One iteration of the loop of [optimize] at a node [c] whose
    neighbours are nodes. *)
Lemma optimize_step_node h c p x :
  is_node h c = true → is_node h p = true → is_node h x = true →
  fnext h c = Some x → fprev h c = Some p → c ≠ p → c ≠ x →
  optimize_step h c
  = Ok (if aligned (pt h x) (pt h p) then splice h p x else h, x).
Proof.
  intros Hc Hp Hx Hn Hv Hcp Hcx. unfold optimize_step.
  rewrite get_next_node, Hn by done. simpl.
  rewrite get_prev_node, Hv by done. simpl.
  rewrite !get_point_node by done. simpl.
  fold (aligned (pt h x) (pt h p)).
  destruct (aligned (pt h x) (pt h p)); simpl.
  - rewrite set_next_node by done. simpl.
    assert (∀ r, is_node (upd_next h p (Some x)) r = is_node h r) as Hnode.
    { intros r. unfold is_node. rewrite lookup_upd_next.
      by destruct (h !! r) as [[]|]. }
    assert (fnext (upd_next h p (Some x)) c = Some x) as Hn1.
    { unfold fnext. rewrite lookup_upd_next.
      apply is_node_Some in Hc as (?&?&?&?&E). unfold fnext in Hn.
      rewrite E in Hn |- *. by rewrite decide_False. }
    assert (fprev (upd_next h p (Some x)) c = Some p) as Hv1.
    { unfold fprev. rewrite lookup_upd_next.
      apply is_node_Some in Hc as (?&?&?&?&E). unfold fprev in Hv.
      by rewrite E in Hv |- *. }
    rewrite get_prev_node, Hv1 by (by rewrite Hnode). simpl.
    rewrite get_next_node, Hn1 by (by rewrite Hnode). simpl.
    rewrite set_prev_node by (by rewrite Hnode). simpl.
    fold (splice h p x).
    rewrite get_next_node by (by rewrite is_node_splice).
    rewrite fnext_splice, decide_False, Hn by done. done.
  - by rewrite get_next_node, Hn by done.
Qed.

Lemma last_cons {A} (l : list A) (a b : A) :
  List.last (b :: l) a = List.last l b.
Proof.
  revert a b. induction l as [|c l IH]; intros a b; [done|].
  change (List.last (b :: c :: l) a) with (List.last (c :: l) a).
  by rewrite (IH a c), (IH b c).
Qed.

Lemma last_elem_of {A} (l : list A) (a : A) : List.last l a ∈ a :: l.
Proof.
  revert a. induction l as [|b l IH]; intros a; [set_solver|].
  rewrite last_cons. specialize (IH b). set_solver.
Qed.

Lemma chain_app h a l1 l2 :
  chain h a (l1 ++ l2) = chain h a l1 && chain h (List.last l1 a) l2.
Proof.
  revert a. induction l1 as [|b l1 IH]; intros a; [done|].
  simpl app. cbn [chain]. rewrite IH, last_cons. by rewrite andb_assoc.
Qed.

Lemma chain_cons h a b l :
  chain h a (b :: l) = true
  ↔ fnext h a = Some b ∧ fprev h b = Some a ∧ chain h b l = true.
Proof.
  cbn [chain]. rewrite !andb_true_iff, !bool_decide_eq_true. tauto.
Qed.

(** Splicing changes no link of a chain that neither leaves [p] nor
    arrives at [x]. *)
Lemma chain_splice h p x a l z :
  (∀ r, r ∈ a :: l ++ [z] → is_node h r = true) →
  p ∉ a :: l → x ∉ l ++ [z] →
  chain h a (l ++ [z]) = true → chain (splice h p x) a (l ++ [z]) = true.
Proof.
  revert a. induction l as [|b l IH]; intros a Hnodes Hp Hx.
  - cbn [app]. rewrite !chain_cons. intros (Hn & Hv & _).
    rewrite fnext_splice, fprev_splice by (apply Hnodes; set_solver).
    rewrite !decide_False by set_solver. done.
  - cbn [app]. rewrite !chain_cons. intros (Hn & Hv & Hc).
    rewrite fnext_splice, fprev_splice by (apply Hnodes; set_solver).
    rewrite !decide_False by set_solver.
    split; [done|]. split; [done|].
    apply IH; [|set_solver|set_solver|done].
    intros r Hr. apply Hnodes. set_solver.
Qed.

Lemma pass_sublist P o ks c R : pass P o ks c R `sublist_of` ks ++ c :: R.
Proof.
  revert ks c. induction R as [|x R IH]; intros ks c; simpl.
  - destruct (aligned _ _).
    + by apply sublist_inserts_r.
    + done.
  - destruct (aligned _ _).
    + etrans; [apply IH|]. apply sublist_app; [done|]. by apply sublist_cons.
    + etrans; [apply IH|]. by rewrite <- app_assoc.
Qed.

Lemma pass_ext P Q o ks c R :
  (∀ r, P r = Q r) → pass P o ks c R = pass Q o ks c R.
Proof.
  intros HPQ. revert ks c. induction R as [|x R IH]; intros ks c; simpl.
  - by rewrite !HPQ.
  - rewrite !HPQ. by rewrite !IH.
Qed.

(** The loop of [optimize], from the node [c] on: the nodes [o :: ks] are
    kept so far, the nodes [R] are still to come. *)
Lemma optimize_from_pass o R : ∀ fuel h ks c,
  NoDup (o :: ks ++ c :: R) →
  (∀ r, r ∈ o :: ks ++ c :: R → is_node h r = true) →
  chain h o (ks ++ c :: R ++ [o]) = true →
  (∀ r, r ∈ c :: R → pt h r ≠ pt h o) →
  (length R < fuel)%nat →
  ∃ h', optimize_from fuel h o c = Ok h' ∧
    (∀ r, pt h' r = pt h r) ∧ (∀ r, is_node h' r = is_node h r) ∧
    chain h' o (pass (pt h) o ks c R ++ [o]) = true ∧
    (pass (pt h) o ks c R = ks ++ c :: R → h' = h).
Proof.
  induction R as [|x R IH]; intros fuel h ks c Hnd Hnodes Hchain Huniq Hfuel.
  - (* [c] is the last node: its successor is the origin *)
    destruct fuel as [|fuel]; [simpl in Hfuel; lia|]. clear Hfuel.
    rewrite chain_app in Hchain. apply andb_true_iff in Hchain as [Hks Hc].
    set (p := List.last ks o) in *.
    assert (p ∈ o :: ks) as Hp by apply last_elem_of.
    apply NoDup_cons in Hnd as [Ho Hnd].
    apply NoDup_app in Hnd as (Hndks & Hdisj & _).
    assert (c ≠ p) as Hcp.
    { intros ->. apply elem_of_cons in Hp as [->|Hp]; [set_solver|].
      apply (Hdisj _ Hp). set_solver. }
    assert (c ≠ o) as Hco by set_solver.
    cbn [app] in Hc. apply chain_cons in Hc as (Hpn & Hcv & Hc).
    apply chain_cons in Hc as (Hcn & Hov & _).
    cbn [optimize_from].
    rewrite (optimize_step_node h c p o); try done; try (apply Hnodes; set_solver).
    cbn [mbind result_bind].
    cbn [pass]. fold p.
    destruct (aligned (pt h o) (pt h p)) eqn:Hal.
    + rewrite node_eq_node by (rewrite is_node_splice; apply Hnodes; set_solver).
      rewrite Point2D_eq_refl. cbn [mbind result_bind].
      eexists. split; [done|]. split; [apply pt_splice|].
      split; [apply is_node_splice|]. split.
      * rewrite chain_app. fold p. apply andb_true_iff. split.
        -- destruct ks as [|k ks _] using rev_ind; [done|].
           subst p. rewrite last_last in *.
           apply chain_splice; [| | |done].
           ++ intros r Hr. apply Hnodes. set_solver.
           ++ apply NoDup_app in Hndks as (_ & Hd2 & _).
              intros [->|Hin]%elem_of_cons; [set_solver|].
              apply (Hd2 _ Hin). set_solver.
           ++ set_solver.
        -- apply chain_cons.
           rewrite fnext_splice, fprev_splice by (apply Hnodes; set_solver).
           by rewrite !decide_True.
      * intros Heq. apply (f_equal length) in Heq.
        rewrite length_app in Heq. simpl in Heq. lia.
    + rewrite node_eq_node by (apply Hnodes; set_solver).
      rewrite Point2D_eq_refl. cbn [mbind result_bind].
      exists h. split; [done|]. split; [done|]. split; [done|].
      split; [|done].
      rewrite <- app_assoc. cbn [app].
      rewrite chain_app. fold p. apply andb_true_iff. split; [done|].
      rewrite !chain_cons. done.
  - destruct fuel as [|fuel]; [simpl in Hfuel; lia|]. simpl in Hfuel.
    rewrite chain_app in Hchain. apply andb_true_iff in Hchain as [Hks Hc].
    set (p := List.last ks o) in *.
    assert (p ∈ o :: ks) as Hp by apply last_elem_of.
    pose proof Hnd as Hnd0.
    apply NoDup_cons in Hnd as [Ho Hnd].
    apply NoDup_app in Hnd as (Hndks & Hdisj & HndR).
    apply NoDup_cons in HndR as [HcR HndR].
    apply NoDup_cons in HndR as [HxR HndR].
    assert (c ≠ p) as Hcp.
    { intros ->. apply elem_of_cons in Hp as [->|Hp]; [set_solver|].
      apply (Hdisj _ Hp). set_solver. }
    assert (x ≠ p) as Hxp.
    { intros ->. apply elem_of_cons in Hp as [->|Hp]; [set_solver|].
      apply (Hdisj _ Hp). set_solver. }
    assert (c ≠ x) as Hcx by set_solver.
    assert (x ≠ o) as Hxo by set_solver.
    cbn [app] in Hc. apply chain_cons in Hc as (Hpn & Hcv & Hc).
    apply chain_cons in Hc as (Hcn & Hxv & Hrest).
    cbn [optimize_from].
    rewrite (optimize_step_node h c p x); try done; try (apply Hnodes; set_solver).
    cbn [mbind result_bind]. cbn [pass]. fold p.
    assert (Point2D_eq (pt h x) (pt h o) = false) as Hne.
    { apply not_true_is_false. rewrite Point2D_eq_true.
      apply Huniq. set_solver. }
    destruct (aligned (pt h x) (pt h p)) eqn:Hal.
    + rewrite node_eq_node by (rewrite is_node_splice; apply Hnodes; set_solver).
      rewrite !pt_splice, Hne. cbn [mbind result_bind].
      destruct (IH fuel (splice h p x) ks x) as (h' & Hrun & Hpt & Hnode & Hch & _).
      * apply NoDup_cons. split; [set_solver|].
        apply NoDup_app. split; [done|]. split.
        -- intros r Hr Hr'. apply (Hdisj _ Hr). set_solver.
        -- by apply NoDup_cons.
      * intros r Hr. rewrite is_node_splice. apply Hnodes. set_solver.
      * rewrite chain_app. fold p. apply andb_true_iff. split.
        -- destruct ks as [|k ks _] using rev_ind; [done|].
           subst p. rewrite last_last in *.
           apply chain_splice; [| | |done].
           ++ intros r Hr. apply Hnodes. set_solver.
           ++ apply NoDup_app in Hndks as (_ & Hd2 & _).
              intros [->|Hin]%elem_of_cons; [set_solver|].
              apply (Hd2 _ Hin). set_solver.
           ++ intros Hin. apply (Hdisj x); set_solver.
        -- apply chain_cons.
           rewrite fnext_splice, fprev_splice by (apply Hnodes; set_solver).
           rewrite !decide_True by done. split; [done|]. split; [done|].
           apply chain_splice; [| | |done].
           ++ intros r Hr. apply Hnodes. set_solver.
           ++ intros Hin. apply elem_of_cons in Hp as [->|Hp]; [set_solver|].
              apply (Hdisj _ Hp). set_solver.
           ++ set_solver.
      * intros r Hr. rewrite !pt_splice. apply Huniq. set_solver.
      * lia.
      * exists h'. split; [done|].
        split; [intros r; by rewrite Hpt, pt_splice|].
        split; [intros r; by rewrite Hnode, is_node_splice|].
        split.
        -- erewrite pass_ext; [exact Hch|]. intros r. by rewrite pt_splice.
        -- intros Heq. pose proof (pass_sublist (pt h) o ks x R) as Hsub.
           apply sublist_length in Hsub. rewrite Heq in Hsub.
           rewrite !length_app in Hsub. simpl in Hsub. lia.
    + rewrite node_eq_node by (apply Hnodes; set_solver).
      rewrite Hne. cbn [mbind result_bind].
      destruct (IH fuel h (ks ++ [c]) x) as (h' & Hrun & Hpt & Hnode & Hch & Hsame).
      * by rewrite <- app_assoc.
      * intros r Hr. apply Hnodes. rewrite <- app_assoc in Hr. done.
      * rewrite <- app_assoc. cbn [app].
        rewrite chain_app. fold p. apply andb_true_iff. split; [done|].
        rewrite !chain_cons. done.
      * intros r Hr. apply Huniq. set_solver.
      * lia.
      * exists h'. split; [done|]. split; [done|]. split; [done|].
        split; [done|]. intros Heq. apply Hsame.
        by rewrite Heq, <- app_assoc.
Qed.

Lemma chain_last_prev h a l z :
  chain h a (l ++ [z]) = true → fprev h z = Some (List.last l a).
Proof.
  rewrite chain_app. intros [_ Hz]%andb_true_iff.
  by apply chain_cons in Hz as (_ & Hv & _).
Qed.

Lemma is_loop_spec h o l :
  is_loop h o l = true
  ↔ NoDup (o :: l) ∧ (∀ r, r ∈ o :: l → is_node h r = true) ∧
    chain h o (l ++ [o]) = true ∧ (∀ r, r ∈ l → pt h r ≠ pt h o).
Proof.
  unfold is_loop. rewrite !andb_true_iff, bool_decide_eq_true.
  rewrite !forallb_forall.
  assert ((∀ r, In r l → negb (Point2D_eq (pt h r) (pt h o)) = true)
          ↔ (∀ r, r ∈ l → pt h r ≠ pt h o)) as ->.
  { split; intros Hall r Hr.
    - apply list_elem_of_In, Hall in Hr. apply negb_true_iff in Hr.
      rewrite <- Point2D_eq_true. by rewrite Hr.
    - apply negb_true_iff, not_true_is_false. rewrite Point2D_eq_true.
      by apply Hall, list_elem_of_In. }
  assert ((∀ r, In r (o :: l) → is_node h r = true)
          ↔ (∀ r, r ∈ o :: l → is_node h r = true)) as ->.
  { split; intros Hall r Hr; apply Hall; by apply list_elem_of_In. }
  tauto.
Qed.

(** One call of [optimize] on a loop whose origin is a corner. *)
Lemma optimize_loop fuel h o x R :
  is_loop h o (x :: R) = true →
  aligned (pt h x) (pt h (List.last (x :: R) o)) = false →
  (length R + 1 < fuel)%nat →
  ∃ h', optimize_from fuel h o o = Ok h' ∧
    (∀ r, pt h' r = pt h r) ∧
    is_loop h' o (pass (pt h) o [] x R) = true ∧
    (pass (pt h) o [] x R = x :: R → h' = h).
Proof.
  intros (Hnd & Hnodes & Hchain & Huniq)%is_loop_spec Hal Hfuel.
  destruct fuel as [|fuel]; [lia|].
  set (p := List.last (x :: R) o) in *.
  assert (p ∈ x :: R) as Hp.
  { subst p. rewrite last_cons. apply last_elem_of. }
  pose proof (chain_last_prev _ _ _ _ Hchain) as Hov. fold p in Hov.
  pose proof Hchain as Hc. cbn [app] in Hc.
  apply chain_cons in Hc as (Hon & _).
  pose proof Hnd as [Ho _]%NoDup_cons.
  assert (o ≠ p) as Hop by (intros E; apply Ho; by rewrite E).
  assert (o ≠ x) as Hox by set_solver.
  cbn [optimize_from].
  rewrite (optimize_step_node h o p x); try done; try (apply Hnodes; set_solver).
  rewrite Hal. cbn [mbind result_bind].
  rewrite node_eq_node by (apply Hnodes; set_solver).
  assert (Point2D_eq (pt h x) (pt h o) = false) as ->.
  { apply not_true_is_false. rewrite Point2D_eq_true. apply Huniq. set_solver. }
  cbn [mbind result_bind].
  destruct (optimize_from_pass o R fuel h [] x)
    as (h' & Hrun & Hpt & Hnode & Hch & Hsame); try done; [lia|].
  exists h'. split; [done|]. split; [done|]. split; [|done].
  pose proof (pass_sublist (pt h) o [] x R) as Hsub. cbn [app] in Hsub.
  apply is_loop_spec. split; [|split; [|split]].
  - eapply sublist_NoDup; [exact Hnd|]. by apply sublist_skip.
  - intros r Hr. rewrite Hnode. apply Hnodes.
    apply elem_of_cons in Hr as [->|Hr]; [set_solver|].
    apply elem_of_cons. right. by eapply elem_of_sublist.
  - done.
  - intros r Hr. rewrite !Hpt. apply Huniq. by eapply elem_of_sublist.
Qed.

(** ** Geometry of the kept nodes *)

Ltac dir_cases :=
  repeat match goal with
         | |- context [?a =? ?b] => destruct (Z.eqb_spec a b)
         | |- context [?a <? ?b] => destruct (Z.ltb_spec a b)
         | H : context [?a =? ?b] |- _ => destruct (Z.eqb_spec a b)
         | H : context [?a <? ?b] |- _ => destruct (Z.ltb_spec a b)
         end;
  simplify_eq/=; try lia; try done; try (split; [done|]; try done; lia).

Lemma dir_of_straight a b c d :
  dir_of a b = Some d → dir_of b c = Some d →
  dir_of a c = Some d ∧ aligned c a = true.
Proof.
  destruct a as [ax ay], b as [bx by_], c as [cx cy].
  unfold dir_of, aligned. simpl. intros. dir_cases.
Qed.

Lemma dir_of_turn a b c d d' :
  dir_of a b = Some d → dir_of b c = Some d' → perp d d' = true →
  aligned c a = false.
Proof.
  destruct a as [ax ay], b as [bx by_], c as [cx cy].
  unfold dir_of, aligned. simpl. intros. dir_cases.
Qed.

Lemma compat_cases s d d' :
  compat s d d' = true → (s = false ∧ d' = d) ∨ perp d d' = true.
Proof. destruct s, d, d'; simpl; auto. Qed.

Lemma compat_strict d d' : compat true d d' = perp d d'.
Proof. unfold compat. simpl. by rewrite orb_false_r. Qed.

Lemma path_dir_cons s d a b l dl :
  path_dir s d a (b :: l) = Some dl
  ↔ ∃ d', dir_of a b = Some d' ∧ compat s d d' = true ∧
          path_dir s d' b l = Some dl.
Proof.
  cbn [path_dir]. destruct (dir_of a b) as [d'|].
  - destruct (compat s d d') eqn:E.
    + split; [by eauto|]. by intros (d2 & [= <-] & _ & ?).
    + split; [done|]. intros (d2 & [= <-] & ? & _). congruence.
  - split; [done|]. by intros (d2 & ? & _).
Qed.

Lemma path_dir_snoc s d a l b dl :
  path_dir s d a (l ++ [b]) = Some dl
  ↔ ∃ d', path_dir s d a l = Some d' ∧
          dir_of (List.last l a) b = Some dl ∧ compat s d' dl = true.
Proof.
  revert d a. induction l as [|c l IH]; intros d a.
  - cbn [app]. rewrite path_dir_cons. simpl. split.
    + intros (d' & Hd & Hc & [= <-]). eauto.
    + intros (d' & [= <-] & Hd & Hc). eauto.
  - cbn [app]. rewrite !path_dir_cons, last_cons. split.
    + intros (d1 & Hd1 & Hc1 & (d2 & Hp & Hl & Hc2)%IH).
      exists d2. split; [|done]. apply path_dir_cons. eauto.
    + intros (d2 & (d1 & Hd1 & Hc1 & Hp)%path_dir_cons & Hl & Hc2).
      exists d1. split; [done|]. split; [done|]. apply IH. eauto.
Qed.

Lemma last_fmap {A B} (f : A → B) (l : list A) (a : A) :
  List.last (f <$> l) (f a) = f (List.last l a).
Proof.
  revert a. induction l as [|b l IH]; intros a; [done|].
  rewrite fmap_cons, !last_cons. apply IH.
Qed.

(** The nodes kept by a pass are the corners: the path through the kept
    nodes turns at each of them. *)
Lemma pass_strict P o R : ∀ ks c d dl,
  path_dir true dl (P o) (P <$> ks ++ [c]) = Some d →
  path_dir false d (P c) ((P <$> R) ++ [P o]) = Some dl →
  path_dir true dl (P o) ((P <$> pass P o ks c R) ++ [P o]) = Some dl.
Proof.
  induction R as [|x R IH]; intros ks c d dl Hkept Hrest.
  - cbn [fmap list_fmap app] in Hrest.
    apply path_dir_cons in Hrest as (d' & Hco & Hcompat & [= ->]).
    rewrite fmap_app in Hkept. cbn [fmap list_fmap] in Hkept.
    pose proof Hkept as (dk & Hks & Hpc & Hturn)%path_dir_snoc.
    rewrite last_fmap in Hpc. rewrite compat_strict in Hturn.
    cbn [pass].
    apply compat_cases in Hcompat as [[_ ->]|Hperp].
    + destruct (dir_of_straight _ _ _ _ Hpc Hco) as [Hpo ->].
      apply path_dir_snoc. exists dk. rewrite last_fmap, compat_strict. done.
    + rewrite (dir_of_turn _ _ _ _ _ Hpc Hco Hperp).
      rewrite fmap_app. cbn [fmap list_fmap].
      apply path_dir_snoc. exists d. rewrite last_last, compat_strict. done.
  - cbn [fmap list_fmap app] in Hrest.
    apply path_dir_cons in Hrest as (d' & Hcx & Hcompat & Hrest).
    rewrite fmap_app in Hkept. cbn [fmap list_fmap] in Hkept.
    pose proof Hkept as (dk & Hks & Hpc & Hturn)%path_dir_snoc.
    rewrite last_fmap in Hpc. rewrite compat_strict in Hturn.
    cbn [pass].
    apply compat_cases in Hcompat as [[_ ->]|Hperp].
    + destruct (dir_of_straight _ _ _ _ Hpc Hcx) as [Hpx ->].
      apply (IH ks x d dl); [|done].
      rewrite fmap_app. cbn [fmap list_fmap].
      apply path_dir_snoc. exists dk. rewrite last_fmap, compat_strict. done.
    + rewrite (dir_of_turn _ _ _ _ _ Hpc Hcx Hperp).
      apply (IH (ks ++ [c]) x d' dl); [|done].
      rewrite fmap_app. cbn [fmap list_fmap].
      apply path_dir_snoc. exists d. split.
      { by rewrite fmap_app. }
      rewrite fmap_app. cbn [fmap list_fmap].
      rewrite last_last, compat_strict. done.
Qed.

(** A pass keeps every node of a loop that turns at every node. *)
Lemma pass_id P o R : ∀ ks c d dl,
  dir_of (P (List.last ks o)) (P c) = Some d →
  path_dir true d (P c) ((P <$> R) ++ [P o]) = Some dl →
  pass P o ks c R = ks ++ c :: R.
Proof.
  induction R as [|x R IH]; intros ks c d dl Hpc Hrest.
  - cbn [fmap list_fmap app] in Hrest.
    apply path_dir_cons in Hrest as (d' & Hco & Hperp & _).
    rewrite compat_strict in Hperp. cbn [pass].
    by rewrite (dir_of_turn _ _ _ _ _ Hpc Hco Hperp).
  - cbn [fmap list_fmap app] in Hrest.
    apply path_dir_cons in Hrest as (d' & Hcx & Hperp & Hrest).
    rewrite compat_strict in Hperp. cbn [pass].
    rewrite (dir_of_turn _ _ _ _ _ Hpc Hcx Hperp).
    rewrite (IH (ks ++ [c]) x d' dl); [by rewrite <- app_assoc| |done].
    by rewrite last_last.
Qed.

Lemma rectilinear_spec s P o l :
  rectilinear s P o l = true
  ↔ ∃ dl df, dir_of (P (List.last l o)) (P o) = Some dl ∧
             dir_of (P o) (P (List.hd o l)) = Some df ∧
             perp dl df = true ∧
             path_dir s dl (P o) ((P <$> l) ++ [P o]) = Some dl.
Proof.
  unfold rectilinear.
  destruct (dir_of (P (List.last l o)) (P o)) as [dl|]; [|naive_solver].
  destruct (dir_of (P o) (P (List.hd o l))) as [df|]; [|naive_solver].
  rewrite andb_true_iff, bool_decide_eq_true. naive_solver.
Qed.

Lemma dir_of_irrefl a : dir_of a a = None.
Proof. destruct a as [ax ay]. unfold dir_of. simpl. dir_cases. Qed.

Lemma rectilinear_nonempty s P o l :
  rectilinear s P o l = true → ∃ x R, l = x :: R.
Proof.
  intros (dl & df & Hl & _)%rectilinear_spec.
  destruct l as [|x R]; [|eauto]. simpl in Hl. by rewrite dir_of_irrefl in Hl.
Qed.

Lemma rectilinear_origin_corner s P o x R :
  rectilinear s P o (x :: R) = true →
  aligned (P x) (P (List.last (x :: R) o)) = false.
Proof.
  intros (dl & df & Hl & Hf & Hperp & _)%rectilinear_spec. simpl in Hf.
  by apply (dir_of_turn _ _ _ _ _ Hl Hf Hperp).
Qed.

Lemma rectilinear_pass P o x R :
  rectilinear false P o (x :: R) = true →
  rectilinear true P o (pass P o [] x R) = true.
Proof.
  intros (dl & df & Hl & Hf & Hperp & Hpath)%rectilinear_spec.
  simpl in Hf. cbn [fmap list_fmap app] in Hpath.
  apply path_dir_cons in Hpath as (d' & Hox & _ & Hrest).
  assert (d' = df) as -> by congruence.
  assert (path_dir true dl (P o) ((P <$> pass P o [] x R) ++ [P o]) = Some dl)
    as Hstrict.
  { apply (pass_strict P o R [] x df dl); [|done].
    cbn [fmap list_fmap app]. apply path_dir_cons. exists df.
    by rewrite compat_strict. }
  destruct (pass P o [] x R) as [|y L] eqn:HL.
  - cbn [fmap list_fmap app] in Hstrict.
    apply path_dir_cons in Hstrict as (d' & Hoo & _).
    by rewrite dir_of_irrefl in Hoo.
  - apply rectilinear_spec.
    pose proof Hstrict as (dk & _ & Hlast & _)%path_dir_snoc.
    rewrite last_fmap in Hlast.
    cbn [fmap list_fmap app] in Hstrict.
    pose proof Hstrict as (d' & Hoy & Hturn & _)%path_dir_cons.
    rewrite compat_strict in Hturn.
    exists dl, d'. simpl. done.
Qed.

Lemma rectilinear_pass_id P o x R :
  rectilinear true P o (x :: R) = true → pass P o [] x R = x :: R.
Proof.
  intros (dl & df & Hl & Hf & Hperp & Hpath)%rectilinear_spec.
  simpl in Hf. cbn [fmap list_fmap app] in Hpath.
  apply path_dir_cons in Hpath as (d' & Hox & _ & Hrest).
  by apply (pass_id P o R [] x d' dl).
Qed.

Lemma rectilinear_ext s P Q o l :
  (∀ r, P r = Q r) → rectilinear s P o l = rectilinear s Q o l.
Proof.
  intros HPQ. unfold rectilinear. rewrite !HPQ.
  assert (P <$> l = Q <$> l) as -> by (apply list_fmap_ext; auto).
  done.
Qed.

(** C6 (amended). On a well-formed loop of non-zero axis-aligned edges
    that never reverses, whose origin is a corner and the only node at
    its coordinates, the simplifier returns, leaving a well-formed loop
    that turns at every node; a second application returns as well and
    changes nothing. *)
Theorem optimize_idempotent_on_corner_loops (fuel : nat) (h : heap)
    (l : NodeLoop) (R : list ref) :
  is_loop h (origin l) R = true →
  rectilinear false (pt h) (origin l) R = true →
  (length R + 1 < fuel)%nat →
  ∃ h1 R1,
    optimize fuel h l = Ok h1 ∧
    is_loop h1 (origin l) R1 = true ∧
    rectilinear true (pt h1) (origin l) R1 = true ∧
    R1 `sublist_of` R ∧
    optimize fuel h1 l = Ok h1.
Proof.
  intros Hloop Hrect Hfuel. unfold optimize.
  destruct (rectilinear_nonempty _ _ _ _ Hrect) as (x & R' & ->).
  destruct (optimize_loop fuel h (origin l) x R' Hloop)
    as (h1 & Hrun & Hpt & Hloop1 & _).
  { by eapply rectilinear_origin_corner. }
  { simpl in Hfuel. lia. }
  pose proof (rectilinear_pass _ _ _ _ Hrect) as Hrect1.
  pose proof (pass_sublist (pt h) (origin l) [] x R') as Hsub.
  cbn [app] in Hsub.
  set (R1 := pass (pt h) (origin l) [] x R') in *.
  exists h1, R1. split; [done|]. split; [done|].
  rewrite (rectilinear_ext _ (pt h1) (pt h)) by done.
  split; [done|]. split; [done|].
  destruct (rectilinear_nonempty _ _ _ _ Hrect1) as (y & R2 & HR1).
  rewrite HR1 in Hloop1, Hrect1, Hsub.
  rewrite (rectilinear_ext _ _ (pt h1)) in Hrect1 by done.
  destruct (optimize_loop fuel h1 (origin l) y R2 Hloop1)
    as (h2 & Hrun2 & _ & _ & Hsame).
  { by eapply rectilinear_origin_corner. }
  { apply sublist_length in Hsub. simpl in Hsub, Hfuel. lia. }
  rewrite Hrun2. f_equal. apply Hsame. by apply rectilinear_pass_id.
Qed.

Lemma optimize_idempotent_on_corner_loops_witness :
  ∃ h1 R1,
    optimize 40 touching_heap (mkNodeLoop 0%nat) = Ok h1 ∧
    is_loop h1 0%nat R1 = true ∧
    rectilinear true (pt h1) 0%nat R1 = true ∧
    R1 `sublist_of` [1; 2; 3; 7; 11; 17; 6; 5; 9; 18; 14; 13; 12; 8; 4]%nat ∧
    optimize 40 h1 (mkNodeLoop 0%nat) = Ok h1.
Proof.
  apply (optimize_idempotent_on_corner_loops 40 touching_heap (mkNodeLoop 0%nat)
           [1; 2; 3; 7; 11; 17; 6; 5; 9; 18; 14; 13; 12; 8; 4]%nat).
  - vm_compute. reflexivity.
  - vm_compute. reflexivity.
  - simpl. lia.
Defined.

Lemma optimize_from_continue fuel h o n h' n' :
  optimize_step h n = Ok (h', n') → node_eq h' n' o = Ok false →
  optimize_from (S fuel) h o n = optimize_from fuel h' o n'.
Proof. intros Hstep Hne. cbn [optimize_from]. rewrite Hstep. simpl. by rewrite Hne. Qed.

(** C6, as stated, fails in two ways.  On the boundary of a 2x1
    rectangle taken from the middle of its top edge, the origin is
    spliced out in the first iteration and no later node equals it: the
    simplifier never returns.  On a loop with a spur the simplifier
    returns, and a second application splices out one more node. *)
Lemma optimize_diverges_or_is_not_idempotent :
  (is_loop rectangle_heap 1%nat [2; 3; 4; 5; 0]%nat = true ∧
   path_dir false DirE (pt rectangle_heap 1%nat)
     (pt rectangle_heap <$> [2; 3; 4; 5; 0; 1]%nat) = Some DirE ∧
   ∀ fuel, optimize fuel rectangle_heap (mkNodeLoop 1%nat) = OutOfFuel) ∧
  (is_loop spur_heap 0%nat [1; 2; 3; 4; 5; 6]%nat = true ∧
   ∃ h1 h2, h1 ≠ h2 ∧
     ∀ fuel, (8 ≤ fuel)%nat →
       optimize fuel spur_heap (mkNodeLoop 0%nat) = Ok h1 ∧
       optimize fuel h1 (mkNodeLoop 0%nat) = Ok h2).
Proof.
  split.
  - split; [by vm_compute|]. split; [by vm_compute|].
    pose (ha := splice rectangle_heap 0 2).
    pose (hb := splice ha 3 5).
    assert (∀ fuel,
              optimize_from fuel hb 1%nat 5%nat = OutOfFuel ∧
              optimize_from fuel hb 1%nat 0%nat = OutOfFuel ∧
              optimize_from fuel hb 1%nat 2%nat = OutOfFuel ∧
              optimize_from fuel hb 1%nat 3%nat = OutOfFuel) as Hcycle.
    { induction fuel as [|fuel (H5 & H0 & H2 & H3)]; [done|].
      rewrite (optimize_from_continue fuel hb 1%nat 5%nat hb 0%nat)
        by (by vm_compute).
      rewrite (optimize_from_continue fuel hb 1%nat 0%nat hb 2%nat)
        by (by vm_compute).
      rewrite (optimize_from_continue fuel hb 1%nat 2%nat hb 3%nat)
        by (by vm_compute).
      rewrite (optimize_from_continue fuel hb 1%nat 3%nat hb 5%nat)
        by (by vm_compute).
      done. }
    intros fuel. unfold optimize. simpl origin.
    destruct fuel as [|fuel]; [done|].
    rewrite (optimize_from_continue fuel rectangle_heap 1%nat 1%nat ha 2%nat)
      by (by vm_compute).
    destruct fuel as [|fuel]; [done|].
    rewrite (optimize_from_continue fuel ha 1%nat 2%nat ha 3%nat)
      by (by vm_compute).
    destruct fuel as [|fuel]; [done|].
    rewrite (optimize_from_continue fuel ha 1%nat 3%nat ha 4%nat)
      by (by vm_compute).
    destruct fuel as [|fuel]; [done|].
    rewrite (optimize_from_continue fuel ha 1%nat 4%nat hb 5%nat)
      by (by vm_compute).
    apply Hcycle.
  - split; [by vm_compute|].
    destruct (optimize 8 spur_heap (mkNodeLoop 0%nat)) as [h1| |] eqn:E1;
      [|by vm_compute in E1..].
    destruct (optimize 8 h1 (mkNodeLoop 0%nat)) as [h2| |] eqn:E2;
      [|vm_compute in E1; injection E1 as <-; by vm_compute in E2..].
    exists h1, h2. split.
    + vm_compute in E1. injection E1 as <-.
      vm_compute in E2. injection E2 as <-. done.
    + intros fuel Hfuel. split.
      * by apply (optimize_from_fuel_mono 8).
      * by apply (optimize_from_fuel_mono 8).
Qed.

(** * Further properties of the code *)

(** ** Neighbourhoods *)

Lemma np_neumann_neighbors_out_of_range (m : ndarray Z) x y :
  ¬ (0 <= x < Z.of_nat (ncols m) ∧ 0 <= y < Z.of_nat (nrows m)) →
  np_neumann_neighbors m x y = Raise ValueError.
Proof.
  intros Hout. unfold np_neumann_neighbors.
  destruct (Z.ltb_spec (Z.of_nat (ncols m) - 1) x); [done|].
  destruct (Z.ltb_spec (Z.of_nat (nrows m) - 1) y); [done|].
  destruct (Z.ltb_spec x 0); [done|].
  destruct (Z.ltb_spec y 0); [done|]. lia.
Qed.

(** X1. [np_neumann_neighbors] raises [ValueError] exactly for a position
    outside the matrix; inside, each field holds the cell on that side, and
    is [None] where the matrix ends. *)
Theorem np_neumann_neighbors_spec (m : ndarray Z) (x y : Z) :
  wf_ndarray m →
  np_neumann_neighbors m x y
  = if decide (0 <= x < Z.of_nat (ncols m) ∧ 0 <= y < Z.of_nat (nrows m))
    then Ok (mkNeighborhood (pixel_at m x (y - 1)) (pixel_at m (x + 1) y)
               (pixel_at m x (y + 1)) (pixel_at m (x - 1) y))
    else Raise ValueError.
Proof.
  intros Hwf. case_decide as Hin.
  - destruct Hin. by apply np_neumann_neighbors_pixel_at.
  - by apply np_neumann_neighbors_out_of_range.
Qed.

Lemma np_neumann_neighbors_spec_witness :
  let m := NdArray 2 2 [[1; 0]; [0; 1]] in
  np_neumann_neighbors m 1 0
  = if decide (0 <= 1 < Z.of_nat (ncols m) ∧ 0 <= 0 < Z.of_nat (nrows m))
    then Ok (mkNeighborhood (pixel_at m 1 (0 - 1)) (pixel_at m (1 + 1) 0)
               (pixel_at m 1 (0 + 1)) (pixel_at m (1 - 1) 0))
    else Raise ValueError.
Proof.
  intros m. apply (np_neumann_neighbors_spec m 1 0).
  unfold wf_ndarray, m; simpl. split; [reflexivity|repeat constructor].
Defined.

Lemma np_get_diag (m : ndarray Z) x y :
  wf_ndarray m →
  0 <= x < Z.of_nat (ncols m) → 0 <= y < Z.of_nat (nrows m) →
  (v ← np_get m y x; Ok (Some v)) = Ok (pixel_at m x y).
Proof.
  intros Hwf Hx Hy.
  destruct (np_get_pixel_at m x y Hwf Hx Hy) as (v & -> & ->). done.
Qed.

(** X2. [np_moore_neighbors] raises [ValueError] exactly for a position
    outside the matrix.  Inside, the sides are those of
    [np_neumann_neighbors] and the lower diagonal fields hold the cells
    they name, but the upper ones are exchanged: [top_right] holds the
    cell up and to the left, [top_left] the cell up and to the right. *)
Theorem np_moore_neighbors_spec (m : ndarray Z) (x y : Z) :
  wf_ndarray m →
  np_moore_neighbors m x y
  = if decide (0 <= x < Z.of_nat (ncols m) ∧ 0 <= y < Z.of_nat (nrows m))
    then Ok {| sides := mkNeighborhood (pixel_at m x (y - 1))
                          (pixel_at m (x + 1) y) (pixel_at m x (y + 1))
                          (pixel_at m (x - 1) y);
               top_left := pixel_at m (x + 1) (y - 1);
               top_right := pixel_at m (x - 1) (y - 1);
               bottom_right := pixel_at m (x + 1) (y + 1);
               bottom_left := pixel_at m (x - 1) (y + 1) |}
    else Raise ValueError.
Proof.
  intros Hwf. unfold np_moore_neighbors. case_decide as Hin.
  - destruct Hin as [Hx Hy].
    destruct (Z.ltb_spec (Z.of_nat (ncols m) - 1) x); [lia|].
    destruct (Z.ltb_spec (Z.of_nat (nrows m) - 1) y); [lia|].
    destruct (Z.ltb_spec x 0); [lia|].
    destruct (Z.ltb_spec y 0); [lia|]. cbn [orb].
    rewrite np_neumann_neighbors_pixel_at by done. cbn [mbind result_bind].
    destruct (Z.eqb_spec x 0) as [Hx0|Hx0], (Z.eqb_spec y 0) as [Hy0|Hy0],
      (Z.eqb_spec x (Z.of_nat (ncols m) - 1)) as [Hxw|Hxw],
      (Z.eqb_spec y (Z.of_nat (nrows m) - 1)) as [Hyh|Hyh];
      cbn [negb andb];
      rewrite ?np_get_diag by (done || lia);
      cbn [mbind result_bind];
      rewrite ?(pixel_at_outside m (x - 1) (y - 1)) by lia;
      rewrite ?(pixel_at_outside m (x + 1) (y - 1)) by lia;
      rewrite ?(pixel_at_outside m (x - 1) (y + 1)) by lia;
      rewrite ?(pixel_at_outside m (x + 1) (y + 1)) by lia;
      reflexivity.
  - destruct (Z.ltb_spec (Z.of_nat (ncols m) - 1) x); [done|].
    destruct (Z.ltb_spec (Z.of_nat (nrows m) - 1) y); [done|].
    destruct (Z.ltb_spec x 0); [done|].
    destruct (Z.ltb_spec y 0); [done|]. lia.
Qed.

Lemma np_moore_neighbors_spec_witness :
  let m := NdArray 2 2 [[1; 2]; [3; 4]] in
  np_moore_neighbors m 1 1
  = if decide (0 <= 1 < Z.of_nat (ncols m) ∧ 0 <= 1 < Z.of_nat (nrows m))
    then Ok {| sides := mkNeighborhood (pixel_at m 1 (1 - 1))
                          (pixel_at m (1 + 1) 1) (pixel_at m 1 (1 + 1))
                          (pixel_at m (1 - 1) 1);
               top_left := pixel_at m (1 + 1) (1 - 1);
               top_right := pixel_at m (1 - 1) (1 - 1);
               bottom_right := pixel_at m (1 + 1) (1 + 1);
               bottom_left := pixel_at m (1 - 1) (1 + 1) |}
    else Raise ValueError.
Proof.
  intros m. apply (np_moore_neighbors_spec m 1 1).
  unfold wf_ndarray, m; simpl. split; [reflexivity|repeat constructor].
Defined.

(** ** Colours *)

Lemma Color_init_Ok p c : Color_init p = Ok c → valid_color c.
Proof.
  destruct p as [[[r1 g1] b1] a1]. unfold Color_init, valid_component.
  destruct (_ && _) eqn:E; [|done]. intros [= <-].
  repeat (apply andb_true_iff in E as [E ?]).
  repeat match goal with
         | H : _ && _ = true |- _ => apply andb_true_iff in H as [? ?]
         end.
  unfold valid_color; simpl. lia.
Qed.

Lemma Color_eq_true c d : Color_eq c d = true ↔ c = d.
Proof.
  unfold Color_eq. rewrite !andb_true_iff, !Z.eqb_eq.
  destruct c, d; simpl. split; [by intros [[[-> ->] ->] ->]|by intros [= -> -> -> ->]].
Qed.

(** X3. The hex string of a colour is a faithful key: for two colours the
    constructor accepts, the strings are equal exactly when [__eq__]
    holds; the string has nine characters. *)
Theorem to_hex_agrees_with_eq (p q : pixel) (c d : Color) :
  Color_init p = Ok c → Color_init q = Ok d →
  (to_hex c = to_hex d ↔ Color_eq c d = true) ∧
  String.length (to_hex c) = 9%nat.
Proof.
  intros Hc Hd. apply Color_init_Ok in Hc, Hd. split; [|done].
  rewrite Color_eq_true. split; [by apply to_hex_inj|by intros ->].
Qed.

Lemma to_hex_agrees_with_eq_witness :
  (to_hex (mkColor 255 0 16 255) = to_hex (mkColor 255 0 1 255)
   ↔ Color_eq (mkColor 255 0 16 255) (mkColor 255 0 1 255) = true) ∧
  String.length (to_hex (mkColor 255 0 16 255)) = 9%nat.
Proof.
  apply (to_hex_agrees_with_eq (255, 0, 16, 255) (255, 0, 1, 255));
    reflexivity.
Defined.

(** ** Point sets *)

Lemma ndarray_ext {A} (a b : ndarray A) :
  wf_ndarray a → wf_ndarray b → nrows a = nrows b → ncols a = ncols b →
  (∀ i j, (i < nrows a)%nat → (j < ncols a)%nat → cell a i j = cell b i j) →
  a = b.
Proof.
  destruct a as [ha wa ra], b as [hb wb rb]. unfold wf_ndarray, cell; simpl.
  intros [Hla Hfa] [Hlb Hfb] -> -> Hc. f_equal.
  apply list_eq_same_length with hb; [done..|].
  intros i x y Hi Hx Hy.
  apply list_eq_same_length with wb.
  - by eapply (Forall_lookup_1 _ _ _ _ Hfb).
  - by eapply (Forall_lookup_1 _ _ _ _ Hfa).
  - intros j u v Hj Hu Hv. specialize (Hc i j Hi Hj).
    rewrite Hx, Hy in Hc. simpl in Hc. congruence.
Qed.

Lemma set_ok_init w h : set_ok (Point2DSet_init w h).
Proof.
  unfold set_ok, Point2DSet_init; simpl. split_and!; try done.
  - split; simpl; [by rewrite length_replicate|].
    apply Forall_replicate. by rewrite length_replicate.
  - intros i j Hi Hj. rewrite np_zeros_cell by done.
    by rewrite bool_decide_eq_false_2 by set_solver.
Qed.

Lemma key_of_inj p q : key_of p = key_of q ↔ p = q.
Proof.
  unfold key_of. destruct p, q; simpl. split; [by intros [= -> ->]|by intros [= -> ->]].
Qed.

(** X4. Adding a point inside the frame of a consistent set succeeds: the
    result is consistent, has the same frame, contains the point, and
    contains any other point exactly when the set did. *)
Theorem add_point_in_frame (s : Point2DSet) (p : Point2D) :
  set_ok s →
  0 <= px p < Z.of_nat (width s) → 0 <= py p < Z.of_nat (height s) →
  ∃ s', add_point s p = Ok s' ∧ set_ok s' ∧
        width s' = width s ∧ height s' = height s ∧
        ∀ q, has_point s' q = Point2D_eq q p || has_point s q.
Proof.
  intros (Hwf & Hr & Hc & Hd & Hb) Hx Hy.
  destruct (np_set_in_range (bitmask s) (py p) (px p) 1 Hwf) as [bm Hbm];
    [lia..|].
  unfold add_point. rewrite Hbm. eexists. split; [done|].
  destruct (np_set_wf _ _ _ _ _ Hwf Hbm) as (Hwf' & Hr' & Hc').
  assert (∀ i j, cell bm i j
     = if decide (i = Z.to_nat (py p) ∧ j = Z.to_nat (px p)) then Some 1
       else cell (bitmask s) i j) as Hcell.
  { intros i j. eapply np_set_cell in Hbm as (_ & _ & E); [done|lia..]. }
  split; [|split; [done|split; [done|]]].
  - unfold set_ok; simpl. split_and!; [done|congruence|congruence|..].
    + intros x y [E%elem_of_singleton|?]%elem_of_union; [|by apply Hd].
      unfold key_of in E. simplify_eq. lia.
    + intros i j Hi Hj. rewrite Hcell, Hb by done. unfold key_of.
      case_decide as E.
      * destruct E as [-> ->]. rewrite !Z2Nat.id by lia.
        rewrite bool_decide_eq_true_2 by set_solver. done.
      * f_equal. symmetry. erewrite bool_decide_ext; [reflexivity|].
        rewrite elem_of_union, elem_of_singleton.
        split; [|by right]. intros [[= E1 E2]|?]; [|done].
        exfalso. apply E. split; lia.
  - intros q. unfold has_point; simpl.
    destruct (Point2D_eq q p) eqn:E; simpl.
    + apply Point2D_eq_true in E as ->.
      rewrite bool_decide_eq_true_2 by set_solver. done.
    + apply bool_decide_ext. rewrite elem_of_union, elem_of_singleton, key_of_inj.
      rewrite <- Point2D_eq_true, E. naive_solver.
Qed.

Lemma add_point_in_frame_witness :
  ∃ s', add_point (Point2DSet_init 3 2) (mkPoint2D 2 1) = Ok s' ∧ set_ok s' ∧
        width s' = width (Point2DSet_init 3 2) ∧
        height s' = height (Point2DSet_init 3 2) ∧
        ∀ q, has_point s' q
             = Point2D_eq q (mkPoint2D 2 1) || has_point (Point2DSet_init 3 2) q.
Proof.
  apply (add_point_in_frame (Point2DSet_init 3 2) (mkPoint2D 2 1)).
  - apply set_ok_init.
  - simpl. lia.
  - simpl. lia.
Defined.

(** X5. Removing a point inside the frame of a consistent set succeeds
    exactly when the set holds it, and then leaves a consistent set
    without the point and with every other point kept; for a point the
    set does not hold, [remove_point] raises [KeyError]. *)
Theorem remove_point_in_frame (s : Point2DSet) (p : Point2D) :
  set_ok s →
  0 <= px p < Z.of_nat (width s) → 0 <= py p < Z.of_nat (height s) →
  if has_point s p
  then ∃ s', remove_point s p = Ok s' ∧ set_ok s' ∧
             width s' = width s ∧ height s' = height s ∧
             ∀ q, has_point s' q = negb (Point2D_eq q p) && has_point s q
  else remove_point s p = Raise KeyError.
Proof.
  intros (Hwf & Hr & Hc & Hd & Hb) Hx Hy.
  destruct (np_set_in_range (bitmask s) (py p) (px p) 0 Hwf) as [bm Hbm];
    [lia..|].
  unfold remove_point, has_point. rewrite Hbm.
  destruct (decide (key_of p ∈ data s)) as [Hin|Hnin].
  2: { by rewrite bool_decide_eq_false_2 by done. }
  rewrite bool_decide_eq_true_2 by done.
  eexists. split; [done|].
  destruct (np_set_wf _ _ _ _ _ Hwf Hbm) as (Hwf' & Hr' & Hc').
  assert (∀ i j, cell bm i j
     = if decide (i = Z.to_nat (py p) ∧ j = Z.to_nat (px p)) then Some 0
       else cell (bitmask s) i j) as Hcell.
  { intros i j. eapply np_set_cell in Hbm as (_ & _ & E); [done|lia..]. }
  split; [|split; [done|split; [done|]]].
  - unfold set_ok; simpl. split_and!; [done|congruence|congruence|..].
    + intros x y [? _]%elem_of_difference. by apply Hd.
    + intros i j Hi Hj. rewrite Hcell, Hb by done. unfold key_of.
      case_decide as E.
      * destruct E as [-> ->]. rewrite !Z2Nat.id by lia.
        rewrite bool_decide_eq_false_2 by set_solver. done.
      * f_equal. symmetry. erewrite bool_decide_ext; [reflexivity|].
        rewrite elem_of_difference, elem_of_singleton.
        split; [by intros [? _]|]. intros ?. split; [done|].
        intros [= E1 E2]. apply E. split; lia.
  - intros q. simpl.
    destruct (Point2D_eq q p) eqn:E; simpl.
    + apply Point2D_eq_true in E as ->.
      rewrite bool_decide_eq_false_2 by set_solver. done.
    + apply bool_decide_ext. rewrite elem_of_difference, elem_of_singleton, key_of_inj.
      rewrite <- Point2D_eq_true, E. naive_solver.
Qed.

Lemma set_ok_two_point_set : set_ok two_point_set.
Proof.
  unfold set_ok, two_point_set; simpl. split_and!; [|done|done|..].
  - split; [reflexivity|repeat constructor].
  - intros x y [[= -> ->]%elem_of_singleton|[= -> ->]%elem_of_singleton]%elem_of_union;
      lia.
  - intros i j Hi Hj.
    destruct i as [|[|?]]; [| |lia]; destruct j as [|[|[|?]]]; try lia;
      simpl; f_equal;
      (rewrite bool_decide_eq_true_2 by set_solver)
      || (rewrite bool_decide_eq_false_2 by set_solver); done.
Qed.

Lemma remove_point_in_frame_witness :
  has_point two_point_set (mkPoint2D 2 1) = true ∧
  ∃ s', remove_point two_point_set (mkPoint2D 2 1) = Ok s' ∧
        set_ok s' ∧
        width s' = width two_point_set ∧ height s' = height two_point_set ∧
        ∀ q, has_point s' q
             = negb (Point2D_eq q (mkPoint2D 2 1)) && has_point two_point_set q.
Proof.
  assert (has_point two_point_set (mkPoint2D 2 1) = true) as E.
  { apply bool_decide_eq_true_2. unfold two_point_set, key_of; simpl. set_solver. }
  split; [exact E|].
  pose proof (remove_point_in_frame two_point_set (mkPoint2D 2 1)
                set_ok_two_point_set) as H.
  rewrite E in H. apply H; simpl; lia.
Defined.

(** X6. Round trip: on a consistent set, adding a point of the frame that
    the set does not hold and removing it again gives back the set,
    bitmask included. *)
Theorem add_then_remove_point (s : Point2DSet) (p : Point2D) :
  set_ok s →
  0 <= px p < Z.of_nat (width s) → 0 <= py p < Z.of_nat (height s) →
  has_point s p = false →
  ∃ s1, add_point s p = Ok s1 ∧ remove_point s1 p = Ok s.
Proof.
  intros (Hwf & Hr & Hc & Hd & Hb) Hx Hy Hp.
  apply bool_decide_eq_false in Hp.
  destruct (np_set_in_range (bitmask s) (py p) (px p) 1 Hwf) as [bm Hbm];
    [lia..|].
  destruct (np_set_wf _ _ _ _ _ Hwf Hbm) as (Hwf' & Hr' & Hc').
  destruct (np_set_in_range bm (py p) (px p) 0 Hwf') as [bm' Hbm'];
    [lia..|].
  destruct (np_set_wf _ _ _ _ _ Hwf' Hbm') as (Hwf'' & Hr'' & Hc'').
  unfold add_point. rewrite Hbm. eexists. split; [done|].
  unfold remove_point; simpl. rewrite Hbm'.
  rewrite decide_True by set_solver. f_equal.
  destruct s as [w h m d]; simpl in *. f_equal.
  - apply ndarray_ext; [done|done|congruence|congruence|].
    intros i j Hi Hj.
    eapply np_set_cell in Hbm' as (_ & _ & ->); [|lia..].
    eapply np_set_cell in Hbm as (_ & _ & ->); [|lia..].
    case_decide as E; [|done]. destruct E as [-> ->].
    rewrite Hb by lia. rewrite !Z2Nat.id by lia.
    by rewrite bool_decide_eq_false_2.
  - apply set_eq. intros k. set_solver.
Qed.

Lemma add_then_remove_point_witness :
  ∃ s1, add_point (Point2DSet_init 3 2) (mkPoint2D 2 1) = Ok s1 ∧
        remove_point s1 (mkPoint2D 2 1) = Ok (Point2DSet_init 3 2).
Proof.
  apply (add_then_remove_point (Point2DSet_init 3 2) (mkPoint2D 2 1)).
  - apply set_ok_init.
  - simpl. lia.
  - simpl. lia.
  - reflexivity.
Defined.

(** X7. On a consistent set of frame W x H, [add_point] and
    [remove_point] raise [ValueError] exactly for the points with
    [x] outside [-W, W) or [y] outside [-H, H). *)
Theorem point_set_value_error (s : Point2DSet) (p : Point2D) :
  set_ok s →
  let far := py p < - Z.of_nat (height s) ∨ Z.of_nat (height s) <= py p ∨
             px p < - Z.of_nat (width s) ∨ Z.of_nat (width s) <= px p in
  (add_point s p = Raise ValueError ↔ far) ∧
  (remove_point s p = Raise ValueError ↔ far).
Proof.
  intros (Hwf & Hr & Hc & Hd & Hb) far.
  assert (far ∨ (- Z.of_nat (nrows (bitmask s)) <= py p < Z.of_nat (nrows (bitmask s))
                 ∧ - Z.of_nat (ncols (bitmask s)) <= px p < Z.of_nat (ncols (bitmask s))))
    as [Hfar|[Hy Hx]] by (unfold far; lia).
  - unfold add_point, remove_point.
    rewrite !np_set_out_of_range by (unfold far in Hfar; lia). done.
  - assert (¬ far) by (unfold far; lia).
    unfold add_point, remove_point.
    destruct (np_set_in_range (bitmask s) (py p) (px p) 1 Hwf Hy Hx) as [b1 ->].
    destruct (np_set_in_range (bitmask s) (py p) (px p) 0 Hwf Hy Hx) as [b0 ->].
    split; [done|]. case_decide; done.
Qed.

Lemma point_set_value_error_witness :
  let s := Point2DSet_init 3 2 in
  let p := mkPoint2D 3 0 in
  let far := py p < - Z.of_nat (height s) ∨ Z.of_nat (height s) <= py p ∨
             px p < - Z.of_nat (width s) ∨ Z.of_nat (width s) <= px p in
  (add_point s p = Raise ValueError ↔ far) ∧
  (remove_point s p = Raise ValueError ↔ far).
Proof.
  apply (point_set_value_error (Point2DSet_init 3 2) (mkPoint2D 3 0)).
  apply set_ok_init.
Defined.

(** ** The node grid *)

Lemma alloc_row_spec h y x n h' rs :
  alloc_row h y x n = (h', rs) →
  length rs = n ∧ length h' = (length h + n)%nat ∧
  (∀ r o, h !! r = Some o → h' !! r = Some o) ∧
  ∀ j, (j < n)%nat →
    rs !! j = Some (length h + j)%nat ∧
    h' !! (length h + j)%nat = Some (Node2D (x + Z.of_nat j) y None None).
Proof.
  revert h x h' rs. induction n as [|n IH]; intros h x h' rs; simpl.
  - intros [= <- <-]. split_and!; [done|lia|done|lia].
  - destruct (alloc_row (h ++ [Node2D x y None None]) y (x + 1) n)
      as [h1 rs1] eqn:Hrow.
    intros [= <- <-]. apply IH in Hrow as (Hl & Hlh & Hpre & Hcells).
    rewrite length_app in Hlh, Hcells. simpl in Hlh, Hcells.
    split_and!; [simpl; lia|lia| |].
    + intros r o Hr. apply Hpre. by apply lookup_app_l_Some.
    + intros [|j] Hj.
      * split; [simpl; f_equal; lia|]. rewrite Nat.add_0_r, Z.add_0_r.
        apply Hpre. by rewrite lookup_app_r, Nat.sub_diag by lia.
      * destruct (Hcells j ltac:(lia)) as [E1 E2]. simpl. split.
        -- rewrite E1. f_equal. lia.
        -- replace (length h + S j)%nat with (length h + 1 + j)%nat by lia.
           rewrite E2. do 2 f_equal. lia.
Qed.

Lemma alloc_rows_spec h w y n h' d :
  alloc_rows h w y n = (h', d) →
  length d = n ∧ length h' = (length h + n * w)%nat ∧
  (∀ r o, h !! r = Some o → h' !! r = Some o) ∧
  ∀ i, (i < n)%nat →
    ∃ row, d !! i = Some row ∧ length row = w ∧
      ∀ j, (j < w)%nat →
        row !! j = Some (length h + i * w + j)%nat ∧
        h' !! (length h + i * w + j)%nat
        = Some (Node2D (Z.of_nat j) (y + Z.of_nat i) None None).
Proof.
  revert h y h' d. induction n as [|n IH]; intros h y h' d; simpl.
  - intros [= <- <-]. split_and!; [done|lia|done|lia].
  - destruct (alloc_row h y 0 w) as [h1 row] eqn:Hrow.
    destruct (alloc_rows h1 w (y + 1) n) as [h2 rest] eqn:Hrows.
    intros [= <- <-].
    apply alloc_row_spec in Hrow as (Hl1 & Hlh1 & Hpre1 & Hc1).
    apply IH in Hrows as (Hl2 & Hlh2 & Hpre2 & Hc2).
    split_and!; [simpl; lia|lia|by eauto|].
    intros [|i] Hi.
    + exists row. split; [done|]. split; [done|]. intros j Hj.
      destruct (Hc1 j Hj) as [E1 E2]. rewrite Nat.add_0_r, Z.add_0_r.
      split; [done|]. apply Hpre2. by rewrite E2.
    + destruct (Hc2 i ltac:(lia)) as (row' & E & Hlen & Hcells).
      exists row'. split; [done|]. split; [done|]. intros j Hj.
      destruct (Hcells j Hj) as [E1 E2].
      replace (length h + S i * w + j)%nat with (length h1 + i * w + j)%nat by lia.
      split; [done|]. rewrite E2. do 2 f_equal. lia.
Qed.

Lemma py_index_mod n i k :
  py_index n i = Some k → Z.of_nat k = i mod Z.of_nat n.
Proof.
  intros H. apply py_index_Some in H as (Hk & Hi & ->).
  destruct (Z.leb_spec 0 i).
  - by rewrite Z.mod_small by lia.
  - apply Z.mod_unique with (-1); lia.
Qed.

Lemma data_get_fresh h0 w ht x y :
  let hg := NodeGrid2D_init h0 w ht in
  data_get hg.2 y x
  = if decide (- Z.of_nat ht <= y < Z.of_nat ht ∧ - Z.of_nat w <= x < Z.of_nat w)
    then Ok (length h0 + Z.to_nat (y mod Z.of_nat ht) * w
             + Z.to_nat (x mod Z.of_nat w))%nat
    else Raise IndexError.
Proof.
  unfold NodeGrid2D_init.
  destruct (alloc_rows h0 w 0 ht) as [h d] eqn:Hd. simpl.
  apply alloc_rows_spec in Hd as (Hl & Hlh & Hpre & Hc).
  unfold data_get; simpl. rewrite Hl.
  destruct (py_index ht y) as [i|] eqn:Hi.
  2: { apply py_index_None in Hi. rewrite decide_False by lia. done. }
  pose proof (py_index_mod _ _ _ Hi) as Himod.
  apply py_index_Some in Hi as (Hi & Hy & _).
  destruct (Hc i Hi) as (row & -> & Hlen & Hcells). rewrite Hlen.
  destruct (py_index w x) as [j|] eqn:Hj.
  2: { apply py_index_None in Hj. rewrite decide_False by lia. done. }
  pose proof (py_index_mod _ _ _ Hj) as Hjmod.
  apply py_index_Some in Hj as (Hj & Hx & _).
  destruct (Hcells j Hj) as [-> _]. rewrite decide_True by lia.
  rewrite <- Himod, <- Hjmod, !Nat2Z.id. done.
Qed.

Lemma heap_fresh h0 w ht i j :
  (i < ht)%nat → (j < w)%nat →
  (NodeGrid2D_init h0 w ht).1 !! (length h0 + i * w + j)%nat
  = Some (Node2D (Z.of_nat j) (Z.of_nat i) None None).
Proof.
  intros Hi Hj. unfold NodeGrid2D_init.
  destruct (alloc_rows h0 w 0 ht) as [h d] eqn:Hd. simpl.
  apply alloc_rows_spec in Hd as (Hl & Hlh & Hpre & Hc).
  destruct (Hc i Hi) as (row & _ & _ & Hcells).
  destruct (Hcells j Hj) as [_ ->]. done.
Qed.

Lemma grid_index_inj (w a b c d : nat) :
  (b < w)%nat → (d < w)%nat → (a * w + b = c * w + d)%nat → a = c ∧ b = d.
Proof.
  intros Hb Hd E.
  destruct (lt_eq_lt_dec a c) as [[Hlt| ->]|Hgt]; [|lia|].
  - assert ((a + 1) * w <= c * w)%nat by (apply Nat.mul_le_mono_r; lia). lia.
  - assert ((c + 1) * w <= a * w)%nat by (apply Nat.mul_le_mono_r; lia). lia.
Qed.

(** X8. Indexing a freshly built grid of [w] columns and [ht] rows, with
    Python's list indexing: [data[y][x]] raises [IndexError] outside
    [-ht, ht) x [-w, w); inside, it is an unlinked [Node2D] whose
    coordinates are [x] and [y] taken modulo the width and the height, so
    a negative index reads from the far end.  Different cells hold
    different objects, and the objects that existed before are kept. *)
Theorem fresh_grid_indexing (h0 : heap) (w ht : nat) (x y : Z) :
  let hg := NodeGrid2D_init h0 w ht in
  (if decide (- Z.of_nat ht <= y < Z.of_nat ht ∧ - Z.of_nat w <= x < Z.of_nat w)
   then ∃ r, data_get hg.2 y x = Ok r ∧
             hg.1 !! r = Some (Node2D (x mod Z.of_nat w) (y mod Z.of_nat ht)
                                 None None) ∧
             (length h0 <= r)%nat ∧
             ∀ x' y' r', data_get hg.2 y' x' = Ok r' →
                r' = r →
                x' mod Z.of_nat w = x mod Z.of_nat w ∧
                y' mod Z.of_nat ht = y mod Z.of_nat ht
   else data_get hg.2 y x = Raise IndexError) ∧
  (∀ r o, h0 !! r = Some o → hg.1 !! r = Some o).
Proof.
  intros hg. split.
  - unfold hg. rewrite data_get_fresh. case_decide as Hin; [|done].
    eexists. split; [done|].
    assert (0 <= y mod Z.of_nat ht < Z.of_nat ht) by (apply Z.mod_pos_bound; lia).
    assert (0 <= x mod Z.of_nat w < Z.of_nat w) by (apply Z.mod_pos_bound; lia).
    split; [|split; [lia|]].
    + rewrite heap_fresh by lia. rewrite !Z2Nat.id by lia. done.
    + intros x' y' r'. rewrite data_get_fresh.
      case_decide as Hin'; [|done]. intros [= <-] E.
      assert (0 <= y' mod Z.of_nat ht < Z.of_nat ht) by (apply Z.mod_pos_bound; lia).
      assert (0 <= x' mod Z.of_nat w < Z.of_nat w) by (apply Z.mod_pos_bound; lia).
      destruct (grid_index_inj w (Z.to_nat (y' mod Z.of_nat ht))
                  (Z.to_nat (x' mod Z.of_nat w)) (Z.to_nat (y mod Z.of_nat ht))
                  (Z.to_nat (x mod Z.of_nat w))) as [E1 E2]; lia.
  - unfold hg, NodeGrid2D_init.
    destruct (alloc_rows h0 w 0 ht) as [h d] eqn:Hd. simpl.
    by apply alloc_rows_spec in Hd as (_ & _ & Hpre & _).
Qed.

(** X9. In the fresh grid built for a bitmask of [w] columns and [ht]
    rows, the four corner accessors of every pixel of the bitmask return
    four different unlinked nodes, at the coordinates of the pixel's
    corners. *)
Theorem fresh_grid_corners (w ht : nat) (x y : Z) :
  0 <= x < Z.of_nat w → 0 <= y < Z.of_nat ht →
  let hg := NodeGrid2D_init [] (w + 1) (ht + 1) in
  ∃ tl tr br bl,
    top_left_of hg.2 x y = Ok tl ∧ top_right_of hg.2 x y = Ok tr ∧
    bottom_right_of hg.2 x y = Ok br ∧ bottom_left_of hg.2 x y = Ok bl ∧
    hg.1 !! tl = Some (Node2D x y None None) ∧
    hg.1 !! tr = Some (Node2D (x + 1) y None None) ∧
    hg.1 !! br = Some (Node2D (x + 1) (y + 1) None None) ∧
    hg.1 !! bl = Some (Node2D x (y + 1) None None) ∧
    NoDup [tl; tr; br; bl].
Proof.
  intros Hx Hy hg.
  unfold top_left_of, top_right_of, bottom_right_of, bottom_left_of, hg.
  rewrite !data_get_fresh. rewrite !decide_True by lia.
  rewrite !Z.mod_small by lia.
  do 4 eexists. split_and!; try done.
  - rewrite heap_fresh by lia. by rewrite !Z2Nat.id by lia.
  - rewrite heap_fresh by lia. by rewrite !Z2Nat.id by lia.
  - rewrite heap_fresh by lia. by rewrite !Z2Nat.id by lia.
  - rewrite heap_fresh by lia. by rewrite !Z2Nat.id by lia.
  - assert (∀ a b c d : nat,
              (b < w + 1)%nat → (d < w + 1)%nat → (a ≠ c ∨ b ≠ d) →
              (0 + a * (w + 1) + b ≠ 0 + c * (w + 1) + d)%nat) as Hne.
    { intros a b c d Hb Hd Hor E.
      destruct (grid_index_inj (w + 1) a b c d); lia. }
    simpl. repeat constructor; rewrite ?elem_of_cons, ?elem_of_nil;
      intros Hin; repeat (destruct Hin as [Hin|Hin]); try done;
      revert Hin; apply Hne; lia.
Qed.

Lemma fresh_grid_corners_witness :
  let hg := NodeGrid2D_init [] (2 + 1) (2 + 1) in
  ∃ tl tr br bl,
    top_left_of hg.2 1 0 = Ok tl ∧ top_right_of hg.2 1 0 = Ok tr ∧
    bottom_right_of hg.2 1 0 = Ok br ∧ bottom_left_of hg.2 1 0 = Ok bl ∧
    hg.1 !! tl = Some (Node2D 1 0 None None) ∧
    hg.1 !! tr = Some (Node2D (1 + 1) 0 None None) ∧
    hg.1 !! br = Some (Node2D (1 + 1) (0 + 1) None None) ∧
    hg.1 !! bl = Some (Node2D 1 (0 + 1) None None) ∧
    NoDup [tl; tr; br; bl].
Proof.
  apply (fresh_grid_corners 2 2 1 0); simpl; lia.
Defined.

(** ** Loops: [is_enclosed], the path emitter and [optimize] *)

Lemma chain_hd h a l z :
  chain h a (l ++ [z]) = true → fnext h a = Some (hd z l).
Proof.
  destruct l as [|b l]; cbn [app]; intros H; by apply chain_cons in H as (? & _).
Qed.

Lemma enclosed_walk_chain h o z : ∀ l a fuel,
  (∀ r, r ∈ l ++ [z] → is_node h r = true) → is_node h o = true →
  chain h a (l ++ [z]) = true →
  (∀ r, r ∈ l → Point2D_eq (pt h r) (pt h o) = false) →
  fnext h z = None ∨ Point2D_eq (pt h z) (pt h o) = true →
  (length l < fuel)%nat →
  enclosed_walk fuel h o (hd z l) = Ok z.
Proof.
  induction l as [|b l IH]; intros a fuel Hn Ho Hc Hne Hz Hf;
    (destruct fuel as [|fuel]; [simpl in Hf; lia|]); cbn [hd enclosed_walk].
  - rewrite get_next_node by (apply Hn; set_solver). cbn [mbind result_bind].
    destruct (fnext h z) as [nx|] eqn:E; [|done].
    destruct Hz as [?|Hz]; [done|].
    rewrite node_eq_node by (done || apply Hn; set_solver).
    cbn [mbind result_bind]. by rewrite Hz.
  - cbn [app] in Hc. apply chain_cons in Hc as (_ & _ & Hc).
    rewrite get_next_node by (apply Hn; set_solver). cbn [mbind result_bind].
    rewrite (chain_hd _ _ _ _ Hc).
    rewrite node_eq_node by (done || apply Hn; set_solver).
    cbn [mbind result_bind]. rewrite Hne by set_solver.
    apply (IH b); [|done|done| |done|simpl in Hf; lia].
    + intros r Hr. apply Hn. set_solver.
    + intros r Hr. apply Hne. set_solver.
Qed.

Lemma Point2D_eq_false_iff p q : Point2D_eq p q = false ↔ p ≠ q.
Proof. rewrite <- Point2D_eq_true. by destruct (Point2D_eq p q). Qed.


(** X10. On a well-formed loop, [is_enclosed] returns [True] and the
    checking constructor accepts the origin. *)
Theorem is_enclosed_on_loop (fuel : nat) (h : heap) (o : ref) (l : list ref) :
  is_loop h o l = true → (length l < fuel)%nat →
  is_enclosed fuel h (mkNodeLoop o) = Ok true ∧
  NodeLoop_init fuel h o false = Ok (mkNodeLoop o).
Proof.
  intros (Hnd & Hn & Hc & Hne)%is_loop_spec Hf.
  assert (is_enclosed fuel h (mkNodeLoop o) = Ok true) as E.
  { unfold is_enclosed; cbn [origin].
    rewrite get_next_node by (apply Hn; set_solver). cbn [mbind result_bind].
    rewrite (chain_hd _ _ _ _ Hc).
    rewrite (enclosed_walk_chain h o o l o fuel); try done.
    - cbn [mbind result_bind].
      rewrite node_eq_node by (apply Hn; set_solver).
      by rewrite Point2D_eq_refl.
    - intros r Hr. apply Hn. set_solver.
    - apply Hn. set_solver.
    - intros r Hr. apply Point2D_eq_false_iff. by apply Hne.
    - right. apply Point2D_eq_refl. }
  split; [done|]. unfold NodeLoop_init. by rewrite E.
Qed.

Lemma is_enclosed_on_loop_witness :
  is_enclosed 6 rectangle_heap (mkNodeLoop 0%nat) = Ok true ∧
  NodeLoop_init 6 rectangle_heap 0%nat false = Ok (mkNodeLoop 0%nat).
Proof.
  apply (is_enclosed_on_loop 6 rectangle_heap 0%nat [1; 2; 3; 4; 5]%nat).
  - by vm_compute.
  - simpl. lia.
Defined.








Lemma optimize_step_skeleton h node h' nx :
  optimize_step h node = Ok (h', nx) → skeleton <$> h' = skeleton <$> h.
Proof.
  unfold optimize_step. intros H.
  do 6 (apply bind_Ok_inv in H as (? & _ & H)).
  apply bind_Ok_inv in H as (h1 & Hh1 & H).
  do 2 (apply bind_Ok_inv in H as (? & _ & H)).
  injection H as <- _.
  destruct (_ || _); [|by injection Hh1 as <-].
  apply bind_Ok_inv in Hh1 as (h2 & E1%set_next_skeleton & Hh1).
  do 3 (apply bind_Ok_inv in Hh1 as (? & _ & Hh1)).
  apply set_prev_skeleton in Hh1. by rewrite Hh1.
Qed.

Lemma optimize_from_skeleton : ∀ fuel h o node h',
  optimize_from fuel h o node = Ok h' → skeleton <$> h' = skeleton <$> h.
Proof.
  induction fuel as [|fuel IH]; intros h o node h'; [done|].
  cbn [optimize_from]. intros ([h1 n1] & Hs & H)%bind_Ok_inv.
  apply optimize_step_skeleton in Hs.
  apply bind_Ok_inv in H as (e & _ & H).
  destruct e; [by injection H as <-|].
  apply IH in H. by rewrite H.
Qed.

(** X14. [optimize] only rewires links: whenever it returns, every object
    of the heap has kept its class, its coordinates and, for a virtual
    node, its real nodes, and no object was created or dropped. *)
Theorem optimize_keeps_objects (fuel : nat) (h : heap) (l : NodeLoop) (h' : heap) :
  optimize fuel h l = Ok h' →
  skeleton <$> h' = skeleton <$> h ∧ length h' = length h.
Proof.
  intros H%optimize_from_skeleton. split; [done|].
  by rewrite <- (length_fmap skeleton h'), H, length_fmap.
Qed.

Lemma optimize_keeps_objects_witness :
  ∃ h', optimize 6 rectangle_heap (mkNodeLoop 0%nat) = Ok h' ∧
        skeleton <$> h' = skeleton <$> rectangle_heap ∧
        length h' = length rectangle_heap.
Proof.
  eexists. split; [by vm_compute|].
  apply (optimize_keeps_objects 6 rectangle_heap (mkNodeLoop 0%nat)).
  by vm_compute.
Defined.

(** ** [NodeGrid2D.connect] *)

Lemma fully_linked_node h r :
  is_node h r = true →
  fully_linked h r
  = Ok (bool_decide (is_Some (fprev h r)) && bool_decide (is_Some (fnext h r))).
Proof.
  intros Hr. unfold fully_linked.
  rewrite get_prev_node, get_next_node by done. cbn [mbind result_bind].
  destruct (fprev h r); [|done].
  by rewrite (bool_decide_eq_true_2 (is_Some (Some _))) by eauto.
Qed.

Lemma real_of_node h r : is_node h r = true → real_of h r = Ok (Some r).
Proof.
  intros (x & y & n & p & E)%is_node_Some.
  unfold real_of, is_virtual, deref. by rewrite E.
Qed.

Lemma is_node_upd_next h r v r' : is_node (upd_next h r v) r' = is_node h r'.
Proof.
  unfold is_node. rewrite lookup_upd_next. by destruct (h !! r') as [[]|].
Qed.

(** X15. [connect] on two [Node2D] objects of which neither has both
    links: no virtual node is made and the grid is left alone; the first
    node gets the second as [next], the second gets the first as [prev],
    and no other link and no coordinate changes. *)
Theorem connect_plain_nodes (h : heap) (g : NodeGrid2D) (n1 n2 : ref) :
  is_node h n1 = true → is_node h n2 = true →
  fprev h n1 = None ∨ fnext h n1 = None →
  fprev h n2 = None ∨ fnext h n2 = None →
  ∃ h', connect h g n1 n2 = Ok (h', g) ∧
        length h' = length h ∧
        (∀ r, is_node h r = true →
              fnext h' r = (if decide (r = n1) then Some n2 else fnext h r) ∧
              fprev h' r = (if decide (r = n2) then Some n1 else fprev h r)) ∧
        (∀ r, skeleton <$> h' !! r = skeleton <$> h !! r).
Proof.
  intros H1 H2 Hl1 Hl2. exists (splice h n1 n2).
  assert (∀ r, is_node h r = true → fprev h r = None ∨ fnext h r = None →
               fully_linked h r = Ok false) as Hfl.
  { intros r Hr Hl. rewrite fully_linked_node by done. f_equal.
    destruct Hl as [-> | ->].
    - rewrite (bool_decide_eq_false_2 (is_Some None)); [done|].
      by intros [? ?].
    - rewrite (bool_decide_eq_false_2 (is_Some None)), andb_false_r; [done|].
      by intros [? ?]. }
  split_and!.
  - unfold connect. rewrite (Hfl n1) by done. cbn [mbind result_bind].
    rewrite (Hfl n2) by done. cbn [mbind result_bind].
    rewrite real_of_node by done. cbn [mbind result_bind].
    rewrite set_next_node by done. cbn [mbind result_bind].
    rewrite real_of_node by (by rewrite is_node_upd_next).
    cbn [mbind result_bind].
    rewrite set_prev_node by (by rewrite is_node_upd_next). done.
  - unfold splice, upd_prev, upd_next.
    repeat (case_match; rewrite ?length_insert); done.
  - intros r Hr. by rewrite fnext_splice, fprev_splice.
  - intros r. rewrite lookup_splice. by destruct (h !! r) as [[]|].
Qed.

Lemma connect_plain_nodes_witness :
  let h := [Node2D 0 0 None None; Node2D 1 0 None None] in
  let g := mkNodeGrid2D 2 1 [[0; 1]]%nat in
  ∃ h', connect h g 0%nat 1%nat = Ok (h', g) ∧
        length h' = length h ∧
        (∀ r, is_node h r = true →
              fnext h' r = (if decide (r = 0%nat) then Some 1%nat else fnext h r) ∧
              fprev h' r = (if decide (r = 1%nat) then Some 0%nat else fprev h r)) ∧
        (∀ r, skeleton <$> h' !! r = skeleton <$> h !! r).
Proof.
  apply (connect_plain_nodes [Node2D 0 0 None None; Node2D 1 0 None None]
           (mkNodeGrid2D 2 1 [[0; 1]]%nat) 0%nat 1%nat).
  - reflexivity.
  - reflexivity.
  - by left.
  - by left.
Defined.

(** ** The labeler *)

Lemma pixel_at_Some_range (bm : ndarray Z) x y (v : Z) :
  pixel_at bm x y = Some v →
  0 <= x < Z.of_nat (ncols bm) ∧ 0 <= y < Z.of_nat (nrows bm).
Proof. unfold pixel_at. case_decide; [done|discriminate]. Qed.

Lemma pixel_at_np_set (m : ndarray Z) y x v m' :
  wf_ndarray m →
  0 <= x < Z.of_nat (ncols m) → 0 <= y < Z.of_nat (nrows m) →
  np_set m y x v = Ok m' →
  wf_ndarray m' ∧ nrows m' = nrows m ∧ ncols m' = ncols m ∧
  ∀ x' y', pixel_at m' x' y'
           = if decide (x' = x ∧ y' = y) then Some v else pixel_at m x' y'.
Proof.
  intros Hwf Hx Hy Hset.
  destruct (np_set_wf _ _ _ _ _ Hwf Hset) as (Hwf' & Hr & Hc).
  split_and!; [done..|]. intros x' y'. unfold pixel_at. rewrite Hr, Hc.
  case_decide as Hin.
  - eapply np_set_cell in Hset as (_ & _ & ->); [|lia..].
    destruct Hin as [Hx' Hy'].
    destruct (decide (x' = x ∧ y' = y)) as [[-> ->]|Hne].
    + by rewrite decide_True.
    + rewrite decide_False; [done|]. intros [E1 E2]. apply Hne. lia.
  - case_decide as E; [|done]. destruct E as [-> ->]. lia.
Qed.

Lemma eq_1_true v : eq_1 v = true ↔ v = Some 1.
Proof.
  destruct v as [z|]; simpl; [|done]. rewrite Z.eqb_eq.
  split; [by intros ->|by intros [= ->]].
Qed.

Lemma elem_of_neighbors_to_push bm x y x' y' :
  (x', y') ∈ neighbors_to_push bm x y
  ↔ neumann_adjacent x y x' y' ∧ pixel_at bm x' y' = Some 1.
Proof.
  unfold neighbors_to_push, neumann_adjacent.
  rewrite !elem_of_app.
  assert (∀ (b : bool) (p : Z * Z),
            (x', y') ∈ (if b then [p] else []) ↔ b = true ∧ (x', y') = p) as Hif.
  { intros [] p; rewrite ?list_elem_of_singleton, ?elem_of_nil; naive_solver. }
  rewrite !Hif, !eq_1_true. split.
  - intros [(H & [= -> ->])|[(H & [= -> ->])|[(H & [= -> ->])|(H & [= -> ->])]]];
      (split; [lia|done]).
  - intros [[[-> [->| ->]]|[-> [->| ->]]] H]; tauto.
Qed.

(** One round of the [while stack:] loop at a cell that has a label. *)
Lemma flood_fill_skip fuel bm m region_id x y stack x0 y0 lab :
  wf_ndarray m →
  0 <= x < Z.of_nat (ncols m) → 0 <= y < Z.of_nat (nrows m) →
  pixel_at m x y = Some lab → lab ≠ 0 →
  flood_fill (S fuel) bm m region_id ((x, y) :: stack) x0 y0
  = flood_fill fuel bm m region_id stack x y.
Proof.
  intros Hwf Hx Hy Hlab Hne. cbn [flood_fill].
  destruct (np_get_pixel_at m x y Hwf Hx Hy) as (lab' & -> & Hlab').
  cbn [mbind result_bind]. assert (lab' = lab) as -> by congruence.
  by destruct (Z.eqb_spec lab 0).
Qed.

(** One round of the loop at a cell without a label. *)
Lemma flood_fill_mark fuel bm m region_id x y stack x0 y0 :
  wf_ndarray bm → same_shape bm m →
  0 <= x < Z.of_nat (ncols bm) → 0 <= y < Z.of_nat (nrows bm) →
  pixel_at m x y = Some 0 →
  ∃ m1, same_shape bm m1 ∧
    (∀ x' y', pixel_at m1 x' y'
              = if decide (x' = x ∧ y' = y) then Some (wrap_int8 region_id)
                else pixel_at m x' y') ∧
    flood_fill (S fuel) bm m region_id ((x, y) :: stack) x0 y0
    = flood_fill fuel bm m1 region_id (neighbors_to_push bm x y ++ stack) x y.
Proof.
  intros Hbm (Hwf & Hr & Hc) Hx Hy Hlab.
  destruct (np_set_in_range m y x (wrap_int8 region_id) Hwf) as [m1 Hset];
    [lia..|].
  destruct (pixel_at_np_set m y x (wrap_int8 region_id) m1 Hwf)
    as (Hwf1 & Hr1 & Hc1 & Hpix); [lia..|done|].
  exists m1. split; [split_and!; [done|congruence|congruence]|].
  split; [done|]. cbn [flood_fill].
  destruct (np_get_pixel_at m x y Hwf) as (lab' & -> & Hlab'); [lia..|].
  cbn [mbind result_bind]. assert (lab' = 0) as -> by congruence.
  cbn [Z.eqb negb]. rewrite Hset. cbn [mbind result_bind].
  rewrite np_neumann_neighbors_pixel_at by done.
  cbn [mbind result_bind top right bottom left].
  unfold neighbors_to_push.
  by destruct (eq_1 (pixel_at bm (x - 1) y)), (eq_1 (pixel_at bm x (y + 1))),
    (eq_1 (pixel_at bm (x + 1) y)), (eq_1 (pixel_at bm x (y - 1))).
Qed.

Lemma fill_inv_top bm m region_id x y stack :
  fill_inv bm m region_id ((x, y) :: stack) →
  pixel_at bm x y = Some 1 ∧
  0 <= x < Z.of_nat (ncols bm) ∧ 0 <= y < Z.of_nat (nrows bm) ∧
  ∃ lab, pixel_at m x y = Some lab.
Proof.
  intros ((Hwf & Hr & Hc) & _ & Hstack & _).
  assert (pixel_at bm x y = Some 1) as H1 by (apply Hstack; set_solver).
  destruct (pixel_at_Some_range _ _ _ _ H1) as [Hx Hy].
  destruct (np_get_pixel_at m x y Hwf) as (lab & _ & Hlab); [lia..|]. eauto.
Qed.

Lemma fill_inv_skip bm m region_id x y stack lab :
  fill_inv bm m region_id ((x, y) :: stack) →
  pixel_at m x y = Some lab → lab ≠ 0 →
  fill_inv bm m region_id stack.
Proof.
  intros (Hshape & Hsound & Hstack & Hpairs) Hlab Hne. split_and!; try done.
  - intros ???. apply Hstack. set_solver.
  - intros a b a' b' L HL HL0 Hadj Hb.
    destruct (Hpairs a b a' b' L HL HL0 Hadj Hb) as [?|(? & Hin & H0)];
      [by left|]. right. split_and!; [done| |done].
    apply elem_of_cons in Hin as [[= -> ->]|?]; [|done]. congruence.
Qed.

Lemma fill_inv_mark bm m m1 region_id x y stack :
  fill_inv bm m region_id ((x, y) :: stack) →
  pixel_at m x y = Some 0 →
  same_shape bm m1 →
  (∀ x' y', pixel_at m1 x' y'
            = if decide (x' = x ∧ y' = y) then Some (wrap_int8 region_id)
              else pixel_at m x' y') →
  fill_inv bm m1 region_id (neighbors_to_push bm x y ++ stack).
Proof.
  intros Hinv Hlab Hshape1 Hpix.
  destruct (fill_inv_top _ _ _ _ _ _ Hinv) as (H1 & Hx & Hy & _).
  destruct Hinv as ((Hwf & Hr & Hc) & Hsound & Hstack & Hpairs).
  split_and!; [done| | |].
  - intros a b L. rewrite Hpix. case_decide as E; [|by apply Hsound].
    destruct E as [-> ->]. done.
  - intros a b [Hin|Hin]%elem_of_app; [|apply Hstack; set_solver].
    by apply elem_of_neighbors_to_push in Hin as [_ ?].
  - intros a b a' b' L. rewrite !Hpix.
    destruct (decide (a = x ∧ b = y)) as [[-> ->]|Hab].
    + intros [= <-] HL0 Hadj Hb.
      destruct (decide (a' = x ∧ b' = y)) as [[-> ->]|Hab']; [by left|].
      destruct (np_get_pixel_at m a' b' Hwf) as (lab' & _ & Hlab').
      { rewrite Hc. apply pixel_at_Some_range in Hb. lia. }
      { rewrite Hr. apply pixel_at_Some_range in Hb. lia. }
      destruct (decide (lab' = 0)) as [->|Hne'].
      * right. split; [done|]. split; [|done]. apply elem_of_app. left.
        by apply elem_of_neighbors_to_push.
      * left. rewrite Hlab'. f_equal.
        assert (neumann_adjacent a' b' x y) as Hadj'.
        { unfold neumann_adjacent in *. lia. }
        destruct (Hpairs a' b' x y lab' Hlab' Hne' Hadj' H1)
          as [E|(E & _ & _)]; [congruence|done].
    + intros HL HL0 Hadj Hb.
      destruct (Hpairs a b a' b' L HL HL0 Hadj Hb) as [E|(E & Hin & H0)].
      * left. case_decide as E'; [|done]. destruct E' as [-> ->]. congruence.
      * case_decide as E'; [left; congruence|].
        right. split_and!; [done| |done]. apply elem_of_app. right.
        apply elem_of_cons in Hin as [[= -> ->]|?]; [|done].
        exfalso. by apply E'.
Qed.

Lemma flood_fill_inv bm : wf_ndarray bm → ∀ fuel stack m region_id x0 y0 m' x1 y1,
  fill_inv bm m region_id stack →
  0 <= y0 < Z.of_nat (nrows bm) →
  flood_fill fuel bm m region_id stack x0 y0 = Ok (m', x1, y1) →
  fill_inv bm m' region_id [] ∧ 0 <= y1 < Z.of_nat (nrows bm).
Proof.
  intros Hbm. induction fuel as [|fuel IH];
    intros stack m region_id x0 y0 m' x1 y1 Hinv Hy0;
    destruct stack as [|[x y] stack];
    try (cbn [flood_fill]; intros [= <- <- <-]; done); try done.
  destruct (fill_inv_top _ _ _ _ _ _ Hinv) as (H1 & Hx & Hy & lab & Hlab).
  pose proof Hinv as ((Hwf & Hr & Hc) & _).
  destruct (decide (lab = 0)) as [->|Hne].
  - destruct (flood_fill_mark fuel bm m region_id x y stack x0 y0)
      as (m1 & Hshape1 & Hpix & ->); [done..|].
    apply IH; [|done]. by eapply fill_inv_mark.
  - rewrite (flood_fill_skip _ _ _ _ _ _ _ _ _ lab) by (done || lia).
    apply IH; [|done]. by eapply fill_inv_skip.
Qed.

Lemma label_cell_inv bm fuel m region_id y x m' region_id' y' :
  wf_ndarray bm →
  same_shape bm m → labels_on_ones bm m → labels_closed bm m →
  0 <= y < Z.of_nat (nrows bm) → 0 <= x < Z.of_nat (ncols bm) →
  label_cell fuel bm (m, region_id, y) x = Ok (m', region_id', y') →
  same_shape bm m' ∧ labels_on_ones bm m' ∧ labels_closed bm m' ∧
  0 <= y' < Z.of_nat (nrows bm).
Proof.
  intros Hbm Hshape Hsound Hclosed Hy Hx. unfold label_cell.
  destruct (np_get_pixel_at bm x y Hbm Hx Hy) as (v & -> & Hv).
  cbn [mbind result_bind].
  destruct (Z.eqb_spec v 1) as [->|_]; [|by intros [= <- <- <-]].
  destruct Hshape as (Hwf & Hr & Hc).
  destruct (np_get_pixel_at m x y Hwf) as (lab & -> & Hlab); [lia..|].
  cbn [mbind result_bind].
  destruct (Z.eqb_spec lab 0) as [->|_]; [|by intros [= <- <- <-]].
  intros ([[m1 x1] y1] & Hfill & [= <- <- <-])%bind_Ok_inv.
  apply flood_fill_inv in Hfill as ((? & ? & _ & Hpairs) & ?); [|done| |done].
  - split_and!; [done|done| |lia|lia]. intros a b a' b' L HL HL0 Hadj Hb.
    destruct (Hpairs a b a' b' L HL HL0 Hadj Hb) as [?|(_ & Hin & _)];
      [done|]. by apply elem_of_nil in Hin.
  - split_and!; [done|done| |].
    + by intros a b [= -> ->]%list_elem_of_singleton.
    + intros a b a' b' L HL HL0 Hadj Hb. left. by eapply Hclosed.
Qed.

Lemma find_connected_neumann_regions_inv fuel bm m :
  wf_ndarray bm →
  find_connected_neumann_regions fuel bm = Ok m →
  same_shape bm m ∧ labels_on_ones bm m ∧ labels_closed bm m.
Proof.
  intros Hbm. unfold find_connected_neumann_regions.
  intros ([[m' id] y'] & Hloop & [= <-])%bind_Ok_inv.
  set (I := λ s : ndarray Z * Z * Z,
         same_shape bm s.1.1 ∧ labels_on_ones bm s.1.1 ∧ labels_closed bm s.1.1).
  change (I (m', id, y')).
  eapply (for_each_invariant I) in Hloop; [done| |].
  - intros [[m0 id0] y0] y [[m1 id1] y1] Hyr (Hs & Ho & Hcl) Hrow.
    apply elem_of_range in Hyr.
    set (J := λ s : ndarray Z * Z * Z,
           same_shape bm s.1.1 ∧ labels_on_ones bm s.1.1
           ∧ labels_closed bm s.1.1 ∧ 0 <= s.2 < Z.of_nat (nrows bm)).
    assert (J (m1, id1, y1)) as (? & ? & ? & _); [|done].
    eapply (for_each_invariant J) in Hrow; [done| |done].
    intros [[ma ida] ya] x [[mb idb] yb] Hxr (? & ? & ? & ?) Hcell.
    apply elem_of_range in Hxr. by eapply label_cell_inv.
  - unfold I; simpl. split_and!.
    + split_and!; [|done|done]. split; simpl; [by rewrite length_replicate|].
      apply Forall_replicate. by rewrite length_replicate.
    + intros x y L. unfold pixel_at. case_decide as Hin; [|done]. simpl in Hin.
      rewrite np_zeros_cell by lia. by intros [= <-].
    + intros x y a b L. unfold pixel_at at 1. case_decide as Hin; [|done].
      simpl in Hin. rewrite np_zeros_cell by lia. by intros [= <-].
Qed.

(** X16. Whenever the labeler returns, the label matrix has the shape of
    the bitmask, only cells that are 1 in the bitmask carry a label, and a
    labelled cell and any cell of the bitmask that is 1 and shares a side
    with it carry the same label: no label boundary runs through a
    connected set of pixels. *)
Theorem labels_respect_adjacency (fuel : nat) (bm m : ndarray Z) :
  wf_ndarray bm →
  find_connected_neumann_regions fuel bm = Ok m →
  same_shape bm m ∧ labels_on_ones bm m ∧ labels_closed bm m.
Proof. apply find_connected_neumann_regions_inv. Qed.

Lemma labels_respect_adjacency_witness :
  ∃ m, find_connected_neumann_regions 20 comb_bitmask = Ok m ∧
       same_shape comb_bitmask m ∧ labels_on_ones comb_bitmask m ∧
       labels_closed comb_bitmask m.
Proof.
  eexists. split; [by vm_compute|].
  apply (labels_respect_adjacency 20 comb_bitmask).
  - split; [reflexivity|repeat constructor].
  - by vm_compute.
Defined.

(** ** Clusters *)

Lemma cells_row_major_pixel_at (m : ndarray Z) x y v :
  wf_ndarray m → (x, y, v) ∈ cells_row_major m ↔ pixel_at m x y = Some v.
Proof.
  intros Hwf. rewrite elem_of_cells_row_major. unfold pixel_at. split.
  - intros (Hx & Hy & Hc). pose proof (cell_Some_lt _ _ _ _ Hwf Hc).
    rewrite decide_True by lia. done.
  - case_decide as Hin; [|done]. intros Hc. split_and!; [lia|lia|done].
Qed.

(** X17. The clusters of a region, whenever [split_into_clusters] returns:
    every cluster has the region's colour and holds only pixels of the
    region; with a pixel it holds every pixel of the region that shares a
    side with it; no cluster is empty and no pixel is in two clusters. *)
Theorem clusters_respect_adjacency (fuel : nat) (rg : Color2DRegion)
    (cs : list Color2DRegion) :
  wf_ndarray (bitmask (points rg)) →
  split_into_clusters fuel rg = Ok cs →
  (∀ cl, cl ∈ cs →
     color cl = color rg ∧
     (∃ x y, has_point (points cl) (mkPoint2D x y) = true) ∧
     ∀ x y, has_point (points cl) (mkPoint2D x y) = true →
       pixel_at (bitmask (points rg)) x y = Some 1 ∧
       ∀ x' y', neumann_adjacent x y x' y' →
         pixel_at (bitmask (points rg)) x' y' = Some 1 →
         has_point (points cl) (mkPoint2D x' y') = true) ∧
  (∀ (i j : nat) cl1 cl2 x y,
     cs !! i = Some cl1 → cs !! j = Some cl2 →
     has_point (points cl1) (mkPoint2D x y) = true →
     has_point (points cl2) (mkPoint2D x y) = true → i = j).
Proof.
  intros Hwf Hsplit.
  apply split_into_clusters_order in Hsplit as (m & Hm & Hcl & _).
  apply find_connected_neumann_regions_inv in Hm as ((Hwfm & _ & _) & Hon & Hclosed);
    [|done].
  assert (∀ cl x y, has_point (points cl) (mkPoint2D x y) = true
                    ↔ (x, y) ∈ data (points cl)) as Hhas.
  { intros. unfold has_point, key_of. simpl. apply bool_decide_eq_true. }
  setoid_rewrite Hhas. split.
  - intros cl Hin. apply list_elem_of_lookup in Hin as [i Hi].
    destruct (Forall2_lookup_r _ _ _ _ _ Hcl Hi) as (id & Hid & Hne & Hcol & Hdata).
    split; [done|]. split.
    + apply list_elem_of_lookup_2 in Hid. unfold cluster_ids in Hid.
      rewrite elem_of_first_occurrences in Hid.
      apply list_elem_of_fmap in Hid as ([[x y] v] & -> & Hc).
      apply list_elem_of_filter in Hc as [_ Hc]. simpl in *.
      exists x, y. by apply Hdata.
    + intros x y Hxy. apply Hdata, cells_row_major_pixel_at in Hxy; [|done].
      split; [by eapply Hon|]. intros x' y' Hadj H1.
      apply Hdata, cells_row_major_pixel_at; [done|]. by eapply Hclosed.
  - intros i j cl1 cl2 x y Hi Hj H1 H2.
    destruct (Forall2_lookup_r _ _ _ _ _ Hcl Hi) as (id1 & Hid1 & _ & _ & Hd1).
    destruct (Forall2_lookup_r _ _ _ _ _ Hcl Hj) as (id2 & Hid2 & _ & _ & Hd2).
    apply Hd1 in H1. apply Hd2 in H2.
    pose proof (cells_row_major_unique _ _ _ _ _ H1 H2) as <-.
    eapply NoDup_lookup; [|exact Hid1|exact Hid2].
    apply NoDup_first_occurrences.
Qed.

Lemma clusters_respect_adjacency_witness :
  ∃ cs, split_into_clusters 20 diagonal_region = Ok cs ∧
  (∀ cl, cl ∈ cs →
     color cl = color diagonal_region ∧
     (∃ x y, has_point (points cl) (mkPoint2D x y) = true) ∧
     ∀ x y, has_point (points cl) (mkPoint2D x y) = true →
       pixel_at (bitmask (points diagonal_region)) x y = Some 1 ∧
       ∀ x' y', neumann_adjacent x y x' y' →
         pixel_at (bitmask (points diagonal_region)) x' y' = Some 1 →
         has_point (points cl) (mkPoint2D x' y') = true) ∧
  (∀ (i j : nat) cl1 cl2 x y,
     cs !! i = Some cl1 → cs !! j = Some cl2 →
     has_point (points cl1) (mkPoint2D x y) = true →
     has_point (points cl2) (mkPoint2D x y) = true → i = j).
Proof.
  eexists. split; [by vm_compute|].
  apply (clusters_respect_adjacency 20 diagonal_region).
  - split; [reflexivity|repeat constructor].
  - by vm_compute.
Defined.

(** ** The pipeline on an image without opaque pixels *)

Lemma elem_of_image_colors img c :
  c ∈ image_colors img ↔ ∃ i j p, cell img i j = Some p ∧ c = pixel_color p.
Proof.
  unfold image_colors. rewrite list_elem_of_fmap. split.
  - intros ([[x y] p] & -> & Hin). apply elem_of_cells_row_major in Hin
      as (_ & _ & Hc). eauto.
  - intros (i & j & p & Hc & ->). exists (Z.of_nat j, Z.of_nat i, p).
    split; [done|]. apply elem_of_cells_row_major.
    rewrite !Nat2Z.id. split_and!; [lia|lia|done].
Qed.

(** X18. An image without a fully opaque pixel gives a document without
    paths: whatever the fuel, the pipeline returns the empty document of
    the image's size, and the text written is the [svg] element of that
    empty document. *)
Theorem no_opaque_pixel_no_path (fuel : nat) (img : ndarray pixel) (k : Z) :
  valid_image img →
  (∀ i j r g b a, cell img i j = Some (r, g, b, a) → a ≠ 255) →
  let empty := SVG_init (Z.of_nat (ncols img)) (Z.of_nat (nrows img)) k in
  trace_image fuel img k = Ok empty ∧
  convert_image fuel img k = Ok (build_svg empty) ∧
  build_paths empty = "".
Proof.
  intros Himg Halpha empty.
  assert (trace_image fuel img k = Ok empty) as E.
  { unfold trace_image.
    destruct (get_distinct_color_regions_grouped img Himg) as (known & d & Hr & _).
    pose proof (get_distinct_color_regions_order img _ Himg Hr) as Hcol.
    rewrite Hr. cbn [mbind result_bind].
    assert (filter (λ rg, a (color rg) = 255) (dict_values d) = []) as ->; [|done].
    destruct (filter _ _) as [|rg l] eqn:Hf; [done|]. exfalso.
    assert (rg ∈ filter (λ rg, a (color rg) = 255) (dict_values d)) as Hin
      by (rewrite Hf; left).
    apply list_elem_of_filter in Hin as [Ha Hin].
    assert (color rg ∈ image_colors img) as Hc.
    { rewrite <- elem_of_first_occurrences, <- Hcol.
      by apply list_elem_of_fmap_2. }
    apply elem_of_image_colors in Hc as (i & j & [[[r0 g0] b0] a0] & Hcell & Hc).
    rewrite Hc in Ha. simpl in Ha. by eapply Halpha. }
  split; [done|]. split; [|done]. unfold convert_image. by rewrite E.
Qed.

Lemma no_opaque_pixel_no_path_witness :
  let img := NdArray 1 2 [[(255, 0, 0, 254); (0, 0, 0, 0)]] in
  let empty := SVG_init (Z.of_nat (ncols img)) (Z.of_nat (nrows img)) 3 in
  trace_image 0 img 3 = Ok empty ∧
  convert_image 0 img 3 = Ok (build_svg empty) ∧
  build_paths empty = "".
Proof.
  intros img. apply (no_opaque_pixel_no_path 0 img 3).
  - split; [split; [reflexivity|repeat constructor]|].
    repeat constructor; simpl; lia.
  - intros i j r0 g0 b0 a0.
    destruct i as [|[|i]], j as [|[|[|j]]]; simpl; intros [= <- <- <- <-]; lia.
Defined.

(** ** [connect] at a node that has both links *)

Lemma lookup_app_at {A} (h l : list A) k : (h ++ l) !! (length h + k)%nat = l !! k.
Proof. rewrite lookup_app_r by lia. f_equal. lia. Qed.

Lemma is_node_lt h r : is_node h r = true → (r < length h)%nat.
Proof.
  intros (x & y & n & p & E)%is_node_Some. by eapply lookup_lt_Some.
Qed.

Lemma lookup_app_node h l r : is_node h r = true → (h ++ l) !! r = h !! r.
Proof. intros Hr%is_node_lt. by apply lookup_app_l. Qed.

Lemma is_node_app h l r : is_node h r = true → is_node (h ++ l) r = true.
Proof. intros Hr. unfold is_node. rewrite lookup_app_node by done. exact Hr. Qed.

Lemma fnext_app h l r : is_node h r = true → fnext (h ++ l) r = fnext h r.
Proof. intros Hr. unfold fnext. by rewrite lookup_app_node. Qed.

Lemma fprev_app h l r : is_node h r = true → fprev (h ++ l) r = fprev h r.
Proof. intros Hr. unfold fprev. by rewrite lookup_app_node. Qed.

Lemma pt_app h l r : is_node h r = true → pt (h ++ l) r = pt h r.
Proof. intros Hr. unfold pt. by rewrite lookup_app_node. Qed.

Lemma upd_next_app h l r v :
  is_node h r = true → upd_next (h ++ l) r v = upd_next h r v ++ l.
Proof.
  intros Hr. unfold upd_next. rewrite lookup_app_node by done.
  destruct (is_node_Some _ _ Hr) as (x & y & n & p & ->).
  apply insert_app_l. by apply is_node_lt.
Qed.

Lemma upd_prev_app h l r v :
  is_node h r = true → upd_prev (h ++ l) r v = upd_prev h r v ++ l.
Proof.
  intros Hr. unfold upd_prev. rewrite lookup_app_node by done.
  destruct (is_node_Some _ _ Hr) as (x & y & n & p & ->).
  apply insert_app_l. by apply is_node_lt.
Qed.

Lemma is_node_upd_prev h r v r' : is_node (upd_prev h r v) r' = is_node h r'.
Proof.
  unfold is_node. rewrite lookup_upd_prev. by destruct (h !! r') as [[]|].
Qed.

Lemma length_upd_next h r v : length (upd_next h r v) = length h.
Proof. unfold upd_next. repeat case_match; by rewrite ?length_insert. Qed.

Lemma length_upd_prev h r v : length (upd_prev h r v) = length h.
Proof. unfold upd_prev. repeat case_match; by rewrite ?length_insert. Qed.

Lemma fprev_upd_next h r v r' : fprev (upd_next h r v) r' = fprev h r'.
Proof.
  unfold fprev. rewrite lookup_upd_next. by destruct (h !! r') as [[]|].
Qed.

Lemma fnext_upd_prev h r v r' : fnext (upd_prev h r v) r' = fnext h r'.
Proof.
  unfold fnext. rewrite lookup_upd_prev. by destruct (h !! r') as [[]|].
Qed.

Lemma fnext_upd_next h r v r' :
  is_node h r' = true →
  fnext (upd_next h r v) r' = if decide (r' = r) then v else fnext h r'.
Proof.
  intros (x & y & n & p & E)%is_node_Some.
  unfold fnext. rewrite lookup_upd_next, E. done.
Qed.

Lemma fprev_upd_prev h r v r' :
  is_node h r' = true →
  fprev (upd_prev h r v) r' = if decide (r' = r) then v else fprev h r'.
Proof.
  intros (x & y & n & p & E)%is_node_Some.
  unfold fprev. rewrite lookup_upd_prev, E. done.
Qed.

(** A virtual node allocated right behind [h], at position [k], followed
    by its two real nodes. *)
Lemma lookup_fresh_0 (h : heap) k a b c :
  length h = k → (h ++ [a; b; c]) !! k = Some a.
Proof. intros <-. by rewrite <- (Nat.add_0_r (length h)), lookup_app_at. Qed.

Lemma lookup_fresh_1 (h : heap) k a b c :
  length h = k → (h ++ [a; b; c]) !! (k + 1)%nat = Some b.
Proof. intros <-. by rewrite lookup_app_at. Qed.

Lemma lookup_fresh_2 (h : heap) k a b c :
  length h = k → (h ++ [a; b; c]) !! (k + 2)%nat = Some c.
Proof. intros <-. by rewrite lookup_app_at. Qed.

Lemma insert_fresh_0 (h : heap) k a b c o :
  length h = k → <[k := o]> (h ++ [a; b; c]) = h ++ [o; b; c].
Proof. intros <-. by rewrite <- (Nat.add_0_r (length h)), insert_app_r. Qed.

Lemma insert_fresh_2 (h : heap) k a b c o :
  length h = k → <[(k + 2)%nat := o]> (h ++ [a; b; c]) = h ++ [a; b; o].
Proof. intros <-. by rewrite insert_app_r. Qed.

Lemma current_fresh (h : heap) k x y rn st b c :
  length h = k → (st < 2)%nat →
  current (h ++ [VirtualNode2D x y rn st; b; c]) k
  = Ok (if st is O then rn.1 else rn.2).
Proof.
  intros Hk Hst. unfold current, deref. rewrite lookup_fresh_0 by done.
  cbn [mbind result_bind]. destruct rn as [a0 a1].
  by destruct st as [|[|?]]; [| |lia].
Qed.

Lemma link_holder_fresh (h : heap) k x y st x0 y0 n0 p0 x1 y1 n1 p1 :
  length h = k → (st < 2)%nat →
  link_holder (h ++ [VirtualNode2D x y (Some (k + 1)%nat, Some (k + 2)%nat) st;
                     Node2D x0 y0 n0 p0; Node2D x1 y1 n1 p1]) k
  = Ok (if st is O then k + 1 else k + 2)%nat.
Proof.
  intros Hk Hst. unfold link_holder.
  rewrite current_fresh by done. unfold deref.
  rewrite lookup_fresh_0 by done. cbn [mbind result_bind].
  destruct st as [|[|?]]; [| |lia]; cbn [mbind result_bind fst snd].
  - by rewrite lookup_fresh_1.
  - by rewrite lookup_fresh_2.
Qed.

Lemma link_holder_node h r : is_node h r = true → link_holder h r = Ok r.
Proof.
  intros (x & y & n & p & E)%is_node_Some. unfold link_holder, deref.
  by rewrite E.
Qed.

Lemma make_virtual_closed (h : heap) (n1 p n : ref) (x y : Z) :
  get_point h n1 = Ok (mkPoint2D x y) →
  (∀ l, get_next (h ++ l) n1 = Ok (Some n)) →
  (∀ l, get_prev (h ++ l) n1 = Ok (Some p)) →
  is_node h p = true → is_node h n = true →
  make_virtual h n1
  = Ok (upd_prev (upd_next h p (Some (length h + 1)%nat)) n
          (Some (length h + 1)%nat)
        ++ [VirtualNode2D x y (Some (length h + 1)%nat, Some (length h + 2)%nat) 1;
            Node2D x y (Some n) (Some p); Node2D x y None None],
        length h).
Proof.
  intros Hpt Hnx Hpv Hp Hn.
  unfold make_virtual, get_x, get_y.
  rewrite Hpt. cbn [mbind result_bind px py alloc].
  rewrite Hnx, Hpv. cbn [mbind result_bind].
  rewrite !length_app. cbn [length]. rewrite <- !app_assoc. cbn [app].
  replace (length h + 1 + 1)%nat with (length h + 2)%nat by lia.
  set (k := length h).
  (* virtual_node.real_nodes = (...) *)
  unfold set_real_nodes, deref. rewrite lookup_fresh_0 by done.
  cbn [mbind result_bind]. rewrite insert_fresh_0 by done.
  (* virtual_node.prev.next = virtual_node.current *)
  rewrite current_fresh by (done || lia). cbn [mbind result_bind fst].
  unfold get_prev at 1. rewrite link_holder_fresh by (done || lia).
  unfold deref. cbn [mbind result_bind]. rewrite lookup_fresh_1 by done.
  cbn [mbind result_bind not_None].
  rewrite set_next_node by (by apply is_node_app).
  rewrite upd_next_app by done. cbn [mbind result_bind].
  (* virtual_node.next.prev = virtual_node.current *)
  rewrite current_fresh by (by rewrite length_upd_next || lia).
  cbn [mbind result_bind fst].
  unfold get_next at 1.
  rewrite link_holder_fresh by (by rewrite length_upd_next || lia).
  unfold deref. cbn [mbind result_bind].
  rewrite lookup_fresh_1 by (by rewrite length_upd_next).
  cbn [mbind result_bind not_None].
  rewrite set_prev_node by (by apply is_node_app; rewrite is_node_upd_next).
  rewrite upd_prev_app by (by rewrite is_node_upd_next).
  cbn [mbind result_bind].
  (* virtual_node.flip() *)
  unfold flip, deref.
  rewrite lookup_fresh_0 by (by rewrite length_upd_prev, length_upd_next).
  cbn [mbind result_bind].
  rewrite insert_fresh_0 by (by rewrite length_upd_prev, length_upd_next).
  done.
Qed.

Lemma make_virtual_linked (h : heap) (n1 p n : ref) (x y : Z) :
  h !! n1 = Some (Node2D x y (Some n) (Some p)) →
  is_node h p = true → is_node h n = true →
  make_virtual h n1
  = Ok (upd_prev (upd_next h p (Some (length h + 1)%nat)) n
          (Some (length h + 1)%nat)
        ++ [VirtualNode2D x y (Some (length h + 1)%nat, Some (length h + 2)%nat) 1;
            Node2D x y (Some n) (Some p); Node2D x y None None],
        length h).
Proof.
  intros Hn1 Hp Hn.
  assert (is_node h n1 = true) as Hn1' by (unfold is_node; by rewrite Hn1).
  apply make_virtual_closed; [| | |done|done].
  - rewrite get_point_node by done. unfold pt. by rewrite Hn1.
  - intros l. rewrite get_next_node, fnext_app by (done || by apply is_node_app).
    unfold fnext. by rewrite Hn1.
  - intros l. rewrite get_prev_node, fprev_app by (done || by apply is_node_app).
    unfold fprev. by rewrite Hn1.
Qed.

Lemma not_fully_linked h r :
  is_node h r = true → fprev h r = None ∨ fnext h r = None →
  fully_linked h r = Ok false.
Proof.
  intros Hr Hl. rewrite fully_linked_node by done. f_equal.
  destruct Hl as [-> | ->].
  - rewrite (bool_decide_eq_false_2 (is_Some None)); [done|]. by intros [? ?].
  - rewrite (bool_decide_eq_false_2 (is_Some None)), andb_false_r; [done|].
    by intros [? ?].
Qed.

Lemma get_point_fresh_2 (h : heap) k a b x y n p :
  length h = k →
  get_point (h ++ [a; b; Node2D x y n p]) (k + 2)%nat = Ok (mkPoint2D x y).
Proof.
  intros Hk. unfold get_point, deref. by rewrite lookup_fresh_2.
Qed.

Lemma is_node_fresh_2 (h : heap) k a b x y n p :
  length h = k → is_node (h ++ [a; b; Node2D x y n p]) (k + 2)%nat = true.
Proof. intros Hk. unfold is_node. by rewrite lookup_fresh_2. Qed.

Lemma upd_next_fresh_2 (h : heap) k a b x y n p v :
  length h = k →
  upd_next (h ++ [a; b; Node2D x y n p]) (k + 2)%nat v
  = h ++ [a; b; Node2D x y v p].
Proof.
  intros Hk. unfold upd_next. rewrite lookup_fresh_2 by done.
  by rewrite insert_fresh_2.
Qed.

Lemma upd_prev_fresh_2 (h : heap) k a b x y n p v :
  length h = k →
  upd_prev (h ++ [a; b; Node2D x y n p]) (k + 2)%nat v
  = h ++ [a; b; Node2D x y n v].
Proof.
  intros Hk. unfold upd_prev. rewrite lookup_fresh_2 by done.
  by rewrite insert_fresh_2.
Qed.

Lemma set_next_fresh_flipped (h : heap) k x y x0 y0 n0 p0 x1 y1 n1 p1 v :
  length h = k →
  set_next (h ++ [VirtualNode2D x y (Some (k + 1)%nat, Some (k + 2)%nat) 1;
                  Node2D x0 y0 n0 p0; Node2D x1 y1 n1 p1]) k v
  = Ok (h ++ [VirtualNode2D x y (Some (k + 1)%nat, Some (k + 2)%nat) 1;
              Node2D x0 y0 n0 p0; Node2D x1 y1 v p1]).
Proof.
  intros Hk. unfold set_next. rewrite link_holder_fresh by (done || lia).
  unfold deref. cbn [mbind result_bind]. rewrite lookup_fresh_2 by done.
  cbn [mbind result_bind]. by rewrite insert_fresh_2.
Qed.

Lemma set_prev_fresh_flipped (h : heap) k x y x0 y0 n0 p0 x1 y1 n1 p1 v :
  length h = k →
  set_prev (h ++ [VirtualNode2D x y (Some (k + 1)%nat, Some (k + 2)%nat) 1;
                  Node2D x0 y0 n0 p0; Node2D x1 y1 n1 p1]) k v
  = Ok (h ++ [VirtualNode2D x y (Some (k + 1)%nat, Some (k + 2)%nat) 1;
              Node2D x0 y0 n0 p0; Node2D x1 y1 n1 v]).
Proof.
  intros Hk. unfold set_prev. rewrite link_holder_fresh by (done || lia).
  unfold deref. cbn [mbind result_bind]. rewrite lookup_fresh_2 by done.
  cbn [mbind result_bind]. by rewrite insert_fresh_2.
Qed.

(** X19. [connect] from a node [n1] that has both links to a [Node2D]
    that has not: a [VirtualNode2D] with two fresh real nodes and state 1
    is allocated and stored in the grid cell of [n1]; the first real node
    takes over the links of [n1], whose two neighbours are redirected to
    it; the second real node gets the new edge to [n2]; apart from these
    three links the objects that existed before are unchanged. *)
Theorem connect_splits_linked_source (h : heap) (g : NodeGrid2D)
    (n1 n2 p n : ref) (x y : Z) :
  h !! n1 = Some (Node2D x y (Some n) (Some p)) →
  is_node h p = true → is_node h n = true → is_node h n2 = true →
  n2 ≠ p → n2 ≠ n →
  fprev h n2 = None ∨ fnext h n2 = None →
  let vn := length h in
  let r0 := (length h + 1)%nat in
  let r1 := (length h + 2)%nat in
  connect h g n1 n2
  = (g' ← data_set g y x vn;
     Ok (upd_prev (upd_prev (upd_next h p (Some r0)) n (Some r0)) n2 (Some r1)
         ++ [VirtualNode2D x y (Some r0, Some r1) 1;
             Node2D x y (Some n) (Some p);
             Node2D x y (Some n2) None], g')).
Proof.
  intros Hn1 Hp Hn Hn2 Hn2p Hn2n Hfree vn r0 r1. subst vn r0 r1.
  assert (is_node h n1 = true) as Hn1' by (unfold is_node; by rewrite Hn1).
  assert (fnext h n1 = Some n) as Hnx by (unfold fnext; by rewrite Hn1).
  assert (fprev h n1 = Some p) as Hpv by (unfold fprev; by rewrite Hn1).
  unfold connect.
  rewrite fully_linked_node, Hnx, Hpv by done.
  rewrite !bool_decide_eq_true_2 by eauto. cbn [andb mbind result_bind].
  rewrite (make_virtual_linked h n1 p n x y) by done.
  cbn [mbind result_bind].
  set (H1 := upd_prev (upd_next h p (Some (length h + 1)%nat)) n
              (Some (length h + 1)%nat)).
  assert (length H1 = length h) as Hlen
    by (unfold H1; by rewrite length_upd_prev, length_upd_next).
  assert (is_node H1 n2 = true) as Hn2'
    by (unfold H1; by rewrite is_node_upd_prev, is_node_upd_next).
  (* virtual_node.next = node_2 *)
  rewrite real_of_node by (by apply is_node_app). cbn [mbind result_bind].
  rewrite set_next_fresh_flipped by done. cbn [mbind result_bind].
  (* node_1 = virtual_node.current; self.data[node_1.y][node_1.x] = ... *)
  rewrite current_fresh by (done || lia). cbn [mbind result_bind not_None snd].
  unfold get_y, get_x. rewrite get_point_fresh_2 by done.
  cbn [mbind result_bind px py].
  destruct (data_set g y x (length h)) as [g'| |]; cbn [mbind result_bind]; [|done..].
  (* the second node keeps its class *)
  rewrite not_fully_linked; cycle 1.
  { by apply is_node_app. }
  { rewrite fprev_app, fnext_app by done. unfold H1.
    rewrite fnext_upd_prev, fprev_upd_prev by (by rewrite is_node_upd_next).
    rewrite fprev_upd_next, fnext_upd_next by done.
    by rewrite !decide_False by done. }
  cbn [mbind result_bind].
  (* node_1.next = node_2; node_2.prev = node_1 *)
  rewrite real_of_node by (by apply is_node_app). cbn [mbind result_bind].
  rewrite set_next_node by (by apply is_node_fresh_2).
  rewrite upd_next_fresh_2 by done. cbn [mbind result_bind].
  rewrite real_of_node by (by apply is_node_fresh_2). cbn [mbind result_bind].
  rewrite set_prev_node by (by apply is_node_app).
  by rewrite upd_prev_app by done.
Qed.

Lemma connect_splits_linked_source_witness :
  let h := [Node2D 0 0 (Some 1%nat) None; Node2D 1 0 (Some 2%nat) (Some 0%nat);
            Node2D 2 0 None (Some 1%nat); Node2D 1 1 None None] in
  let g := mkNodeGrid2D 3 2 [[0; 1; 2]; [3; 3; 3]]%nat in
  connect h g 1%nat 3%nat
  = (g' ← data_set g 0 1 4%nat;
     Ok (upd_prev (upd_prev (upd_next h 0%nat (Some 5%nat)) 2%nat (Some 5%nat))
           3%nat (Some 6%nat)
         ++ [VirtualNode2D 1 0 (Some 5%nat, Some 6%nat) 1;
             Node2D 1 0 (Some 2%nat) (Some 0%nat);
             Node2D 1 0 (Some 3%nat) None], g')).
Proof.
  intros h g. apply (connect_splits_linked_source h g 1%nat 3%nat 0%nat 2%nat 1 0).
  - reflexivity.
  - reflexivity.
  - reflexivity.
  - reflexivity.
  - lia.
  - lia.
  - by left.
Defined.

(** X20. [connect] from a [Node2D] that lacks a link to a node [n2] that
    has both: [n2] is split in the same way and the virtual node is stored
    in its grid cell; the first real node takes over the links of [n2],
    the second real node gets the new edge from [n1] as its [prev]. *)
Theorem connect_splits_linked_target (h : heap) (g : NodeGrid2D)
    (n1 n2 p n : ref) (x y : Z) :
  h !! n2 = Some (Node2D x y (Some n) (Some p)) →
  is_node h p = true → is_node h n = true → is_node h n1 = true →
  fprev h n1 = None ∨ fnext h n1 = None →
  let vn := length h in
  let r0 := (length h + 1)%nat in
  let r1 := (length h + 2)%nat in
  connect h g n1 n2
  = (g' ← data_set g y x vn;
     Ok (upd_next (upd_prev (upd_next h p (Some r0)) n (Some r0)) n1 (Some r1)
         ++ [VirtualNode2D x y (Some r0, Some r1) 1;
             Node2D x y (Some n) (Some p);
             Node2D x y None (Some n1)], g')).
Proof.
  intros Hn2 Hp Hn Hn1 Hfree vn r0 r1. subst vn r0 r1.
  assert (is_node h n2 = true) as Hn2' by (unfold is_node; by rewrite Hn2).
  assert (fnext h n2 = Some n) as Hnx by (unfold fnext; by rewrite Hn2).
  assert (fprev h n2 = Some p) as Hpv by (unfold fprev; by rewrite Hn2).
  unfold connect.
  rewrite not_fully_linked by done. cbn [mbind result_bind].
  rewrite fully_linked_node, Hnx, Hpv by done.
  rewrite !bool_decide_eq_true_2 by eauto. cbn [andb mbind result_bind].
  rewrite (make_virtual_linked h n2 p n x y) by done.
  cbn [mbind result_bind].
  set (H1 := upd_prev (upd_next h p (Some (length h + 1)%nat)) n
              (Some (length h + 1)%nat)).
  assert (length H1 = length h) as Hlen
    by (unfold H1; by rewrite length_upd_prev, length_upd_next).
  assert (is_node H1 n1 = true) as Hn1'
    by (unfold H1; by rewrite is_node_upd_prev, is_node_upd_next).
  (* virtual_node.prev = node_1 *)
  rewrite real_of_node by (by apply is_node_app). cbn [mbind result_bind].
  rewrite set_prev_fresh_flipped by done. cbn [mbind result_bind].
  (* node_2 = virtual_node.current; self.data[node_2.y][node_2.x] = ... *)
  rewrite current_fresh by (done || lia). cbn [mbind result_bind not_None snd].
  unfold get_y, get_x. rewrite get_point_fresh_2 by done.
  cbn [mbind result_bind px py].
  destruct (data_set g y x (length h)) as [g'| |]; cbn [mbind result_bind]; [|done..].
  (* node_1.next = node_2; node_2.prev = node_1 *)
  rewrite real_of_node by (by apply is_node_fresh_2). cbn [mbind result_bind].
  rewrite set_next_node by (by apply is_node_app).
  rewrite upd_next_app by done. cbn [mbind result_bind].
  rewrite real_of_node
    by (apply is_node_app; by rewrite is_node_upd_next). cbn [mbind result_bind].
  rewrite set_prev_node
    by (apply is_node_fresh_2; by rewrite length_upd_next).
  by rewrite upd_prev_fresh_2 by (by rewrite length_upd_next).
Qed.

Lemma connect_splits_linked_target_witness :
  let h := [Node2D 0 0 (Some 1%nat) None; Node2D 1 0 (Some 2%nat) (Some 0%nat);
            Node2D 2 0 None (Some 1%nat); Node2D 1 1 None None] in
  let g := mkNodeGrid2D 3 2 [[0; 1; 2]; [3; 3; 3]]%nat in
  connect h g 3%nat 1%nat
  = (g' ← data_set g 0 1 4%nat;
     Ok (upd_next (upd_prev (upd_next h 0%nat (Some 5%nat)) 2%nat (Some 5%nat))
           3%nat (Some 6%nat)
         ++ [VirtualNode2D 1 0 (Some 5%nat, Some 6%nat) 1;
             Node2D 1 0 (Some 2%nat) (Some 0%nat);
             Node2D 1 0 None (Some 3%nat)], g')).
Proof.
  intros h g. apply (connect_splits_linked_target h g 3%nat 1%nat 0%nat 2%nat 1 0).
  - reflexivity.
  - reflexivity.
  - reflexivity.
  - reflexivity.
  - by left.
Defined.

(** ** The labeler returns, and labels every pixel *)

Lemma elem_of_ones bm x y :
  wf_ndarray bm → (x, y) ∈ ones bm ↔ pixel_at bm x y = Some 1.
Proof.
  intros Hwf. unfold ones. rewrite elem_of_list_to_set, list_elem_of_fmap. split.
  - intros ([[a b] v] & [= -> ->] & Hin).
    apply list_elem_of_filter in Hin as [Hv Hin]. simpl in *. subst v.
    by apply cells_row_major_pixel_at.
  - intros H. exists (x, y, 1). split; [done|].
    apply list_elem_of_filter. split; [done|].
    by apply cells_row_major_pixel_at.
Qed.

Lemma size_list_to_set_le (l : list (Z * Z)) :
  (size (list_to_set l : gset (Z * Z)) ≤ length l)%nat.
Proof.
  induction l as [|a l IH]; [done|]. cbn [list_to_set length].
  rewrite size_union_alt, size_singleton.
  assert (size (list_to_set l ∖ {[a]} : gset (Z * Z))
          ≤ size (list_to_set l : gset (Z * Z)))%nat
    by (apply subseteq_size; set_solver).
  lia.
Qed.

Lemma size_ones bm : (size (ones bm) ≤ count_ones bm)%nat.
Proof.
  unfold ones, count_ones.
  etrans; [apply size_list_to_set_le|]. by rewrite length_fmap.
Qed.

Lemma elem_of_unlabelled bm m x y :
  wf_ndarray bm →
  (x, y) ∈ unlabelled bm m ↔ pixel_at m x y = Some 0 ∧ pixel_at bm x y = Some 1.
Proof.
  intros Hwf. unfold unlabelled. rewrite elem_of_filter, elem_of_ones by done.
  done.
Qed.

Lemma labelled_not_zero m x y : labelled m x y → pixel_at m x y ≠ Some 0.
Proof. intros (L & HL & ->) [= ->]. done. Qed.

(** The label matrix after a cell got the label [cur]. *)
Section mark.
Context (bm m m1 : ndarray Z) (cur x y : Z).
Hypothesis Hbm : wf_ndarray bm.
Hypothesis Hcur : cur ≠ 0.
Hypothesis Hpix : ∀ x' y', pixel_at m1 x' y'
                  = if decide (x' = x ∧ y' = y) then Some cur else pixel_at m x' y'.

Lemma mark_labelled a b : labelled m a b → labelled m1 a b.
Proof.
  intros (L & HL & E). unfold labelled. rewrite Hpix.
  case_decide; [by exists cur|by exists L].
Qed.

Lemma mark_labelled_here : labelled m1 x y.
Proof. exists cur. split; [done|]. rewrite Hpix. by rewrite decide_True. Qed.

Lemma mark_zero a b :
  pixel_at m1 a b = Some 0 → pixel_at m a b = Some 0 ∧ ¬ (a = x ∧ b = y).
Proof.
  rewrite Hpix. case_decide; [by intros [= ?]|done].
Qed.

Lemma mark_unlabelled :
  pixel_at m x y = Some 0 → pixel_at bm x y = Some 1 →
  unlabelled bm m1 ⊆ unlabelled bm m ∧
  (size (unlabelled bm m1) + 1 = size (unlabelled bm m))%nat.
Proof.
  intros H0 H1.
  assert (unlabelled bm m1 = unlabelled bm m ∖ {[(x, y)]}) as ->.
  { apply set_eq. intros [a b].
    rewrite elem_of_difference, !elem_of_unlabelled, elem_of_singleton by done.
    rewrite Hpix. case_decide as E.
    - destruct E as [-> ->]. split; [by intros [[= ?] _]|]. by intros [_ []].
    - split; [intros [? ?]; split; [done|]; intros [= -> ->]; by apply E|].
      by intros [? _]. }
  split; [set_solver|].
  rewrite size_difference, size_singleton.
  - assert (size (unlabelled bm m) ≠ 0)%nat; [|lia].
    apply size_non_empty_iff. intros Hempty.
    assert ((x, y) ∈ unlabelled bm m) as Hin by (by apply elem_of_unlabelled).
    rewrite Hempty in Hin. set_solver.
  - apply singleton_subseteq_l. by apply elem_of_unlabelled.
Qed.
End mark.

Lemma order_inv_skip bm m cur y0 x y rest :
  order_inv bm m cur y0 ((x, y) :: rest) → labelled m x y →
  order_inv bm m cur y0 rest ∧ (rest = [] → y = y0).
Proof.
  intros [?|(pre & xb & yb & Hst & Hbot & Hpairs)] Hlab; [done|].
  apply labelled_not_zero in Hlab.
  destruct pre as [|p pre]; simpl in Hst.
  - simplify_eq. split; [by left|]. intros _.
    by destruct Hbot as [[-> _]|(_ & ? & _)].
  - simplify_eq. split.
    + right. exists pre, xb, yb. split; [done|]. split.
      * destruct Hbot as [?|(? & ? & ? & Hpre)]; [by left|].
        right. split_and!; [done..|]. intros a b Hin. apply Hpre. set_solver.
      * intros a b a' b' Hc Hadj H1 H0.
        destruct (Hpairs a b a' b' Hc Hadj H1 H0) as [Hin|?]; [|by right].
        apply elem_of_cons in Hin as [[= -> ->]|?]; [done|by left].
    + intros E. by destruct pre.
Qed.

Lemma elem_of_if_singleton {A} (b : bool) (p q : A) :
  q ∈ (if b then [p] else []) ↔ b = true ∧ q = p.
Proof.
  destruct b; rewrite ?list_elem_of_singleton, ?elem_of_nil; naive_solver.
Qed.

Lemma order_inv_mark bm m m1 region_id y0 x y rest :
  wf_ndarray bm → wrap_int8 region_id ≠ 0 →
  fill_inv bm m region_id ((x, y) :: rest) →
  order_inv bm m (wrap_int8 region_id) y0 ((x, y) :: rest) →
  (∀ a, pixel_at bm a y0 = Some 1 → pixel_at bm a (y0 - 1) = Some 1 →
        labelled m a y0) →
  pixel_at m x y = Some 0 →
  (∀ x' y', pixel_at m1 x' y'
            = if decide (x' = x ∧ y' = y) then Some (wrap_int8 region_id)
              else pixel_at m x' y') →
  order_inv bm m1 (wrap_int8 region_id) y0 (neighbors_to_push bm x y ++ rest) ∧
  (neighbors_to_push bm x y ++ rest = [] → y = y0).
Proof.
  set (cur := wrap_int8 region_id).
  intros Hbm Hcur Hinv [?|(pre & xb & yb & Hst & Hbot & Hpairs)] HG H0 Hpix;
    [done|].
  destruct (fill_inv_top _ _ _ _ _ _ Hinv) as (H1 & Hx & Hy & _).
  destruct Hinv as (Hshape & Hsound & Hstack & HI1).
  pose proof (mark_labelled m m1 cur x y Hcur Hpix) as Hmono.
  pose proof (mark_labelled_here m m1 cur x y Hcur Hpix) as Hhere.
  pose proof (mark_zero m m1 cur x y Hcur Hpix) as Hzero.
  destruct pre as [|p pre]; simplify_eq/=.
  - (* the bottom of the stack is popped *)
    rewrite app_nil_r.
    assert (∀ a b a' b',
              pixel_at m1 a b = Some cur → neumann_adjacent a b a' b' →
              pixel_at bm a' b' = Some 1 → pixel_at m1 a' b' = Some 0 →
              a = xb ∧ b = yb) as Hnew.
    { intros a b a' b' Hc Hadj Hb [Hz Hne]%Hzero.
      destruct (decide (a = xb ∧ b = yb)) as [?|Hab]; [done|]. exfalso.
      rewrite Hpix, decide_False in Hc by done.
      destruct (Hpairs a b a' b' Hc Hadj Hb Hz) as [Hin|(-> & -> & _)];
        [by apply elem_of_nil in Hin|]. by apply Hne. }
    destruct Hbot as [[-> Himpl]|(-> & _ & HT & _)].
    + (* the bottom is in row y0 *)
      assert (eq_1 (pixel_at bm xb (y0 - 1)) = false) as ET.
      { apply not_true_iff_false. rewrite eq_1_true. intros HT.
        by apply (labelled_not_zero m xb y0); [apply HG|]. }
      unfold neighbors_to_push. rewrite ET, !app_nil_r.
      destruct (eq_1 (pixel_at bm (xb + 1) y0)) eqn:ER.
      * split; [|intros E; by apply app_eq_nil in E as [_ [_ ?]%app_eq_nil]].
        right.
        exists ((if eq_1 (pixel_at bm (xb - 1) y0) then [(xb - 1, y0)] else [])
                ++ (if eq_1 (pixel_at bm xb (y0 + 1)) then [(xb, y0 + 1)] else [])),
          (xb + 1), y0.
        split; [by rewrite <- app_assoc|]. split.
        -- left. split; [done|]. intros _ _.
           replace (xb + 1 - 1) with xb by lia. done.
        -- intros a b a' b' Hc Hadj Hb Hz.
           destruct (Hnew a b a' b' Hc Hadj Hb Hz) as [-> ->].
           rewrite elem_of_app, !elem_of_if_singleton, !eq_1_true.
           destruct Hadj as [[-> [->| ->]]|[-> [->| ->]]].
           ++ apply eq_1_true in Hb. congruence.
           ++ left. by right.
           ++ left. by left.
           ++ right. split_and!; [done..|]. left. split_and!; [done|lia|done].
      * destruct (eq_1 (pixel_at bm xb (y0 + 1))) eqn:EB.
        -- split; [|intros E; by apply app_eq_nil in E as [_ ?]].
           right.
           exists (if eq_1 (pixel_at bm (xb - 1) y0) then [(xb - 1, y0)] else []),
             xb, (y0 + 1).
           split; [done|].
           assert (pixel_at m1 xb (y0 + 1) = Some 0) as HzB.
           { rewrite Hpix, decide_False by lia.
             apply eq_1_true in EB.
             destruct Hshape as (Hwf & Hr & Hc).
             destruct (np_get_pixel_at m xb (y0 + 1) Hwf) as (lab & _ & Hlab).
             { rewrite Hc. apply pixel_at_Some_range in EB. lia. }
             { rewrite Hr. apply pixel_at_Some_range in EB. lia. }
             destruct (decide (lab = 0)) as [->|Hne]; [done|]. exfalso.
             assert (neumann_adjacent xb (y0 + 1) xb y0) as Hadj
               by (unfold neumann_adjacent; lia).
             destruct (HI1 xb (y0 + 1) xb y0 lab Hlab Hne Hadj H1)
               as [E|(E & _ & _)]; [congruence|].
             fold cur in E. subst lab.
             destruct (Hpairs xb (y0 + 1) xb y0 Hlab Hadj H1 H0)
               as [Hin|(_ & _ & [(_ & ? & _)|(? & _)])];
               [by apply elem_of_nil in Hin|lia|lia]. }
           split.
           ++ right. split_and!; [done|done| |].
              ** rewrite Hpix. by rewrite decide_True.
              ** intros a b [E [= -> ->]]%elem_of_if_singleton.
                 apply eq_1_true in E. by apply Hmono, Himpl.
           ++ intros a b a' b' Hc Hadj Hb Hz.
              destruct (Hnew a b a' b' Hc Hadj Hb Hz) as [-> ->].
              rewrite elem_of_if_singleton, !eq_1_true.
              destruct Hadj as [[-> [->| ->]]|[-> [->| ->]]].
              ** apply eq_1_true in Hb. congruence.
              ** right. split_and!; [done..|]. by right.
              ** left. done.
              ** apply eq_1_true in Hb. congruence.
        -- destruct (eq_1 (pixel_at bm (xb - 1) y0)) eqn:EL.
           ++ split; [|done]. right. exists [], (xb - 1), y0.
              split; [done|].
              assert (labelled m1 (xb - 1) y0) as HL.
              { apply Hmono, Himpl; [done|]. by apply eq_1_true. }
              split.
              ** left. split; [done|]. intros Hz. by apply labelled_not_zero in HL.
              ** intros a b a' b' Hc Hadj Hb Hz. exfalso.
                 destruct (Hnew a b a' b' Hc Hadj Hb Hz) as [-> ->].
                 destruct Hadj as [[-> [->| ->]]|[-> [->| ->]]];
                   try (apply eq_1_true in Hb; congruence).
                 by apply labelled_not_zero in HL.
           ++ split; [by left|done].
    + (* the bottom is below row y0 *)
      assert (pixel_at bm xb y0 = Some 1) as HT1 by (by eapply Hsound).
      unfold neighbors_to_push. replace (y0 + 1 - 1) with y0 by lia.
      rewrite (proj2 (eq_1_true _) HT1).
      split; [|intros E; repeat (apply app_eq_nil in E as [_ E]); done].
      right.
      exists ((if eq_1 (pixel_at bm (xb - 1) (y0 + 1)) then [(xb - 1, y0 + 1)] else [])
              ++ (if eq_1 (pixel_at bm xb (y0 + 1 + 1)) then [(xb, y0 + 1 + 1)] else [])
              ++ (if eq_1 (pixel_at bm (xb + 1) (y0 + 1)) then [(xb + 1, y0 + 1)] else [])),
        xb, y0.
      split; [by rewrite <- !app_assoc|].
      assert (pixel_at m1 xb y0 = Some cur) as Hm1T.
      { rewrite Hpix, decide_False by lia. done. }
      split.
      * left. split; [done|]. intros Hz. congruence.
      * intros a b a' b' Hc Hadj Hb Hz.
        destruct (Hnew a b a' b' Hc Hadj Hb Hz) as [-> ->].
        left. rewrite !elem_of_app, !elem_of_if_singleton, !eq_1_true.
        destruct Hadj as [[-> [->| ->]]|[-> [->| ->]]].
        -- replace (y0 + 1 - 1) with y0 in Hz by lia. congruence.
        -- right. by left.
        -- by left.
        -- right. by right.
  - (* a cell above the bottom is popped *)
    split; [|intros E; apply app_eq_nil in E as [_ E]; by destruct pre].
    right. exists (neighbors_to_push bm x y ++ pre), xb, yb.
    split; [by rewrite app_assoc|]. split.
    + destruct Hbot as [[-> Himpl]|(-> & _ & _ & Hpre)].
      * left. split; [done|]. intros [Hz Hne]%Hzero HL. by apply Hmono, Himpl.
      * exfalso. apply (labelled_not_zero m x y); [|done]. apply Hpre. set_solver.
    + intros a b a' b' Hc Hadj Hb Hz.
      destruct (decide (a = x ∧ b = y)) as [[-> ->]|Hab].
      * left. apply elem_of_app. left. by apply elem_of_neighbors_to_push.
      * rewrite Hpix, decide_False in Hc by done.
        apply Hzero in Hz as [Hz Hne].
        destruct (Hpairs a b a' b' Hc Hadj Hb Hz) as [Hin|?]; [|by right].
        left. apply elem_of_app. right.
        apply elem_of_cons in Hin as [[= -> ->]|?]; [|done]. exfalso. by apply Hne.
Qed.

Lemma length_neighbors_to_push bm x y :
  (length (neighbors_to_push bm x y) ≤ 4)%nat.
Proof.
  unfold neighbors_to_push.
  destruct (eq_1 (pixel_at bm (x - 1) y)), (eq_1 (pixel_at bm x (y + 1))),
    (eq_1 (pixel_at bm (x + 1) y)), (eq_1 (pixel_at bm x (y - 1))); simpl; lia.
Qed.

Lemma connected_sym bm p q : connected bm p q → connected bm q p.
Proof.
  intros H. induction H as [|p q r (? & ? & Hadj) _ IH]; [apply rtc_refl|].
  eapply rtc_r; [exact IH|]. split_and!; [done..|].
  unfold neumann_adjacent in *. lia.
Qed.

Lemma connected_trans bm p q r :
  connected bm p q → connected bm q r → connected bm p r.
Proof. apply rtc_trans. Qed.

(** A flood fill started in row [y0] with a label other than 0 returns
    when the fuel covers the stack and four rounds for each unlabelled
    pixel; the variable [y] is back at [y0], every cell that was on the
    stack has a label, and labels are only added. *)
Lemma flood_fill_total bm region_id x0 y0 :
  wf_ndarray bm → wrap_int8 region_id ≠ 0 →
  ∀ fuel stack m xc yc,
    fill_inv bm m region_id stack →
    order_inv bm m (wrap_int8 region_id) y0 stack →
    (∀ a, pixel_at bm a y0 = Some 1 → pixel_at bm a (y0 - 1) = Some 1 →
          labelled m a y0) →
    (stack = [] → yc = y0) →
    (length stack + 4 * size (unlabelled bm m) ≤ fuel)%nat →
    (∀ a b, (a, b) ∈ stack → connected bm (x0, y0) (a, b)) →
    (∀ a b, pixel_at m a b = Some (wrap_int8 region_id) →
            connected bm (x0, y0) (a, b)) →
    ∃ m' x1,
      flood_fill fuel bm m region_id stack xc yc = Ok (m', x1, y0) ∧
      fill_inv bm m' region_id [] ∧
      (∀ a b, labelled m a b → pixel_at m' a b = pixel_at m a b) ∧
      (∀ a b, (a, b) ∈ stack → labelled m' a b) ∧
      unlabelled bm m' ⊆ unlabelled bm m ∧
      (∀ a b L, pixel_at m' a b = Some L →
                pixel_at m a b = Some L ∨ L = wrap_int8 region_id) ∧
      (∀ a b, pixel_at m' a b = Some (wrap_int8 region_id) →
              connected bm (x0, y0) (a, b)).
Proof.
  intros Hbm Hcur. induction fuel as [|fuel IH];
    intros stack m xc yc Hinv Hord HG Hyc Hfuel Hcs Hcc;
    destruct stack as [|[x y] rest].
  1,3: (exists m, xc; rewrite (Hyc eq_refl);
        split_and!; [done|done|done|by intros ?? ?%elem_of_nil|done|by left
                    |done]).
  { simpl in Hfuel. lia. }
  destruct (fill_inv_top _ _ _ _ _ _ Hinv) as (H1 & Hx & Hy & lab & Hlab).
  pose proof Hinv as ((Hwf & Hr & Hc) & _).
  destruct (decide (lab = 0)) as [->|Hne].
  - destruct (flood_fill_mark fuel bm m region_id x y rest xc yc)
      as (m1 & Hshape1 & Hpix & ->); [done..|].
    destruct (order_inv_mark bm m m1 region_id y0 x y rest) as [Hord1 Hy1];
      [done..|].
    destruct (mark_unlabelled bm m m1 (wrap_int8 region_id) x y)
      as [Hsub Hsize]; [done..|].
    pose proof (length_neighbors_to_push bm x y) as Hlen.
    assert (connected bm (x0, y0) (x, y)) as Hxy by (apply Hcs; by left).
    destruct (IH (neighbors_to_push bm x y ++ rest) m1 x y)
      as (m' & x1 & -> & Hinv' & Hmono & Hst & Hsub' & Hlabels & Hconn).
    { by eapply fill_inv_mark. }
    { done. }
    { intros a Ha Ha'. eapply mark_labelled; [done..|]. by apply HG. }
    { done. }
    { rewrite length_app. simpl in Hfuel. lia. }
    { intros a b [[Hadj Hb]%elem_of_neighbors_to_push|Hin]%elem_of_app.
      - eapply rtc_r; [exact Hxy|]. by split_and!.
      - apply Hcs. by right. }
    { intros a b. rewrite Hpix. case_decide as E; [|by apply Hcc].
      by destruct E as [-> ->]. }
    exists m', x1. split_and!; [done|done| | | | |done].
    + intros a b Hab. rewrite Hmono by (by eapply mark_labelled).
      rewrite Hpix. case_decide as E; [|done]. destruct E as [-> ->].
      by apply labelled_not_zero in Hab.
    + intros a b [[= -> ->]|Hin]%elem_of_cons.
      * destruct (mark_labelled_here m m1 _ x y Hcur Hpix) as (L & HL & E).
        exists L. split; [done|]. rewrite Hmono; [done|]. by exists L.
      * apply Hst. apply elem_of_app. by right.
    + by etrans.
    + intros a b L [HL| ->]%Hlabels; [|by right].
      rewrite Hpix in HL. case_decide; [right; congruence|by left].
  - assert (labelled m x y) as Hxy by (by exists lab).
    rewrite (flood_fill_skip _ _ _ _ _ _ _ _ _ lab) by (done || lia).
    destruct (order_inv_skip _ _ _ _ _ _ _ Hord Hxy) as [Hord1 Hy1].
    destruct (IH rest m x y)
      as (m' & x1 & -> & Hinv' & Hmono & Hst & Hsub & Hlabels & Hconn).
    { by eapply fill_inv_skip. }
    { done. }
    { done. }
    { done. }
    { simpl in Hfuel. lia. }
    { intros a b Hin. apply Hcs. by right. }
    { done. }
    exists m', x1. split_and!; [done..| |done|done|done].
    intros a b [[= -> ->]|Hin]%elem_of_cons; [|by apply Hst].
    destruct Hxy as (L & HL & E). exists L. split; [done|].
    rewrite Hmono; [done|]. by exists L.
Qed.

Lemma for_each_seqZ_total {St} (I : Z → St → Prop) (f : St → Z → result St) :
  ∀ (k : nat) (a : Z) (s : St),
    I a s →
    (∀ i s, a <= i < a + Z.of_nat k → I i s → ∃ s', f s i = Ok s' ∧ I (i + 1) s') →
    ∃ s', for_each (seqZ a (Z.of_nat k)) f s = Ok s' ∧ I (a + Z.of_nat k) s'.
Proof.
  induction k as [|k IH]; intros a s Hs Hstep.
  - exists s. rewrite Z.add_0_r. done.
  - rewrite seqZ_cons by lia. cbn [for_each].
    destruct (Hstep a s) as (s1 & -> & Hs1); [lia|done|]. cbn [mbind result_bind].
    replace (Z.pred (Z.of_nat (S k))) with (Z.of_nat k) by lia.
    destruct (IH (Z.succ a) s1) as (s' & E & Hs'); [by rewrite <- Z.add_1_r| |].
    { intros i s0 Hi. apply Hstep. lia. }
    exists s'. split; [done|]. by replace (a + Z.of_nat (S k)) with (Z.succ a + Z.of_nat k) by lia.
Qed.

Lemma size_unlabelled bm m : (size (unlabelled bm m) ≤ size (ones bm))%nat.
Proof.
  apply subseteq_size. intros p Hp. by apply elem_of_filter in Hp as [_ ?].
Qed.

Lemma wrap_int8_small z : -128 <= z <= 127 → wrap_int8 z = z.
Proof. intros Hz. unfold wrap_int8. rewrite Z.mod_small by lia. lia. Qed.

Lemma label_cell_total bm fuel m region_id x y :
  wf_ndarray bm → (count_ones bm ≤ 127)%nat → (4 * count_ones bm < fuel)%nat →
  0 <= x < Z.of_nat (ncols bm) → 0 <= y < Z.of_nat (nrows bm) →
  scan_inv bm x y m region_id →
  ∃ m' region_id',
    label_cell fuel bm (m, region_id, y) x = Ok (m', region_id', y) ∧
    scan_inv bm (x + 1) y m' region_id'.
Proof.
  intros Hbm Hsmall Hfuel Hx Hy
    (Hshape & Hsound & Hclosed & Hscan & Hid & Hcount & Hlabels & Hclass).
  pose proof (size_ones bm) as Hones.
  unfold label_cell.
  destruct (np_get_pixel_at bm x y Hbm Hx Hy) as (v & -> & Hv).
  cbn [mbind result_bind].
  assert (∀ a b, scanned_before a b (x + 1) y
                 → scanned_before a b x y ∨ (a = x ∧ b = y)) as Hnext.
  { unfold scanned_before. lia. }
  destruct (Z.eqb_spec v 1) as [->|Hv1].
  2: { exists m, region_id. split; [done|]. split_and!; try done.
       intros a b Hab [?|[-> ->]]%Hnext; [by apply Hscan|congruence]. }
  pose proof Hshape as (Hwf & Hr & Hc).
  destruct (np_get_pixel_at m x y Hwf) as (lab & -> & Hlab); [lia..|].
  cbn [mbind result_bind].
  destruct (Z.eqb_spec lab 0) as [->|Hlab0].
  2: { exists m, region_id. split; [done|]. split_and!; try done.
       intros a b Hab [?|[-> ->]]%Hnext; [by apply Hscan|by exists lab]. }
  assert ((x, y) ∈ unlabelled bm m) as Hin by (by apply elem_of_unlabelled).
  assert (size (unlabelled bm m) ≠ 0)%nat as Hpos.
  { apply size_non_empty_iff. intros Hempty. rewrite Hempty in Hin.
    by apply elem_of_empty in Hin. }
  assert (wrap_int8 region_id = region_id) as Hwrap
    by (apply wrap_int8_small; lia).
  destruct (flood_fill_total bm region_id x y Hbm ltac:(lia) fuel [(x, y)] m x y)
    as (m' & x1 & -> & (Hshape' & Hsound' & _ & Hpairs') & Hmono & Hst & Hsub
        & Hlab' & Hconn).
  { split_and!; [done|done| |].
    - by intros a b [= -> ->]%list_elem_of_singleton.
    - intros a b a' b' L HL HL0 Hadj Hb. left. by eapply Hclosed. }
  { right. exists [], x, y. split; [done|]. split.
    - left. split; [done|]. intros _ HL. apply Hscan; [done|].
      unfold scanned_before. lia.
    - intros a b a' b' Hcur Hadj Hb Hz. exfalso.
      rewrite (Hclosed a b a' b' _ Hcur ltac:(lia) Hadj Hb) in Hz.
      injection Hz as Hz. lia. }
  { intros a Ha Ha'.
    destruct (Hscan a (y - 1) Ha') as (L & HL & E); [unfold scanned_before; lia|].
    exists L. split; [done|]. eapply Hclosed; [exact E|done| |done].
    unfold neumann_adjacent. lia. }
  { done. }
  { pose proof (size_unlabelled bm m). simpl. lia. }
  { intros a b [= -> ->]%list_elem_of_singleton. apply rtc_refl. }
  { intros a b Hab. apply Hlabels in Hab. lia. }
  cbn [mbind result_bind]. exists m', (region_id + 1).
  split; [done|]. split_and!; [done|done| | |lia| | |].
  - intros a b a' b' L HL HL0 Hadj Hb.
    destruct (Hpairs' a b a' b' L HL HL0 Hadj Hb) as [?|(_ & Hin' & _)];
      [done|]. by apply elem_of_nil in Hin'.
  - intros a b Hab [?|[-> ->]]%Hnext.
    + destruct (Hscan a b Hab) as (L & HL & E); [done|].
      exists L. split; [done|]. rewrite Hmono; [done|]. by exists L.
    + apply Hst. by apply list_elem_of_singleton.
  - assert (size (unlabelled bm m') < size (unlabelled bm m))%nat; [|lia].
    apply subset_size. split; [done|]. intros Hsup.
    apply Hsup in Hin. apply elem_of_unlabelled in Hin as [Hz _]; [|done].
    by apply (labelled_not_zero m' x y); [apply Hst, list_elem_of_singleton|].
  - intros a b L [HL| ->]%Hlab'; [apply Hlabels in HL; lia|lia].
  - intros a b a' b' L HL0 Ha Ha'.
    destruct (Hlab' _ _ _ Ha) as [H1|E1], (Hlab' _ _ _ Ha') as [H2|E2].
    + by eapply Hclass.
    + subst L. apply Hlabels in H1. lia.
    + subst L. apply Hlabels in H2. lia.
    + subst L. apply (connected_trans _ _ (x, y)); [|by apply Hconn].
      by apply connected_sym, Hconn.
Qed.

Lemma find_connected_neumann_regions_total bm fuel :
  wf_ndarray bm → (count_ones bm ≤ 127)%nat → (4 * count_ones bm < fuel)%nat →
  ∃ m region_id,
    find_connected_neumann_regions fuel bm = Ok m ∧
    scan_inv bm 0 (Z.of_nat (nrows bm)) m region_id.
Proof.
  intros Hbm Hsmall Hfuel. unfold find_connected_neumann_regions, range.
  set (O := λ (y : Z) (s : ndarray Z * Z * Z), scan_inv bm 0 y s.1.1 s.1.2).
  destruct (for_each_seqZ_total O
              (λ '(regions, region_id, _) y,
                 for_each (seqZ 0 (Z.of_nat (ncols bm))) (label_cell fuel bm)
                   (regions, region_id, y))
              (nrows bm) 0 (np_zeros (nrows bm) (ncols bm), 1, 0))
    as ([[m region_id] y'] & -> & Hfinal).
  - unfold O; simpl. split_and!.
    + split_and!; [|done|done]. split; simpl; [by rewrite length_replicate|].
      apply Forall_replicate. by rewrite length_replicate.
    + intros x y L. unfold pixel_at. case_decide as Hin; [|done]. simpl in Hin.
      rewrite np_zeros_cell by lia. by intros [= <-].
    + intros x y a b L. unfold pixel_at at 1. case_decide as Hin; [|done].
      simpl in Hin. rewrite np_zeros_cell by lia. by intros [= <-].
    + intros a b Hab Hbefore. apply pixel_at_Some_range in Hab.
      unfold scanned_before in Hbefore. lia.
    + done.
    + simpl. apply size_unlabelled.
    + intros a b L. unfold pixel_at. case_decide as Hin; [|done]. simpl in Hin.
      rewrite np_zeros_cell by lia. intros [= <-]. lia.
    + intros a b a' b' L HL0. unfold pixel_at at 1. case_decide as Hin; [|done].
      simpl in Hin. rewrite np_zeros_cell by lia. by intros [= <-].
  - intros y [[m region_id] y'] Hy Hs. unfold O in Hs; simpl in Hs.
    set (I := λ (x : Z) (s : ndarray Z * Z * Z),
           s.2 = y ∧ scan_inv bm x y s.1.1 s.1.2).
    destruct (for_each_seqZ_total I (label_cell fuel bm) (ncols bm) 0
                (m, region_id, y)) as ([[m1 id1] y1] & -> & Hy1 & Hs1).
    + done.
    + intros x [[ma ida] ya] Hx [Hya Hsa]. simpl in Hya, Hsa. subst ya.
      destruct (label_cell_total bm fuel ma ida x y) as (mb & idb & -> & Hsb);
        [done..|lia|lia|done|]. by exists (mb, idb, y).
    + simpl in Hy1, Hs1. subst y1. exists (m1, id1, y). split; [done|].
      unfold O; simpl.
      destruct Hs1 as (? & ? & ? & Hscan & ? & ? & ? & ?). split_and!; try done.
      intros a b Hab Hbefore. apply Hscan; [done|].
      apply pixel_at_Some_range in Hab. unfold scanned_before in *. lia.
  - cbn [mbind result_bind]. exists m, region_id. split; [done|].
    by rewrite Z.add_0_l in Hfinal.
Qed.

(** X21. On a bitmask with at most 127 pixels the labeler returns as soon
    as the fuel exceeds four rounds of the fill loop per pixel, and every
    pixel of the bitmask gets a label between 1 and 127. *)
Theorem labeler_labels_every_pixel (fuel : nat) (bm : ndarray Z) :
  wf_ndarray bm → (count_ones bm ≤ 127)%nat → (4 * count_ones bm < fuel)%nat →
  ∃ m, find_connected_neumann_regions fuel bm = Ok m ∧
       ∀ x y, pixel_at bm x y = Some 1 →
              ∃ L, 1 <= L <= 127 ∧ pixel_at m x y = Some L.
Proof.
  intros Hbm Hsmall Hfuel.
  destruct (find_connected_neumann_regions_total bm fuel Hbm Hsmall Hfuel)
    as (m & region_id & Hm & _ & _ & _ & Hscan & Hid & Hcount & Hlabels & _).
  exists m. split; [done|]. intros x y H1.
  destruct (Hscan x y H1) as (L & HL & E).
  { apply pixel_at_Some_range in H1. unfold scanned_before. lia. }
  exists L. split; [|done]. apply Hlabels in E.
  pose proof (size_ones bm). lia.
Qed.

Lemma labeler_labels_every_pixel_witness :
  ∃ m, find_connected_neumann_regions 21 comb_bitmask = Ok m ∧
       ∀ x y, pixel_at comb_bitmask x y = Some 1 →
              ∃ L, 1 <= L <= 127 ∧ pixel_at m x y = Some L.
Proof.
  apply (labeler_labels_every_pixel 21 comb_bitmask).
  - split; [reflexivity|repeat constructor].
  - vm_compute. lia.
  - vm_compute. lia.
Defined.

Lemma closed_connected bm m p q L :
  labels_closed bm m → L ≠ 0 → pixel_at m p.1 p.2 = Some L →
  connected bm p q → pixel_at m q.1 q.2 = Some L.
Proof.
  intros Hclosed HL Hp Hconn.
  induction Hconn as [|p q r (_ & Hq & Hadj) _ IH]; [done|].
  apply IH. by eapply Hclosed.
Qed.

(** X22. On a bitmask with at most 127 pixels the labels are the
    connected components: the labeler returns, and two pixels carry the
    same label exactly when a path of pixels that share sides joins
    them. *)
Theorem labels_are_components (fuel : nat) (bm : ndarray Z) :
  wf_ndarray bm → (count_ones bm ≤ 127)%nat → (4 * count_ones bm < fuel)%nat →
  ∃ m, find_connected_neumann_regions fuel bm = Ok m ∧
       ∀ x y x' y',
         pixel_at bm x y = Some 1 → pixel_at bm x' y' = Some 1 →
         (pixel_at m x y = pixel_at m x' y' ↔ connected bm (x, y) (x', y')).
Proof.
  intros Hbm Hsmall Hfuel.
  destruct (find_connected_neumann_regions_total bm fuel Hbm Hsmall Hfuel)
    as (m & region_id & Hm & _ & _ & Hclosed & Hscan & _ & _ & _ & Hclass).
  exists m. split; [done|]. intros x y x' y' H1 H1'.
  destruct (Hscan x y H1) as (L & HL & E).
  { apply pixel_at_Some_range in H1. unfold scanned_before. lia. }
  split.
  - intros E'. rewrite E in E'. by eapply Hclass.
  - intros Hconn. rewrite E. symmetry.
    by apply (closed_connected bm m (x, y) (x', y') L).
Qed.

Lemma labels_are_components_witness :
  ∃ m, find_connected_neumann_regions 21 comb_bitmask = Ok m ∧
       ∀ x y x' y',
         pixel_at comb_bitmask x y = Some 1 →
         pixel_at comb_bitmask x' y' = Some 1 →
         (pixel_at m x y = pixel_at m x' y'
          ↔ connected comb_bitmask (x, y) (x', y')).
Proof.
  apply (labels_are_components 21 comb_bitmask).
  - split; [reflexivity|repeat constructor].
  - vm_compute. lia.
  - vm_compute. lia.
Defined.

(** X23. The clusters of a region of at most 127 pixels are its connected
    components: [split_into_clusters] returns, every pixel of the region
    is in a cluster, and a cluster that holds a pixel holds exactly the
    pixels of the region joined to it by a path of pixels that share
    sides. *)
Theorem clusters_are_components (fuel : nat) (rg : Color2DRegion) :
  wf_region rg →
  (count_ones (bitmask (points rg)) ≤ 127)%nat →
  (4 * count_ones (bitmask (points rg)) < fuel)%nat →
  ∃ cs, split_into_clusters fuel rg = Ok cs ∧
    (∀ x y, pixel_at (bitmask (points rg)) x y = Some 1 →
       ∃ cl, cl ∈ cs ∧ has_point (points cl) (mkPoint2D x y) = true) ∧
    (∀ cl x y x' y', cl ∈ cs →
       has_point (points cl) (mkPoint2D x y) = true →
       (has_point (points cl) (mkPoint2D x' y') = true
        ↔ pixel_at (bitmask (points rg)) x' y' = Some 1 ∧
          connected (bitmask (points rg)) (x, y) (x', y'))).
Proof.
  intros (Hbm & Hrows & Hcols) Hsmall Hfuel.
  destruct (find_connected_neumann_regions_total _ fuel Hbm Hsmall Hfuel)
    as (m & region_id & Hm & (Hwfm & Hr & Hc) & Hsound & Hclosed & Hscan & _ & _
        & _ & Hclass).
  assert (∃ cs, split_into_clusters fuel rg = Ok cs) as [cs Hcs].
  { rewrite split_into_clusters_events, Hm. cbn [mbind result_bind].
    destruct (for_each_group_in_bounds (width (points rg)) (height (points rg))
                (cluster_events rg m)) as [s ->]; [|by eexists].
    pose proof (cluster_events_wf rg m) as Hwfe.
    apply Forall_forall. intros e He. split; [by eapply Forall_forall|].
    unfold cluster_events, labelled_cells in He.
    apply list_elem_of_fmap in He as ([[x y] id] & -> & Hin).
    apply list_elem_of_filter in Hin as [_ Hin]. simpl.
    apply cells_row_major_pixel_at, pixel_at_Some_range in Hin; [|done]. lia. }
  exists cs. split; [done|].
  apply split_into_clusters_order in Hcs as (m' & Hm' & Hcl & _).
  assert (m' = m) as -> by congruence.
  assert (∀ cl x y, has_point (points cl) (mkPoint2D x y) = true
                    ↔ (x, y) ∈ data (points cl)) as Hhas.
  { intros. unfold has_point, key_of. simpl. apply bool_decide_eq_true. }
  setoid_rewrite Hhas. split.
  - intros x y H1. destruct (Hscan x y H1) as (L & HL & E).
    { apply pixel_at_Some_range in H1. unfold scanned_before. lia. }
    assert (L ∈ cluster_ids m) as Hin.
    { apply elem_of_cluster_ids. split; [done|]. exists x, y.
      by apply cells_row_major_pixel_at. }
    apply list_elem_of_lookup in Hin as [i Hi].
    destruct (Forall2_lookup_l _ _ _ _ _ Hcl Hi) as (cl & Hcli & _ & _ & Hdata).
    exists cl. split; [by eapply list_elem_of_lookup_2|].
    by apply Hdata, cells_row_major_pixel_at.
  - intros cl x y x' y' Hin Hxy. apply list_elem_of_lookup in Hin as [i Hi].
    destruct (Forall2_lookup_r _ _ _ _ _ Hcl Hi) as (id & _ & Hid & _ & Hdata).
    apply Hdata, cells_row_major_pixel_at in Hxy; [|done].
    rewrite Hdata, cells_row_major_pixel_at by done. split.
    + intros Hxy'. split; [by eapply Hsound|]. by eapply Hclass.
    + intros [_ Hconn].
      by apply (closed_connected (bitmask (points rg)) m (x, y) (x', y') id).
Qed.

Lemma clusters_are_components_witness :
  ∃ cs, split_into_clusters 20 diagonal_region = Ok cs ∧
    (∀ x y, pixel_at (bitmask (points diagonal_region)) x y = Some 1 →
       ∃ cl, cl ∈ cs ∧ has_point (points cl) (mkPoint2D x y) = true) ∧
    (∀ cl x y x' y', cl ∈ cs →
       has_point (points cl) (mkPoint2D x y) = true →
       (has_point (points cl) (mkPoint2D x' y') = true
        ↔ pixel_at (bitmask (points diagonal_region)) x' y' = Some 1 ∧
          connected (bitmask (points diagonal_region)) (x, y) (x', y'))).
Proof.
  apply (clusters_are_components 20 diagonal_region).
  - split; [split; [reflexivity|repeat constructor]|]. done.
  - vm_compute. lia.
  - vm_compute. lia.
Defined.

(** ** [optimize] followed by the path emitter *)



(** ** [trace_bitmask] returns *)

Section links.
Context (h : heap).
Hypothesis Hok : links_ok h.

Lemma holder_spec r o :
  h !! r = Some o →
  is_node h (holder h r) = true ∧ pt h (holder h r) = obj_point o ∧
  link_holder h r = Ok (holder h r).
Proof using Hok.
  intros Hr. unfold holder, link_holder, current, deref, pt. rewrite Hr.
  destruct o as [x y n p|x y rn st]; cbn [mbind result_bind].
  - unfold is_node. rewrite Hr. done.
  - destruct (proj2 Hok _ _ _ _ _ Hr)
      as (Hst & s0 & s1 & -> & Hn0 & Hn1 & Hp0 & Hp1).
    destruct st as [|[|?]]; [| |lia]; cbn [mbind result_bind default].
    + destruct (is_node_Some _ _ Hn0) as (? & ? & ? & ? & E).
      unfold pt in Hp0. rewrite E in Hp0. simpl. rewrite E. done.
    + destruct (is_node_Some _ _ Hn1) as (? & ? & ? & ? & E).
      unfold pt in Hp1. rewrite E in Hp1. simpl. rewrite E. done.
Qed.

Lemma get_next_ok r o : h !! r = Some o → get_next h r = Ok (fnext h (holder h r)).
Proof using Hok.
  intros Hr. destruct (holder_spec r o Hr) as (Hn & _ & E).
  unfold get_next. rewrite E. cbn [mbind result_bind].
  destruct (is_node_Some _ _ Hn) as (? & ? & ? & ? & E').
  unfold deref, fnext. by rewrite E'.
Qed.

Lemma get_prev_ok r o : h !! r = Some o → get_prev h r = Ok (fprev h (holder h r)).
Proof using Hok.
  intros Hr. destruct (holder_spec r o Hr) as (Hn & _ & E).
  unfold get_prev. rewrite E. cbn [mbind result_bind].
  destruct (is_node_Some _ _ Hn) as (? & ? & ? & ? & E').
  unfold deref, fprev. by rewrite E'.
Qed.

Lemma set_next_ok r o v :
  h !! r = Some o → set_next h r v = Ok (upd_next h (holder h r) v).
Proof using Hok.
  intros Hr. destruct (holder_spec r o Hr) as (Hn & _ & E).
  unfold set_next. rewrite E. cbn [mbind result_bind].
  destruct (is_node_Some _ _ Hn) as (? & ? & ? & ? & E').
  unfold deref, upd_next. by rewrite E'.
Qed.

Lemma set_prev_ok r o v :
  h !! r = Some o → set_prev h r v = Ok (upd_prev h (holder h r) v).
Proof using Hok.
  intros Hr. destruct (holder_spec r o Hr) as (Hn & _ & E).
  unfold set_prev. rewrite E. cbn [mbind result_bind].
  destruct (is_node_Some _ _ Hn) as (? & ? & ? & ? & E').
  unfold deref, upd_prev. by rewrite E'.
Qed.

Lemma real_of_ok r o : h !! r = Some o → real_of h r = Ok (Some (holder h r)).
Proof using Hok.
  intros Hr. unfold real_of, is_virtual, current, deref, holder. rewrite Hr.
  destruct o as [x y n p|x y rn st]; cbn [mbind result_bind]; [done|].
  destruct (proj2 Hok _ _ _ _ _ Hr) as (Hst & s0 & s1 & -> & _).
  by destruct st as [|[|?]]; [| |lia].
Qed.

Lemma current_ok r x y rn st :
  h !! r = Some (VirtualNode2D x y rn st) → current h r = Ok (Some (holder h r)).
Proof using Hok.
  intros Hr. unfold current, deref, holder. rewrite Hr.
  cbn [mbind result_bind].
  destruct (proj2 Hok _ _ _ _ _ Hr) as (Hst & s0 & s1 & -> & _).
  by destruct st as [|[|?]]; [| |lia].
Qed.

Lemma get_point_ok r o : h !! r = Some o → get_point h r = Ok (obj_point o).
Proof. intros Hr. unfold get_point, deref. by rewrite Hr. Qed.

Lemma fully_linked_ok r o :
  h !! r = Some o →
  fully_linked h r
  = Ok (bool_decide (is_Some (fprev h (holder h r)))
        && bool_decide (is_Some (fnext h (holder h r)))).
Proof using Hok.
  intros Hr. unfold fully_linked.
  rewrite (get_prev_ok r o), (get_next_ok r o) by done.
  cbn [mbind result_bind].
  destruct (fprev h (holder h r)); [|done].
  by rewrite (bool_decide_eq_true_2 (is_Some (Some _))) by eauto.
Qed.

Lemma links_next c n : is_node h c = true → fnext h c = Some n → is_node h n = true.
Proof using Hok.
  intros (x & y & n' & p & E)%is_node_Some. unfold fnext. rewrite E.
  intros ->. by apply (proj1 (proj1 Hok _ _ _ _ _ E)).
Qed.

Lemma links_prev c p : is_node h c = true → fprev h c = Some p → is_node h p = true.
Proof using Hok.
  intros (x & y & n & p' & E)%is_node_Some. unfold fprev. rewrite E.
  intros ->. by apply (proj2 (proj1 Hok _ _ _ _ _ E)).
Qed.
End links.

Lemma pt_upd_next h r v r' : pt (upd_next h r v) r' = pt h r'.
Proof.
  unfold pt. rewrite lookup_upd_next. by destruct (h !! r') as [[]|].
Qed.

Lemma pt_upd_prev h r v r' : pt (upd_prev h r v) r' = pt h r'.
Proof.
  unfold pt. rewrite lookup_upd_prev. by destruct (h !! r') as [[]|].
Qed.

Lemma links_ok_upd_next h c v :
  links_ok h → (∀ c', v = Some c' → is_node h c' = true) →
  links_ok (upd_next h c v).
Proof.
  intros [Hn Hv] Hval. split.
  - intros r x y n p. rewrite lookup_upd_next.
    destruct (h !! r) as [[x' y' n' p'|]|] eqn:E; [|done..].
    intros [= -> -> <- ->]. destruct (Hn _ _ _ _ _ E) as [H1 H2].
    setoid_rewrite is_node_upd_next. split; [|done].
    case_decide; [done|]. exact H1.
  - intros r x y rn st. rewrite lookup_upd_next.
    destruct (h !! r) as [[|x' y' rn' st']|] eqn:E; [done| |done].
    intros [= -> -> -> ->]. setoid_rewrite is_node_upd_next.
    setoid_rewrite pt_upd_next. by eapply Hv.
Qed.

Lemma links_ok_upd_prev h c v :
  links_ok h → (∀ c', v = Some c' → is_node h c' = true) →
  links_ok (upd_prev h c v).
Proof.
  intros [Hn Hv] Hval. split.
  - intros r x y n p. rewrite lookup_upd_prev.
    destruct (h !! r) as [[x' y' n' p'|]|] eqn:E; [|done..].
    intros [= -> -> -> <-]. destruct (Hn _ _ _ _ _ E) as [H1 H2].
    setoid_rewrite is_node_upd_prev. split; [done|].
    case_decide; [done|]. exact H2.
  - intros r x y rn st. rewrite lookup_upd_prev.
    destruct (h !! r) as [[|x' y' rn' st']|] eqn:E; [done| |done].
    intros [= -> -> -> ->]. setoid_rewrite is_node_upd_prev.
    setoid_rewrite pt_upd_prev. by eapply Hv.
Qed.

Lemma extends_refl h : extends h h.
Proof. intros r o Hr. eauto. Qed.

Lemma extends_trans h1 h2 h3 : extends h1 h2 → extends h2 h3 → extends h1 h3.
Proof.
  intros H12 H23 r o Hr. destruct (H12 r o Hr) as (o' & Hr' & E').
  destruct (H23 r o' Hr') as (o'' & Hr'' & E''). exists o''. split; [done|].
  congruence.
Qed.

Lemma extends_upd_next h c v : extends h (upd_next h c v).
Proof.
  intros r o Hr. rewrite lookup_upd_next, Hr.
  destruct o; eexists; (split; [done|done]).
Qed.

Lemma extends_upd_prev h c v : extends h (upd_prev h c v).
Proof.
  intros r o Hr. rewrite lookup_upd_prev, Hr.
  destruct o; eexists; (split; [done|done]).
Qed.

Lemma extends_app h l : extends h (h ++ l).
Proof.
  intros r o Hr. exists o. split; [|done]. by apply lookup_app_l_Some.
Qed.

Lemma extends_point h h' r o :
  extends h h' → h !! r = Some o →
  ∃ o', h' !! r = Some o' ∧ obj_point o' = obj_point o.
Proof.
  intros Hext Hr. destruct (Hext r o Hr) as (o' & Hr' & E).
  exists o'. split; [done|]. by destruct o, o'; simplify_eq/=.
Qed.

Lemma deref_app h l r o : deref h r = Ok o → deref (h ++ l) r = Ok o.
Proof.
  unfold deref. destruct (h !! r) eqn:E; [|done]. intros [= <-].
  by rewrite (lookup_app_l_Some _ _ _ _ E).
Qed.

Lemma link_holder_app h l r c :
  link_holder h r = Ok c → link_holder (h ++ l) r = Ok c.
Proof.
  unfold link_holder. intros (o & Ho & H)%bind_Ok_inv.
  rewrite (deref_app _ l _ _ Ho). cbn [mbind result_bind].
  destruct o as [|x y rn st]; [done|].
  apply bind_Ok_inv in H as (cu & Hc & H).
  assert (current (h ++ l) r = Ok cu) as ->.
  { unfold current in *. apply bind_Ok_inv in Hc as (o' & Ho' & Hc).
    by rewrite (deref_app _ l _ _ Ho'). }
  cbn [mbind result_bind]. destruct cu as [cu|]; [|done].
  apply bind_Ok_inv in H as (oc & Hoc & H).
  by rewrite (deref_app _ l _ _ Hoc).
Qed.

Lemma get_next_app h l r v : get_next h r = Ok v → get_next (h ++ l) r = Ok v.
Proof.
  unfold get_next. intros (c & Hc & (o & Ho & H)%bind_Ok_inv)%bind_Ok_inv.
  rewrite (link_holder_app _ l _ _ Hc). cbn [mbind result_bind].
  by rewrite (deref_app _ l _ _ Ho).
Qed.

Lemma get_prev_app h l r v : get_prev h r = Ok v → get_prev (h ++ l) r = Ok v.
Proof.
  unfold get_prev. intros (c & Hc & (o & Ho & H)%bind_Ok_inv)%bind_Ok_inv.
  rewrite (link_holder_app _ l _ _ Hc). cbn [mbind result_bind].
  by rewrite (deref_app _ l _ _ Ho).
Qed.

Lemma lookup_fresh_inv (h : heap) k a b c r o :
  length h = k → (h ++ [a; b; c]) !! r = Some o →
  h !! r = Some o ∨ (r = k ∧ o = a) ∨ (r = (k + 1)%nat ∧ o = b)
  ∨ (r = (k + 2)%nat ∧ o = c).
Proof.
  intros <- Hr. destruct (decide (r < length h)%nat) as [Hlt|Hge].
  - left. by rewrite lookup_app_l in Hr.
  - right. rewrite lookup_app_r in Hr by lia.
    destruct (r - length h)%nat as [|[|[|?]]] eqn:E; simpl in Hr; [..|done];
      injection Hr as <-.
    + left. split; [lia|done].
    + right. left. split; [lia|done].
    + right. right. split; [lia|done].
Qed.

Lemma links_ok_split (h : heap) k x y n p :
  links_ok h → length h = k → is_node h n = true → is_node h p = true →
  links_ok (h ++ [VirtualNode2D x y (Some (k + 1)%nat, Some (k + 2)%nat) 1;
                  Node2D x y (Some n) (Some p); Node2D x y None None]).
Proof.
  intros [Hn Hv] Hk Hnn Hpp. split.
  - intros r x' y' n' p' Hr.
    destruct (lookup_fresh_inv _ k _ _ _ _ _ Hk Hr)
      as [Hr'|[[_ ?]|[[_ E]|[_ E]]]]; [|done| |].
    + destruct (Hn _ _ _ _ _ Hr') as [H1 H2].
      split; intros c Hc; apply is_node_app; eauto.
    + simplify_eq. split; intros c [= <-]; by apply is_node_app.
    + by simplify_eq.
  - intros r x' y' rn st Hr.
    destruct (lookup_fresh_inv _ k _ _ _ _ _ Hk Hr)
      as [Hr'|[[_ E]|[[_ ?]|[_ ?]]]]; [| |done..].
    + destruct (Hv _ _ _ _ _ Hr') as (Hst & s0 & s1 & -> & ? & ? & ? & ?).
      split; [done|]. exists s0, s1.
      split_and!; [done|by apply is_node_app|by apply is_node_app|..];
        by rewrite pt_app.
    + simplify_eq. split; [lia|].
      eexists _, _. split; [done|]. unfold is_node, pt.
      rewrite !lookup_fresh_1, !lookup_fresh_2 by done. done.
Qed.

(** The split of a node that has both links. *)
Lemma make_virtual_ok (h : heap) (n1 : ref) (o : obj) :
  links_ok h → h !! n1 = Some o →
  fully_linked h n1 = Ok true →
  ∃ h1 rn,
    make_virtual h n1 = Ok (h1, length h) ∧ links_ok h1 ∧ extends h h1 ∧
    h1 !! length h
    = Some (VirtualNode2D (px (obj_point o)) (py (obj_point o)) rn 1).
Proof.
  intros Hok Hn1 Hfull.
  rewrite (fully_linked_ok h Hok n1 o Hn1) in Hfull. injection Hfull as Hfull.
  apply andb_true_iff in Hfull as [Hp Hn].
  apply bool_decide_eq_true in Hp as [p Hp], Hn as [n Hn].
  destruct (holder_spec h Hok n1 o Hn1) as (Hh & _ & _).
  pose proof (links_prev h Hok _ _ Hh Hp) as Hpn.
  pose proof (links_next h Hok _ _ Hh Hn) as Hnn.
  destruct (obj_point o) as [x y] eqn:Hpt.
  rewrite (make_virtual_closed h n1 p n x y); [| | | |done..].
  - eexists _, _. split; [done|].
    rewrite <- upd_prev_app by (by rewrite is_node_upd_next).
    rewrite <- upd_next_app by done.
    split_and!.
    + apply links_ok_upd_prev; [apply links_ok_upd_next|].
      * by apply links_ok_split.
      * intros c [= <-]. unfold is_node. by rewrite lookup_fresh_1.
      * intros c [= <-]. rewrite is_node_upd_next.
        unfold is_node. by rewrite lookup_fresh_1.
    + eapply extends_trans; [apply extends_app|].
      eapply extends_trans; [apply extends_upd_next|apply extends_upd_prev].
    + rewrite lookup_upd_prev, lookup_upd_next, lookup_fresh_0 by done. done.
  - rewrite (get_point_ok h n1 o) by done. by rewrite Hpt.
  - intros l. apply get_next_app. by rewrite (get_next_ok h Hok n1 o), Hn.
  - intros l. apply get_prev_app. by rewrite (get_prev_ok h Hok n1 o), Hp.
Qed.

Lemma grid_ok_extends h h' g W H :
  grid_ok h g W H → extends h h' → grid_ok h' g W H.
Proof.
  intros (Hl & Hrows & Hcells) Hext. split_and!; [done..|].
  intros i j row r Hi Hj. destruct (Hcells i j row r Hi Hj) as (o & Hr & Hp).
  destruct (extends_point _ _ _ _ Hext Hr) as (o' & Hr' & Hp').
  exists o'. split; [done|]. congruence.
Qed.

Lemma data_get_ok h g W H x y :
  grid_ok h g W H → 0 <= x < Z.of_nat W → 0 <= y < Z.of_nat H →
  ∃ r o, data_get g y x = Ok r ∧ h !! r = Some o ∧ obj_point o = mkPoint2D x y.
Proof.
  intros (Hl & Hrows & Hcells) Hx Hy. unfold data_get.
  rewrite Hl, py_index_nonneg by done.
  destruct (lookup_lt_is_Some_2 (g_data g) (Z.to_nat y)) as [row Hrow]; [lia|].
  rewrite Hrow, (Hrows _ _ Hrow), py_index_nonneg by done.
  destruct (lookup_lt_is_Some_2 row (Z.to_nat x)) as [r Hr].
  { rewrite (Hrows _ _ Hrow). lia. }
  rewrite Hr. destruct (Hcells _ _ _ _ Hrow Hr) as (o & Ho & Hp).
  exists r, o. split_and!; [done..|]. rewrite Hp. f_equal; lia.
Qed.

Lemma data_set_ok h g W H x y r o :
  grid_ok h g W H → 0 <= x < Z.of_nat W → 0 <= y < Z.of_nat H →
  h !! r = Some o → obj_point o = mkPoint2D x y →
  ∃ g', data_set g y x r = Ok g' ∧ grid_ok h g' W H.
Proof.
  intros (Hl & Hrows & Hcells) Hx Hy Hr Hp. unfold data_set.
  rewrite Hl, py_index_nonneg by done.
  destruct (lookup_lt_is_Some_2 (g_data g) (Z.to_nat y)) as [row Hrow]; [lia|].
  rewrite Hrow, (Hrows _ _ Hrow), py_index_nonneg by done.
  eexists. split; [done|]. split_and!; simpl.
  - by rewrite length_insert.
  - intros i row'. destruct (decide (i = Z.to_nat y)) as [->|Hne].
    + rewrite list_lookup_insert_eq by (rewrite Hl; lia).
      intros [= <-]. rewrite length_insert. eauto.
    + rewrite list_lookup_insert_ne by done. eauto.
  - intros i j row' r'. destruct (decide (i = Z.to_nat y)) as [->|Hne].
    + rewrite list_lookup_insert_eq by (rewrite Hl; lia). intros [= <-].
      destruct (decide (j = Z.to_nat x)) as [->|Hne].
      * rewrite list_lookup_insert_eq by (rewrite (Hrows _ _ Hrow); lia).
        intros [= <-]. exists o. split; [done|]. rewrite Hp. f_equal; lia.
      * rewrite list_lookup_insert_ne by done. eauto.
    + rewrite list_lookup_insert_ne by done. eauto.
Qed.

Lemma extends_lookup h h' r o :
  extends h h' → h !! r = Some o → ∃ o', h' !! r = Some o' ∧ obj_point o' = obj_point o.
Proof. apply extends_point. Qed.

Lemma is_node_lookup h r : is_node h r = true → ∃ o, h !! r = Some o.
Proof. intros (x & y & n & p & E)%is_node_Some. eauto. Qed.

(** The first [if] block of [connect]. *)
Lemma connect_source_block h g W H n1 n2 o1 o2 (full1 : bool) :
  links_ok h → grid_ok h g W H →
  h !! n1 = Some o1 → h !! n2 = Some o2 →
  0 <= px (obj_point o1) < Z.of_nat W → 0 <= py (obj_point o1) < Z.of_nat H →
  fully_linked h n1 = Ok full1 →
  ∃ hA gA nA oA,
    (if full1 then
       '(h, vn) ← make_virtual h n1;
       tgt ← real_of h n2;
       h ← set_next h vn tgt;
       node_1 ← current h vn;
       node_1 ← not_None node_1;
       y ← get_y h node_1;
       x ← get_x h node_1;
       g ← data_set g y x vn;
       Ok (h, g, node_1)
     else Ok (h, g, n1)) = Ok (hA, gA, nA) ∧
    links_ok hA ∧ grid_ok hA gA W H ∧ extends h hA ∧ hA !! nA = Some oA.
Proof.
  intros Hok Hg Hn1 Hn2 Hx Hy Hfull. destruct full1.
  2: { exists h, g, n1, o1. split_and!; [done..|apply extends_refl|done]. }
  destruct (make_virtual_ok h n1 o1 Hok Hn1 Hfull)
    as (h1 & rn & -> & Hok1 & Hext1 & Hvn).
  cbn [mbind result_bind].
  destruct (extends_lookup _ _ _ _ Hext1 Hn2) as (o2' & Hn2' & _).
  rewrite (real_of_ok h1 Hok1 n2 o2') by done. cbn [mbind result_bind].
  rewrite (set_next_ok h1 Hok1 _ _ _ Hvn). cbn [mbind result_bind].
  set (h2 := upd_next h1 (holder h1 (length h)) (Some (holder h1 n2))).
  assert (links_ok h2) as Hok2.
  { apply links_ok_upd_next; [done|]. intros c [= <-].
    by destruct (holder_spec h1 Hok1 n2 o2' Hn2') as (? & _). }
  assert (h2 !! length h
          = Some (VirtualNode2D (px (obj_point o1)) (py (obj_point o1)) rn 1))
    as Hvn2 by (unfold h2; by rewrite lookup_upd_next, Hvn).
  rewrite (current_ok h2 Hok2 _ _ _ _ _ Hvn2). cbn [mbind result_bind not_None].
  destruct (holder_spec h2 Hok2 _ _ Hvn2) as (HnA & HptA & _).
  unfold get_y, get_x. rewrite get_point_node, HptA by done.
  cbn [mbind result_bind obj_point px py].
  assert (extends h h2) as Hext2.
  { eapply extends_trans; [exact Hext1|apply extends_upd_next]. }
  destruct (data_set_ok h2 g W H (px (obj_point o1)) (py (obj_point o1))
              (length h) _ (grid_ok_extends _ _ _ _ _ Hg Hext2) Hx Hy Hvn2)
    as (g' & -> & Hg'); [done|].
  cbn [mbind result_bind].
  destruct (is_node_lookup _ _ HnA) as [oA HoA].
  exists h2, g', (holder h2 (length h)), oA. done.
Qed.

(** The second [if] block of [connect]. *)
Lemma connect_target_block h g W H n1 n2 o1 o2 (full2 : bool) :
  links_ok h → grid_ok h g W H →
  h !! n1 = Some o1 → h !! n2 = Some o2 →
  0 <= px (obj_point o2) < Z.of_nat W → 0 <= py (obj_point o2) < Z.of_nat H →
  fully_linked h n2 = Ok full2 →
  ∃ hB gB nB oB,
    (if full2 then
       '(h, vn) ← make_virtual h n2;
       src ← real_of h n1;
       h ← set_prev h vn src;
       node_2 ← current h vn;
       node_2 ← not_None node_2;
       y ← get_y h node_2;
       x ← get_x h node_2;
       g ← data_set g y x vn;
       Ok (h, g, node_2)
     else Ok (h, g, n2)) = Ok (hB, gB, nB) ∧
    links_ok hB ∧ grid_ok hB gB W H ∧ extends h hB ∧ hB !! nB = Some oB.
Proof.
  intros Hok Hg Hn1 Hn2 Hx Hy Hfull. destruct full2.
  2: { exists h, g, n2, o2. split_and!; [done..|apply extends_refl|done]. }
  destruct (make_virtual_ok h n2 o2 Hok Hn2 Hfull)
    as (h1 & rn & -> & Hok1 & Hext1 & Hvn).
  cbn [mbind result_bind].
  destruct (extends_lookup _ _ _ _ Hext1 Hn1) as (o1' & Hn1' & _).
  rewrite (real_of_ok h1 Hok1 n1 o1') by done. cbn [mbind result_bind].
  rewrite (set_prev_ok h1 Hok1 _ _ _ Hvn). cbn [mbind result_bind].
  set (h2 := upd_prev h1 (holder h1 (length h)) (Some (holder h1 n1))).
  assert (links_ok h2) as Hok2.
  { apply links_ok_upd_prev; [done|]. intros c [= <-].
    by destruct (holder_spec h1 Hok1 n1 o1' Hn1') as (? & _). }
  assert (h2 !! length h
          = Some (VirtualNode2D (px (obj_point o2)) (py (obj_point o2)) rn 1))
    as Hvn2 by (unfold h2; by rewrite lookup_upd_prev, Hvn).
  rewrite (current_ok h2 Hok2 _ _ _ _ _ Hvn2). cbn [mbind result_bind not_None].
  destruct (holder_spec h2 Hok2 _ _ Hvn2) as (HnB & HptB & _).
  unfold get_y, get_x. rewrite get_point_node, HptB by done.
  cbn [mbind result_bind obj_point px py].
  assert (extends h h2) as Hext2.
  { eapply extends_trans; [exact Hext1|apply extends_upd_prev]. }
  destruct (data_set_ok h2 g W H (px (obj_point o2)) (py (obj_point o2))
              (length h) _ (grid_ok_extends _ _ _ _ _ Hg Hext2) Hx Hy Hvn2)
    as (g' & -> & Hg'); [done|].
  cbn [mbind result_bind].
  destruct (is_node_lookup _ _ HnB) as [oB HoB].
  exists h2, g', (holder h2 (length h)), oB. done.
Qed.

(** [connect] returns on every pair of objects of the grid. *)
Lemma connect_total h g W H n1 n2 o1 o2 :
  links_ok h → grid_ok h g W H →
  h !! n1 = Some o1 → h !! n2 = Some o2 →
  0 <= px (obj_point o1) < Z.of_nat W → 0 <= py (obj_point o1) < Z.of_nat H →
  0 <= px (obj_point o2) < Z.of_nat W → 0 <= py (obj_point o2) < Z.of_nat H →
  ∃ h' g', connect h g n1 n2 = Ok (h', g') ∧
           links_ok h' ∧ grid_ok h' g' W H ∧ extends h h'.
Proof.
  intros Hok Hg Hn1 Hn2 Hx1 Hy1 Hx2 Hy2. unfold connect.
  rewrite (fully_linked_ok h Hok n1 o1 Hn1). cbn [mbind result_bind].
  destruct (connect_source_block h g W H n1 n2 o1 o2 _ Hok Hg Hn1 Hn2 Hx1 Hy1
              (fully_linked_ok h Hok n1 o1 Hn1))
    as (hA & gA & nA & oA & -> & HokA & HgA & HextA & HnA).
  cbn [mbind result_bind].
  destruct (extends_lookup _ _ _ _ HextA Hn2) as (o2A & Hn2A & Hp2A).
  rewrite (fully_linked_ok hA HokA n2 o2A Hn2A). cbn [mbind result_bind].
  destruct (connect_target_block hA gA W H nA n2 oA o2A _ HokA HgA HnA Hn2A
              ltac:(by rewrite Hp2A) ltac:(by rewrite Hp2A)
              (fully_linked_ok hA HokA n2 o2A Hn2A))
    as (hB & gB & nB & oB & -> & HokB & HgB & HextB & HnB).
  cbn [mbind result_bind].
  destruct (extends_lookup _ _ _ _ HextB HnA) as (oA' & HnA' & _).
  rewrite (real_of_ok hB HokB nB oB) by done. cbn [mbind result_bind].
  rewrite (set_next_ok hB HokB nA oA') by done. cbn [mbind result_bind].
  set (h3 := upd_next hB (holder hB nA) (Some (holder hB nB))).
  assert (links_ok h3) as Hok3.
  { apply links_ok_upd_next; [done|]. intros c [= <-].
    by destruct (holder_spec hB HokB nB oB HnB) as (? & _). }
  destruct (extends_lookup _ _ _ _ (extends_upd_next hB (holder hB nA)
              (Some (holder hB nB))) HnA') as (oA3 & HnA3 & _).
  destruct (extends_lookup _ _ _ _ (extends_upd_next hB (holder hB nA)
              (Some (holder hB nB))) HnB) as (oB3 & HnB3 & _).
  fold h3 in HnA3, HnB3.
  rewrite (real_of_ok h3 Hok3 nA oA3) by done. cbn [mbind result_bind].
  rewrite (set_prev_ok h3 Hok3 nB oB3) by done. cbn [mbind result_bind].
  eexists _, _. split; [done|].
  assert (extends hB (upd_prev h3 (holder h3 nB) (Some (holder h3 nA)))) as Hext.
  { eapply extends_trans; [apply extends_upd_next|apply extends_upd_prev]. }
  split_and!.
  - apply links_ok_upd_prev; [done|]. intros c [= <-].
    by destruct (holder_spec h3 Hok3 nA oA3 HnA3) as (? & _).
  - by eapply grid_ok_extends.
  - eapply extends_trans; [exact HextA|]. by eapply extends_trans.
Qed.

Lemma alloc_row_fresh h y x n h' rs :
  alloc_row h y x n = (h', rs) →
  ∀ r o, h' !! r = Some o → h !! r = Some o ∨ ∃ a b, o = Node2D a b None None.
Proof.
  revert h x h' rs. induction n as [|n IH]; intros h x h' rs; simpl.
  - intros [= <- <-]. eauto.
  - destruct (alloc_row (h ++ [Node2D x y None None]) y (x + 1) n)
      as [h1 rs1] eqn:Hrow.
    intros [= <- <-] r o Hr.
    destruct (IH _ _ _ _ Hrow r o Hr) as [Hr'|?]; [|by right].
    apply lookup_app_Some in Hr' as [?|[_ Hr']]; [by left|]. right.
    apply list_lookup_singleton_Some in Hr' as [_ <-]. eauto.
Qed.

Lemma alloc_rows_fresh h w y n h' d :
  alloc_rows h w y n = (h', d) →
  ∀ r o, h' !! r = Some o → h !! r = Some o ∨ ∃ a b, o = Node2D a b None None.
Proof.
  revert h y h' d. induction n as [|n IH]; intros h y h' d; simpl.
  - intros [= <- <-]. eauto.
  - destruct (alloc_row h y 0 w) as [h1 row] eqn:Hrow.
    destruct (alloc_rows h1 w (y + 1) n) as [h2 rest] eqn:Hrows.
    intros [= <- <-] r o Hr.
    destruct (IH _ _ _ _ Hrows r o Hr) as [Hr'|?]; [|by right].
    by eapply alloc_row_fresh.
Qed.

Lemma fresh_grid_ok W H :
  let hg := NodeGrid2D_init [] W H in
  links_ok hg.1 ∧ grid_ok hg.1 hg.2 W H.
Proof.
  unfold NodeGrid2D_init.
  destruct (alloc_rows [] W 0 H) as [h d] eqn:Hd. simpl.
  pose proof (alloc_rows_fresh _ _ _ _ _ _ Hd) as Hfresh.
  apply alloc_rows_spec in Hd as (Hl & Hlh & _ & Hc). split.
  - split.
    + intros r x y n p Hr.
      destruct (Hfresh r _ Hr) as [?|(a & b & [= -> -> -> ->])]; done.
    + intros r x y rn st Hr.
      destruct (Hfresh r _ Hr) as [?|(a & b & ?)]; done.
  - split_and!; [done| |]; simpl.
    + intros i row Hi. destruct (Hc i) as (row' & Hrow' & Hlen & _).
      { apply lookup_lt_Some in Hi. lia. }
      congruence.
    + intros i j row r Hi Hj. destruct (Hc i) as (row' & Hrow' & Hlen & Hcells).
      { apply lookup_lt_Some in Hi. lia. }
      assert (row' = row) as -> by congruence.
      destruct (Hcells j) as [E1 E2]; [apply lookup_lt_Some in Hj; lia|].
      assert (r = (length ([] : heap) + i * W + j)%nat) as -> by congruence.
      eexists. split; [exact E2|]. simpl. f_equal; lia.
Qed.

Lemma grid_connect_total h g W H c1 c2 x y :
  links_ok h → grid_ok h g (W + 1) (H + 1) →
  0 <= x < Z.of_nat W → 0 <= y < Z.of_nat H →
  ∃ h' g', grid_connect (h, g) c1 c2 x y = Ok (h', g') ∧
           links_ok h' ∧ grid_ok h' g' (W + 1) (H + 1).
Proof.
  intros Hok Hg Hx Hy. unfold grid_connect.
  assert (∀ c, ∃ r o, corner_of g c x y = Ok r ∧ h !! r = Some o ∧
                      0 <= px (obj_point o) < Z.of_nat (W + 1) ∧
                      0 <= py (obj_point o) < Z.of_nat (H + 1)) as Hcorner.
  { intros c.
    assert (∀ a b, 0 <= a < Z.of_nat (W + 1) → 0 <= b < Z.of_nat (H + 1) →
              ∃ r o, data_get g b a = Ok r ∧ h !! r = Some o ∧
                     0 <= px (obj_point o) < Z.of_nat (W + 1) ∧
                     0 <= py (obj_point o) < Z.of_nat (H + 1)) as Hget.
    { intros a b Ha Hb.
      destruct (data_get_ok h g _ _ a b Hg Ha Hb) as (r & o & ? & ? & Hp).
      exists r, o. rewrite Hp. done. }
    destruct c; simpl; unfold top_left_of, top_right_of, bottom_right_of,
      bottom_left_of; apply Hget; lia. }
  destruct (Hcorner c1) as (n1 & o1 & -> & Hn1 & Hx1 & Hy1).
  destruct (Hcorner c2) as (n2 & o2 & -> & Hn2 & Hx2 & Hy2).
  cbn [mbind result_bind].
  destruct (connect_total h g (W + 1) (H + 1) n1 n2 o1 o2)
    as (h' & g' & -> & ? & ? & _); [done..|].
  by exists h', g'.
Qed.

Lemma trace_pixel_total bm h g x y :
  wf_ndarray bm →
  links_ok h → grid_ok h g (ncols bm + 1) (nrows bm + 1) →
  0 <= x < Z.of_nat (ncols bm) → 0 <= y < Z.of_nat (nrows bm) →
  ∃ h' g', trace_pixel grid_connect bm y (h, g) x = Ok (h', g') ∧
           links_ok h' ∧ grid_ok h' g' (ncols bm + 1) (nrows bm + 1).
Proof.
  intros Hbm Hok Hg Hx Hy. unfold trace_pixel.
  destruct (np_get_pixel_at bm x y Hbm Hx Hy) as (v & -> & _).
  cbn [mbind result_bind]. destruct (v =? 1); [|by exists h, g].
  rewrite np_neumann_neighbors_pixel_at by done.
  cbn [mbind result_bind top right bottom left].
  assert (∀ (cond : bool) c1 c2 hg,
            links_ok hg.1 ∧ grid_ok hg.1 hg.2 (ncols bm + 1) (nrows bm + 1) →
            ∃ hg', (if cond then grid_connect hg c1 c2 x y else Ok hg) = Ok hg' ∧
                   links_ok hg'.1 ∧
                   grid_ok hg'.1 hg'.2 (ncols bm + 1) (nrows bm + 1)) as Hstep.
  { intros [] c1 c2 [h1 g1] [Hok1 Hg1]; [|by exists (h1, g1)].
    destruct (grid_connect_total h1 g1 _ _ c1 c2 x y Hok1 Hg1 Hx Hy)
      as (h' & g' & -> & ? & ?). by exists (h', g'). }
  destruct (Hstep (in_0_None (pixel_at bm x (y - 1))) TL TR (h, g))
    as (s1 & -> & Hs1); [done|]. cbn [mbind result_bind].
  destruct (Hstep (in_0_None (pixel_at bm (x + 1) y)) TR BR s1)
    as (s2 & -> & Hs2); [done|]. cbn [mbind result_bind].
  destruct (Hstep (in_0_None (pixel_at bm x (y + 1))) BR BL s2)
    as (s3 & -> & Hs3); [done|]. cbn [mbind result_bind].
  destruct (Hstep (in_0_None (pixel_at bm (x - 1) y)) BL TL s3)
    as ([h4 g4] & -> & Hs4); [done|]. cbn [mbind result_bind].
  by exists h4, g4.
Qed.

(** X25. [trace_bitmask] returns on every bitmask: no access fails.  In
    the graph it returns the grid has its shape, every cell holds an
    object at the cell's coordinates, every link of a [Node2D] leads to a
    [Node2D], and every virtual node is in state 0 or 1 with two [Node2D]
    real nodes at its own coordinates. *)
Theorem trace_bitmask_returns (bm : ndarray Z) :
  wf_ndarray bm →
  ∃ h g, trace_bitmask bm = Ok (h, g) ∧
         links_ok h ∧ grid_ok h g (ncols bm + 1) (nrows bm + 1).
Proof.
  intros Hbm. unfold trace_bitmask.
  pose proof (fresh_grid_ok (ncols bm + 1) (nrows bm + 1)) as Hinit.
  destruct (NodeGrid2D_init [] (ncols bm + 1) (nrows bm + 1)) as [h0 g0].
  simpl in Hinit. unfold trace_rows, range.
  set (I := λ (_ : Z) (s : heap * NodeGrid2D),
         links_ok s.1 ∧ grid_ok s.1 s.2 (ncols bm + 1) (nrows bm + 1)).
  destruct (for_each_seqZ_total I
              (λ s y, for_each (seqZ 0 (Z.of_nat (ncols bm)))
                        (trace_pixel grid_connect bm y) s)
              (nrows bm) 0 (h0, g0)) as ([h g] & -> & Hs); [done| |].
  - intros y s Hy Hs.
    destruct (for_each_seqZ_total I (trace_pixel grid_connect bm y)
                (ncols bm) 0 s) as (s' & -> & Hs'); [done| |by exists s'].
    intros x [h1 g1] Hx [Hok1 Hg1].
    destruct (trace_pixel_total bm h1 g1 x y) as (h' & g' & -> & ? & ?);
      [done..|lia|lia|]. by exists (h', g').
  - by exists h, g.
Qed.

Lemma trace_bitmask_returns_witness :
  ∃ h g, trace_bitmask (NdArray 2 2 [[1; 0]; [0; 1]]) = Ok (h, g) ∧
         links_ok h ∧ grid_ok h g (2 + 1) (2 + 1).
Proof.
  apply (trace_bitmask_returns (NdArray 2 2 [[1; 0]; [0; 1]])).
  split; [reflexivity|repeat constructor].
Defined.

(** ** The edges that [trace_bitmask] makes *)

Lemma slots_spec h c o r :
  links_ok h → h !! c = Some o → r ∈ slots h c →
  is_node h r = true ∧ pt h r = obj_point o.
Proof.
  intros [_ Hv] Hc. unfold slots. rewrite Hc.
  destruct o as [x y n p|x y [a b] st].
  - intros ->%list_elem_of_singleton. unfold is_node, pt. by rewrite Hc.
  - destruct (Hv _ _ _ _ _ Hc) as (_ & s0 & s1 & [= -> ->] & ? & ? & ? & ?).
    simpl. intros [->|[->|[]%elem_of_nil]%elem_of_cons]%elem_of_cons; done.
Qed.

Lemma slots_extends h h' c :
  extends h h' → is_Some (h !! c) → slots h' c = slots h c.
Proof.
  intros Hext [o Ho]. destruct (Hext _ _ Ho) as (o' & Ho' & Hsk).
  unfold slots. rewrite Ho, Ho'.
  by destruct o, o'; simplify_eq/=.
Qed.

Lemma slots_node h c : is_node h c = true → slots h c = [c].
Proof.
  intros (x & y & n & p & E)%is_node_Some. unfold slots. by rewrite E.
Qed.

Lemma cell_at_Some g P c :
  cell_at g P = Some c ↔
  0 <= px P ∧ 0 <= py P ∧
  ∃ row, g_data g !! Z.to_nat (py P) = Some row ∧ row !! Z.to_nat (px P) = Some c.
Proof.
  unfold cell_at. case_decide as Hd.
  - destruct (g_data g !! Z.to_nat (py P)) as [row|]; simpl.
    + split; [intros ?; destruct Hd; eauto|]. by intros (_ & _ & row' & [= <-] & ?).
    + split; [done|]. by intros (_ & _ & row' & ? & ?).
  - split; [done|]. intros (? & ? & _). tauto.
Qed.

Lemma cell_at_ok h g W H P c :
  grid_ok h g W H → cell_at g P = Some c →
  (∃ o, h !! c = Some o ∧ obj_point o = P) ∧
  0 <= px P < Z.of_nat W ∧ 0 <= py P < Z.of_nat H.
Proof.
  intros (Hl & Hrows & Hcells) (Hx & Hy & row & Hrow & Hc)%cell_at_Some.
  destruct (Hcells _ _ _ _ Hrow Hc) as (o & Ho & Hp).
  pose proof (lookup_lt_Some _ _ _ Hrow) as Hi.
  pose proof (lookup_lt_Some _ _ _ Hc) as Hj.
  rewrite (Hrows _ _ Hrow) in Hj.
  split; [|lia]. exists o. split; [done|]. rewrite Hp.
  destruct P as [x y]; simpl in *. f_equal; lia.
Qed.

Lemma cell_at_data_get h g W H x y :
  grid_ok h g W H → 0 <= x < Z.of_nat W → 0 <= y < Z.of_nat H →
  ∃ c, data_get g y x = Ok c ∧ cell_at g (mkPoint2D x y) = Some c.
Proof.
  intros Hg Hx Hy.
  pose proof Hg as (Hl & Hrows & Hcells). unfold data_get.
  rewrite Hl, py_index_nonneg by done.
  destruct (lookup_lt_is_Some_2 (g_data g) (Z.to_nat y)) as [row Hrow]; [lia|].
  rewrite Hrow, (Hrows _ _ Hrow), py_index_nonneg by done.
  destruct (lookup_lt_is_Some_2 row (Z.to_nat x)) as [r Hr].
  { rewrite (Hrows _ _ Hrow). lia. }
  rewrite Hr. exists r. split; [done|].
  apply cell_at_Some. simpl. split_and!; [lia..|eauto].
Qed.

Lemma cell_at_data_set h g W H P r :
  grid_ok h g W H → 0 <= px P < Z.of_nat W → 0 <= py P < Z.of_nat H →
  ∃ g', data_set g (py P) (px P) r = Ok g' ∧
        ∀ Q, cell_at g' Q = if decide (Q = P) then Some r else cell_at g Q.
Proof.
  intros (Hl & Hrows & Hcells) Hx Hy. unfold data_set.
  rewrite Hl, py_index_nonneg by done.
  destruct (lookup_lt_is_Some_2 (g_data g) (Z.to_nat (py P))) as [row Hrow]; [lia|].
  rewrite Hrow, (Hrows _ _ Hrow), py_index_nonneg by done.
  eexists. split; [done|]. intros Q. unfold cell_at. simpl.
  case_decide as HQ.
  2: { rewrite decide_False; [done|]. intros ->. lia. }
  destruct (decide (Z.to_nat (py Q) = Z.to_nat (py P))) as [Ey|Ny].
  - rewrite Ey, list_lookup_insert_eq by lia. rewrite Hrow. simpl.
    destruct (decide (Z.to_nat (px Q) = Z.to_nat (px P))) as [Ex|Nx].
    + rewrite Ex, list_lookup_insert_eq by (rewrite (Hrows _ _ Hrow); lia).
      rewrite decide_True; [done|].
      destruct P, Q; simpl in *. f_equal; lia.
    + rewrite list_lookup_insert_ne by done.
      rewrite decide_False; [done|]. by intros ->.
  - rewrite list_lookup_insert_ne by done.
    rewrite decide_False; [done|]. by intros ->.
Qed.

Section graph.
Context (W H : nat) (h : heap) (g : NodeGrid2D).
Hypothesis Hok : links_ok h.
Hypothesis Hg : grid_ok h g W H.

Lemma slot_at_spec P r :
  slot_at h g P r → is_node h r = true ∧ pt h r = P.
Proof using Hok Hg.
  intros (c & Hc & Hr).
  destruct (cell_at_ok _ _ _ _ _ _ Hg Hc) as [(o & Ho & <-) _].
  by eapply slots_spec.
Qed.

Lemma slot_at_point P Q r : slot_at h g P r → slot_at h g Q r → P = Q.
Proof using Hok Hg.
  intros [_ <-]%slot_at_spec [_ <-]%slot_at_spec. done.
Qed.

Lemma slot_at_node P c r :
  cell_at g P = Some c → is_node h c = true → slot_at h g P r ↔ r = c.
Proof using Hok Hg.
  intros Hc Hn. unfold slot_at. rewrite Hc. split.
  - intros (c' & [= <-] & Hr). rewrite slots_node in Hr by done.
    by apply list_elem_of_singleton in Hr.
  - intros ->. exists c. split; [done|]. rewrite slots_node by done.
    by apply list_elem_of_singleton.
Qed.

Lemma slot_at_virtual P c x y s0 s1 st r :
  cell_at g P = Some c → h !! c = Some (VirtualNode2D x y (Some s0, Some s1) st) →
  slot_at h g P r ↔ r = s0 ∨ r = s1.
Proof.
  intros Hc Hv. unfold slot_at. rewrite Hc. split.
  - intros (c' & [= <-] & Hr). unfold slots in Hr. rewrite Hv in Hr. simpl in Hr.
    apply elem_of_cons in Hr as [->|Hr]; [by left|].
    apply list_elem_of_singleton in Hr as ->. by right.
  - intros Hr. exists c. split; [done|]. unfold slots. rewrite Hv. simpl.
    destruct Hr as [-> | ->]; [left|right; left].
Qed.
End graph.

Lemma holder_node h c : is_node h c = true → holder h c = c.
Proof.
  intros (x & y & n & p & E)%is_node_Some. unfold holder. by rewrite E.
Qed.

Lemma holder_virtual h c x y s0 s1 :
  h !! c = Some (VirtualNode2D x y (Some s0, Some s1) 1) → holder h c = s1.
Proof. intros E. unfold holder. by rewrite E. Qed.

Lemma fnext_upd_next_ne h r v r' : r' ≠ r → fnext (upd_next h r v) r' = fnext h r'.
Proof.
  intros Hne. unfold fnext. rewrite lookup_upd_next.
  destruct (h !! r') as [[]|]; [|done..]. by rewrite decide_False.
Qed.

Lemma fprev_upd_prev_ne h r v r' : r' ≠ r → fprev (upd_prev h r v) r' = fprev h r'.
Proof.
  intros Hne. unfold fprev. rewrite lookup_upd_prev.
  destruct (h !! r') as [[]|]; [|done..]. by rewrite decide_False.
Qed.

Lemma fnext_upd_next_eq h r v : is_node h r = true → fnext (upd_next h r v) r = v.
Proof. intros Hr. rewrite fnext_upd_next by done. by rewrite decide_True. Qed.

Lemma fprev_upd_prev_eq h r v : is_node h r = true → fprev (upd_prev h r v) r = v.
Proof. intros Hr. rewrite fprev_upd_prev by done. by rewrite decide_True. Qed.

Lemma slots_upd_next h d v c : slots (upd_next h d v) c = slots h c.
Proof.
  unfold slots. rewrite lookup_upd_next. by destruct (h !! c) as [[]|].
Qed.

Lemma slots_upd_prev h d v c : slots (upd_prev h d v) c = slots h c.
Proof.
  unfold slots. rewrite lookup_upd_prev. by destruct (h !! c) as [[]|].
Qed.

Lemma slot_at_upd_next h g d v P r :
  slot_at (upd_next h d v) g P r ↔ slot_at h g P r.
Proof. unfold slot_at. by setoid_rewrite slots_upd_next. Qed.

Lemma slot_at_upd_prev h g d v P r :
  slot_at (upd_prev h d v) g P r ↔ slot_at h g P r.
Proof. unfold slot_at. by setoid_rewrite slots_upd_prev. Qed.

Lemma lookup_upd_next_virtual h d v c x y rn st :
  upd_next h d v !! c = Some (VirtualNode2D x y rn st)
  ↔ h !! c = Some (VirtualNode2D x y rn st).
Proof. rewrite lookup_upd_next. by destruct (h !! c) as [[]|]. Qed.

Lemma lookup_upd_prev_virtual h d v c x y rn st :
  upd_prev h d v !! c = Some (VirtualNode2D x y rn st)
  ↔ h !! c = Some (VirtualNode2D x y rn st).
Proof. rewrite lookup_upd_prev. by destruct (h !! c) as [[]|]. Qed.

(** The invariant does not depend on how the edges are described. *)
Lemma graph_inv_edges W H h g es es' dn dp :
  (∀ P Q, es P Q ↔ es' P Q) →
  graph_inv W H h g es dn dp → graph_inv W H h g es' dn dp.
Proof.
  intros Hes [? ? ? Hirr ? ? ? Hedges]. split; try done.
  - intros P. rewrite <- Hes. apply Hirr.
  - intros P Q. rewrite <- Hes. apply Hedges.
Qed.

(** A node without [next] may be the one whose [next] is assigned. *)
Lemma graph_inv_open_next W H h g es dp d :
  graph_inv W H h g es None dp → is_node h d = true → fnext h d = None →
  graph_inv W H h g es (Some d) dp.
Proof.
  intros [Hok Hg Hholes Hirr Hcell Hnext Hprev Hedges] Hd Hnone. split; try done.
  - intros d' [[= <-]|?]; [done|]. apply Hholes. by right.
  - intros P c Hc. destruct (Hcell P c Hc)
      as [?|(s0 & s1 & Hv & Hne & Hn0 & Hp0 & _ & Hdp & Hdn & Hdp')]; [by left|].
    right. exists s0, s1. split_and!; try done.
    + intros [= ->]. rewrite Hnone in Hn0. by destruct Hn0.
    + intros _. by apply Hdn.
  - intros P r n Hr _ Hn. by apply (Hnext P).
  - intros P r p Hr Hne Hp. destruct (Hprev P r p Hr Hne Hp) as (_ & Hn & Hs).
    split; [|done]. intros [= ->]. congruence.
  - intros P Q. rewrite Hedges. split.
    + intros (r & n & Hr & _ & Hn & Hq). exists r, n. split_and!; try done.
      intros [= ->]. congruence.
    + intros (r & n & Hr & _ & Hn & Hq). exists r, n. done.
Qed.

Lemma graph_inv_open_prev W H h g es dn d :
  graph_inv W H h g es dn None → is_node h d = true → fprev h d = None →
  graph_inv W H h g es dn (Some d).
Proof.
  intros [Hok Hg Hholes Hirr Hcell Hnext Hprev Hedges] Hd Hnone. split; try done.
  - intros d' [?|[= <-]]; [|done]. apply Hholes. by left.
  - intros P c Hc. destruct (Hcell P c Hc)
      as [?|(s0 & s1 & Hv & Hne & Hn0 & Hp0 & Hdn & _ & Hdn' & Hdp')]; [by left|].
    right. exists s0, s1. split_and!; try done.
    + intros [= ->]. rewrite Hnone in Hp0. by destruct Hp0.
    + intros _. by apply Hdp'.
  - intros P r n Hr Hne Hn. destruct (Hnext P r n Hr Hne Hn) as (_ & Hp & Hs).
    split; [|done]. intros [= ->]. congruence.
  - intros P r p Hr _ Hp. by apply (Hprev P).
Qed.

(** Assigning the [next] that is left out of account. *)
Lemma graph_inv_dangling_next W H h g es d dp x :
  graph_inv W H h g es (Some d) dp → is_node h x = true →
  graph_inv W H (upd_next h d (Some x)) g es (Some d) dp.
Proof.
  intros [Hok Hg Hholes Hirr Hcell Hnext Hprev Hedges] Hx.
  assert (∀ r, Some d ≠ Some r → fnext (upd_next h d (Some x)) r = fnext h r)
    as Hfn.
  { intros r Hr. apply fnext_upd_next_ne. congruence. }
  split.
  - apply links_ok_upd_next; [done|]. by intros c [= <-].
  - eapply grid_ok_extends; [done|apply extends_upd_next].
  - intros d' Hd'. rewrite is_node_upd_next. by apply Hholes.
  - done.
  - intros P c Hc. rewrite is_node_upd_next.
    destruct (Hcell P c Hc)
      as [?|(s0 & s1 & Hv & Hne & Hn0 & Hp0 & Hdn & Hdp & Hdn' & Hdp')]; [by left|].
    right. exists s0, s1. rewrite lookup_upd_next_virtual, !fprev_upd_next.
    rewrite Hfn by done. split_and!; try done.
    + intros Hs1 a b. rewrite Hfn by done. rewrite !pt_upd_next. by apply Hdn'.
    + intros Hs1 a b. rewrite !pt_upd_next. by apply Hdp'.
  - intros P r n. rewrite slot_at_upd_next. intros Hr Hne. rewrite Hfn by done.
    rewrite fprev_upd_next, pt_upd_next, slot_at_upd_next. by apply (Hnext P).
  - intros P r p. rewrite slot_at_upd_next, fprev_upd_next. intros Hr Hne Hp.
    destruct (Hprev P r p Hr Hne Hp) as (Hd & Hn & Hs).
    rewrite Hfn by done. by rewrite pt_upd_next, slot_at_upd_next.
  - intros P Q. rewrite Hedges. split.
    + intros (r & n & Hr & Hne & Hn & Hq). exists r, n.
      by rewrite slot_at_upd_next, Hfn, pt_upd_next.
    + intros (r & n & Hr & Hne & Hn & Hq). exists r, n.
      by rewrite slot_at_upd_next, Hfn, pt_upd_next in *.
Qed.

Lemma graph_inv_dangling_prev W H h g es dn d x :
  graph_inv W H h g es dn (Some d) → is_node h x = true →
  graph_inv W H (upd_prev h d (Some x)) g es dn (Some d).
Proof.
  intros [Hok Hg Hholes Hirr Hcell Hnext Hprev Hedges] Hx.
  assert (∀ r, Some d ≠ Some r → fprev (upd_prev h d (Some x)) r = fprev h r)
    as Hfp.
  { intros r Hr. apply fprev_upd_prev_ne. congruence. }
  split.
  - apply links_ok_upd_prev; [done|]. by intros c [= <-].
  - eapply grid_ok_extends; [done|apply extends_upd_prev].
  - intros d' Hd'. rewrite is_node_upd_prev. by apply Hholes.
  - done.
  - intros P c Hc. rewrite is_node_upd_prev.
    destruct (Hcell P c Hc)
      as [?|(s0 & s1 & Hv & Hne & Hn0 & Hp0 & Hdn & Hdp & Hdn' & Hdp')]; [by left|].
    right. exists s0, s1. rewrite lookup_upd_prev_virtual, !fnext_upd_prev.
    rewrite Hfp by done. split_and!; try done.
    + intros Hs1 a b. rewrite !pt_upd_prev. by apply Hdn'.
    + intros Hs1 a b. rewrite Hfp by done. rewrite !pt_upd_prev. by apply Hdp'.
  - intros P r n. rewrite slot_at_upd_prev, fnext_upd_prev. intros Hr Hne Hn.
    destruct (Hnext P r n Hr Hne Hn) as (Hd & Hp & Hs).
    rewrite Hfp by done. by rewrite pt_upd_prev, slot_at_upd_prev.
  - intros P r p. rewrite slot_at_upd_prev. intros Hr Hne. rewrite Hfp by done.
    rewrite fnext_upd_prev, pt_upd_prev, slot_at_upd_prev. by apply (Hprev P).
  - intros P Q. rewrite Hedges. split.
    + intros (r & n & Hr & Hne & Hn & Hq). exists r, n.
      by rewrite slot_at_upd_prev, fnext_upd_prev, pt_upd_prev.
    + intros (r & n & Hr & Hne & Hn & Hq). exists r, n.
      by rewrite slot_at_upd_prev, fnext_upd_prev, pt_upd_prev in *.
Qed.

(** The two assignments that end [connect]: [node_1.next = node_2] and
    [node_2.prev = node_1] add the edge from [P] to [Q]. *)
Lemma graph_inv_link W H h g es d d' P Q :
  graph_inv W H h g es (Some d) (Some d') →
  slot_at h g P d → slot_at h g Q d' → P ≠ Q → ¬ es P Q →
  graph_inv W H (upd_prev (upd_next h d (Some d')) d' (Some d)) g
    (λ A B, es A B ∨ (A = P ∧ B = Q)) None None.
Proof.
  intros [Hok Hg Hholes Hirr Hcell Hnext Hprev Hedges] HdP HdQ HPQ HnPQ.
  destruct (slot_at_spec _ _ _ _ Hok Hg _ _ HdP) as [Hd HptP].
  destruct (slot_at_spec _ _ _ _ Hok Hg _ _ HdQ) as [Hd' HptQ].
  assert (d ≠ d') as Hdd' by (intros ->; congruence).
  set (h' := upd_prev (upd_next h d (Some d')) d' (Some d)).
  assert (∀ r, fnext h' r = if decide (r = d) then Some d' else fnext h r) as Hfn.
  { intros r. unfold h'. rewrite fnext_upd_prev. case_decide as E.
    - subst r. by apply fnext_upd_next_eq.
    - by apply fnext_upd_next_ne. }
  assert (∀ r, fprev h' r = if decide (r = d') then Some d else fprev h r) as Hfp.
  { intros r. unfold h'. case_decide as E.
    - subst r. apply fprev_upd_prev_eq. by rewrite is_node_upd_next.
    - rewrite fprev_upd_prev_ne by done. by rewrite fprev_upd_next. }
  assert (∀ r, pt h' r = pt h r) as Hpt.
  { intros r. unfold h'. by rewrite pt_upd_prev, pt_upd_next. }
  assert (∀ X r, slot_at h' g X r ↔ slot_at h g X r) as Hslot.
  { intros X r. unfold h'. by rewrite slot_at_upd_prev, slot_at_upd_next. }
  assert (∀ r, is_node h' r = is_node h r) as Hnode.
  { intros r. unfold h'. by rewrite is_node_upd_prev, is_node_upd_next. }
  split.
  - apply links_ok_upd_prev; [apply links_ok_upd_next; [done|]|].
    + by intros c [= <-].
    + intros c [= <-]. by rewrite is_node_upd_next.
  - eapply grid_ok_extends; [done|].
    eapply extends_trans; [apply extends_upd_next|apply extends_upd_prev].
  - intros d0 [?|?]; done.
  - intros A [?|[-> ?]]; [by eapply Hirr|done].
  - intros X c Hc. rewrite Hnode.
    destruct (Hcell X c Hc)
      as [?|(s0 & s1 & Hv & Hne & Hn0 & Hp0 & Hdn & Hdp & Hdn' & Hdp')]; [by left|].
    right. exists s0, s1.
    assert (slot_at h g X s0) as Hs0 by (eapply slot_at_virtual; eauto).
    assert (slot_at h g X s1) as Hs1 by (eapply slot_at_virtual; eauto).
    rewrite !Hfn, !Hfp.
    rewrite (decide_False (P := s0 = d)) by congruence.
    rewrite (decide_False (P := s0 = d')) by congruence.
    split_and!; try done.
    + unfold h'. by rewrite lookup_upd_prev_virtual, lookup_upd_next_virtual.
    + intros _ a b Ha. rewrite !Hpt. case_decide as E.
      * subst s1. intros [= <-] Hab.
        assert (X = P) as -> by by eapply (slot_at_point W H h g).
        apply HnPQ, Hedges. exists s0, a. split_and!; [done|done|done|].
        congruence.
      * apply Hdn'; [congruence|done].
    + intros _ a b Ha. rewrite !Hpt. case_decide as E.
      * subst s1. intros [= <-] Hab.
        assert (X = Q) as -> by by eapply (slot_at_point W H h g).
        destruct (Hprev Q s0 a Hs0 Hdp Ha) as (Hda & Hna & Hsa).
        apply HnPQ, Hedges. exists a, s0.
        destruct (slot_at_spec _ _ _ _ Hok Hg _ _ Hs0) as [_ Hpt0].
        rewrite Hab, HptP in Hsa. done.
      * apply Hdp'; [congruence|done].
  - intros X r n. rewrite Hslot, Hfn, Hfp, Hpt, Hslot. intros Hr _.
    case_decide as E.
    + subst r. intros [= <-]. rewrite decide_True by done.
      split; [done|]. split; [done|]. by rewrite HptQ.
    + intros Hn. destruct (Hnext X r n Hr ltac:(congruence) Hn) as (Hnd & ? & ?).
      rewrite decide_False by congruence. done.
  - intros X r p. rewrite Hslot, Hfn, Hfp, Hpt, Hslot. intros Hr _.
    case_decide as E.
    + subst r. intros [= <-]. rewrite decide_True by done.
      split; [done|]. split; [done|]. by rewrite HptP.
    + intros Hp. destruct (Hprev X r p Hr ltac:(congruence) Hp) as (Hnd & ? & ?).
      rewrite decide_False by congruence. done.
  - intros A B. split.
    + intros [(r & n & Hr & Hne & Hn & Hq)%Hedges|[-> ->]].
      * exists r, n. rewrite Hslot, Hfn, Hpt.
        rewrite decide_False by congruence. done.
      * exists d, d'. rewrite Hslot, Hfn, Hpt. by rewrite decide_True.
    + intros (r & n & Hr & _ & Hn & Hq). rewrite Hslot in Hr.
      rewrite Hfn in Hn. rewrite Hpt in Hq. case_decide as E.
      * subst r. injection Hn as <-. right. split; [|congruence].
        by eapply (slot_at_point W H h g).
      * left. apply Hedges. exists r, n. split_and!; [done|congruence|done..].
Qed.

Section split_views.
Context (h : heap) (x y : Z) (n p : ref).
Hypothesis Hn : is_node h n = true.
Hypothesis Hp : is_node h p = true.


Lemma split_heap_lookup_lt r :
  (r < length h)%nat →
  split_heap h x y n p !! r
  = upd_prev (upd_next h p (Some (length h + 1)%nat)) n (Some (length h + 1)%nat) !! r.
Proof.
  intros Hr. unfold split_heap. apply lookup_app_l.
  by rewrite length_upd_prev, length_upd_next.
Qed.

Lemma split_heap_virtual r x' y' rn st :
  h !! r = Some (VirtualNode2D x' y' rn st) →
  split_heap h x y n p !! r = Some (VirtualNode2D x' y' rn st).
Proof.
  intros Hr. rewrite split_heap_lookup_lt by (by eapply lookup_lt_Some).
  by rewrite lookup_upd_prev_virtual, lookup_upd_next_virtual.
Qed.

Lemma split_heap_node r :
  is_node h r = true →
  is_node (split_heap h x y n p) r = true ∧
  pt (split_heap h x y n p) r = pt h r ∧
  fnext (split_heap h x y n p) r
  = (if decide (r = p) then Some (length h + 1)%nat else fnext h r) ∧
  fprev (split_heap h x y n p) r
  = (if decide (r = n) then Some (length h + 1)%nat else fprev h r).
Proof.
  intros Hr. pose proof (is_node_lt _ _ Hr) as Hlt.
  unfold is_node, pt, fnext, fprev.
  rewrite split_heap_lookup_lt, lookup_upd_prev, lookup_upd_next by done.
  destruct (is_node_Some _ _ Hr) as (x' & y' & n' & p' & ->). done.
Qed.

Lemma split_heap_fresh :
  split_heap h x y n p !! length h
  = Some (VirtualNode2D x y (Some (length h + 1)%nat, Some (length h + 2)%nat) 1) ∧
  split_heap h x y n p !! (length h + 1)%nat = Some (Node2D x y (Some n) (Some p)) ∧
  split_heap h x y n p !! (length h + 2)%nat = Some (Node2D x y None None).
Proof.
  unfold split_heap.
  rewrite lookup_fresh_0, lookup_fresh_1, lookup_fresh_2
    by (by rewrite length_upd_prev, length_upd_next).
  done.
Qed.

Lemma split_heap_extends : extends h (split_heap h x y n p).
Proof.
  unfold split_heap.
  eapply extends_trans; [apply extends_upd_next|].
  eapply extends_trans; [apply extends_upd_prev|apply extends_app].
Qed.

Lemma split_heap_links_ok : links_ok h → links_ok (split_heap h x y n p).
Proof using Hn Hp.
  intros Hok. unfold split_heap.
  rewrite <- upd_prev_app by (by rewrite is_node_upd_next).
  rewrite <- upd_next_app by done.
  apply links_ok_upd_prev; [apply links_ok_upd_next|].
  - by apply links_ok_split.
  - intros c [= <-]. unfold is_node. by rewrite lookup_fresh_1.
  - intros c [= <-]. rewrite is_node_upd_next.
    unfold is_node. by rewrite lookup_fresh_1.
Qed.
End split_views.

(** The split of a grid node that has both links keeps the invariant:
    the copy takes the place of the node, the second real node is a node
    of the grid without links. *)
Lemma graph_inv_split W H h g es dn dp P c n p g1 :
  graph_inv W H h g es dn dp →
  cell_at g P = Some c → is_node h c = true →
  fnext h c = Some n → fprev h c = Some p →
  dn ≠ Some c → dp ≠ Some c →
  data_set g (py P) (px P) (length h) = Ok g1 →
  graph_inv W H (split_heap h (px P) (py P) n p) g1 es dn dp ∧
  (∀ Q, cell_at g1 Q = if decide (Q = P) then Some (length h) else cell_at g Q) ∧
  (∀ X r, slot_at (split_heap h (px P) (py P) n p) g1 X r ↔
     if decide (X = P) then r = (length h + 1)%nat ∨ r = (length h + 2)%nat
     else slot_at h g X r).
Proof.
  intros [Hok Hg Hholes Hirr Hcell Hnext Hprev Hedges] Hc Hcn Hfn Hfp Hdn Hdp Hset.
  set (k := length h). set (s0 := (k + 1)%nat). set (s1 := (k + 2)%nat).
  set (h1 := split_heap h (px P) (py P) n p).
  assert (slot_at h g P c) as Hcslot by (by eapply slot_at_node).
  assert (pt h c = P) as Hptc by (by eapply slot_at_spec).
  destruct (Hnext P c n Hcslot Hdn Hfn) as (Hdpn & Hpn & Hsn).
  destruct (Hprev P c p Hcslot Hdp Hfp) as (Hdnp & Hnp & Hsp).
  destruct (slot_at_spec _ _ _ _ Hok Hg _ _ Hsn) as [Hnn _].
  destruct (slot_at_spec _ _ _ _ Hok Hg _ _ Hsp) as [Hpp _].
  assert (pt h n ≠ P) as HnP.
  { intros E. apply (Hirr P), Hedges. exists c, n. done. }
  assert (pt h p ≠ P) as HpP.
  { intros E. apply (Hirr P), Hedges. exists p, c. rewrite <- E at 1. done. }
  assert (n ≠ c) as Hnc by (intros E; apply HnP; by rewrite E).
  assert (p ≠ c) as Hpc by (intros E; apply HpP; by rewrite E).
  destruct (cell_at_ok _ _ _ _ _ _ Hg Hc) as [(oc & Hoc & HocP) [HxP HyP]].
  destruct (cell_at_data_set h g W H P k Hg HxP HyP) as (g1' & Hset' & Hcells).
  assert (g1' = g1) as -> by (unfold k in Hset'; congruence). clear Hset'.
  destruct (split_heap_fresh h (px P) (py P) n p) as (Hvn & Hs0 & Hs1).
  fold k s0 s1 h1 in Hvn, Hs0, Hs1.
  pose proof (split_heap_extends h (px P) (py P) n p) as Hext. fold h1 in Hext.
  pose proof (split_heap_links_ok h (px P) (py P) n p Hnn Hpp Hok) as Hok1.
  fold h1 in Hok1.
  assert (grid_ok h1 g1 W H) as Hg1.
  { destruct (data_set_ok h1 g W H (px P) (py P) k _
                (grid_ok_extends _ _ _ _ _ Hg Hext) HxP HyP Hvn eq_refl)
      as (g' & Hg' & ?). unfold k in Hg'. congruence. }
  assert (∀ r, is_node h r = true →
            is_node h1 r = true ∧ pt h1 r = pt h r ∧
            fnext h1 r = (if decide (r = p) then Some s0 else fnext h r) ∧
            fprev h1 r = (if decide (r = n) then Some s0 else fprev h r)) as Hview.
  { intros r Hr. by apply split_heap_node. }
  assert (is_node h1 s0 = true ∧ pt h1 s0 = P ∧
          fnext h1 s0 = Some n ∧ fprev h1 s0 = Some p) as (Hs0n & Hs0p & Hs0nx & Hs0pv).
  { unfold is_node, pt, fnext, fprev. rewrite Hs0. simpl. by destruct P. }
  assert (is_node h1 s1 = true ∧ pt h1 s1 = P ∧
          fnext h1 s1 = None ∧ fprev h1 s1 = None) as (Hs1n & Hs1p & Hs1nx & Hs1pv).
  { unfold is_node, pt, fnext, fprev. rewrite Hs1. simpl. by destruct P. }
  assert (∀ r, is_node h r = true → r ≠ s0 ∧ r ≠ s1) as Hfresh.
  { intros r Hr%is_node_lt. unfold s0, s1, k. lia. }
  assert (∀ d, dn = Some d ∨ dp = Some d → d ≠ s0 ∧ d ≠ s1) as Hholes'.
  { intros d Hd. apply Hfresh. by apply Hholes. }
  assert (∀ X r, slot_at h1 g1 X r ↔
            if decide (X = P) then r = s0 ∨ r = s1 else slot_at h g X r) as Hslot.
  { intros X r. case_decide as E.
    - subst X. eapply slot_at_virtual; [|exact Hvn].
      rewrite Hcells. by rewrite decide_True.
    - unfold slot_at. rewrite Hcells, decide_False by done.
      split; intros (c' & Hc' & Hr); exists c'; (split; [done|]);
        destruct (cell_at_ok _ _ _ _ _ _ Hg Hc') as [(o' & Ho' & _) _].
      + by rewrite (slots_extends h h1 c') in Hr by eauto.
      + by rewrite (slots_extends h h1 c') by eauto. }
  assert (∀ X r, X ≠ P → slot_at h g X r → is_node h r = true ∧ pt h r = X ∧ r ≠ c)
    as Hold.
  { intros X r HX Hr. destruct (slot_at_spec _ _ _ _ Hok Hg _ _ Hr) as [? ?].
    split_and!; [done..|]. intros ->. congruence. }
  assert (∀ r m, is_node h r = true → fnext h1 r = Some m →
            ∃ m0, fnext h r = Some m0 ∧ pt h1 m = pt h m0) as Hptn.
  { intros r m Hr. destruct (Hview r Hr) as (_ & _ & -> & _). case_decide as E.
    - subst r. intros [= <-]. exists c. split; [done|congruence].
    - intros Hm. exists m. split; [done|].
      by destruct (Hview m (links_next h Hok r m Hr Hm)) as (_ & -> & _). }
  assert (∀ r m, is_node h r = true → fprev h1 r = Some m →
            ∃ m0, fprev h r = Some m0 ∧ pt h1 m = pt h m0) as Hptp.
  { intros r m Hr. destruct (Hview r Hr) as (_ & _ & _ & ->). case_decide as E.
    - subst r. intros [= <-]. exists c. split; [done|congruence].
    - intros Hm. exists m. split; [done|].
      by destruct (Hview m (links_prev h Hok r m Hr Hm)) as (_ & -> & _). }
  split; [|split; [exact Hcells|exact Hslot]]. split.
  - done.
  - done.
  - intros d Hd. by apply Hview, Hholes.
  - done.
  - (* the cells *)
    intros X c0. rewrite Hcells. case_decide as E.
    + subst X. intros [= <-]. right. exists s0, s1.
      rewrite Hs0nx, Hs0pv, Hs1nx, Hs1pv. split_and!; try done.
      * unfold s0, s1. lia.
      * intros Hd. by destruct (Hholes' s0 (or_introl Hd)).
      * intros Hd. by destruct (Hholes' s0 (or_intror Hd)).
    + intros Hc0.
      destruct (Hcell X c0 Hc0)
        as [?|(a & b & Hv & Hne & Hn0 & Hp0 & Hdna & Hdpa & Hdn' & Hdp')].
      { left. by apply Hview. }
      right. exists a, b.
      destruct (proj2 Hok _ _ _ _ _ Hv) as (_ & a' & b' & [= <- <-] & Ha & Hb & _).
      destruct (Hview a Ha) as (_ & _ & Hna & Hpa).
      split_and!; try done.
      * by apply split_heap_virtual.
      * rewrite Hna. destruct (decide (a = p)); [by eexists|done].
      * rewrite Hpa. destruct (decide (a = n)); [by eexists|done].
      * intros Hd a1 b1 Ha1 Hb1.
        destruct (Hptn a a1 Ha Ha1) as (a0 & Ha0 & ->).
        destruct (Hptn b b1 Hb Hb1) as (b0 & Hb0 & ->). by apply Hdn'.
      * intros Hd a1 b1 Ha1 Hb1.
        destruct (Hptp a a1 Ha Ha1) as (a0 & Ha0 & ->).
        destruct (Hptp b b1 Hb Hb1) as (b0 & Hb0 & ->). by apply Hdp'.
  - (* next *)
    intros X r m. rewrite Hslot. case_decide as E.
    + subst X. intros [-> | ->] Hd; [|by rewrite Hs1nx].
      rewrite Hs0nx. intros [= <-]. split; [done|].
      destruct (Hview n Hnn) as (_ & Hptn' & _ & ->).
      rewrite decide_True by done. split; [done|].
      rewrite Hslot, Hptn', decide_False by done. done.
    + intros Hr Hd. destruct (Hold X r E Hr) as (Hrn & Hrp & Hrc).
      destruct (Hview r Hrn) as (_ & _ & -> & _). case_decide as Ep.
      * subst r. intros [= <-]. split.
        { intros Hd'. by destruct (Hholes' s0 (or_intror Hd')). }
        split; [done|]. rewrite Hslot, Hs0p, decide_True by done. by left.
      * intros Hm. destruct (Hnext X r m Hr Hd Hm) as (Hdm & Hpm & Hsm).
        split; [done|].
        destruct (slot_at_spec _ _ _ _ Hok Hg _ _ Hsm) as [Hmn _].
        destruct (Hview m Hmn) as (_ & -> & _ & ->).
        assert (m ≠ c) as Hmc by (intros ->; congruence).
        assert (m ≠ n) as Hmn' by (intros ->; congruence).
        rewrite decide_False by done. split; [done|].
        rewrite Hslot. rewrite decide_False; [done|].
        intros EP. rewrite EP in Hsm. by apply Hmc, (slot_at_node W H h g Hok Hg P c).
  - (* prev *)
    intros X r m. rewrite Hslot. case_decide as E.
    + subst X. intros [-> | ->] Hd; [|by rewrite Hs1pv].
      rewrite Hs0pv. intros [= <-]. split; [done|].
      destruct (Hview p Hpp) as (_ & Hptp' & -> & _).
      rewrite decide_True by done. split; [done|].
      rewrite Hslot, Hptp', decide_False by done. done.
    + intros Hr Hd. destruct (Hold X r E Hr) as (Hrn & Hrp & Hrc).
      destruct (Hview r Hrn) as (_ & _ & _ & ->). case_decide as Ep.
      * subst r. intros [= <-]. split.
        { intros Hd'. by destruct (Hholes' s0 (or_introl Hd')). }
        split; [done|]. rewrite Hslot, Hs0p, decide_True by done. by left.
      * intros Hm. destruct (Hprev X r m Hr Hd Hm) as (Hdm & Hpm & Hsm).
        split; [done|].
        destruct (slot_at_spec _ _ _ _ Hok Hg _ _ Hsm) as [Hmn _].
        destruct (Hview m Hmn) as (_ & -> & -> & _).
        assert (m ≠ c) as Hmc by (intros ->; congruence).
        assert (m ≠ p) as Hmp' by (intros ->; congruence).
        rewrite decide_False by done. split; [done|].
        rewrite Hslot. rewrite decide_False; [done|].
        intros EP. rewrite EP in Hsm. by apply Hmc, (slot_at_node W H h g Hok Hg P c).
  - (* the edges *)
    intros A B. rewrite Hedges. split.
    + intros (r & m & Hr & Hd & Hm & Hq).
      destruct (decide (A = P)) as [->|E].
      * assert (r = c) as -> by by eapply (slot_at_node W H h g).
        assert (m = n) as -> by congruence.
        exists s0, n. rewrite Hslot, decide_True by done.
        split; [by left|]. split.
        { intros Hd'. by destruct (Hholes' s0 (or_introl Hd')). }
        split; [done|]. by destruct (Hview n Hnn) as (_ & -> & _).
      * destruct (Hold A r E Hr) as (Hrn & Hrp & Hrc).
        destruct (Hview r Hrn) as (_ & _ & Hnx & _).
        destruct (decide (r = p)) as [->|Ep].
        -- exists p, s0. rewrite Hslot, decide_False by done.
           rewrite Hnx, ?decide_True by done. split_and!; try done. congruence.
        -- exists r, m. rewrite Hslot, decide_False by done.
           rewrite Hnx, ?decide_False by done. split_and!; try done.
           by destruct (Hview m (links_next h Hok r m Hrn Hm)) as (_ & -> & _).
    + intros (r & m & Hr & Hd & Hm & Hq). rewrite Hslot in Hr.
      case_decide as E.
      * subst A. destruct Hr as [-> | ->]; [|congruence].
        assert (m = n) as -> by congruence.
        exists c, n. split_and!; try done.
        by destruct (Hview n Hnn) as (_ & <- & _).
      * destruct (Hold A r E Hr) as (Hrn & Hrp & Hrc).
        destruct (Hptn r m Hrn Hm) as (m0 & Hm0 & Hpt0).
        exists r, m0. split_and!; try done. congruence.
Qed.

Lemma cur_of_holder h c d : cur_of h c d → holder h c = d ∧ is_Some (h !! c).
Proof.
  intros [[Hc <-]|(x & y & s0 & Hv)].
  - split; [by apply holder_node|]. by apply is_node_lookup.
  - split; [by eapply holder_virtual|eauto].
Qed.

Lemma cur_of_upd_next h r v c d : cur_of h c d → cur_of (upd_next h r v) c d.
Proof.
  intros [[Hc <-]|(x & y & s0 & Hv)].
  - left. by rewrite is_node_upd_next.
  - right. exists x, y, s0. by apply lookup_upd_next_virtual.
Qed.

Lemma cur_of_upd_prev h r v c d : cur_of h c d → cur_of (upd_prev h r v) c d.
Proof.
  intros [[Hc <-]|(x & y & s0 & Hv)].
  - left. by rewrite is_node_upd_prev.
  - right. exists x, y, s0. by apply lookup_upd_prev_virtual.
Qed.

Lemma cur_of_split_heap h x y n p c d :
  cur_of h c d → cur_of (split_heap h x y n p) c d.
Proof.
  intros [[Hc <-]|(x' & y' & s0 & Hv)].
  - left. split; [|done]. by apply split_heap_node.
  - right. exists x', y', s0. by apply split_heap_virtual.
Qed.

Lemma cur_of_slot h g P c d : cell_at g P = Some c → cur_of h c d → slot_at h g P d.
Proof.
  intros Hc [[Hn <-]|(x & y & s0 & Hv)]; exists c; (split; [done|]).
  - rewrite slots_node by done. left.
  - unfold slots. rewrite Hv. simpl. right. left.
Qed.

(** The node of the grid at [P] that an assignment to [cell.next] would
    write: if it has a [next] already, then it has a [prev] as well and
    is the cell itself, provided that the edges leaving [P] so far are at
    most one, and one only after an edge that enters [P]. *)
Lemma source_state W H h g es dp P c :
  graph_inv W H h g es None dp →
  cell_at g P = Some c →
  (∀ Q', es P Q' → (∃ P', es P' P) ∧ ∀ Q'', es P Q'' → Q'' = Q') →
  cur_of h c (holder h c) ∧
  (is_Some (fnext h (holder h c)) →
   is_Some (fprev h (holder h c)) ∧ is_node h c = true).
Proof.
  intros [Hok Hg Hholes Hirr Hcell Hnext Hprev Hedges] Hc Hout.
  destruct (Hcell P c Hc)
    as [Hn|(s0 & s1 & Hv & Hne & Hn0 & Hp0 & _ & Hdp0 & Hdn' & _)].
  - rewrite holder_node by done. split; [by left|]. intros [n Hfn].
    split; [|done].
    assert (slot_at h g P c) as Hs by (by eapply slot_at_node).
    assert (es P (pt h n)) as He by (apply Hedges; by exists c, n).
    destruct (Hout _ He) as [[P' (r & m & Hr & _ & Hm & Hq)%Hedges] _].
    destruct (Hnext P' r m Hr ltac:(done) Hm) as (_ & Hpm & Hsm).
    rewrite Hq in Hsm.
    assert (m = c) as -> by by eapply (slot_at_node W H h g).
    by eexists.
  - rewrite (holder_virtual _ _ _ _ _ _ Hv). split; [right; eauto|].
    intros [b Hb]. exfalso. destruct Hn0 as [a Ha].
    assert (slot_at h g P s0) as Hs0 by (eapply slot_at_virtual; eauto).
    assert (slot_at h g P s1) as Hs1 by (eapply slot_at_virtual; eauto).
    assert (es P (pt h a)) as Hea by (apply Hedges; by exists s0, a).
    assert (es P (pt h b)) as Heb by (apply Hedges; by exists s1, b).
    destruct (Hout _ Hea) as [_ Huniq].
    by apply (Hdn' ltac:(done) a b Ha Hb), eq_sym, Huniq.
Qed.

Lemma target_state W H h g es dn Q c :
  graph_inv W H h g es dn None →
  cell_at g Q = Some c →
  (∀ P', es P' Q → (∃ Q', es Q Q') ∧ ∀ P'', es P'' Q → P'' = P') →
  cur_of h c (holder h c) ∧
  (is_Some (fprev h (holder h c)) →
   is_Some (fnext h (holder h c)) ∧ is_node h c = true).
Proof.
  intros [Hok Hg Hholes Hirr Hcell Hnext Hprev Hedges] Hc Hin.
  assert (∀ r p, slot_at h g Q r → fprev h r = Some p → es (pt h p) Q) as Hpe.
  { intros r p Hr Hp. destruct (Hprev Q r p Hr ltac:(done) Hp) as (Hd & Hn & Hs).
    apply Hedges. exists p, r. split_and!; try done.
    by eapply slot_at_spec. }
  destruct (Hcell Q c Hc)
    as [Hn|(s0 & s1 & Hv & Hne & Hn0 & Hp0 & Hdn0 & _ & _ & Hdp')].
  - rewrite holder_node by done. split; [by left|]. intros [p Hfp].
    split; [|done].
    assert (slot_at h g Q c) as Hs by (by eapply slot_at_node).
    destruct (Hin _ (Hpe c p Hs Hfp)) as [[Q' (r & m & Hr & _ & Hm & Hq)%Hedges] _].
    assert (r = c) as -> by by eapply (slot_at_node W H h g).
    by eexists.
  - rewrite (holder_virtual _ _ _ _ _ _ Hv). split; [right; eauto|].
    intros [b Hb]. exfalso. destruct Hp0 as [a Ha].
    assert (slot_at h g Q s0) as Hs0 by (eapply slot_at_virtual; eauto).
    assert (slot_at h g Q s1) as Hs1 by (eapply slot_at_virtual; eauto).
    destruct (Hin _ (Hpe s0 a Hs0 Ha)) as [_ Huniq].
    by apply (Hdp' ltac:(done) a b Ha Hb), eq_sym, Huniq, (Hpe s1).
Qed.

Lemma not_fully_linked_next h d :
  bool_decide (is_Some (fprev h d)) && bool_decide (is_Some (fnext h d)) = false →
  (is_Some (fnext h d) → is_Some (fprev h d)) → fnext h d = None.
Proof.
  intros Hf Himp. destruct (fnext h d) as [n|] eqn:E; [|done].
  rewrite (bool_decide_eq_true_2 (is_Some (Some n))) in Hf by eauto.
  rewrite bool_decide_eq_true_2 in Hf by eauto. done.
Qed.

Lemma not_fully_linked_prev h d :
  bool_decide (is_Some (fprev h d)) && bool_decide (is_Some (fnext h d)) = false →
  (is_Some (fprev h d) → is_Some (fnext h d)) → fprev h d = None.
Proof.
  intros Hf Himp. destruct (fprev h d) as [n|] eqn:E; [|done].
  rewrite (bool_decide_eq_true_2 (is_Some (Some n))) in Hf by eauto.
  rewrite bool_decide_eq_true_2 in Hf by eauto. done.
Qed.

(** The first [if] block of [connect] on a graph between two calls. *)
Lemma source_block_inv W H h g es P Q c1 c2 (full1 : bool) :
  graph_inv W H h g es None None →
  cell_at g P = Some c1 → cell_at g Q = Some c2 → P ≠ Q →
  (∀ Q', es P Q' → (∃ P', es P' P) ∧ ∀ Q'', es P Q'' → Q'' = Q') →
  fully_linked h c1 = Ok full1 →
  ∃ hA gA nA d,
    (if full1 then
       '(h, vn) ← make_virtual h c1;
       tgt ← real_of h c2;
       h ← set_next h vn tgt;
       node_1 ← current h vn;
       node_1 ← not_None node_1;
       y ← get_y h node_1;
       x ← get_x h node_1;
       g ← data_set g y x vn;
       Ok (h, g, node_1)
     else Ok (h, g, c1)) = Ok (hA, gA, nA) ∧
    graph_inv W H hA gA es (Some d) None ∧
    slot_at hA gA P d ∧ cur_of hA nA d ∧ cell_at gA Q = Some c2.
Proof.
  intros Hinv Hc1 Hc2 HPQ Hout Hfull.
  destruct (source_state W H h g es None P c1 Hinv Hc1 Hout) as [Hcur Himp].
  pose proof Hinv as [Hok Hg Hholes Hirr Hcell Hnext Hprev Hedges].
  destruct (cell_at_ok _ _ _ _ _ _ Hg Hc1) as [(o1 & Ho1 & Hp1) [HxP HyP]].
  destruct (cell_at_ok _ _ _ _ _ _ Hg Hc2) as [(o2 & Ho2 & Hp2) _].
  rewrite (fully_linked_ok h Hok c1 o1 Ho1) in Hfull. injection Hfull as Hfull.
  destruct (holder_spec h Hok c1 o1 Ho1) as (Hd0 & _ & _).
  destruct full1.
  2: { exists h, g, c1, (holder h c1). split; [done|]. split_and!; try done.
       - apply graph_inv_open_next; [done..|].
         apply not_fully_linked_next; [done|]. intros Hn. by apply Himp.
       - by eapply cur_of_slot. }
  symmetry in Hfull. apply andb_true_eq in Hfull as [Hfp Hfn].
  symmetry in Hfp, Hfn.
  apply bool_decide_eq_true in Hfp as [p Hfp], Hfn as [n Hfn].
  destruct (Himp ltac:(eauto)) as [_ Hn1].
  rewrite holder_node in * by done.
  pose proof (links_prev h Hok _ _ Hn1 Hfp) as Hpn.
  pose proof (links_next h Hok _ _ Hn1 Hfn) as Hnn.
  assert (h !! c1 = Some (Node2D (px P) (py P) (Some n) (Some p))) as Hobj.
  { destruct (is_node_Some _ _ Hn1) as (x & y & n' & p' & E).
    unfold fnext in Hfn. unfold fprev in Hfp. rewrite E in Hfn, Hfp, Ho1.
    injection Ho1 as <-. simpl in Hp1. subst. done. }
  rewrite (make_virtual_linked h c1 p n (px P) (py P) Hobj Hpn Hnn).
  fold (split_heap h (px P) (py P) n p). cbn [mbind result_bind].
  set (k := length h). set (h1 := split_heap h (px P) (py P) n p).
  destruct (cell_at_data_set h g W H P k Hg HxP HyP) as (g1 & Hset & _).
  destruct (graph_inv_split W H h g es None None P c1 n p g1 Hinv Hc1 Hn1 Hfn Hfp
              ltac:(done) ltac:(done) Hset) as (Hinv1 & Hcells & Hslot).
  fold k h1 in Hinv1, Hcells, Hslot.
  destruct (split_heap_fresh h (px P) (py P) n p) as (Hvn & Hs0 & Hs1).
  fold k h1 in Hvn, Hs0, Hs1.
  pose proof (gi_links _ _ _ _ _ _ _ Hinv1) as Hok1.
  destruct (split_heap_extends h (px P) (py P) n p _ _ Ho2) as (o2' & Ho2' & _).
  fold h1 in Ho2'.
  rewrite (real_of_ok h1 Hok1 c2 o2') by done. cbn [mbind result_bind].
  rewrite (set_next_ok h1 Hok1 _ _ _ Hvn). cbn [mbind result_bind].
  rewrite (holder_virtual _ _ _ _ _ _ Hvn).
  destruct (holder_spec h1 Hok1 c2 o2' Ho2') as (Hx & _ & _).
  assert (is_node h1 (k + 2)%nat = true) as Hs1n.
  { unfold is_node. by rewrite Hs1. }
  assert (fnext h1 (k + 2)%nat = None) as Hs1x.
  { unfold fnext. by rewrite Hs1. }
  pose proof (graph_inv_dangling_next _ _ _ _ _ _ _ _
                (graph_inv_open_next _ _ _ _ _ _ _ Hinv1 Hs1n Hs1x) Hx) as Hinv2.
  set (h2 := upd_next h1 (k + 2)%nat (Some (holder h1 c2))) in *.
  pose proof (gi_links _ _ _ _ _ _ _ Hinv2) as Hok2.
  assert (h2 !! k = Some (VirtualNode2D (px P) (py P)
                            (Some (k + 1)%nat, Some (k + 2)%nat) 1)) as Hvn2.
  { unfold h2. by apply lookup_upd_next_virtual. }
  rewrite (current_ok h2 Hok2 _ _ _ _ _ Hvn2). cbn [mbind result_bind not_None].
  rewrite (holder_virtual _ _ _ _ _ _ Hvn2).
  assert (is_node h2 (k + 2)%nat = true) as Hs2n.
  { unfold h2. by rewrite is_node_upd_next. }
  assert (pt h2 (k + 2)%nat = P) as Hs2p.
  { unfold h2. rewrite pt_upd_next. unfold pt. rewrite Hs1. by destruct P. }
  unfold get_y, get_x. rewrite get_point_node, Hs2p by done.
  cbn [mbind result_bind]. rewrite Hset. cbn [mbind result_bind].
  exists h2, g1, (k + 2)%nat, (k + 2)%nat. split; [done|]. split_and!.
  - done.
  - unfold h2. rewrite slot_at_upd_next, Hslot, decide_True by done. by right.
  - by left.
  - by rewrite Hcells, decide_False.
Qed.

(** The second [if] block of [connect]. *)
Lemma target_block_inv W H h g es P Q nA c2 d (full2 : bool) :
  graph_inv W H h g es (Some d) None →
  slot_at h g P d → cur_of h nA d →
  cell_at g Q = Some c2 → P ≠ Q →
  (∀ P', es P' Q → (∃ Q', es Q Q') ∧ ∀ P'', es P'' Q → P'' = P') →
  fully_linked h c2 = Ok full2 →
  ∃ hB gB nB d',
    (if full2 then
       '(h, vn) ← make_virtual h c2;
       src ← real_of h nA;
       h ← set_prev h vn src;
       node_2 ← current h vn;
       node_2 ← not_None node_2;
       y ← get_y h node_2;
       x ← get_x h node_2;
       g ← data_set g y x vn;
       Ok (h, g, node_2)
     else Ok (h, g, c2)) = Ok (hB, gB, nB) ∧
    graph_inv W H hB gB es (Some d) (Some d') ∧
    slot_at hB gB P d ∧ slot_at hB gB Q d' ∧ cur_of hB nA d ∧ cur_of hB nB d'.
Proof.
  intros Hinv Hd HnA Hc2 HPQ Hin Hfull.
  destruct (target_state W H h g es (Some d) Q c2 Hinv Hc2 Hin) as [Hcur Himp].
  pose proof Hinv as [Hok Hg Hholes Hirr Hcell Hnext Hprev Hedges].
  destruct (cell_at_ok _ _ _ _ _ _ Hg Hc2) as [(o2 & Ho2 & Hp2) [HxQ HyQ]].
  rewrite (fully_linked_ok h Hok c2 o2 Ho2) in Hfull. injection Hfull as Hfull.
  destruct (holder_spec h Hok c2 o2 Ho2) as (Hd0 & _ & _).
  destruct full2.
  2: { exists h, g, c2, (holder h c2). split; [done|]. split_and!; try done.
       - apply graph_inv_open_prev; [done..|].
         apply not_fully_linked_prev; [done|]. intros Hn. by apply Himp.
       - by eapply cur_of_slot. }
  symmetry in Hfull. apply andb_true_eq in Hfull as [Hfp Hfn].
  symmetry in Hfp, Hfn.
  apply bool_decide_eq_true in Hfp as [p Hfp], Hfn as [n Hfn].
  destruct (Himp ltac:(eauto)) as [_ Hn2].
  rewrite holder_node in * by done.
  pose proof (links_prev h Hok _ _ Hn2 Hfp) as Hpn.
  pose proof (links_next h Hok _ _ Hn2 Hfn) as Hnn.
  assert (h !! c2 = Some (Node2D (px Q) (py Q) (Some n) (Some p))) as Hobj.
  { destruct (is_node_Some _ _ Hn2) as (x & y & n' & p' & E).
    unfold fnext in Hfn. unfold fprev in Hfp. rewrite E in Hfn, Hfp, Ho2.
    injection Ho2 as <-. simpl in Hp2. subst. done. }
  assert (d ≠ c2) as Hdc.
  { intros ->. apply HPQ. eapply (slot_at_point W H h g); [done..|].
    by eapply slot_at_node. }
  rewrite (make_virtual_linked h c2 p n (px Q) (py Q) Hobj Hpn Hnn).
  fold (split_heap h (px Q) (py Q) n p). cbn [mbind result_bind].
  set (k := length h). set (h1 := split_heap h (px Q) (py Q) n p).
  destruct (cell_at_data_set h g W H Q k Hg HxQ HyQ) as (g1 & Hset & _).
  destruct (graph_inv_split W H h g es (Some d) None Q c2 n p g1 Hinv Hc2 Hn2 Hfn Hfp
              ltac:(congruence) ltac:(done) Hset) as (Hinv1 & Hcells & Hslot).
  fold k h1 in Hinv1, Hcells, Hslot.
  destruct (split_heap_fresh h (px Q) (py Q) n p) as (Hvn & Hs0 & Hs1).
  fold k h1 in Hvn, Hs0, Hs1.
  pose proof (gi_links _ _ _ _ _ _ _ Hinv1) as Hok1.
  pose proof (cur_of_split_heap h (px Q) (py Q) n p _ _ HnA) as HnA1.
  fold h1 in HnA1.
  destruct (cur_of_holder _ _ _ HnA1) as [HhA [oA HoA]].
  rewrite (real_of_ok h1 Hok1 nA oA) by done. cbn [mbind result_bind].
  rewrite (set_prev_ok h1 Hok1 _ _ _ Hvn). cbn [mbind result_bind].
  rewrite (holder_virtual _ _ _ _ _ _ Hvn), HhA.
  assert (is_node h1 d = true) as Hx.
  { apply (gi_holes _ _ _ _ _ _ _ Hinv1). by left. }
  assert (is_node h1 (k + 2)%nat = true) as Hs1n.
  { unfold is_node. by rewrite Hs1. }
  assert (fprev h1 (k + 2)%nat = None) as Hs1x.
  { unfold fprev. by rewrite Hs1. }
  pose proof (graph_inv_dangling_prev _ _ _ _ _ _ _ _
                (graph_inv_open_prev _ _ _ _ _ _ _ Hinv1 Hs1n Hs1x) Hx) as Hinv2.
  set (h2 := upd_prev h1 (k + 2)%nat (Some d)) in *.
  pose proof (gi_links _ _ _ _ _ _ _ Hinv2) as Hok2.
  assert (h2 !! k = Some (VirtualNode2D (px Q) (py Q)
                            (Some (k + 1)%nat, Some (k + 2)%nat) 1)) as Hvn2.
  { unfold h2. by apply lookup_upd_prev_virtual. }
  rewrite (current_ok h2 Hok2 _ _ _ _ _ Hvn2). cbn [mbind result_bind not_None].
  rewrite (holder_virtual _ _ _ _ _ _ Hvn2).
  assert (is_node h2 (k + 2)%nat = true) as Hs2n.
  { unfold h2. by rewrite is_node_upd_prev. }
  assert (pt h2 (k + 2)%nat = Q) as Hs2p.
  { unfold h2. rewrite pt_upd_prev. unfold pt. rewrite Hs1. by destruct Q. }
  unfold get_y, get_x. rewrite get_point_node, Hs2p by done.
  cbn [mbind result_bind]. rewrite Hset. cbn [mbind result_bind].
  exists h2, g1, (k + 2)%nat, (k + 2)%nat. split; [done|]. split_and!.
  - done.
  - unfold h2. rewrite slot_at_upd_prev, Hslot, decide_False by done. done.
  - unfold h2. rewrite slot_at_upd_prev, Hslot, decide_True by done. by right.
  - unfold h2. by apply cur_of_upd_prev.
  - by left.
Qed.

(** [connect] between two calls: it returns and adds the edge from [P]
    to [Q], when [P] has at most one edge leaving it, and that only
    together with one entering it, and [Q] has at most one edge entering
    it, and that only together with one leaving it. *)
Lemma connect_inv W H h g es P Q c1 c2 :
  graph_inv W H h g es None None →
  cell_at g P = Some c1 → cell_at g Q = Some c2 → P ≠ Q → ¬ es P Q →
  (∀ Q', es P Q' → (∃ P', es P' P) ∧ ∀ Q'', es P Q'' → Q'' = Q') →
  (∀ P', es P' Q → (∃ Q', es Q Q') ∧ ∀ P'', es P'' Q → P'' = P') →
  ∃ h' g', connect h g c1 c2 = Ok (h', g') ∧
    graph_inv W H h' g' (λ A B, es A B ∨ (A = P ∧ B = Q)) None None.
Proof.
  intros Hinv Hc1 Hc2 HPQ HnPQ Hout Hin. unfold connect.
  pose proof (gi_links _ _ _ _ _ _ _ Hinv) as Hok.
  pose proof (gi_grid _ _ _ _ _ _ _ Hinv) as Hg.
  destruct (cell_at_ok _ _ _ _ _ _ Hg Hc1) as [(o1 & Ho1 & _) _].
  rewrite (fully_linked_ok h Hok c1 o1 Ho1). cbn [mbind result_bind].
  destruct (source_block_inv W H h g es P Q c1 c2 _ Hinv Hc1 Hc2 HPQ Hout
              (fully_linked_ok h Hok c1 o1 Ho1))
    as (hA & gA & nA & d & -> & HinvA & HdA & HnA & Hc2A).
  cbn [mbind result_bind].
  pose proof (gi_links _ _ _ _ _ _ _ HinvA) as HokA.
  pose proof (gi_grid _ _ _ _ _ _ _ HinvA) as HgA.
  destruct (cell_at_ok _ _ _ _ _ _ HgA Hc2A) as [(o2 & Ho2 & _) _].
  rewrite (fully_linked_ok hA HokA c2 o2 Ho2). cbn [mbind result_bind].
  destruct (target_block_inv W H hA gA es P Q nA c2 d _ HinvA HdA HnA Hc2A HPQ Hin
              (fully_linked_ok hA HokA c2 o2 Ho2))
    as (hB & gB & nB & d' & -> & HinvB & HdB & HdB' & HnAB & HnBB).
  cbn [mbind result_bind].
  pose proof (gi_links _ _ _ _ _ _ _ HinvB) as HokB.
  destruct (cur_of_holder _ _ _ HnAB) as [HhA [oA HoA]].
  destruct (cur_of_holder _ _ _ HnBB) as [HhB [oB HoB]].
  rewrite (real_of_ok hB HokB nB oB) by done. cbn [mbind result_bind].
  rewrite (set_next_ok hB HokB nA oA) by done. cbn [mbind result_bind].
  rewrite HhA, HhB.
  set (h3 := upd_next hB d (Some d')).
  assert (links_ok h3) as Hok3.
  { apply links_ok_upd_next; [done|]. intros c [= <-].
    apply (gi_holes _ _ _ _ _ _ _ HinvB). by right. }
  destruct (cur_of_holder _ _ _ (cur_of_upd_next hB d (Some d') _ _ HnAB))
    as [HhA3 [oA3 HoA3]].
  destruct (cur_of_holder _ _ _ (cur_of_upd_next hB d (Some d') _ _ HnBB))
    as [HhB3 [oB3 HoB3]].
  fold h3 in HhA3, HoA3, HhB3, HoB3.
  rewrite (real_of_ok h3 Hok3 nA oA3) by done. cbn [mbind result_bind].
  rewrite (set_prev_ok h3 Hok3 nB oB3) by done. cbn [mbind result_bind].
  rewrite HhA3, HhB3.
  eexists _, _. split; [done|]. by apply graph_inv_link.
Qed.

(** *** The order of the calls *)

(** A call of [all_calls]: the pixel has the value 1 and the neighbour
    across the side is 0 or out of bounds. *)
Lemma all_calls_inv bm c1 c2 x y :
  (c1, c2, x, y) ∈ all_calls bm →
  pixel_at bm x y = Some 1 ∧
  0 <= x < Z.of_nat (ncols bm) ∧ 0 <= y < Z.of_nat (nrows bm) ∧
  match c1 with
  | TL => c2 = TR ∧ in_0_None (pixel_at bm x (y - 1)) = true
  | TR => c2 = BR ∧ in_0_None (pixel_at bm (x + 1) y) = true
  | BR => c2 = BL ∧ in_0_None (pixel_at bm x (y + 1)) = true
  | BL => c2 = TL ∧ in_0_None (pixel_at bm (x - 1) y) = true
  end.
Proof.
  intros (Hx & Hy & Hin)%elem_of_all_calls.
  pose proof (elem_of_pixel_calls _ _ _ _ _ _ _ Hin) as (_ & _ & Hv).
  split; [done|]. split; [done|]. split; [done|].
  apply elem_of_pixel_calls_1 in Hin; [|done].
  destruct Hin as [(-> & -> & ?)|[(-> & -> & ?)|[(-> & -> & ?)|(-> & -> & ?)]]];
    done.
Qed.

Lemma all_calls_intro bm c1 c2 x y :
  pixel_at bm x y = Some 1 →
  match c1 with
  | TL => c2 = TR ∧ in_0_None (pixel_at bm x (y - 1)) = true
  | TR => c2 = BR ∧ in_0_None (pixel_at bm (x + 1) y) = true
  | BR => c2 = BL ∧ in_0_None (pixel_at bm x (y + 1)) = true
  | BL => c2 = TL ∧ in_0_None (pixel_at bm (x - 1) y) = true
  end →
  (c1, c2, x, y) ∈ all_calls bm.
Proof.
  intros Hv Hc. destruct (pixel_at_Some_range _ _ _ _ Hv) as [Hx Hy].
  apply elem_of_all_calls. split; [done|]. split; [done|].
  apply elem_of_pixel_calls_1; [done|].
  destruct c1; destruct Hc as [-> ?]; tauto.
Qed.

Lemma call_time_inj W c x y c' x' y' :
  0 <= x < Z.of_nat W → 0 <= x' < Z.of_nat W →
  call_time W c x y = call_time W c' x' y' → c = c' ∧ x = x' ∧ y = y'.
Proof.
  intros Hx Hx' Ht. unfold call_time in Ht.
  assert (y = y') as ->.
  { destruct (Z.lt_trichotomy y y') as [Hlt|[E|Hlt]]; [exfalso|done|exfalso].
    - assert (y * Z.of_nat W + Z.of_nat W <= y' * Z.of_nat W) by nia.
      destruct c, c'; lia.
    - assert (y' * Z.of_nat W + Z.of_nat W <= y * Z.of_nat W) by nia.
      destruct c, c'; lia. }
  destruct c, c'; (split; [done || (exfalso; lia)|lia]).
Qed.

Lemma call_time_pixel W c x y x' y' :
  0 <= x < Z.of_nat W → 0 <= x' < Z.of_nat W →
  4 * (y * Z.of_nat W + x) <= call_time W c x' y' < 4 * (y * Z.of_nat W + x) + 4 →
  x' = x ∧ y' = y.
Proof.
  intros Hx Hx' Ht. unfold call_time in Ht.
  assert (y' = y) as ->.
  { destruct (Z.lt_trichotomy y y') as [Hlt|[E|Hlt]]; [exfalso|done|exfalso].
    - assert (y * Z.of_nat W + Z.of_nat W <= y' * Z.of_nat W) by nia.
      destruct c; lia.
    - assert (y' * Z.of_nat W + Z.of_nat W <= y * Z.of_nat W) by nia.
      destruct c; lia. }
  split; [|done]. destruct c; lia.
Qed.

Lemma edges_before_le bm t t' P Q :
  t <= t' → edges_before bm t P Q → edges_before bm t' P Q.
Proof.
  intros Hle (c1 & c2 & x & y & Hin & Ht & HP & HQ).
  exists c1, c2, x, y. split_and!; [done|lia|done..].
Qed.

(** The edges before the next call: those before this call, and the
    edge of this call if it is made. *)
Lemma edges_before_succ bm c1 c2 x y P Q :
  (c1, c2, x, y) ∈ all_calls bm →
  edges_before bm (call_time (ncols bm) c1 x y + 1) P Q ↔
  edges_before bm (call_time (ncols bm) c1 x y) P Q ∨
  (P = corner_point c1 x y ∧ Q = corner_point c2 x y).
Proof.
  intros Hin. destruct (all_calls_inv _ _ _ _ _ Hin) as (_ & Hx & _ & Hc).
  split.
  - intros (a1 & a2 & x' & y' & Hin' & Ht & HP & HQ).
    destruct (decide (call_time (ncols bm) a1 x' y' = call_time (ncols bm) c1 x y))
      as [E|Hne].
    + right. destruct (all_calls_inv _ _ _ _ _ Hin') as (_ & Hx' & _ & Hc').
      apply call_time_inj in E as (-> & -> & ->); [|done..].
      assert (a2 = c2) as -> by (destruct c1; destruct Hc, Hc'; congruence).
      done.
    + left. exists a1, a2, x', y'. split_and!; [done|lia|done..].
  - intros [He|[-> ->]].
    + eapply edges_before_le; [|done]. lia.
    + exists c1, c2, x, y. split_and!; [done|lia|done..].
Qed.

(** No call for a side that is not on the border of the shape. *)
Lemma edges_before_skip bm t t' P Q :
  t <= t' →
  (∀ c1 c2 x y, (c1, c2, x, y) ∈ all_calls bm →
     ¬ t <= call_time (ncols bm) c1 x y < t') →
  edges_before bm t' P Q ↔ edges_before bm t P Q.
Proof.
  intros Hle Hnone. split; [|by apply edges_before_le].
  intros (c1 & c2 & x & y & Hin & Ht & HP & HQ).
  exists c1, c2, x, y. split_and!; [done| |done..].
  specialize (Hnone _ _ _ _ Hin). lia.
Qed.

(** *** The calls that meet at a lattice point *)

(** A pixel of value 1 is not 0 or out of bounds. *)
Ltac pixel_clash :=
  match goal with
  | H1 : pixel_at ?bm ?a ?b = Some 1,
    H2 : in_0_None (pixel_at ?bm ?c ?d) = true |- _ =>
      exfalso; replace c with a in H2 by lia; replace d with b in H2 by lia;
      rewrite H1 in H2; discriminate H2
  end.

(** The pixel of another call at the same lattice point lies next to the
    pixel of this call. *)
Ltac place_pixel x y x1 y1 :=
  first [assert (x1 = x) by lia | assert (x1 = x + 1) by lia
        | assert (x1 = x - 1) by lia];
  first [assert (y1 = y) by lia | assert (y1 = y + 1) by lia
        | assert (y1 = y - 1) by lia];
  subst x1 y1.

Ltac other_call H x y :=
  let a1 := fresh "a" in let a2 := fresh "a" in
  let x1 := fresh "x" in let y1 := fresh "y" in
  let Hin := fresh "Hin" in let Ht := fresh "Ht" in
  let HP := fresh "HP" in let HQ := fresh "HQ" in
  let Hv := fresh "Hv" in let Hx := fresh "Hx" in let Hy := fresh "Hy" in
  let Hc := fresh "Hc" in let Ex := fresh "Ex" in let Ey := fresh "Ey" in
  destruct H as (a1 & a2 & x1 & y1 & Hin & Ht & HP & HQ);
  destruct (all_calls_inv _ _ _ _ _ Hin) as (Hv & Hx & Hy & Hc);
  unfold call_time in Ht;
  destruct a1; destruct Hc as [-> Hc]; simpl in HP, HQ;
  first [injection HP as Ex Ey|injection HQ as Ex Ey];
  place_pixel x y x1 y1;
  try (exfalso; lia); try pixel_clash.

Lemma edges_before_out bm c1 c2 x y Q' :
  (c1, c2, x, y) ∈ all_calls bm →
  edges_before bm (call_time (ncols bm) c1 x y) (corner_point c1 x y) Q' →
  (∃ P', edges_before bm (call_time (ncols bm) c1 x y) P' (corner_point c1 x y)) ∧
  ∀ Q'', edges_before bm (call_time (ncols bm) c1 x y) (corner_point c1 x y) Q'' →
         Q'' = Q'.
Proof.
  intros Hin H1.
  destruct (all_calls_inv _ _ _ _ _ Hin) as (Hv & Hx & Hy & Hc).
  destruct c1; destruct Hc as [-> Hc]; simpl in H1 |- *;
    other_call H1 x y.
  - (* the top side, after the bottom side of the pixel up left *)
    subst Q'. split.
    + exists (corner_point TR (x - 1) (y - 1)), TR, BR, (x - 1), (y - 1).
      split_and!; [|unfold call_time; lia|done|simpl; f_equal; lia].
      apply all_calls_intro; [done|]. split; [done|].
      by replace (x - 1 + 1) with x by lia.
    + intros Q'' H2. other_call H2 x y. subst Q''. done.
  - (* the right side, after the left side of the pixel up right *)
    subst Q'. split.
    + exists (corner_point BR (x + 1) (y - 1)), BR, BL, (x + 1), (y - 1).
      split_and!; [|unfold call_time; lia|done|simpl; f_equal; lia].
      apply all_calls_intro; [done|]. split; [done|].
      by replace (y - 1 + 1) with y by lia.
    + intros Q'' H2. other_call H2 x y. subst Q''. done.
Qed.

Lemma edges_before_in bm c1 c2 x y P' :
  (c1, c2, x, y) ∈ all_calls bm →
  edges_before bm (call_time (ncols bm) c1 x y) P' (corner_point c2 x y) →
  (∃ Q', edges_before bm (call_time (ncols bm) c1 x y) (corner_point c2 x y) Q') ∧
  ∀ P'', edges_before bm (call_time (ncols bm) c1 x y) P'' (corner_point c2 x y) →
         P'' = P'.
Proof.
  intros Hin H1.
  destruct (all_calls_inv _ _ _ _ _ Hin) as (Hv & Hx & Hy & Hc).
  destruct c1; destruct Hc as [-> Hc]; simpl in H1 |- *;
    other_call H1 x y.
  - (* the top side, after the bottom side of the pixel up right *)
    subst P'. split.
    + exists (corner_point TL (x + 1) (y - 1)), BL, TL, (x + 1), (y - 1).
      split_and!; [|unfold call_time; lia|simpl; f_equal; lia|done].
      apply all_calls_intro; [done|]. split; [done|].
      by replace (x + 1 - 1) with x by lia.
    + intros P'' H2. other_call H2 x y. subst P''. done.
  - (* the left side, after the right side of the pixel up left *)
    subst P'. split.
    + exists (corner_point BL (x - 1) (y - 1)), BR, BL, (x - 1), (y - 1).
      split_and!; [|unfold call_time; lia|simpl; f_equal; lia|done].
      apply all_calls_intro; [done|]. split; [done|].
      by replace (y - 1 + 1) with y by lia.
    + intros P'' H2. other_call H2 x y. subst P''. done.
Qed.

Lemma edges_before_irrefl bm t P : ¬ edges_before bm t P P.
Proof.
  intros (c1 & c2 & x & y & Hin & _ & HP & HQ).
  destruct (all_calls_inv _ _ _ _ _ Hin) as (_ & _ & _ & Hc).
  destruct c1; destruct Hc as [-> _]; simpl in *; simplify_eq; lia.
Qed.

Lemma edges_before_fresh bm c1 c2 x y :
  (c1, c2, x, y) ∈ all_calls bm →
  ¬ edges_before bm (call_time (ncols bm) c1 x y)
      (corner_point c1 x y) (corner_point c2 x y).
Proof.
  intros Hin H1.
  destruct (all_calls_inv _ _ _ _ _ Hin) as (Hv & Hx & Hy & Hc).
  destruct H1 as (a1 & a2 & x1 & y1 & Hin1 & Ht & HP & HQ).
  destruct (all_calls_inv _ _ _ _ _ Hin1) as (Hv1 & Hx1 & Hy1 & Hc1).
  unfold call_time in Ht.
  destruct c1, a1; destruct Hc as [-> Hc], Hc1 as [-> Hc1]; simpl in *;
    simplify_eq; lia.
Qed.

(** *** The run of [trace_bitmask] *)

Lemma fresh_graph_inv W H :
  let hg := NodeGrid2D_init [] W H in
  graph_inv W H hg.1 hg.2 (λ _ _, False) None None.
Proof.
  pose proof (fresh_grid_ok W H) as Hfresh. revert Hfresh.
  unfold NodeGrid2D_init.
  destruct (alloc_rows [] W 0 H) as [h d] eqn:Hd. simpl. intros [Hok Hg].
  assert (∀ r o, h !! r = Some o → ∃ a b, o = Node2D a b None None) as Hnode.
  { intros r o Hr.
    by destruct (alloc_rows_fresh _ _ _ _ _ _ Hd r o Hr) as [?|?]. }
  assert (∀ r, fnext h r = None) as Hfn.
  { intros r. unfold fnext. destruct (h !! r) as [o|] eqn:E; [|done].
    by destruct (Hnode r o E) as (a & b & ->). }
  assert (∀ r, fprev h r = None) as Hfp.
  { intros r. unfold fprev. destruct (h !! r) as [o|] eqn:E; [|done].
    by destruct (Hnode r o E) as (a & b & ->). }
  split.
  - done.
  - done.
  - intros d0 [?|?]; done.
  - intros P [].
  - intros P c Hc. left.
    destruct (cell_at_ok _ _ _ _ _ _ Hg Hc) as [(o & Ho & _) _].
    destruct (Hnode c o Ho) as (a & b & ->). unfold is_node. by rewrite Ho.
  - intros P r n _ _. by rewrite Hfn.
  - intros P r p _ _. by rewrite Hfp.
  - intros P Q. split; [done|]. intros (r & n & _ & _ & Hn & _).
    by rewrite Hfn in Hn.
Qed.

Lemma corner_of_cell h g W H c x y :
  grid_ok h g (W + 1) (H + 1) →
  0 <= x < Z.of_nat W → 0 <= y < Z.of_nat H →
  ∃ r, corner_of g c x y = Ok r ∧ cell_at g (corner_point c x y) = Some r.
Proof.
  intros Hg Hx Hy.
  destruct c; simpl; unfold top_left_of, top_right_of, bottom_right_of,
    bottom_left_of; eapply cell_at_data_get; eauto; lia.
Qed.

Lemma corner_point_side c x y : corner_point c x y ≠ corner_point (side_end c) x y.
Proof. destruct c; simpl; intros [=]; lia. Qed.

Lemma all_calls_side bm c1 c2 x y :
  (c1, c2, x, y) ∈ all_calls bm → c2 = side_end c1.
Proof.
  intros (_ & _ & _ & Hc)%all_calls_inv. by destruct c1; destruct Hc as [-> _].
Qed.

(** One side of a pixel of value 1. *)
Lemma trace_side bm h g c x y (cond : bool) :
  0 <= x < Z.of_nat (ncols bm) → 0 <= y < Z.of_nat (nrows bm) →
  (cond = true ↔ (c, side_end c, x, y) ∈ all_calls bm) →
  graph_inv (ncols bm + 1) (nrows bm + 1) h g
    (edges_before bm (call_time (ncols bm) c x y)) None None →
  ∃ h' g',
    (if cond then grid_connect (h, g) c (side_end c) x y else Ok (h, g))
    = Ok (h', g') ∧
    graph_inv (ncols bm + 1) (nrows bm + 1) h' g'
      (edges_before bm (call_time (ncols bm) c x y + 1)) None None.
Proof.
  intros Hx Hy Hcond Hinv. destruct cond.
  - assert ((c, side_end c, x, y) ∈ all_calls bm) as Hin by by apply Hcond.
    pose proof (gi_grid _ _ _ _ _ _ _ Hinv) as Hg.
    unfold grid_connect.
    destruct (corner_of_cell h g _ _ c x y Hg Hx Hy) as (n1 & -> & Hn1).
    destruct (corner_of_cell h g _ _ (side_end c) x y Hg Hx Hy) as (n2 & -> & Hn2).
    cbn [mbind result_bind].
    destruct (connect_inv _ _ h g _ _ _ n1 n2 Hinv Hn1 Hn2
                (corner_point_side c x y) (edges_before_fresh bm _ _ _ _ Hin))
      as (h' & g' & -> & Hinv').
    + intros Q'. exact (edges_before_out bm c (side_end c) x y Q' Hin).
    + intros P'. exact (edges_before_in bm c (side_end c) x y P' Hin).
    + exists h', g'. split; [done|].
      eapply graph_inv_edges; [|exact Hinv']. intros P Q. simpl.
      symmetry. by apply edges_before_succ.
  - exists h, g. split; [done|].
    eapply graph_inv_edges; [|exact Hinv]. intros P Q. symmetry.
    apply edges_before_skip; [lia|].
    intros a1 a2 x1 y1 Hin Ht.
    assert (call_time (ncols bm) a1 x1 y1 = call_time (ncols bm) c x y) as E by lia.
    pose proof (all_calls_side _ _ _ _ _ Hin) as ->.
    destruct (all_calls_inv _ _ _ _ _ Hin) as (_ & Hx1 & _ & _).
    apply call_time_inj in E as (-> & -> & ->); [|done..].
    by apply Hcond in Hin.
Qed.

Lemma trace_pixel_inv bm h g x y :
  wf_ndarray bm →
  0 <= x < Z.of_nat (ncols bm) → 0 <= y < Z.of_nat (nrows bm) →
  graph_inv (ncols bm + 1) (nrows bm + 1) h g
    (edges_before bm (4 * (y * Z.of_nat (ncols bm) + x))) None None →
  ∃ h' g', trace_pixel grid_connect bm y (h, g) x = Ok (h', g') ∧
    graph_inv (ncols bm + 1) (nrows bm + 1) h' g'
      (edges_before bm (4 * (y * Z.of_nat (ncols bm) + (x + 1)))) None None.
Proof.
  intros Hbm Hx Hy Hinv. unfold trace_pixel.
  destruct (np_get_pixel_at bm x y Hbm Hx Hy) as (v & -> & Hv).
  cbn [mbind result_bind]. destruct (v =? 1) eqn:Ev.
  2: { exists h, g. split; [done|].
       eapply graph_inv_edges; [|exact Hinv]. intros P Q. symmetry.
       apply edges_before_skip; [lia|].
       intros a1 a2 x1 y1 Hin Ht.
       destruct (all_calls_inv _ _ _ _ _ Hin) as (Hv1 & Hx1 & _ & _).
       destruct (call_time_pixel (ncols bm) a1 x y x1 y1) as [-> ->];
         [done|done|lia|].
       apply Z.eqb_neq in Ev. congruence. }
  apply Z.eqb_eq in Ev as ->.
  rewrite np_neumann_neighbors_pixel_at by done.
  cbn [mbind result_bind top right bottom left].
  assert (∀ c, match c with
               | TL => in_0_None (pixel_at bm x (y - 1))
               | TR => in_0_None (pixel_at bm (x + 1) y)
               | BR => in_0_None (pixel_at bm x (y + 1))
               | BL => in_0_None (pixel_at bm (x - 1) y)
               end = true ↔ (c, side_end c, x, y) ∈ all_calls bm) as Hcond.
  { intros c. split.
    - intros Hc. apply all_calls_intro; [done|]. by destruct c.
    - intros (_ & _ & _ & Hc)%all_calls_inv. by destruct c; destruct Hc. }
  replace (4 * (y * Z.of_nat (ncols bm) + x))
    with (call_time (ncols bm) TL x y) in Hinv by (unfold call_time; lia).
  destruct (trace_side bm h g TL x y _ Hx Hy (Hcond TL) Hinv)
    as (h1 & g1 & E1 & Hinv1).
  cbn [side_end] in E1. rewrite E1. cbn [mbind result_bind].
  replace (call_time (ncols bm) TL x y + 1)
    with (call_time (ncols bm) TR x y) in Hinv1 by (unfold call_time; lia).
  destruct (trace_side bm h1 g1 TR x y _ Hx Hy (Hcond TR) Hinv1)
    as (h2 & g2 & E2 & Hinv2).
  cbn [side_end] in E2. rewrite E2. cbn [mbind result_bind].
  replace (call_time (ncols bm) TR x y + 1)
    with (call_time (ncols bm) BR x y) in Hinv2 by (unfold call_time; lia).
  destruct (trace_side bm h2 g2 BR x y _ Hx Hy (Hcond BR) Hinv2)
    as (h3 & g3 & E3 & Hinv3).
  cbn [side_end] in E3. rewrite E3. cbn [mbind result_bind].
  replace (call_time (ncols bm) BR x y + 1)
    with (call_time (ncols bm) BL x y) in Hinv3 by (unfold call_time; lia).
  destruct (trace_side bm h3 g3 BL x y _ Hx Hy (Hcond BL) Hinv3)
    as (h4 & g4 & E4 & Hinv4).
  cbn [side_end] in E4. rewrite E4. cbn [mbind result_bind].
  replace (call_time (ncols bm) BL x y + 1)
    with (4 * (y * Z.of_nat (ncols bm) + (x + 1))) in Hinv4
    by (unfold call_time; lia).
  by exists h4, g4.
Qed.

(** The whole run: [trace_bitmask] returns, and the edges of the graph
    are those of the calls. *)
Lemma trace_bitmask_inv bm :
  wf_ndarray bm →
  ∃ h g, trace_bitmask bm = Ok (h, g) ∧
    graph_inv (ncols bm + 1) (nrows bm + 1) h g
      (edges_before bm (4 * (Z.of_nat (nrows bm) * Z.of_nat (ncols bm))))
      None None.
Proof.
  intros Hbm. unfold trace_bitmask.
  pose proof (fresh_graph_inv (ncols bm + 1) (nrows bm + 1)) as Hfresh.
  destruct (NodeGrid2D_init [] (ncols bm + 1) (nrows bm + 1)) as [h0 g0].
  simpl in Hfresh. unfold trace_rows, range.
  set (I := λ (t : Z) (s : heap * NodeGrid2D),
         graph_inv (ncols bm + 1) (nrows bm + 1) s.1 s.2
           (edges_before bm (4 * t)) None None).
  destruct (for_each_seqZ_total (λ y, I (y * Z.of_nat (ncols bm)))
              (λ s y, for_each (seqZ 0 (Z.of_nat (ncols bm)))
                        (trace_pixel grid_connect bm y) s)
              (nrows bm) 0 (h0, g0)) as ([h g] & Hrun & Hinv).
  - unfold I. simpl. eapply graph_inv_edges; [|exact Hfresh].
    intros P Q. split; [done|].
    intros (c1 & c2 & x & y & Hin & Ht & _).
    destruct (all_calls_inv _ _ _ _ _ Hin) as (_ & Hx & Hy & _).
    unfold call_time in Ht. destruct c1; nia.
  - intros y s Hy Hs.
    destruct (for_each_seqZ_total
                (λ x, I (y * Z.of_nat (ncols bm) + x))
                (trace_pixel grid_connect bm y) (ncols bm) 0 s)
      as (s' & Hrow & Hs').
    + by rewrite Z.add_0_r.
    + intros x [h1 g1] Hx H1.
      destruct (trace_pixel_inv bm h1 g1 x y Hbm ltac:(lia) ltac:(lia) H1)
        as (h2 & g2 & -> & H2).
      exists (h2, g2). split; [done|]. exact H2.
    + exists s'. split; [done|].
      replace ((y + 1) * Z.of_nat (ncols bm))
        with (y * Z.of_nat (ncols bm) + (0 + Z.of_nat (ncols bm))) by lia.
      done.
  - exists h, g. split; [done|]. by rewrite Z.add_0_l in Hinv.
Qed.

Lemma linked_edges W H h g es P Q :
  graph_inv W H h g es None None → linked h g P Q ↔ es P Q.
Proof.
  intros [Hok Hg Hholes Hirr Hcell Hnext Hprev Hedges]. rewrite Hedges. split.
  - intros (r & n & Hr & Hn & Hfn & Hfp). exists r, n.
    split_and!; [done..|]. by eapply slot_at_spec.
  - intros (r & n & Hr & _ & Hfn & <-).
    destruct (Hnext P r n Hr ltac:(done) Hfn) as (_ & Hfp & Hn).
    by exists r, n.
Qed.

Lemma edges_at_end bm c x y :
  edges_before bm (4 * (Z.of_nat (nrows bm) * Z.of_nat (ncols bm)))
    (corner_point c x y) (corner_point (side_end c) x y)
  ↔ (c, side_end c, x, y) ∈ all_calls bm.
Proof.
  split.
  - intros (a1 & a2 & x1 & y1 & Hin & _ & HP & HQ).
    pose proof (all_calls_side _ _ _ _ _ Hin) as ->.
    assert (a1 = c ∧ x1 = x ∧ y1 = y) as (-> & -> & ->); [|done].
    destruct a1, c; simpl in HP, HQ; injection HP as ? ?; injection HQ as ? ?;
      first [exfalso; lia|split_and!; first [done|lia]].
  - intros Hin. exists c, (side_end c), x, y. split_and!; [done| |done..].
    destruct (all_calls_inv _ _ _ _ _ Hin) as (_ & Hx & Hy & _).
    unfold call_time. destruct c; nia.
Qed.

Lemma all_calls_rule bm c x y :
  (c, side_end c, x, y) ∈ all_calls bm ↔
  pixel_at bm x y = Some 1 ∧
  match c with
  | TL => empty_at bm x (y - 1)
  | TR => empty_at bm (x + 1) y
  | BR => empty_at bm x (y + 1)
  | BL => empty_at bm (x - 1) y
  end.
Proof.
  split.
  - intros (Hv & _ & _ & Hc)%all_calls_inv. split; [done|].
    destruct c; destruct Hc as [_ Hc]; by apply in_0_None_empty_at.
  - intros [Hv Hc]. apply all_calls_intro; [done|].
    destruct c; (split; [done|]); by apply in_0_None_empty_at.
Qed.

(** C2: the edges of the graph that the builder returns.  For every
    bitmask the builder returns a graph, and for every pixel (x, y) that
    graph has the edge TL->TR iff the pixel has the value 1 and its top
    neighbour is 0 or out of bounds, the edge TR->BR iff the pixel has
    the value 1 and its right neighbour is 0 or out of bounds, the edge
    BR->BL iff the same holds of its bottom neighbour and the edge BL->TL
    iff the same holds of its left neighbour; so a pixel of another value
    contributes no edge.  An edge is a [next] link between two nodes of
    the grid with the [prev] link back, and every edge of the graph is a
    side of a pixel of value 1. *)
Theorem trace_bitmask_per_pixel_rule (bm : ndarray Z) :
  wf_ndarray bm →
  ∃ h g, trace_bitmask bm = Ok (h, g) ∧
    (∀ x y,
       (linked h g (corner_point TL x y) (corner_point TR x y)
        ↔ pixel_at bm x y = Some 1 ∧ empty_at bm x (y - 1)) ∧
       (linked h g (corner_point TR x y) (corner_point BR x y)
        ↔ pixel_at bm x y = Some 1 ∧ empty_at bm (x + 1) y) ∧
       (linked h g (corner_point BR x y) (corner_point BL x y)
        ↔ pixel_at bm x y = Some 1 ∧ empty_at bm x (y + 1)) ∧
       (linked h g (corner_point BL x y) (corner_point TL x y)
        ↔ pixel_at bm x y = Some 1 ∧ empty_at bm (x - 1) y)) ∧
    (∀ P Q, linked h g P Q →
       ∃ c x y, pixel_at bm x y = Some 1 ∧
                P = corner_point c x y ∧ Q = corner_point (side_end c) x y).
Proof.
  intros Hbm. destruct (trace_bitmask_inv bm Hbm) as (h & g & Hrun & Hinv).
  exists h, g. split; [done|]. split.
  - intros x y.
    assert (∀ c, linked h g (corner_point c x y) (corner_point (side_end c) x y)
                 ↔ (c, side_end c, x, y) ∈ all_calls bm) as Hside.
    { intros c. rewrite (linked_edges _ _ _ _ _ _ _ Hinv). apply edges_at_end. }
    split_and!.
    + rewrite (Hside TL). apply (all_calls_rule bm TL).
    + rewrite (Hside TR). apply (all_calls_rule bm TR).
    + rewrite (Hside BR). apply (all_calls_rule bm BR).
    + rewrite (Hside BL). apply (all_calls_rule bm BL).
  - intros P Q (c1 & c2 & x & y & Hin & _ & -> & ->)%(linked_edges _ _ _ _ _ _ _ Hinv).
    pose proof (all_calls_side _ _ _ _ _ Hin) as ->.
    destruct (all_calls_inv _ _ _ _ _ Hin) as (Hv & _).
    by exists c1, x, y.
Qed.

Lemma trace_bitmask_per_pixel_rule_witness :
  let bm := NdArray 2 2 [[1; 0]; [0; 1]] in
  ∃ h g, trace_bitmask bm = Ok (h, g) ∧
    (∀ x y,
       (linked h g (corner_point TL x y) (corner_point TR x y)
        ↔ pixel_at bm x y = Some 1 ∧ empty_at bm x (y - 1)) ∧
       (linked h g (corner_point TR x y) (corner_point BR x y)
        ↔ pixel_at bm x y = Some 1 ∧ empty_at bm (x + 1) y) ∧
       (linked h g (corner_point BR x y) (corner_point BL x y)
        ↔ pixel_at bm x y = Some 1 ∧ empty_at bm x (y + 1)) ∧
       (linked h g (corner_point BL x y) (corner_point TL x y)
        ↔ pixel_at bm x y = Some 1 ∧ empty_at bm (x - 1) y)) ∧
    (∀ P Q, linked h g P Q →
       ∃ c x y, pixel_at bm x y = Some 1 ∧
                P = corner_point c x y ∧ Q = corner_point (side_end c) x y).
Proof.
  intros bm. apply (trace_bitmask_per_pixel_rule bm).
  split; [reflexivity|repeat constructor].
Defined.
